(** * ANANSE influence scoring: a shallow embedding of [ananse/influence.py]

    The development models the algorithmic core of [ananse/influence.py]:
    the length-aware Dijkstra search [dijkstra_prob_length], the network
    difference [difference], the per-factor scores [target_score],
    [fold_change_scores] and [influence_scores], the driver
    [Influence.run_target_score], the redundancy filter [filter_tf], the
    ranking [Influence.run_influence_score] and the expression table of
    [Influence.read_expression].

    Modelling conventions.
    - Python floats are idealised as real numbers ([R]); [np.log10] is
      [log10] and [10 ** x] is [pow10].  The not-a-number sentinel [np.NAN]
      is an explicit constructor of [pyfloat].
    - A Python [dict] keeps insertion order and the code iterates over
      dictionaries, so a dictionary is an association list ([Dict.t]) whose
      update keeps the position of an existing key.
    - A [networkx.DiGraph] is its successor adjacency [_succ], a dictionary
      of dictionaries of edge-attribute dictionaries.
    - A Python [set] is a duplicate-free list ([PySet.t]); the order in which
      CPython iterates over a set is the parameter [set_iter] of the
      functions that iterate over one.
    - [scipy.stats.mannwhitneyu] is a parameter of the functions that call
      it; the worker pool of [multiprocessing] is a list of result slots
      that the workers fill in an arbitrary order.
    - [scipy.stats.rankdata] with [method="dense"] and
      [sklearn.preprocessing.minmax_scale] are given by what they compute
      on a column of numbers; a [pandas] table is the list of its rows.
      The file of differential expression is given by its column names and
      its lines, a cell being missing, a number or a text that is not a
      number; the other files are given by their parsed rows.
    - One addition is not idealised: the sum of the two scaled ranks that
      [Influence.run_influence_score] ranks again, where a difference in
      the last bit changes a rank.  It is the parameter [float_add] of
      [run_influence_score_with]; [run_influence_score] is the instance
      with exact sums.
    - [log10 x] is 0 for [x <= 0], where [np.log10] gives [nan] or [-inf]:
      the model is meant for networks with positive weights, and the
      properties of the search and of the signs of the scores assume
      weights in (0, 1].
    - Exceptions are values of [exn]; fallible code lives in the [result]
      monad.  The [while] loop of the search is iterated with fuel;
      [OutOfFuel] is not a Python exception: it stands for a computation
      that does not return, and the search is shown never to produce it. *)

From Stdlib Require Import Reals Lra Lia List String Bool Arith PeanoNat.
From Stdlib Require Import Permutation Sorted.
Import ListNotations.

Local Open Scope string_scope.
Local Open Scope list_scope.

(** ** Numbers *)

Definition log10 (x : R) : R := Rlog 10 x.

Definition pow10 (x : R) : R := Rpower 10 x.

Inductive pyfloat : Type :=
| Num (r : R)
| NaN.

(** ** Exceptions and the error monad *)

Inductive exn : Type :=
| KeyError (key : string)
| ValueError (msg : string)
| RecursionError
| ZeroDivisionError
| SystemExit (code : nat)
| OutOfFuel.

Inductive result (A : Type) : Type :=
| Ok (a : A)
| Raise (e : exn).

Arguments Ok {A} a.
Arguments Raise {A} e.

Definition bind {A B : Type} (m : result A) (k : A -> result B) : result B :=
  match m with
  | Ok a => k a
  | Raise e => Raise e
  end.

Notation "x <- m ;; k" := (bind m (fun x => k))
  (at level 61, m at next level, right associativity).

(** [for x in xs: s = body(s, x)], leaving the loop at the first exception. *)
Fixpoint for_each {A S : Type} (xs : list A) (body : S -> A -> result S) (s : S)
  : result S :=
  match xs with
  | [] => Ok s
  | x :: xs' => s' <- body s x ;; for_each xs' body s'
  end.

(** ** Insertion-ordered dictionaries with string keys *)

Module Dict.

Definition t (V : Type) : Type := list (string * V).

Section Ops.
Context {V : Type}.

Fixpoint get (d : t V) (k : string) : option V :=
  match d with
  | [] => None
  | (k', v) :: d' => if String.eqb k k' then Some v else get d' k
  end.

Definition mem (d : t V) (k : string) : bool :=
  match get d k with
  | Some _ => true
  | None => false
  end.

(** [d[k] = v]: an existing key keeps its position, a new one goes last. *)
Fixpoint set (d : t V) (k : string) (v : V) : t V :=
  match d with
  | [] => [(k, v)]
  | (k', v') :: d' =>
      if String.eqb k k' then (k', v) :: d' else (k', v') :: set d' k v
  end.

Definition keys (d : t V) : list string := map fst d.

Definition items (d : t V) : list (string * V) := d.

(** [dict.update]: the entries of [e] are written into [d] in order. *)
Definition update (d e : t V) : t V :=
  fold_left (fun acc kv => set acc (fst kv) (snd kv)) e d.

End Ops.

End Dict.

(** [d[k]], raising [KeyError] on a missing key. *)
Definition getitem {V : Type} (d : Dict.t V) (k : string) : result V :=
  match Dict.get d k with
  | Some v => Ok v
  | None => Raise (KeyError k)
  end.

(** ** Graphs *)

Definition node : Type := string.

Definition attrs : Type := Dict.t R.

Record DiGraph : Type := mkDiGraph { _succ : Dict.t (Dict.t attrs) }.

Definition empty_graph : DiGraph := mkDiGraph [].

Definition nodes (G : DiGraph) : list node := Dict.keys (_succ G).

Definition has_node (G : DiGraph) (n : node) : bool := Dict.mem (_succ G) n.

(** [G[n]]: the successors of [n] with their edge data. *)
Definition adj (G : DiGraph) (n : node) : result (Dict.t attrs) :=
  getitem (_succ G) n.

(** [G.edges[u, v]] *)
Definition edge_data (G : DiGraph) (u v : node) : result attrs :=
  nbrs <- getitem (_succ G) u ;; getitem nbrs v.

(** [G.edges(data=True)] *)
Definition edges (G : DiGraph) : list (node * node * attrs) :=
  flat_map (fun '(u, nbrs) => map (fun '(v, dd) => (u, v, dd)) nbrs) (_succ G).

Definition number_of_edges (G : DiGraph) : nat := List.length (edges G).

Definition out_degree (G : DiGraph) (n : node) : result nat :=
  nbrs <- adj G n ;; Ok (List.length nbrs).

Definition add_node (G : DiGraph) (n : node) : DiGraph :=
  if Dict.mem (_succ G) n then G else mkDiGraph (Dict.set (_succ G) n []).

(** [G.add_edge(u, v, **attr)]: both end points become nodes and the
    attributes update the edge's dictionary. *)
Definition add_edge (G : DiGraph) (u v : node) (attr : attrs) : DiGraph :=
  let G := add_node (add_node G u) v in
  let nbrs := match Dict.get (_succ G) u with Some d => d | None => [] end in
  let datadict := match Dict.get nbrs v with Some d => d | None => [] end in
  mkDiGraph (Dict.set (_succ G) u (Dict.set nbrs v (Dict.update datadict attr))).

(** ** The search [dijkstra_prob_length] *)

(** A fringe entry [(distance, c, node)]. *)
Definition entry : Type := (R * nat * node)%type.

(** Tuple comparison of fringe entries.  The counter is distinct in every
    entry, so the node component is never compared. *)
Definition entry_lt (a b : entry) : bool :=
  let '(d1, c1, _) := a in
  let '(d2, c2, _) := b in
  if Rlt_dec d1 d2 then true
  else if Rlt_dec d2 d1 then false
  else (c1 <? c2)%nat.

(** The heap is kept as the list of its entries in push order. *)
Definition heappush (h : list entry) (x : entry) : list entry := h ++ [x].

(** [heappop] removes and returns the least entry. *)
Fixpoint heappop (h : list entry) : option (entry * list entry) :=
  match h with
  | [] => None
  | x :: h' =>
      match heappop h' with
      | None => Some (x, [])
      | Some (m, r) => if entry_lt m x then Some (m, x :: r) else Some (x, h')
      end
  end.

Record state : Type := mkState {
  dist : Dict.t R;
  seen : Dict.t R;
  paths : Dict.t (list node);
  fringe : list entry;
  c : nat
}.

Inductive control (S : Type) : Type :=
| Continue (s : S)
| Break (s : S).

Arguments Continue {S} s.
Arguments Break {S} s.

Definition weight_function (weight : string) (data : attrs) : R :=
  (- log10 (match Dict.get data weight with Some w => w | None => 1 end))%R.

(** The candidate distance of [u] through [v]. *)
Definition candidate (dist_v cost : R) (length : nat) : R :=
  let vu_dist := (dist_v + cost - log10 (1 / INR length))%R in
  if (1 <? length)%nat then (vu_dist + log10 (1 / INR (length - 1)))%R
  else vu_dist.

Definition over_cutoff (cutoff : option R) (vu_dist : R) : bool :=
  match cutoff with
  | None => false
  | Some D => if Rgt_dec vu_dist D then true else false
  end.

Definition is_target (target : option node) (v : node) : bool :=
  match target with
  | Some t => String.eqb v t
  | None => false
  end.

(** [ValueError("Contradictory paths found:", "negative weights?")], its two
    arguments joined. *)
Definition contradictory : exn :=
  ValueError "Contradictory paths found: negative weights?".

Section Search.

Variable G : DiGraph.
Variable weight : string.
Variable cutoff : option R.
Variable target : option node.

(** The body of [for u, e in G_succ[v].items()]. *)
Definition relax (v : node) (st : state) (ue : node * attrs) : result state :=
  let '(u, e) := ue in
  let cost := weight_function weight e in
  path_v <- getitem (paths st) v ;;
  let length := List.length path_v in
  dist_v <- getitem (dist st) v ;;
  if (length =? 0)%nat then Raise ZeroDivisionError
  else
    let vu_dist := candidate dist_v cost length in
    if over_cutoff cutoff vu_dist then Ok st
    else
      match Dict.get (dist st) u with
      | Some u_dist =>
          if Rlt_dec vu_dist u_dist then Raise contradictory else Ok st
      | None =>
          let better :=
            match Dict.get (seen st) u with
            | None => true
            | Some seen_u => if Rlt_dec vu_dist seen_u then true else false
            end in
          if better then
            Ok (mkState (dist st)
                        (Dict.set (seen st) u vu_dist)
                        (Dict.set (paths st) u (path_v ++ [u]))
                        (heappush (fringe st) (vu_dist, c st, u))
                        (S (c st)))
          else Ok st
      end.

(** One turn of [while fringe:]. *)
Definition body (st : state) : result (control state) :=
  match heappop (fringe st) with
  | None => Ok (Break st)
  | Some ((d, _, v), fringe') =>
      if Dict.mem (dist st) v then
        Ok (Continue (mkState (dist st) (seen st) (paths st) fringe' (c st)))
      else
        let st' :=
          mkState (Dict.set (dist st) v d) (seen st) (paths st) fringe' (c st) in
        if is_target target v then Ok (Break st')
        else
          nbrs <- getitem (_succ G) v ;;
          st'' <- for_each (Dict.items nbrs) (relax v) st' ;;
          Ok (Continue st'')
  end.

Fixpoint while (fuel : nat) (st : state) : result state :=
  match fuel with
  | O => Raise OutOfFuel
  | S fuel' =>
      match body st with
      | Raise e => Raise e
      | Ok (Break st') => Ok st'
      | Ok (Continue st') => while fuel' st'
      end
  end.

End Search.

(** The state before the loop: [seen[source] = 0], [paths = {source: [source]}]
    and [(0, 0, source)] on the fringe. *)
Definition init_state (source : node) : state :=
  mkState [] [(source, 0%R)] [(source, [source])] [(0%R, 0%nat, source)] 1.

(** The conversion of the probability cutoff to a maximal distance. *)
Definition convert_cutoff (cutoff : R) : result (option R) :=
  if Rlt_dec cutoff 0 then
    Raise (ValueError "cutoff (combined, weighted probability) should be between 0 and 1")
  else if Rgt_dec cutoff 1 then
    Raise (ValueError "cutoff (combined, weighted probability) should be between 0 and 1")
  else if Req_dec_T cutoff 0 then Ok None
  else Ok (Some (- log10 cutoff)%R).

(** The two dictionary comprehensions that close the function. *)
Definition final_paths (st : state) : Dict.t (list node) :=
  filter (fun kv => (1 <? List.length (snd kv))%nat) (paths st).

Definition final_dist (st : state) : Dict.t R :=
  map (fun kv => (fst kv, pow10 (- snd kv)))
      (filter (fun kv => Dict.mem (final_paths st) (fst kv)) (dist st)).

(** Every turn of the loop pops one entry and at most one entry is pushed
    per edge, so this many turns suffice ([search_total] below). *)
Definition search_fuel (G : DiGraph) : nat := 2 + number_of_edges G.

Definition dijkstra_search (G : DiGraph) (source : node) (weight : string)
    (cutoff : R) (target : option node) : result state :=
  D <- convert_cutoff cutoff ;;
  while G weight D target (search_fuel G) (init_state source).

Definition dijkstra_prob_length (G : DiGraph) (source : node) (weight : string)
    (cutoff : R) (target : option node)
  : result (Dict.t (list node) * Dict.t R) :=
  st <- dijkstra_search G source weight cutoff target ;;
  Ok (final_paths st, final_dist st).


(** ** The network difference [difference] *)

(** [G.edges[u, v][key]] *)
Definition edge_attr (G : DiGraph) (u v : node) (key : string) : result R :=
  data <- edge_data G u v ;; getitem data key.

(** One turn of the loop of the branch [full_output = False]. *)
Definition diff_edge (grn_source grn_target : DiGraph) (grn_diff : DiGraph)
    (uvd : node * node * attrs) : result DiGraph :=
  let '(u, v, _) := uvd in
  weight_source <- edge_attr grn_source u v "weight" ;;
  weight_target <- edge_attr grn_target u v "weight" ;;
  let weight_diff := (weight_target - weight_source)%R in
  if Rgt_dec weight_diff 0 then
    Ok (add_edge grn_diff u v [("weight", weight_diff)])
  else Ok grn_diff.

(** One turn of the loop of the branch [full_output = True]. *)
Definition diff_edge_full (grn_source grn_target : DiGraph) (grn_diff : DiGraph)
    (uvd : node * node * attrs) : result DiGraph :=
  let '(u, v, ddict) := uvd in
  weight_source <- edge_attr grn_source u v "weight" ;;
  weight_target <- edge_attr grn_target u v "weight" ;;
  let weight_diff := (weight_target - weight_source)%R in
  if Rgt_dec weight_diff 0 then
    tf_t <- getitem ddict "tf_expression" ;;
    tf_s <- edge_attr grn_source u v "tf_expression" ;;
    tg_t <- getitem ddict "tg_expression" ;;
    tg_s <- edge_attr grn_source u v "tg_expression" ;;
    wb_t <- getitem ddict "weighted_binding" ;;
    wb_s <- edge_attr grn_source u v "weighted_binding" ;;
    act_t <- getitem ddict "tf_activity" ;;
    act_s <- edge_attr grn_source u v "tf_activity" ;;
    Ok (add_edge grn_diff u v
          [("weight", weight_diff);
           ("weight_source", weight_source);
           ("weight_target", weight_target);
           ("tf_expr_diff", (tf_t - tf_s)%R);
           ("tf_expr_source", tf_s);
           ("tf_expr_target", tf_t);
           ("tg_expr_diff", (tg_t - tg_s)%R);
           ("tg_expr_source", tg_s);
           ("tg_expr_target", tg_t);
           ("wb_diff", (wb_t - wb_s)%R);
           ("wb_source", wb_s);
           ("wb_target", wb_t);
           ("tf_act_diff", (act_t - act_s)%R);
           ("tf_act_source", act_s);
           ("tf_act_target", act_t)])
  else Ok grn_diff.

Definition difference (grn_source grn_target : DiGraph) (full_output : bool)
  : result DiGraph :=
  if full_output then
    for_each (edges grn_target) (diff_edge_full grn_source grn_target) empty_graph
  else
    for_each (edges grn_target) (diff_edge grn_source grn_target) empty_graph.

(** ** Expression records and Python sets *)

Record Expression : Type := mkExpression {
  score : R;
  absfc : R;
  realfc : R
}.

(** A Python [set] of gene names: a duplicate-free list.  The order in which
    a set is iterated is fixed by the hashes of its elements; it enters the
    model as the parameter [set_iter] where the code iterates over a set. *)
Module PySet.

Definition t : Type := list string.

Definition of_list (l : list string) : t := nodup string_dec l.

Definition mem (s : t) (x : string) : bool :=
  if in_dec string_dec x s then true else false.

Definition inter (a b : t) : t := filter (mem b) a.

Definition diff (a b : t) : t := filter (fun x => negb (mem b x)) a.

Definition len (s : t) : nat := List.length s.

End PySet.

(** ** Scores of one transcription factor *)

Definition target_score (expression_change : Dict.t Expression)
    (targets : Dict.t R) : result R :=
  for_each (Dict.items targets)
    (fun ts tw =>
       let '(target, weight) := tw in
       e <- getitem expression_change target ;;
       let g := score e in
       let score := (g * weight)%R in
       Ok (ts + score)%R)
    0%R.

(** [np.mean] of a list of numbers; the code takes it of non-empty lists. *)
Definition mean (l : list R) : R :=
  (fold_right Rplus 0 l / INR (List.length l))%R.

(** [[f(x) for x in xs]] for a fallible [f]. *)
Fixpoint map_result {A B : Type} (f : A -> result B) (xs : list A)
  : result (list B) :=
  match xs with
  | [] => Ok []
  | x :: xs' => y <- f x ;; ys <- map_result f xs' ;; Ok (y :: ys)
  end.

(** [except (RecursionError, ValueError)] *)
Definition caught_by_fold_change (e : exn) : bool :=
  match e with
  | ValueError _ | RecursionError => true
  | _ => false
  end.

Record ScoreRecord : Type := mkScoreRecord {
  factor : node;
  directTargets : nat;
  totalTargets : nat;
  targetscore : R;
  Gscore : R;
  factor_fc : R;
  pval : pyfloat;
  target_fc : pyfloat
}.

Definition out_degree_pos (grn : DiGraph) (n : node) : bool :=
  match out_degree grn n with
  | Ok d => (0 <? d)%nat
  | Raise _ => false
  end.

(** The transcription factors to score: the nodes with successors that have
    an expression record with a positive fold change.  The run exits when
    there is none. *)
Definition select_de_tfs (grn : DiGraph) (expression_change : Dict.t Expression)
  : result PySet.t :=
  let tfs := filter (out_degree_pos grn) (nodes grn) in
  let de_tfs := filter (Dict.mem expression_change) tfs in
  if (List.length de_tfs =? 0)%nat then Raise (SystemExit 1)
  else
    let de_tfs :=
      PySet.of_list
        (filter (fun tf =>
                   match Dict.get expression_change tf with
                   | Some e => if Rgt_dec (realfc e) 0 then true else false
                   | None => false
                   end) de_tfs) in
    if (PySet.len de_tfs =? 0)%nat then Raise (SystemExit 1)
    else Ok de_tfs.

(** The differentially expressed genes of the network. *)
Definition select_de_genes (grn : DiGraph) (expression_change : Dict.t Expression)
  : PySet.t :=
  let genes := nodes grn in
  PySet.of_list
    (map fst
       (filter (fun ge =>
                  PySet.mem genes (fst ge)
                  && (if Rgt_dec (score (snd ge)) 0 then true else false))
               (Dict.items expression_change))).

Section Scoring.

(** The order in which CPython iterates over a set. *)
Variable set_iter : PySet.t -> list string.

(** [mannwhitneyu(x, y, method="asymptotic")[1]]: the p-value of the
    two-sided rank test of SciPy under the normal approximation, or the
    exception it raises. *)
Variable mannwhitneyu_asymptotic : list R -> list R -> result pyfloat.

(** The parameter [node] of the two functions below is [node_] here, [node]
    being the type of the nodes. *)
Definition fold_change_scores (node_ : node) (grn : DiGraph)
    (expression_change : Dict.t Expression) : result (pyfloat * pyfloat) :=
  nbrs <- adj grn node_ ;;
  let direct_targets :=
    PySet.inter (PySet.of_list (Dict.keys nbrs))
                (PySet.of_list (Dict.keys expression_change)) in
  if (PySet.len direct_targets =? 0)%nat then Ok (NaN, NaN)
  else
    let non_direct_targets :=
      PySet.diff (PySet.inter (PySet.of_list (nodes grn))
                              (PySet.of_list (Dict.keys expression_change)))
                 direct_targets in
    if (PySet.len non_direct_targets =? 0)%nat then Ok (NaN, NaN)
    else
      target_fc <- map_result
                     (fun t => e <- getitem expression_change t ;; Ok (absfc e))
                     (set_iter direct_targets) ;;
      non_target_fc <- map_result
                     (fun t => e <- getitem expression_change t ;; Ok (absfc e))
                     (set_iter non_direct_targets) ;;
      pval <- match mannwhitneyu_asymptotic target_fc non_target_fc with
              | Ok p => Ok p
              | Raise e => if caught_by_fold_change e then Ok NaN else Raise e
              end ;;
      let target_fc_diff := (mean target_fc - mean non_target_fc)%R in
      Ok (pval, Num target_fc_diff).

Definition influence_scores (node_ : node) (grn : DiGraph)
    (expression_change : Dict.t Expression) (de_genes : PySet.t)
  : result ScoreRecord :=
  pw <- dijkstra_prob_length grn node_ "weight" 0.6%R None ;;
  let '(paths, weights) := pw in
  let de_targets := filter (fun kv => PySet.mem de_genes (fst kv)) weights in
  targetscore <- target_score expression_change de_targets ;;
  pf <- fold_change_scores node_ grn expression_change ;;
  let '(pval, target_fc_diff) := pf in
  let factor_fc :=
    match Dict.get expression_change node_ with
    | Some e => absfc e
    | None => 0%R
    end in
  out_deg <- out_degree grn node_ ;;
  e <- getitem expression_change node_ ;;
  Ok (mkScoreRecord node_ out_deg (List.length paths) targetscore (score e)
        factor_fc pval target_fc_diff).

(** ** The driver [Influence.run_target_score] *)

(** The results of the jobs handed to the pool: a slot per job, filled when
    a worker completes the job. *)
Definition slots : Type := list (option (result ScoreRecord)).

Fixpoint fill_slot (i : nat) (r : result ScoreRecord) (s : slots) {struct s}
  : slots :=
  match s, i with
  | [], _ => []
  | None :: s', O => Some r :: s'
  | x :: s', O => x :: s'
  | x :: s', S i' => x :: fill_slot i' r s'
  end.

(** The workers complete the jobs in the order [schedule]; every job
    computes [influence_scores] on its own arguments. *)
Definition run_pool (jobs : list node) (work : node -> result ScoreRecord)
    (schedule : list nat) : slots :=
  fold_left
    (fun s i =>
       match nth_error jobs i with
       | Some tf => fill_slot i (work tf) s
       | None => s
       end)
    schedule (map (fun _ => None) jobs).

(** [j.get()] returns the result of a completed job or raises the exception
    the job raised; on a job that never completes it does not return. *)
Definition get_job (slot : option (result ScoreRecord)) : result ScoreRecord :=
  match slot with
  | Some r => r
  | None => Raise OutOfFuel
  end.

Fixpoint contains (sub s : string) : bool :=
  if String.prefix sub s then true
  else match s with
       | EmptyString => false
       | String _ s' => contains sub s'
       end.

(** What [e.__repr__()] shows of an exception: its class and arguments. *)
Definition repr (e : exn) : string :=
  match e with
  | KeyError k => "KeyError('" ++ k ++ "')"
  | ValueError m => "ValueError('" ++ m ++ "')"
  | RecursionError => "RecursionError('maximum recursion depth exceeded')"
  | ZeroDivisionError => "ZeroDivisionError('division by zero')"
  | SystemExit _ => "SystemExit(1)"
  | OutOfFuel => ""
  end.

(** The [except Exception as e] clause. *)
Definition on_exception {A : Type} (e : exn) : result A :=
  match e with
  | SystemExit _ | OutOfFuel => Raise e
  | _ => if contains "multiprocessing" (repr e) then Raise (SystemExit 1)
         else Raise e
  end.

(** The rows written to the output file, in order; an exception leaves no
    output file. *)
Definition run_target_score (grn : DiGraph)
    (expression_change : Dict.t Expression) (ncore : nat)
    (schedule : list nat) : result (list ScoreRecord) :=
  de_tfs <- select_de_tfs grn expression_change ;;
  let de_genes := select_de_genes grn expression_change in
  let work := fun tf => influence_scores tf grn expression_change de_genes in
  let written :=
    if (1 <? ncore)%nat then
      let jobs := set_iter de_tfs in
      let results := run_pool jobs work schedule in
      for_each results
        (fun file j => line <- get_job j ;; Ok (file ++ [line])) []
    else
      for_each (set_iter de_tfs)
        (fun file tf => line <- work tf ;; Ok (file ++ [line])) [] in
  match written with
  | Ok file => Ok file
  | Raise e => on_exception e
  end.

End Scoring.

(** ** The filter [filter_tf] *)

Record RankedRow : Type := mkRankedRow {
  row_factor : node;
  row_targetscore : R;
  row_targetScaled : R;
  row_Gscore : R;
  row_GscoreScaled : R;
  row_sum : R;
  sumScaled : R;
  row_directTargets : nat;
  row_factor_fc : R
}.

(** [scores_df.index] *)
Definition index (scores_df : list RankedRow) : list node :=
  map row_factor scores_df.

(** [scores_df.loc[labels]] *)
Definition loc (scores_df : list RankedRow) (labels : list node) : list RankedRow :=
  flat_map (fun k => filter (fun r => String.eqb (row_factor r) k) scores_df) labels.

(** [scores_df.sort_values("sumScaled", ascending=False)], as an insertion
    sort.  Rows of equal [sumScaled] stay in the order of the table: a row
    is inserted among the rows that follow it in the table, and it passes
    only those with a greater [sumScaled]. *)
Fixpoint insert_desc (r : RankedRow) (l : list RankedRow) : list RankedRow :=
  match l with
  | [] => [r]
  | x :: l' =>
      if Rlt_dec (sumScaled r) (sumScaled x) then x :: insert_desc r l'
      else r :: x :: l'
  end.

Definition sort_values_desc (l : list RankedRow) : list RankedRow :=
  fold_right insert_desc [] l.

(** [ltf[: ltf.index(i)]] *)
Fixpoint before (i : node) (ltf : list node) : list node :=
  match ltf with
  | [] => []
  | j :: ltf' => if String.eqb j i then [] else j :: before i ltf'
  end.

(** The inner loop: the TFs [j] passed before the first one whose targets
    cover more than [overlap] of the targets of [i]. *)
Fixpoint passed (tftarget : Dict.t PySet.t) (overlap : R) (ti : PySet.t)
    (js : list node) : list node :=
  match js with
  | [] => []
  | j :: js' =>
      let tj := match Dict.get tftarget j with Some s => s | None => [] end in
      if Rgt_dec (INR (PySet.len (PySet.inter ti tj)) / INR (PySet.len ti)) overlap
      then []
      else j :: passed tftarget overlap ti js'
  end.

Definition keep_tf (tftarget : Dict.t PySet.t) (tpmscore : Dict.t R)
    (tpm overlap : R) (ltf : list node) (i : node) : bool :=
  let ti := match Dict.get tftarget i with Some s => s | None => [] end in
  if (0 <? PySet.len ti)%nat then
    let passtf := passed tftarget overlap ti (before i ltf) in
    if list_eq_dec string_dec passtf (before i ltf) then
      match Dict.get tpmscore i with
      | Some x => if Rlt_dec x tpm then true else false
      | None => false
      end
    else false
  else false.

Definition tf_targets (network : DiGraph) (tf : node) : PySet.t :=
  match Dict.get (_succ network) tf with
  | Some nbrs => PySet.of_list (Dict.keys nbrs)
  | None => []
  end.

(** [tpmfile] is given by the lines after its header, each split into the
    gene name and its level. *)
Definition filter_tf (scores_df : list RankedRow) (network : DiGraph)
    (tpmfile : list (string * R)) (tpm overlap : R) : list RankedRow :=
  let tpmscore :=
    fold_left (fun d line => Dict.set d (fst line) (snd line)) tpmfile [] in
  let tftarget :=
    fold_left (fun d tf => Dict.set d tf (tf_targets network tf))
              (index scores_df) [] in
  let ltf := index scores_df in
  let keeptf := filter (keep_tf tftarget tpmscore tpm overlap ltf) ltf in
  sort_values_desc (loc scores_df keeptf).


(** ** The ranking [Influence.run_influence_score] *)

(** [scipy.stats.rankdata(a, method="dense")]: the rank of a value is one
    more than the number of distinct values of [a] below it. *)
Definition dense_rank (a : list R) (x : R) : R :=
  INR (S (List.length
            (nodup Req_dec_T (filter (fun y => if Rlt_dec y x then true else false) a)))).

Definition rankdata (a : list R) : list R := map (dense_rank a) a.

(** [_handle_zeros_in_scale]: a range of 0 counts as 1. *)
Definition handle_zeros_in_scale (scale : R) : R :=
  if Req_dec_T scale 0 then 1%R else scale.

(** [sklearn.preprocessing.minmax_scale] of one column, with the range
    (0, 1): [MinMaxScaler] takes [scale_] and [min_] from the least and the
    greatest value of the column and maps [x] to [x * scale_ + min_].  An
    empty column is refused with a [ValueError]; the text of its message is
    the library's. *)
Definition minmax_scale (X : list R) : result (list R) :=
  match X with
  | [] =>
      Raise (ValueError
               "Found array with 0 sample(s) (shape=(0,)) while a minimum of 1 is required.")
  | x :: X' =>
      let data_min := fold_right Rmin x X' in
      let data_max := fold_right Rmax x X' in
      let data_range := (data_max - data_min)%R in
      let scale_ := ((1 - 0) / handle_zeros_in_scale data_range)%R in
      let min_ := (0 - data_min * scale_)%R in
      Ok (map (fun v => (v * scale_ + min_)%R) X)
  end.

(** The sum of two columns, row by row, with the addition [add]. *)
Definition add_columns (add : R -> R -> R) (a b : list R) : list R :=
  map (fun xy => add (fst xy) (snd xy)) (combine a b).

(** [influence_file] is given by the rows that [run_target_score] wrote,
    [fin_expression] by the lines of the TPM file as in [filter_tf].  The
    first component of the result is the table written to the output file,
    the second the table written to the filtered file when [filter_tfs] is
    set.

    [float_add] is the addition of [targetScaled] and [GscoreScaled] in
    binary64: [float_add x y] is the sum the program computes for the
    scaled ranks [x] and [y].  [sumScaled] is a dense rank of these sums,
    and a dense rank tells a sum from one that differs from it in the last
    bit only: two pairs of scaled ranks with the same exact sum, such as
    1/3 + 1/3 and 2/3 + 0, need not have the same sum in binary64.  So
    this one addition is not idealised; it is a parameter. *)
Definition run_influence_score_with (float_add : R -> R -> R)
    (influence_file : list ScoreRecord)
    (filter_tfs : bool) (grn : DiGraph) (fin_expression : list (string * R))
  : result (list RankedRow * option (list RankedRow)) :=
  let scores_df := influence_file in
  targetScaled <- minmax_scale (rankdata (map targetscore scores_df)) ;;
  GscoreScaled <- minmax_scale (rankdata (map Gscore scores_df)) ;;
  let sum := map (fun r => (targetscore r + Gscore r)%R) scores_df in
  sumScaled <- minmax_scale
                 (rankdata (add_columns float_add targetScaled GscoreScaled)) ;;
  let scores_df :=
    sort_values_desc
      (map (fun x =>
              let '(r, (ts, (gs, (s, ss)))) := x in
              mkRankedRow (factor r) (targetscore r) ts (Gscore r) gs s ss
                          (directTargets r) (factor_fc r))
           (combine scores_df
              (combine targetScaled (combine GscoreScaled (combine sum sumScaled))))) in
  Ok (scores_df,
      if filter_tfs
      then Some (filter_tf scores_df grn fin_expression 20 0.98)
      else None).

(** The ranking when the sums of the scaled ranks are exact. *)
Definition run_influence_score (influence_file : list ScoreRecord)
    (filter_tfs : bool) (grn : DiGraph) (fin_expression : list (string * R))
  : result (list RankedRow * option (list RankedRow)) :=
  run_influence_score_with Rplus influence_file filter_tfs grn fin_expression.

(** ** The expression table [Influence.read_expression] *)

(** A row of the table of differential expression once its two columns are
    selected and converted to numbers: the label of the row, which names the
    gene, [log2FoldChange] and [padj]. *)
Record DERow : Type := mkDERow {
  de_index : string;
  log2FoldChange : R;
  padj : R
}.

(** [set(df.index)] *)
Definition index_set (df : list DERow) : PySet.t :=
  PySet.of_list (map de_index df).

(** [df.index.duplicated()]: a label is marked when it occurred before. *)
Fixpoint duplicated (seen labels : list string) : list bool :=
  match labels with
  | [] => []
  | x :: labels' =>
      if in_dec string_dec x seen then true :: duplicated seen labels'
      else false :: duplicated (x :: seen) labels'
  end.

(** [groupby] lists the groups in the order of their keys. *)
Fixpoint insert_label (k : string) (l : list string) : list string :=
  match l with
  | [] => [k]
  | x :: l' => if String.leb k x then k :: x :: l' else x :: insert_label k l'
  end.

Definition sort_labels (l : list string) : list string :=
  fold_right insert_label [] l.

(** [df.groupby(by=df.index).mean()]: one row per label, with the means of
    the two columns over the rows of the label. *)
Definition groupby_mean (df : list DERow) : list DERow :=
  map (fun k =>
         let group := filter (fun row => String.eqb (de_index row) k) df in
         mkDERow k (mean (map log2FoldChange group)) (mean (map padj group)))
      (sort_labels (nodup string_dec (map de_index df))).

(** The function from its line 494 on: [df] is the table once its two
    columns are selected and converted to numbers ([read_expression_file]
    below is the function from its first line).  [gene_gtf] is [None], or
    it stands for the annotation by the conversion of the table to gene
    names that is made from it. *)
Definition read_expression (grn : DiGraph)
    (gene_gtf : option (list DERow -> list DERow))
    (df : list DERow) (padj_cutoff : R) : result (Dict.t Expression) :=
  let cutoff := 0.6%R in
  let network_genes := PySet.of_list (nodes grn) in
  if (PySet.len network_genes =? 0)%nat then Raise ZeroDivisionError
  else
    let pct_overlap :=
      (INR (PySet.len (PySet.inter network_genes (index_set df)))
       / INR (PySet.len network_genes))%R in
    let df :=
      match gene_gtf with
      | Some convert =>
          if Rlt_dec pct_overlap cutoff then
            let backup_pct_overlap := pct_overlap in
            let backup_df := df in
            let df := convert df in
            let pct_overlap :=
              (INR (PySet.len (PySet.inter network_genes (index_set df)))
               / INR (PySet.len network_genes))%R in
            if Rle_dec pct_overlap backup_pct_overlap then backup_df else df
          else df
      | None => df
      end in
    let overlap := PySet.len (PySet.inter network_genes (index_set df)) in
    if (overlap =? 0)%nat then Raise (SystemExit 1)
    else
      let dup_df := filter snd (combine df (duplicated [] (map de_index df))) in
      let df := if (0 <? List.length dup_df)%nat then groupby_mean df else df in
      Ok (fold_left
            (fun expression_change row =>
               let fc := Rabs (log2FoldChange row) in
               let score :=
                 (fc * (if Rlt_dec (padj row) padj_cutoff then 1 else 0))%R in
               Dict.set expression_change (de_index row)
                 (mkExpression score fc (log2FoldChange row)))
            df []).

(** A cell of the file as [pd.read_table(..., dtype=str)] gives it: no
    value ([None], the [NaN] of pandas), or a text.  A text is given by
    what [float] makes of it: the number it reads, or the text itself when
    [float] refuses it.  Numbers are real numbers: a text that [float]
    reads as an infinity has no counterpart here. *)
Inductive text : Type :=
| Numeral (x : R)
| Word (s : string).

Definition cell : Type := option text.

(** A line of the file: its label and its cells in the two columns that
    are read. *)
Record FileRow : Type := mkFileRow {
  file_index : string;
  file_log2FoldChange : cell;
  file_padj : cell
}.

(** The file: the names of its columns after the first one, and its lines.
    The cells of a column that the file does not have are never read. *)
Record DEFile : Type := mkDEFile {
  columns : list string;
  file_rows : list FileRow
}.

(** The check of the two columns. *)
Definition check_columns (columns : list string) : result unit :=
  for_each ["log2FoldChange"; "padj"]
    (fun _ col =>
       if in_dec string_dec col columns then Ok tt
       else Raise (ValueError
                     ("Column '" ++ col
                      ++ "' not in differential gene expression file!")%string))
    tt.

(** [df[["log2FoldChange", "padj"]].dropna()]: the lines with a value in
    both columns. *)
Definition dropna (rows : list FileRow) : list (string * text * text) :=
  flat_map (fun r =>
              match file_log2FoldChange r, file_padj r with
              | Some x, Some y => [(file_index r, x, y)]
              | _, _ => []
              end) rows.

(** [float(t)]; the message is that of Python. *)
Definition float_of (t : text) : result R :=
  match t with
  | Numeral x => Ok x
  | Word s =>
      Raise (ValueError ("could not convert string to float: '" ++ s ++ "'")%string)
  end.

(** [df.astype(float)], one column after the other. *)
Definition astype_float (rows : list (string * text * text)) : result (list DERow) :=
  lfc <- map_result (fun r => float_of (snd (fst r))) rows ;;
  p <- map_result (fun r => float_of (snd r)) rows ;;
  Ok (map (fun x => mkDERow (fst (fst (fst x))) (fst (snd x)) (snd (snd x)))
          (combine rows (combine lfc p))).

(** [Influence.read_expression] from its first line: the two columns are
    checked and selected, the lines with a missing value are dropped and
    the texts are converted to numbers (lines 480 to 492); the rest is
    [read_expression] above. *)
Definition read_expression_file (grn : DiGraph)
    (gene_gtf : option (list DERow -> list DERow))
    (file : DEFile) (padj_cutoff : R) : result (Dict.t Expression) :=
  _ <- check_columns (columns file) ;;
  df <- astype_float (dropna (file_rows file)) ;;
  read_expression grn gene_gtf df padj_cutoff.

(** * Specification vocabulary

    The predicates the properties below are stated with. *)

Definition ent_d (x : entry) : R := fst (fst x).

Definition ent_c (x : entry) : nat := snd (fst x).

Definition ent_node (x : entry) : node := snd x.

(** The order of the counters of two fringe entries. *)
Definition counter_lt (a b : entry) : Prop := (ent_c a < ent_c b)%nat.

(** [e] is the data of an edge from [v] to [u]. *)
Definition has_edge_data (G : DiGraph) (v u : node) (e : attrs) : Prop :=
  exists nbrs, Dict.get (_succ G) v = Some nbrs /\ In (u, e) nbrs.

(** Every successor is a node of the graph, as [add_edge] ensures. *)
Definition closed_graph (G : DiGraph) : Prop :=
  forall v u e, has_edge_data G v u e -> Dict.mem (_succ G) u = true.

(** Every edge weight is a probability in (0, 1]. *)
Definition unit_weights (G : DiGraph) (weight : string) : Prop :=
  forall v u e w,
    has_edge_data G v u e -> Dict.get e weight = Some w -> (0 < w <= 1)%R.

(** [d] and [p] are the distance and path obtained for [u] by the
    relaxation rule from a finalized node [v]. *)
Definition relaxed_from (G : DiGraph) (weight : string) (st : state)
    (d : R) (u : node) (p : list node) : Prop :=
  exists v dist_v path_v e,
    Dict.get (dist st) v = Some dist_v /\
    Dict.get (paths st) v = Some path_v /\
    (1 <= List.length path_v)%nat /\
    has_edge_data G v u e /\
    d = candidate dist_v (weight_function weight e) (List.length path_v) /\
    p = path_v ++ [u].

(** The edges that leave nodes not yet finalized. *)
Definition pending_edges (G : DiGraph) (dist : Dict.t R) : nat :=
  list_sum
    (map (fun kn => if Dict.mem dist (fst kn) then O else List.length (snd kn))
         (_succ G)).

(** The number of turns of the loop still possible. *)
Definition measure (G : DiGraph) (st : state) : nat :=
  (List.length (fringe st) + pending_edges G (dist st))%nat.

(** The invariant of the search at the head of the [while] loop and between
    two relaxations; [m] is the distance of the node finalized last. *)
Record search_inv (G : DiGraph) (weight : string) (cutoff : option R)
    (source : node) (m : R) (st : state) : Prop := mkSearchInv {
  inv_start :
    Dict.get (dist st) source = Some 0%R \/ st = init_state source;
  inv_fringe_node :
    forall x, In x (fringe st) -> Dict.mem (_succ G) (ent_node x) = true;
  inv_fringe_seen :
    forall x, In x (fringe st) ->
      exists s, Dict.get (seen st) (ent_node x) = Some s /\ (s <= ent_d x)%R;
  inv_seen_fringe :
    forall u s, Dict.get (seen st) u = Some s -> Dict.get (dist st) u = None ->
      exists k, In (s, k, u) (fringe st);
  inv_dist_seen :
    forall u d, Dict.get (dist st) u = Some d -> Dict.get (seen st) u = Some d;
  inv_seen_paths :
    forall u s, Dict.get (seen st) u = Some s ->
      (u = source /\ s = 0%R /\ Dict.get (paths st) u = Some [source]) \/
      (u <> source /\
       exists p, Dict.get (paths st) u = Some p /\ relaxed_from G weight st s u p);
  inv_paths_seen :
    forall u p, Dict.get (paths st) u = Some p ->
      exists s, Dict.get (seen st) u = Some s;
  inv_dist_le :
    forall u d, Dict.get (dist st) u = Some d -> (d <= m)%R;
  inv_fringe_ge :
    forall x, In x (fringe st) -> (m <= ent_d x)%R;
  inv_cutoff :
    forall D, cutoff = Some D ->
      (0 <= D)%R /\
      (forall x, In x (fringe st) -> (ent_d x <= D)%R) /\
      (forall u s, Dict.get (seen st) u = Some s -> (s <= D)%R);
  inv_counter :
    forall x, In x (fringe st) -> (ent_c x < c st)%nat;
  inv_sorted :
    StronglySorted counter_lt (fringe st);
  inv_nodup_dist : NoDup (Dict.keys (dist st));
  inv_nodup_paths : NoDup (Dict.keys (paths st))
}.

(** The nodes reached: the keys of the distance dictionary returned. *)
Definition reached (out : Dict.t (list node) * Dict.t R) : list node :=
  Dict.keys (snd out).

(** The relaxation rule in the words of the specification:
    [newDist(u) = dist(v) + cost(v,u) - log10(1/L) + [L>1] * log10(1/(L-1))]. *)
Definition new_dist_spec (dist_v cost : R) (L : nat) : R :=
  (dist_v + cost - log10 (1 / INR L)
   + (if (1 <? L)%nat then 1 else 0) * log10 (1 / INR (L - 1)))%R.

(** ** Two searches with different cutoffs *)

(** The entries of the fringe within the distance [D]. *)
Definition within (D : R) (x : entry) : bool :=
  if Rle_dec (ent_d x) D then true else false.

(** An entry without its counter. *)
Definition erase (x : entry) : R * node := (ent_d x, ent_node x).

(** The entries of [f1] within [D] are those of [f2], in the same order. *)
Definition fringe_sim (D : R) (f1 f2 : list entry) : Prop :=
  map erase (filter (within D) f1) = map erase f2.

(** The state [s1] of a search with a larger budget agrees with the state
    [s2] of the search with the maximal distance [D] on everything within
    [D]. *)
Record sim (D : R) (s1 s2 : state) : Prop := mkSim {
  sim_dist : dist s1 = dist s2;
  sim_fringe : fringe_sim D (fringe s1) (fringe s2);
  sim_seen :
    forall u x, Dict.get (seen s2) u = Some x ->
      Dict.get (seen s1) u = Some x /\
      Dict.get (paths s1) u = Dict.get (paths s2) u;
  sim_unseen :
    forall u y, Dict.get (seen s2) u = None ->
      Dict.get (seen s1) u = Some y -> (D < y)%R
}.

(** ** Vocabulary for the network difference *)

(** The data of the edge from [u] to [v], if there is one. *)
Definition edge_lookup (G : DiGraph) (u v : node) : option attrs :=
  match Dict.get (_succ G) u with
  | Some nbrs => Dict.get nbrs v
  | None => None
  end.

Definition has_edge (G : DiGraph) (u v : node) : Prop :=
  exists a, edge_lookup G u v = Some a.

Definition edge_weight (G : DiGraph) (u v : node) : option R :=
  match edge_lookup G u v with
  | Some a => Dict.get a "weight"
  | None => None
  end.

(** The keys [difference] reads besides the weight when [full_output] is set. *)
Definition extended_keys : list string :=
  ["tf_expression"; "tg_expression"; "weighted_binding"; "tf_activity"].

(** The two networks were loaded over the same interactions: every edge of
    the target network is an edge of the source network, with a weight in
    both and, in extended mode, with the extended attributes in both. *)
Definition diff_covered (grn_source grn_target : DiGraph) (full_output : bool)
  : Prop :=
  forall u v ddict, In (u, v, ddict) (edges grn_target) ->
    (exists ws, edge_weight grn_source u v = Some ws) /\
    (exists wt, edge_weight grn_target u v = Some wt) /\
    (full_output = true ->
     forall key, In key extended_keys ->
       (exists x, Dict.get ddict key = Some x) /\
       (exists a y, edge_lookup grn_source u v = Some a /\ Dict.get a key = Some y)).

(** What one turn of either loop of [difference] does when it does not
    raise. *)
Definition diff_step_spec
    (step : DiGraph -> node * node * attrs -> result DiGraph)
    (grn_source grn_target : DiGraph) : Prop :=
  forall grn_diff u v ddict grn_diff',
    step grn_diff (u, v, ddict) = Ok grn_diff' ->
    exists ws wt,
      edge_weight grn_source u v = Some ws /\
      edge_weight grn_target u v = Some wt /\
      (((wt - ws > 0)%R /\
        exists attr, grn_diff' = add_edge grn_diff u v attr /\
                     forall d, Dict.get (Dict.update d attr) "weight"
                               = Some (wt - ws)%R) \/
       (~ (wt - ws > 0)%R /\ grn_diff' = grn_diff)).

(** The invariant of the loops of [difference]: the edges of the difference
    built so far are the edges processed whose weight rises, with the rise as
    their weight. *)
Definition diff_inv (grn_source grn_target grn_diff : DiGraph)
    (processed : list (node * node * attrs)) : Prop :=
  forall u v,
    (forall a, edge_lookup grn_diff u v = Some a ->
       (exists dd, In (u, v, dd) processed) /\
       exists ws wt,
         edge_weight grn_source u v = Some ws /\
         edge_weight grn_target u v = Some wt /\
         (wt - ws > 0)%R /\ Dict.get a "weight" = Some (wt - ws)%R) /\
    ((exists dd, In (u, v, dd) processed) ->
     forall ws wt,
       edge_weight grn_source u v = Some ws ->
       edge_weight grn_target u v = Some wt ->
       (wt - ws > 0)%R -> exists a, edge_lookup grn_diff u v = Some a).

(** Every edge of the difference carries, as its weight, the positive rise
    of the weight from the source to the target network. *)
Definition diff_weights (grn_source grn_target grn_diff : DiGraph) : Prop :=
  forall u v e, has_edge_data grn_diff u v e ->
    exists ws wt,
      edge_weight grn_source u v = Some ws /\
      edge_weight grn_target u v = Some wt /\
      (wt - ws > 0)%R /\ Dict.get e "weight" = Some (wt - ws)%R.

(** Every weight of the network is a probability in (0, 1]. *)
Definition probability_weights (G : DiGraph) : Prop :=
  forall u v w, edge_weight G u v = Some w -> (0 < w <= 1)%R.

(** ** Vocabulary for the scores and the worker pool *)

(** The expression score of a gene, for the sum of the specification. *)
Definition score_of (expression_change : Dict.t Expression) (g : node) : R :=
  match Dict.get expression_change g with
  | Some e => score e
  | None => 0%R
  end.

(** The target score in the words of the specification: the sum, over the
    genes reached that are differentially expressed, of the expression score
    times the probability reached. *)
Definition target_score_spec (expression_change : Dict.t Expression)
    (de_genes : PySet.t) (reached_probability : Dict.t R) : R :=
  fold_right Rplus 0%R
    (map (fun gp => (score_of expression_change (fst gp) * snd gp)%R)
         (filter (fun gp => PySet.mem de_genes (fst gp)) reached_probability)).

(** The absolute fold changes of the genes of a set. *)
Definition absfc_of (expression_change : Dict.t Expression) (s : PySet.t)
  : list R :=
  map (fun g => match Dict.get expression_change g with
                | Some e => absfc e
                | None => 0%R
                end) s.

(** The direct targets of a factor and the other genes, as sets. *)
Definition direct_targets_of (grn : DiGraph)
    (expression_change : Dict.t Expression) (node_ : node) : PySet.t :=
  match Dict.get (_succ grn) node_ with
  | Some nbrs =>
      PySet.inter (PySet.of_list (Dict.keys nbrs))
                  (PySet.of_list (Dict.keys expression_change))
  | None => []
  end.

Definition non_direct_targets_of (grn : DiGraph)
    (expression_change : Dict.t Expression) (node_ : node) : PySet.t :=
  PySet.diff (PySet.inter (PySet.of_list (nodes grn))
                          (PySet.of_list (Dict.keys expression_change)))
             (direct_targets_of grn expression_change node_).

(** The slots filled so far hold the results of their jobs, and the jobs in
    [done] have been completed. *)
Definition pool_inv (jobs : list node) (work : node -> result ScoreRecord)
    (done : list nat) (s : slots) : Prop :=
  List.length s = List.length jobs /\
  (forall i x, nth_error s i = Some (Some x) ->
     exists tf, nth_error jobs i = Some tf /\ x = work tf) /\
  (forall i, In i done -> (i < List.length jobs)%nat ->
     exists x, nth_error s i = Some (Some x)).

(** ** Example inputs *)

(** One edge of probability 1/2 from [A] to [B]. *)
Definition graph_AB : DiGraph :=
  mkDiGraph [("A", [("B", [("weight", (1 / 2)%R)])]); ("B", [])].

(** A graph with a weight that is not a probability: the edge from [C] to
    [B] has the weight 10, hence a negative cost. *)
Definition graph_pathological : DiGraph :=
  mkDiGraph [("A", [("B", [("weight", (1 / 10)%R)]); ("C", [("weight", (1 / 10)%R)])]);
             ("B", []);
             ("C", [("B", [("weight", 10%R)])])].

(** The state of the search on [graph_pathological] from [A] when only [C]
    is left on the fringe: [A] and [B] are finalized. *)
Definition state_before_C : state :=
  mkState [("A", 0%R); ("B", 1%R)] [("A", 0%R); ("B", 1%R); ("C", 1%R)]
          [("A", ["A"]); ("B", ["A"; "B"]); ("C", ["A"; "C"])]
          [(1%R, 2%nat, "C")] 3.

(** The source network of the example: the edge of [graph_AB] with the
    probability 1/4, and an edge from [B] to [A]. *)
Definition graph_source : DiGraph :=
  mkDiGraph [("A", [("B", [("weight", (1 / 4)%R)])]);
             ("B", [("A", [("weight", (1 / 2)%R)])])].

(** The target network: the edge [A -> B] gains probability, the edge
    [B -> A] loses some. *)
Definition graph_target : DiGraph :=
  mkDiGraph [("A", [("B", [("weight", (1 / 2)%R)])]);
             ("B", [("A", [("weight", (1 / 4)%R)])])].

(** Expression records for both genes of [graph_AB]. *)
Definition expression_AB : Dict.t Expression :=
  [("A", mkExpression 1 1 1); ("B", mkExpression 2 2 (-2))].

(** An expression table without the factor [A]. *)
Definition expression_B : Dict.t Expression :=
  [("B", mkExpression 2 2 (-2))].

(** A ranked table with the single factor [A]. *)
Definition ranked_A : list RankedRow :=
  [mkRankedRow "A" 0 0 1 1 1 1 1 1].

(** A network of four genes: [A] has an edge of probability 1/2 to [C],
    added first, and one of probability 9/10 to [B]; [B] has an edge of
    probability 9/10 to [D].  From [A], the gene [B] is reached with the
    probability 9/10, [C] with 1/2 and [D], over two edges, with
    [9/10 * 9/10 / 2 = 81/200]. *)
Definition graph_fork : DiGraph :=
  mkDiGraph [("A", [("C", [("weight", (1 / 2)%R)]); ("B", [("weight", (9 / 10)%R)])]);
             ("C", []);
             ("B", [("D", [("weight", (9 / 10)%R)])]);
             ("D", [])].

(** Expression records for the four genes of [graph_fork]; the fold change
    of [C] is negative. *)
Definition expression_fork : Dict.t Expression :=
  [("A", mkExpression 1 1 1); ("B", mkExpression 2 2 2);
   ("C", mkExpression 3 3 (-3)); ("D", mkExpression 4 4 4)].

(** A stand-in for the test of SciPy: it depends on its two samples, through
    their means, and not on the order of their elements. *)
Definition test_of_means (x y : list R) : result pyfloat :=
  Ok (Num (mean x - mean y)%R).

(** ** Vocabulary for the paths returned by the search *)

(** [data.get(weight, 1)]: the probability an edge carries. *)
Definition edge_probability (weight : string) (data : attrs) : R :=
  match Dict.get data weight with
  | Some w => w
  | None => 1%R
  end.

(** [p] lists the nodes of a walk of the graph from [source] to [u], and
    [ws] the probabilities of its edges in order. *)
Inductive walk (G : DiGraph) (weight : string) (source : node)
  : node -> list node -> list R -> Prop :=
| walk_source : walk G weight source source [source] []
| walk_edge v u e p ws :
    walk G weight source v p ws ->
    has_edge_data G v u e ->
    walk G weight source u (p ++ [u]) (ws ++ [edge_probability weight e]).

Definition product (ws : list R) : R := fold_right Rmult 1%R ws.

(** The sum of the costs [-log10 w] of the edges of a walk. *)
Definition walk_cost (ws : list R) : R :=
  fold_right (fun w acc => (- log10 w + acc)%R) 0%R ws.

(** The distance of the end of a walk: the cost of its edges and the
    logarithm of their number. *)
Definition walk_dist (ws : list R) : R :=
  match ws with
  | [] => 0%R
  | _ => (walk_cost ws + log10 (INR (List.length ws)))%R
  end.

(** The finalized distances are listed in the order of their values. *)
Definition dist_sorted (st : state) : Prop :=
  StronglySorted Rle (map snd (dist st)).

(** The edge from [v] to [u] with the data [e] is settled: once [v] is
    finalized, [u] has been seen at a distance that is at most the candidate
    through [v], unless that candidate is beyond the cutoff. *)
Definition edge_settled (weight : string) (cutoff : option R) (st : state)
    (v u : node) (e : attrs) : Prop :=
  forall dv pv,
    Dict.get (dist st) v = Some dv -> Dict.get (paths st) v = Some pv ->
    over_cutoff cutoff (candidate dv (weight_function weight e) (List.length pv)) = false ->
    exists s, Dict.get (seen st) u = Some s /\
              (s <= candidate dv (weight_function weight e) (List.length pv))%R.

(** Every edge of the graph is settled. *)
Definition settled (G : DiGraph) (weight : string) (cutoff : option R)
    (st : state) : Prop :=
  forall v u e, has_edge_data G v u e -> edge_settled weight cutoff st v u e.

(** ** Vocabulary for the extended attributes of the difference *)

(** In the edge data [a] the attribute [d] is the attribute [t] minus the
    attribute [s]. *)
Definition is_difference (a : attrs) (d s t : string) : Prop :=
  exists x y, Dict.get a t = Some x /\ Dict.get a s = Some y /\
              Dict.get a d = Some (x - y)%R.

(** The attributes of an edge of the difference in extended mode. *)
Definition extended_attrs (a : attrs) : Prop :=
  is_difference a "weight" "weight_source" "weight_target" /\
  is_difference a "tf_expr_diff" "tf_expr_source" "tf_expr_target" /\
  is_difference a "tg_expr_diff" "tg_expr_source" "tg_expr_target" /\
  is_difference a "wb_diff" "wb_source" "wb_target" /\
  is_difference a "tf_act_diff" "tf_act_source" "tf_act_target".

(** Every node of the graph is an end of one of its edges. *)
Definition no_isolated_node (G : DiGraph) : Prop :=
  forall n, Dict.mem (_succ G) n = true ->
    exists m, has_edge G n m \/ has_edge G m n.

(** The edge [A -> B] of the example with the attributes of the extended
    output, in the source and in the target network. *)
Definition graph_source_full : DiGraph :=
  mkDiGraph [("A", [("B", [("weight", (1 / 4)%R); ("tf_expression", 1%R);
                           ("tg_expression", 1%R); ("weighted_binding", 1%R);
                           ("tf_activity", 1%R)])]);
             ("B", [])].

Definition graph_target_full : DiGraph :=
  mkDiGraph [("A", [("B", [("weight", (1 / 2)%R); ("tf_expression", 3%R);
                           ("tg_expression", 2%R); ("weighted_binding", 2%R);
                           ("tf_activity", 2%R)])]);
             ("B", [])].

(** ** Vocabulary for the driver *)

(** A transcription factor the driver scores: a node of the network with a
    successor, and with an expression record whose fold change is
    positive. *)
Definition upregulated_tf (grn : DiGraph) (expression_change : Dict.t Expression)
    (tf : node) : Prop :=
  (exists nbrs, Dict.get (_succ grn) tf = Some nbrs /\ nbrs <> []) /\
  exists e, Dict.get expression_change tf = Some e /\ (realfc e > 0)%R.

(** ** Vocabulary for the filter *)

(** The share of the targets of the factor [i] that are targets of the
    factor [j] too. *)
Definition target_overlap (network : DiGraph) (i j : node) : R :=
  (INR (PySet.len (PySet.inter (tf_targets network i) (tf_targets network j)))
   / INR (PySet.len (tf_targets network i)))%R.

(** The level of a gene in the TPM table: that of the last line that names
    the gene. *)
Definition tpm_level (tpmfile : list (string * R)) (g : string) : option R :=
  Dict.get (rev tpmfile) g.

(** The rows are in the order of their [sumScaled], greatest first. *)
Definition sorted_desc (l : list RankedRow) : Prop :=
  StronglySorted (fun a b => (sumScaled a >= sumScaled b)%R) l.

(** ** Vocabulary for the ranking *)

(** The number of distinct values of a column below [v]. *)
Definition distinct_below (col : list R) (v : R) : nat :=
  List.length (nodup Req_dec_T (filter (fun y => if Rlt_dec y v then true else false) col)).

(** The number of distinct values of a column. *)
Definition distinct (col : list R) : nat := List.length (nodup Req_dec_T col).

(** The scaled dense rank of the value [v] of a column: the number of
    distinct values below [v] over the number of distinct values less one,
    and 0 when the column holds a single value. *)
Definition scaled_rank (col : list R) (v : R) : R :=
  if (distinct col =? 1)%nat then 0%R
  else (INR (distinct_below col v) / INR (distinct col - 1))%R.

(** The sum of the two scaled ranks of a row, which [sumScaled] ranks, as
    the addition [add] gives it. *)
Definition rank_sum (add : R -> R -> R) (scores_df : list ScoreRecord)
    (r : ScoreRecord) : R :=
  add (scaled_rank (map targetscore scores_df) (targetscore r))
      (scaled_rank (map Gscore scores_df) (Gscore r)).

(** The row of the output table for a row of the input table. *)
Definition ranked_row (add : R -> R -> R) (scores_df : list ScoreRecord)
    (r : ScoreRecord) : RankedRow :=
  mkRankedRow (factor r) (targetscore r)
    (scaled_rank (map targetscore scores_df) (targetscore r))
    (Gscore r)
    (scaled_rank (map Gscore scores_df) (Gscore r))
    (targetscore r + Gscore r)%R
    (scaled_rank (map (rank_sum add scores_df) scores_df) (rank_sum add scores_df r))
    (directTargets r) (factor_fc r).




(** ** Vocabulary for the expression table *)

(** The number of genes of the network that the table names. *)
Definition overlap_of (grn : DiGraph) (df : list DERow) : nat :=
  PySet.len (PySet.inter (PySet.of_list (nodes grn)) (index_set df)).

(** The rows of the table for the gene [g]. *)
Definition rows_of (df : list DERow) (g : string) : list DERow :=
  filter (fun row => String.eqb (de_index row) g) df.

(** The expression record for a fold change and an adjusted p-value. *)
Definition expression_of (lfc p padj_cutoff : R) : Expression :=
  mkExpression (Rabs lfc * (if Rlt_dec p padj_cutoff then 1 else 0))%R (Rabs lfc) lfc.

(** A record as [read_expression] makes them. *)
Definition expression_record (e : Expression) : Prop :=
  absfc e = Rabs (realfc e) /\
  (score e = absfc e \/ score e = 0%R) /\
  (0 <= score e <= absfc e)%R /\
  ((score e > 0)%R -> realfc e <> 0%R).

(** A table of two rows for the genes of [graph_AB]. *)
Definition table_AB : list DERow :=
  [mkDERow "A" 1 (1 / 100); mkDERow "B" (-2) (1 / 2)].

(** A line with a value in both columns. *)
Definition complete (r : FileRow) : Prop :=
  file_log2FoldChange r <> None /\ file_padj r <> None.

(** A line that [astype(float)] refuses: it has a value in both columns,
    so [dropna] keeps it, and one of the two is not a number. *)
Definition unreadable (r : FileRow) : Prop :=
  exists x y, file_log2FoldChange r = Some x /\ file_padj r = Some y /\
              ((exists s, x = Word s) \/ (exists s, y = Word s)).

(** The table of the lines with a number in both columns. *)
Definition numeric_rows (rows : list FileRow) : list DERow :=
  flat_map (fun r =>
              match file_log2FoldChange r, file_padj r with
              | Some (Numeral x), Some (Numeral y) => [mkDERow (file_index r) x y]
              | _, _ => []
              end) rows.


(** A file with two complete lines for [B], a line for [B] and a line for
    [A] without adjusted p-value. *)
Definition file_BB : DEFile :=
  mkDEFile ["log2FoldChange"; "padj"]
    [mkFileRow "B" (Some (Numeral 1)) (Some (Numeral (1 / 100)));
     mkFileRow "B" (Some (Numeral 3)) (Some (Numeral (1 / 100)));
     mkFileRow "B" (Some (Numeral 5)) None;
     mkFileRow "A" (Some (Numeral 7)) None].




(** A file for the four genes of [graph_fork]. *)
Definition file_fork : DEFile :=
  mkDEFile ["log2FoldChange"; "padj"]
    [mkFileRow "A" (Some (Numeral 1)) (Some (Numeral (1 / 100)));
     mkFileRow "B" (Some (Numeral 2)) (Some (Numeral (1 / 100)));
     mkFileRow "C" (Some (Numeral (-3))) (Some (Numeral (1 / 100)));
     mkFileRow "D" (Some (Numeral 4)) (Some (Numeral (1 / 2)))].

(** The share of the genes of the network that the table names. *)
Definition pct_overlap_of (grn : DiGraph) (df : list DERow) : R :=
  (INR (overlap_of grn df) / INR (PySet.len (PySet.of_list (nodes grn))))%R.

(** Every path recorded is without repetition and runs through finalized
    nodes to its end. *)
Definition paths_simple (st : state) : Prop :=
  forall u p, Dict.get (paths st) u = Some p ->
    NoDup p /\
    exists q, p = q ++ [u] /\ forall x, In x q -> Dict.mem (dist st) x = true.

(** The state [st'] keeps the finalized nodes of [st] with their distances
    and their paths. *)
Definition stable (st st' : state) : Prop :=
  forall u d, Dict.get (dist st) u = Some d ->
    Dict.get (dist st') u = Some d /\ Dict.get (paths st') u = Dict.get (paths st) u.

(** * Properties *)

Local Open Scope R_scope.

(** ** Dictionaries *)

Module DictFacts.

Section Facts.
Context {V : Type}.
Implicit Types (d : Dict.t V) (k : string) (v : V).

Lemma get_set_same d k v : Dict.get (Dict.set d k v) k = Some v.
Proof.
  induction d as [|[k' v'] d IH]; simpl.
  - now rewrite String.eqb_refl.
  - destruct (String.eqb k k') eqn:E; simpl; rewrite E; auto.
Qed.

Lemma get_set_other d k k' v :
  k <> k' -> Dict.get (Dict.set d k v) k' = Dict.get d k'.
Proof.
  intros Hne. induction d as [|[k0 v0] d IH]; simpl.
  - destruct (String.eqb k' k) eqn:E; auto.
    apply String.eqb_eq in E. congruence.
  - destruct (String.eqb k k0) eqn:E; simpl.
    + apply String.eqb_eq in E. subst k0.
      destruct (String.eqb k' k) eqn:E'; auto.
      apply String.eqb_eq in E'. congruence.
    + now rewrite IH.
Qed.

Lemma get_set d k k' v :
  Dict.get (Dict.set d k v) k' = if String.eqb k k' then Some v else Dict.get d k'.
Proof.
  destruct (String.eqb k k') eqn:E.
  - apply String.eqb_eq in E. subst. apply get_set_same.
  - apply String.eqb_neq in E. now apply get_set_other.
Qed.

Lemma mem_true d k : Dict.mem d k = true <-> exists v, Dict.get d k = Some v.
Proof.
  unfold Dict.mem. destruct (Dict.get d k); split; intros H; eauto; try discriminate.
  destruct H; discriminate.
Qed.

Lemma mem_false d k : Dict.mem d k = false <-> Dict.get d k = None.
Proof.
  unfold Dict.mem. destruct (Dict.get d k); split; intros H; auto; discriminate.
Qed.

Lemma mem_set d k k' v :
  Dict.mem (Dict.set d k v) k' = (String.eqb k k' || Dict.mem d k')%bool.
Proof.
  unfold Dict.mem. rewrite get_set. now destruct (String.eqb k k').
Qed.

Lemma get_In d k v : Dict.get d k = Some v -> In (k, v) d.
Proof.
  induction d as [|[k' v'] d IH]; simpl; [discriminate|].
  destruct (String.eqb k k') eqn:E.
  - apply String.eqb_eq in E. intros [= ->]. subst. now left.
  - intros H. right. auto.
Qed.

Lemma In_get d k v : In (k, v) d -> exists v', Dict.get d k = Some v'.
Proof.
  induction d as [|[k' v'] d IH]; simpl; [tauto|].
  intros [H|H]; destruct (String.eqb k k') eqn:E; eauto.
  injection H as -> ->. rewrite String.eqb_refl in E. discriminate.
Qed.

Lemma get_None_keys d k : Dict.get d k = None <-> ~ In k (Dict.keys d).
Proof.
  induction d as [|[k' v'] d IH]; simpl; [tauto|].
  destruct (String.eqb k k') eqn:E.
  - apply String.eqb_eq in E. subst. split; [discriminate | intros H; exfalso; auto].
  - apply String.eqb_neq in E. rewrite IH. split; intros H.
    + intros [?|?]; [congruence | auto].
    + auto.
Qed.

Lemma keys_get d k : In k (Dict.keys d) <-> exists v, Dict.get d k = Some v.
Proof.
  destruct (Dict.get d k) eqn:E.
  - split; eauto. intros _. apply get_In in E.
    unfold Dict.keys. now apply (in_map fst) in E.
  - apply get_None_keys in E. split; [tauto | intros [? ?]; discriminate].
Qed.

Lemma nodup_set d k v : NoDup (Dict.keys d) -> NoDup (Dict.keys (Dict.set d k v)).
Proof.
  induction d as [|[k' v'] d IH]; simpl; intros H.
  - constructor; [intros []|constructor].
  - inversion H as [|? ? Hn Hd]; subst.
    destruct (String.eqb k k') eqn:E; simpl; [now constructor|].
    apply String.eqb_neq in E. constructor; auto.
    intros Hin. apply keys_get in Hin. destruct Hin as [x Hx].
    rewrite get_set_other in Hx by auto.
    apply Hn. apply keys_get. eauto.
Qed.

Lemma In_get_nodup d k v : NoDup (Dict.keys d) -> In (k, v) d -> Dict.get d k = Some v.
Proof.
  induction d as [|[k' v'] d IH]; simpl; intros Hn Hin; [tauto|].
  inversion Hn as [|? ? Hnk Hnd]; subst.
  destruct Hin as [Hin|Hin].
  - injection Hin as -> ->. now rewrite String.eqb_refl.
  - destruct (String.eqb k k') eqn:E; auto.
    apply String.eqb_eq in E. subst k'. exfalso. apply Hnk.
    unfold Dict.keys. now apply (in_map fst) in Hin.
Qed.

End Facts.

End DictFacts.

Import DictFacts.

(** ** Logarithms *)

Lemma ln10_pos : 0 < ln 10.
Proof. rewrite <- ln_1. apply ln_increasing; lra. Qed.

Lemma log10_1 : log10 1 = 0.
Proof. unfold log10, Rlog. rewrite ln_1. field. pose proof ln10_pos; lra. Qed.

Lemma log10_lt x y : 0 < x -> x < y -> log10 x < log10 y.
Proof.
  intros Hx Hxy. unfold log10, Rlog.
  apply Rmult_lt_compat_r.
  - apply Rinv_0_lt_compat, ln10_pos.
  - now apply ln_increasing.
Qed.

Lemma log10_le x y : 0 < x -> x <= y -> log10 x <= log10 y.
Proof.
  intros Hx [Hxy| ->]; [left; now apply log10_lt | right; reflexivity].
Qed.

Lemma log10_nonpos x : 0 < x -> x <= 1 -> log10 x <= 0.
Proof. intros H0 H1. rewrite <- log10_1. now apply log10_le. Qed.

Lemma pow10_log10 x : 0 < x -> pow10 (log10 x) = x.
Proof.
  intros Hx. unfold pow10, log10. apply Rpower_Rlog; lra.
Qed.

Lemma pow10_le x y : x <= y -> pow10 x <= pow10 y.
Proof.
  intros [H| ->]; [left | right; reflexivity].
  unfold pow10. apply Rpower_lt; lra.
Qed.

Lemma INR_pred_pos n : (1 < n)%nat -> 0 < INR (n - 1).
Proof. intros H. apply lt_0_INR. lia. Qed.

(** With a cost that is not negative, a candidate is never smaller than the
    distance it extends. *)
Lemma candidate_ge dist_v cost length :
  0 <= cost -> (1 <= length)%nat -> dist_v <= candidate dist_v cost length.
Proof.
  intros Hc Hl. unfold candidate.
  destruct (1 <? length)%nat eqn:E.
  - apply Nat.ltb_lt in E.
    assert (H0 : 0 < INR (length - 1)) by now apply INR_pred_pos.
    assert (H1 : INR (length - 1) < INR length) by (apply lt_INR; lia).
    assert (H2 : 1 / INR length < 1 / INR (length - 1)).
    { unfold Rdiv. rewrite !Rmult_1_l. apply Rinv_lt_contravar; [nra | lra]. }
    assert (H3 : 0 < 1 / INR length).
    { unfold Rdiv. rewrite Rmult_1_l. apply Rinv_0_lt_compat. lra. }
    pose proof (log10_lt _ _ H3 H2). lra.
  - apply Nat.ltb_ge in E. assert (length = 1%nat) as -> by lia.
    simpl INR. replace (1 / 1) with 1 by field. rewrite log10_1. lra.
Qed.

Lemma weight_function_nonneg G weight v u e :
  unit_weights G weight -> has_edge_data G v u e ->
  0 <= weight_function weight e.
Proof.
  intros Hu He. unfold weight_function.
  destruct (Dict.get e weight) as [w|] eqn:E.
  - destruct (Hu _ _ _ _ He E) as [H0 H1].
    pose proof (log10_nonpos w H0 H1). lra.
  - rewrite log10_1. lra.
Qed.

(** ** The fringe *)

Lemma entry_lt_true a b : entry_lt a b = true -> ent_d a <= ent_d b.
Proof.
  destruct a as [[d1 c1] n1], b as [[d2 c2] n2]. unfold entry_lt, ent_d. simpl.
  destruct (Rlt_dec d1 d2); [lra|].
  destruct (Rlt_dec d2 d1); [discriminate | lra].
Qed.

Lemma entry_lt_false a b : entry_lt a b = false -> ent_d b <= ent_d a.
Proof.
  destruct a as [[d1 c1] n1], b as [[d2 c2] n2]. unfold entry_lt, ent_d. simpl.
  destruct (Rlt_dec d1 d2); [discriminate | lra].
Qed.

Lemma heappop_None h : heappop h = None -> h = [].
Proof.
  destruct h as [|x h]; simpl; auto.
  destruct (heappop h) as [[m r]|]; [destruct (entry_lt m x)|]; discriminate.
Qed.

(** The entry popped is taken out of the list, which is otherwise unchanged. *)
Lemma heappop_split h m r :
  heappop h = Some (m, r) -> exists l1 l2, h = l1 ++ m :: l2 /\ r = l1 ++ l2.
Proof.
  revert m r. induction h as [|x h IH]; simpl; intros m r H; [discriminate|].
  destruct (heappop h) as [[m' r']|] eqn:E.
  - destruct (entry_lt m' x).
    + injection H as <- <-. destruct (IH _ _ eq_refl) as (l1 & l2 & -> & ->).
      now exists (x :: l1), l2.
    + injection H as <- <-. now exists [], h.
  - injection H as <- <-. apply heappop_None in E. subst. now exists [], [].
Qed.

Lemma heappop_min h m r :
  heappop h = Some (m, r) -> forall x, In x r -> ent_d m <= ent_d x.
Proof.
  revert m r. induction h as [|x h IH]; simpl; intros m r H; [discriminate|].
  destruct (heappop h) as [[m' r']|] eqn:E.
  - destruct (entry_lt m' x) eqn:L.
    + injection H as <- <-. intros y [<-|Hy].
      * now apply entry_lt_true.
      * now apply (IH _ _ eq_refl).
    + injection H as <- <-. intros y Hy.
      apply entry_lt_false in L.
      destruct (heappop_split _ _ _ E) as (l1 & l2 & -> & ->).
      apply in_app_or in Hy. destruct Hy as [Hy|[<-|Hy]]; auto.
      * specialize (IH _ _ eq_refl y). rewrite in_app_iff in IH.
        specialize (IH (or_introl Hy)). lra.
      * specialize (IH _ _ eq_refl y). rewrite in_app_iff in IH.
        specialize (IH (or_intror Hy)). lra.
  - injection H as <- <-. intros y [].
Qed.

Lemma heappop_In h m r x :
  heappop h = Some (m, r) -> In x h <-> x = m \/ In x r.
Proof.
  intros H. destruct (heappop_split _ _ _ H) as (l1 & l2 & -> & ->).
  rewrite !in_app_iff. simpl. intuition auto.
Qed.

Lemma heappop_length h m r :
  heappop h = Some (m, r) -> List.length h = S (List.length r).
Proof.
  intros H. destruct (heappop_split _ _ _ H) as (l1 & l2 & -> & ->).
  rewrite !length_app. simpl. lia.
Qed.

Lemma StronglySorted_remove {A : Type} (R : A -> A -> Prop) l1 x l2 :
  StronglySorted R (l1 ++ x :: l2) -> StronglySorted R (l1 ++ l2).
Proof.
  induction l1 as [|a l1 IH]; simpl; intros H.
  - now inversion H.
  - inversion H as [|? ? Hs Hf]; subst. constructor; auto.
    rewrite Forall_forall in *. intros y Hy. apply Hf.
    rewrite in_app_iff in *. simpl. tauto.
Qed.

Lemma heappop_sorted (R : entry -> entry -> Prop) h m r :
  heappop h = Some (m, r) -> StronglySorted R h -> StronglySorted R r.
Proof.
  intros H. destruct (heappop_split _ _ _ H) as (l1 & l2 & -> & ->).
  apply StronglySorted_remove.
Qed.

(** ** Loops *)

Lemma for_each_total {A S : Type} (P : S -> Prop) (xs : list A)
    (f : S -> A -> result S) (s : S) :
  P s ->
  (forall s x, In x xs -> P s -> exists s', f s x = Ok s' /\ P s') ->
  exists s', for_each xs f s = Ok s' /\ P s'.
Proof.
  revert s. induction xs as [|x xs IH]; simpl; intros s Hs Hf; eauto.
  destruct (Hf s x (or_introl eq_refl) Hs) as (s' & -> & Hs'). simpl.
  apply IH; auto.
Qed.

Lemma for_each_Ok {A S : Type} (P : S -> Prop) (xs : list A)
    (f : S -> A -> result S) (s s' : S) :
  P s ->
  (forall s x s', In x xs -> P s -> f s x = Ok s' -> P s') ->
  for_each xs f s = Ok s' -> P s'.
Proof.
  revert s. induction xs as [|x xs IH]; simpl; intros s Hs Hf H.
  - now injection H as <-.
  - destruct (f s x) as [s1|] eqn:E; simpl in H; [|discriminate].
    apply (IH s1); eauto.
Qed.

Lemma while_total G weight cutoff target (P Q : state -> Prop) (mu : state -> nat) :
  (forall st, P st ->
     match body G weight cutoff target st with
     | Ok (Continue st') => P st' /\ (mu st' < mu st)%nat
     | Ok (Break st') => Q st'
     | Raise _ => False
     end) ->
  forall fuel st, P st -> (mu st < fuel)%nat ->
    exists st', while G weight cutoff target fuel st = Ok st' /\ Q st'.
Proof.
  intros Hbody. induction fuel as [|fuel IH]; intros st HP Hmu; [lia|].
  simpl. specialize (Hbody st HP).
  destruct (body G weight cutoff target st) as [[st'|st']|]; [| eauto | tauto].
  destruct Hbody as [HP' Hlt]. apply IH; auto. lia.
Qed.

(** ** The invariant of the search *)

Lemma StronglySorted_snoc {A : Type} (R : A -> A -> Prop) l x :
  StronglySorted R l -> (forall y, In y l -> R y x) -> StronglySorted R (l ++ [x]).
Proof.
  induction l as [|a l IH]; simpl; intros Hs Hx.
  - repeat constructor.
  - inversion Hs as [|? ? Hs' Hf]; subst. constructor.
    + apply IH; auto.
    + rewrite Forall_forall in *. intros y Hy. apply in_app_or in Hy.
      destruct Hy as [Hy|[<-|[]]]; auto.
Qed.

Lemma relaxed_from_mono G weight st st' d u p :
  (forall v dv, Dict.get (dist st) v = Some dv ->
     Dict.get (dist st') v = Some dv /\
     Dict.get (paths st') v = Dict.get (paths st) v) ->
  relaxed_from G weight st d u p -> relaxed_from G weight st' d u p.
Proof.
  intros Hm (v & dv & pv & e & Hd & Hp & Hl & He & -> & ->).
  destruct (Hm _ _ Hd) as [Hd' Hp'].
  exists v, dv, pv, e. rewrite Hp'. auto 10.
Qed.

Lemma relax_frame weight cutoff v st ue st' :
  relax weight cutoff v st ue = Ok st' ->
  dist st' = dist st /\ (List.length (fringe st') <= S (List.length (fringe st)))%nat.
Proof.
  unfold relax. destruct ue as [u e].
  destruct (getitem (paths st) v) as [pv|]; simpl; [|discriminate].
  destruct (getitem (dist st) v) as [dv|]; simpl; [|discriminate].
  destruct (List.length pv =? 0)%nat; [discriminate|].
  destruct (over_cutoff _ _).
  { intros [= <-]. split; auto. }
  destruct (Dict.get (dist st) u).
  { destruct (Rlt_dec _ _); [discriminate|]. intros [= <-]. split; auto. }
  match goal with |- (if ?b then _ else _) = _ -> _ => destruct b end.
  - intros [= <-]. simpl. split; auto. unfold heappush. rewrite length_app. simpl. lia.
  - intros [= <-]. split; auto.
Qed.

Lemma for_each_relax_frame weight cutoff v nbrs st st' :
  for_each nbrs (relax weight cutoff v) st = Ok st' ->
  dist st' = dist st /\
  (List.length (fringe st') <= List.length (fringe st) + List.length nbrs)%nat.
Proof.
  revert st. induction nbrs as [|ue nbrs IH]; simpl; intros st H.
  - injection H as <-. split; auto. lia.
  - destruct (relax weight cutoff v st ue) as [s1|] eqn:E; simpl in H; [|discriminate].
    apply relax_frame in E. destruct E as [E1 E2].
    destruct (IH _ H) as [H1 H2]. split; [congruence | lia].
Qed.

Lemma pending_edges_set_le G d v x :
  (pending_edges G (Dict.set d v x) <= pending_edges G d)%nat.
Proof.
  unfold pending_edges. induction (_succ G) as [|[k n] l IH]; simpl; [lia|].
  rewrite mem_set. destruct (String.eqb v k); simpl; [|lia].
  destruct (Dict.mem d k); lia.
Qed.

Lemma pending_edges_finalize G d v x nbrs :
  Dict.get (_succ G) v = Some nbrs -> Dict.mem d v = false ->
  (pending_edges G (Dict.set d v x) + List.length nbrs <= pending_edges G d)%nat.
Proof.
  unfold pending_edges. intros Hg Hm.
  induction (_succ G) as [|[k n] l IH]; simpl in *; [discriminate|].
  rewrite mem_set. destruct (String.eqb v k) eqn:E.
  - apply String.eqb_eq in E. subst k. injection Hg as ->. rewrite Hm. simpl.
    pose proof (pending_edges_set_le (mkDiGraph l) d v x) as H.
    unfold pending_edges in H. simpl in H. lia.
  - simpl. specialize (IH Hg). lia.
Qed.

Lemma pending_edges_empty G : pending_edges G [] = number_of_edges G.
Proof.
  unfold pending_edges, number_of_edges, edges.
  induction (_succ G) as [|[k n] l IH]; simpl in *; auto.
  rewrite length_app, length_map. unfold node, attrs, Dict.t in *. lia.
Qed.

(** Every turn of the loop that does not leave it makes the measure fall. *)
Lemma body_measure G weight cutoff target st st' :
  body G weight cutoff target st = Ok (Continue st') ->
  (measure G st' < measure G st)%nat.
Proof.
  unfold body, measure.
  destruct (heappop (fringe st)) as [[[[d k] v] fr]|] eqn:Hp; [|discriminate].
  apply heappop_length in Hp.
  destruct (Dict.mem (dist st) v) eqn:Hm.
  - intros [= <-]. simpl. lia.
  - destruct (is_target target v); [discriminate|].
    destruct (getitem (_succ G) v) as [nbrs|] eqn:Hg; simpl; [|discriminate].
    match goal with |- context [for_each ?l ?f ?s] =>
      destruct (for_each l f s) as [s2|] eqn:Hf end; simpl; [|discriminate].
    intros [= <-]. apply for_each_relax_frame in Hf. simpl in Hf.
    destruct Hf as [-> Hlen]. unfold getitem in Hg.
    destruct (Dict.get (_succ G) v) eqn:Hg'; [|discriminate]. injection Hg as ->.
    pose proof (pending_edges_finalize G (dist st) v d nbrs Hg' Hm).
    unfold Dict.items, node, attrs, Dict.t in *. lia.
Qed.

Arguments inv_start {G weight cutoff source m st}.
Arguments inv_fringe_node {G weight cutoff source m st}.
Arguments inv_fringe_seen {G weight cutoff source m st}.
Arguments inv_seen_fringe {G weight cutoff source m st}.
Arguments inv_dist_seen {G weight cutoff source m st}.
Arguments inv_seen_paths {G weight cutoff source m st}.
Arguments inv_paths_seen {G weight cutoff source m st}.
Arguments inv_dist_le {G weight cutoff source m st}.
Arguments inv_fringe_ge {G weight cutoff source m st}.
Arguments inv_cutoff {G weight cutoff source m st}.
Arguments inv_counter {G weight cutoff source m st}.
Arguments inv_sorted {G weight cutoff source m st}.
Arguments inv_nodup_dist {G weight cutoff source m st}.
Arguments inv_nodup_paths {G weight cutoff source m st}.

Ltac proj_simpl :=
  cbn [dist seen paths fringe c ent_d ent_c ent_node fst snd init_state] in *.

Section SearchInvariant.

Variable G : DiGraph.
Variable weight : string.
Variable cutoff : option R.
Variable source : node.
Hypothesis Hclosed : closed_graph G.
Hypothesis Hunit : unit_weights G weight.
Hypothesis Hsource : Dict.mem (_succ G) source = true.
Hypothesis Hcut : forall D, cutoff = Some D -> 0 <= D.

Local Abbreviation Inv := (search_inv G weight cutoff source).

Lemma singleton_get {V : Type} (k k' : string) (v v' : V) :
  Dict.get [(k, v)] k' = Some v' -> k' = k /\ v' = v.
Proof.
  simpl. destruct (String.eqb k' k) eqn:E; [|discriminate].
  apply String.eqb_eq in E. intros [= <-]. auto.
Qed.

Lemma inv_init : Inv 0 (init_state source).
Proof.
  constructor; proj_simpl.
  - now right.
  - intros x [<-|[]]. exact Hsource.
  - intros x [<-|[]]. proj_simpl. exists 0. simpl. rewrite String.eqb_refl. split; [auto|lra].
  - intros u s H _. apply singleton_get in H. destruct H as [-> ->]. exists 0%nat. now left.
  - intros u d H. discriminate.
  - intros u s H. apply singleton_get in H. destruct H as [-> ->]. left.
    simpl. now rewrite String.eqb_refl.
  - intros u p H. apply singleton_get in H. destruct H as [-> ->].
    exists 0. simpl. now rewrite String.eqb_refl.
  - intros u d H. discriminate.
  - intros x [<-|[]]. proj_simpl. lra.
  - intros D HD. split; [auto|]. split.
    + intros x [<-|[]]. proj_simpl. auto.
    + intros u s H. apply singleton_get in H. destruct H as [_ ->]. auto.
  - intros x [<-|[]]. proj_simpl. lia.
  - repeat constructor.
  - constructor.
  - simpl. constructor; [intros []|constructor].
Qed.

Lemma inv_finalized_source m st v d :
  Inv m st -> Dict.get (dist st) v = Some d -> Dict.get (dist st) source = Some 0.
Proof.
  intros I Hv. destruct (inv_start I) as [H|H]; auto. subst st. discriminate.
Qed.

Lemma inv_finalized_path m st v d :
  Inv m st -> Dict.get (dist st) v = Some d ->
  exists pv, Dict.get (paths st) v = Some pv /\ (1 <= List.length pv)%nat.
Proof.
  intros I Hv. pose proof (inv_dist_seen I _ _ Hv) as Hs.
  destruct (inv_seen_paths I _ _ Hs) as [(-> & _ & H)|(_ & p & H & HR)].
  - exists [source]. simpl. auto.
  - exists p. split; auto.
    destruct HR as (? & ? & ? & ? & _ & _ & _ & _ & _ & ->).
    rewrite length_app. simpl. lia.
Qed.

(** A relaxation along an edge of the graph never raises and keeps the
    invariant. *)
Lemma relax_inv v u e m st :
  Inv m st ->
  Dict.get (dist st) v = Some m ->
  has_edge_data G v u e ->
  exists st', relax weight cutoff v st (u, e) = Ok st' /\
              Inv m st' /\ Dict.get (dist st') v = Some m.
Proof.
  intros I Hv He.
  pose proof (inv_finalized_source _ _ _ _ I Hv) as Hsrc.
  destruct (inv_finalized_path _ _ _ _ I Hv) as (pv & Hpv & Hlen).
  unfold relax, getitem. rewrite Hpv, Hv. cbn [bind].
  destruct (List.length pv =? 0)%nat eqn:E0; [apply Nat.eqb_eq in E0; lia|].
  set (x := candidate m (weight_function weight e) (List.length pv)).
  assert (Hx : m <= x).
  { apply candidate_ge; auto. eapply weight_function_nonneg; eauto. }
  destruct (over_cutoff cutoff x) eqn:Hoc; [eauto|].
  destruct (Dict.get (dist st) u) as [du|] eqn:Hdu.
  { pose proof (inv_dist_le I _ _ Hdu). destruct (Rlt_dec x du); [lra|eauto]. }
  match goal with |- context [if ?b then _ else _] => destruct b eqn:Hb end; [|eauto].
  assert (Hbetter : forall s, Dict.get (seen st) u = Some s -> x < s).
  { intros s Hs. rewrite Hs in Hb. destruct (Rlt_dec x s); [auto|discriminate]. }
  clear Hb.
  assert (Hus : u <> source) by congruence.
  assert (Huv : u <> v) by congruence.
  assert (Hmono : forall d' u' p',
            relaxed_from G weight st d' u' p' ->
            relaxed_from G weight
              (mkState (dist st) (Dict.set (seen st) u x)
                 (Dict.set (paths st) u (pv ++ [u]))
                 (heappush (fringe st) (x, c st, u)) (S (c st))) d' u' p').
  { intros d' u' p'. apply relaxed_from_mono. proj_simpl. intros v' dv' Hv'.
    split; auto. apply get_set_other. congruence. }
  eexists. split; [reflexivity|]. split; [|exact Hv].
  constructor; proj_simpl; unfold heappush.
  - now left.
  - intros y Hy. apply in_app_or in Hy. destruct Hy as [Hy|[<-|[]]].
    + exact (inv_fringe_node I y Hy).
    + proj_simpl. eapply Hclosed; eauto.
  - intros y Hy. apply in_app_or in Hy. destruct Hy as [Hy|[<-|[]]].
    + destruct (inv_fringe_seen I y Hy) as (s & Hs & Hle).
      rewrite get_set. destruct (String.eqb u (ent_node y)) eqn:E; [|eauto].
      apply String.eqb_eq in E. rewrite <- E in Hs.
      specialize (Hbetter s Hs). exists x. split; auto. lra.
    + proj_simpl. rewrite get_set_same. exists x. split; auto. lra.
  - intros u' s Hs Hd. rewrite get_set in Hs.
    destruct (String.eqb u u') eqn:E.
    + apply String.eqb_eq in E. subst u'. injection Hs as <-.
      exists (c st). apply in_or_app. right. now left.
    + destruct (inv_seen_fringe I _ _ Hs Hd) as (k & Hk).
      exists k. apply in_or_app. now left.
  - intros u' d' Hd'. rewrite get_set_other by congruence.
    exact (inv_dist_seen I _ _ Hd').
  - intros u' s Hs. rewrite get_set in Hs. rewrite get_set.
    destruct (String.eqb u u') eqn:E.
    + apply String.eqb_eq in E. subst u'. injection Hs as <-. right.
      split; auto. exists (pv ++ [u]). split; auto.
      exists v, m, pv, e. proj_simpl. rewrite get_set_other by congruence.
      auto 10.
    + destruct (inv_seen_paths I _ _ Hs) as [H|(Hne & p & Hp & HR)]; [now left|].
      right. split; auto. exists p. split; auto.
  - intros u' p' Hp'. rewrite get_set in Hp'. rewrite get_set.
    destruct (String.eqb u u'); [eauto|]. exact (inv_paths_seen I _ _ Hp').
  - exact (inv_dist_le I).
  - intros y Hy. apply in_app_or in Hy. destruct Hy as [Hy|[<-|[]]].
    + exact (inv_fringe_ge I y Hy).
    + proj_simpl. exact Hx.
  - intros D HD. destruct (inv_cutoff I D HD) as (H0 & Hf & Hs).
    assert (HxD : x <= D).
    { unfold over_cutoff in Hoc. rewrite HD in Hoc.
      destruct (Rgt_dec x D); [discriminate|lra]. }
    split; auto. split.
    + intros y Hy. apply in_app_or in Hy. destruct Hy as [Hy|[<-|[]]]; auto.
    + intros u' s. rewrite get_set.
      destruct (String.eqb u u'); [intros [= <-]; auto | apply Hs].
  - intros y Hy. apply in_app_or in Hy. destruct Hy as [Hy|[<-|[]]].
    + pose proof (inv_counter I y Hy). lia.
    + proj_simpl. lia.
  - apply StronglySorted_snoc; [exact (inv_sorted I)|].
    intros y Hy. proj_simpl. exact (inv_counter I y Hy).
  - exact (inv_nodup_dist I).
  - apply nodup_set. exact (inv_nodup_paths I).
Qed.

Lemma relax_all_inv v nbrs0 nbrs m st :
  Dict.get (_succ G) v = Some nbrs0 -> incl nbrs nbrs0 ->
  Inv m st -> Dict.get (dist st) v = Some m ->
  exists st', for_each nbrs (relax weight cutoff v) st = Ok st' /\
              Inv m st' /\ Dict.get (dist st') v = Some m.
Proof.
  intros Hg Hincl I Hv.
  apply (for_each_total (fun s => Inv m s /\ Dict.get (dist s) v = Some m)); auto.
  intros s [u e] Hin [Is Hs].
  apply relax_inv; auto. exists nbrs0. auto.
Qed.

(** Popping an entry of a node already finalized keeps the invariant. *)
Lemma skip_inv m st d k v fr :
  Inv m st -> heappop (fringe st) = Some ((d, k, v), fr) ->
  Dict.mem (dist st) v = true ->
  Inv m (mkState (dist st) (seen st) (paths st) fr (c st)).
Proof.
  intros I Hp Hm.
  pose proof (fun y => heappop_In _ _ _ y Hp) as HIn.
  assert (Hsub : forall y, In y fr -> In y (fringe st)).
  { intros y Hy. apply HIn. now right. }
  apply mem_true in Hm. destruct Hm as [dv Hdv].
  constructor; proj_simpl.
  - left. eapply inv_finalized_source; eauto.
  - intros y Hy. apply (inv_fringe_node I), Hsub, Hy.
  - intros y Hy. apply (inv_fringe_seen I), Hsub, Hy.
  - intros u s Hs Hd. destruct (inv_seen_fringe I _ _ Hs Hd) as (k' & Hk').
    apply HIn in Hk'. destruct Hk' as [E|Hk']; [|eauto].
    injection E as _ _ ->. congruence.
  - exact (inv_dist_seen I).
  - intros u s Hs.
    destruct (inv_seen_paths I _ _ Hs) as [H|(Hne & p & Hp' & HR)]; [now left|].
    right. split; auto. exists p. split; auto.
  - exact (inv_paths_seen I).
  - exact (inv_dist_le I).
  - intros y Hy. apply (inv_fringe_ge I), Hsub, Hy.
  - intros D HD. destruct (inv_cutoff I D HD) as (H0 & Hf & Hs).
    split; [|split]; auto.
  - intros y Hy. apply (inv_counter I), Hsub, Hy.
  - eapply heappop_sorted; eauto. exact (inv_sorted I).
  - exact (inv_nodup_dist I).
  - exact (inv_nodup_paths I).
Qed.

(** Finalizing the node popped keeps the invariant, with the distance of
    that node as the new bound. *)
Lemma finalize_inv m st d k v fr :
  Inv m st -> heappop (fringe st) = Some ((d, k, v), fr) ->
  Dict.mem (dist st) v = false ->
  Inv d (mkState (Dict.set (dist st) v d) (seen st) (paths st) fr (c st)).
Proof.
  intros I Hp Hm.
  pose proof (fun y => heappop_In _ _ _ y Hp) as HIn.
  pose proof (heappop_min _ _ _ Hp) as Hmin.
  assert (Hsub : forall y, In y fr -> In y (fringe st)).
  { intros y Hy. apply HIn. now right. }
  assert (Hpop : In (d, k, v) (fringe st)).
  { apply HIn. now left. }
  apply mem_false in Hm.
  assert (Hseen : Dict.get (seen st) v = Some d).
  { destruct (inv_fringe_seen I _ Hpop) as (s & Hs & Hle). proj_simpl.
    destruct (inv_seen_fringe I _ _ Hs Hm) as (k' & Hk').
    apply HIn in Hk'. destruct Hk' as [E|Hk'].
    - injection E as -> _. exact Hs.
    - specialize (Hmin _ Hk'). proj_simpl. replace d with s by lra. exact Hs. }
  constructor; proj_simpl.
  - left. destruct (inv_start I) as [H|H].
    + rewrite get_set_other by congruence. exact H.
    + rewrite H in Hp. simpl in Hp. injection Hp as <- _ <- _.
      apply get_set_same.
  - intros y Hy. apply (inv_fringe_node I), Hsub, Hy.
  - intros y Hy. apply (inv_fringe_seen I), Hsub, Hy.
  - intros u s Hs Hd. rewrite get_set in Hd.
    destruct (String.eqb v u) eqn:E; [discriminate|].
    apply String.eqb_neq in E.
    destruct (inv_seen_fringe I _ _ Hs Hd) as (k' & Hk').
    apply HIn in Hk'. destruct Hk' as [E'|Hk']; [|eauto].
    injection E' as _ _ ->. congruence.
  - intros u d' Hd'. rewrite get_set in Hd'.
    destruct (String.eqb v u) eqn:E.
    + apply String.eqb_eq in E. subst u. injection Hd' as <-. exact Hseen.
    + exact (inv_dist_seen I _ _ Hd').
  - intros u s Hs.
    destruct (inv_seen_paths I _ _ Hs) as [H|(Hne & p & Hp' & HR)]; [now left|].
    right. split; auto. exists p. split; auto.
    revert HR. apply relaxed_from_mono. proj_simpl. intros v' dv' Hv'.
    split; auto. rewrite get_set_other by congruence. exact Hv'.
  - exact (inv_paths_seen I).
  - intros u d' Hd'. rewrite get_set in Hd'.
    destruct (String.eqb v u) eqn:E.
    + injection Hd' as <-. lra.
    + pose proof (inv_dist_le I _ _ Hd').
      pose proof (inv_fringe_ge I _ Hpop). proj_simpl. lra.
  - intros y Hy. apply (Hmin y Hy).
  - intros D HD. destruct (inv_cutoff I D HD) as (H0 & Hf & Hs).
    split; [|split]; auto.
  - intros y Hy. apply (inv_counter I), Hsub, Hy.
  - eapply heappop_sorted; eauto. exact (inv_sorted I).
  - apply nodup_set. exact (inv_nodup_dist I).
  - exact (inv_nodup_paths I).
Qed.

(** One turn of the loop never raises and keeps the invariant; the loop is
    left only with an empty fringe. *)
Lemma body_inv m st :
  Inv m st ->
  match body G weight cutoff None st with
  | Ok (Continue st') => exists m', Inv m' st'
  | Ok (Break st') => st' = st /\ fringe st = []
  | Raise _ => False
  end.
Proof.
  intros I. unfold body.
  destruct (heappop (fringe st)) as [[[[d k] v] fr]|] eqn:Hp.
  2:{ apply heappop_None in Hp. auto. }
  destruct (Dict.mem (dist st) v) eqn:Hm.
  - exists m. eapply skip_inv; eauto.
  - cbn [is_target].
    assert (Hpop : In (d, k, v) (fringe st)).
    { apply (heappop_In _ _ _ _ Hp). now left. }
    pose proof (inv_fringe_node I _ Hpop) as Hnode. proj_simpl.
    apply mem_true in Hnode. destruct Hnode as [nbrs Hnbrs].
    unfold getitem. rewrite Hnbrs. cbn [bind].
    pose proof (finalize_inv _ _ _ _ _ _ I Hp Hm) as I1.
    destruct (relax_all_inv v nbrs (Dict.items nbrs) d _ Hnbrs (incl_refl _) I1)
      as (st2 & -> & I2 & _).
    { proj_simpl. apply get_set_same. }
    cbn [bind]. eauto.
Qed.

(** From a state that satisfies the invariant the loop ends without an
    exception, with an empty fringe, and forgets no finalized node. *)
Lemma while_from_inv fuel st m :
  Inv m st -> (measure G st < fuel)%nat ->
  exists st' m',
    while G weight cutoff None fuel st = Ok st' /\ Inv m' st' /\ fringe st' = [] /\
    (forall u d, Dict.get (dist st) u = Some d -> Dict.get (dist st') u = Some d).
Proof.
  intros I Hfuel.
  set (P := fun s => (exists m', Inv m' s) /\
                    forall u d, Dict.get (dist st) u = Some d ->
                                Dict.get (dist s) u = Some d).
  set (Q := fun s => (exists m', Inv m' s) /\ fringe s = [] /\
                    forall u d, Dict.get (dist st) u = Some d ->
                                Dict.get (dist s) u = Some d).
  assert (Hbody : forall s, P s ->
            match body G weight cutoff None s with
            | Ok (Continue s') => P s' /\ (measure G s' < measure G s)%nat
            | Ok (Break s') => Q s'
            | Raise _ => False
            end).
  { intros s [[ms Is] Hs]. pose proof (body_inv ms s Is) as Hb.
    pose proof (body_measure G weight cutoff None s) as Hmu.
    destruct (body G weight cutoff None s) as [[s'|s']|] eqn:E; auto.
    - split; [split|]; auto. intros u d Hu. specialize (Hs u d Hu).
      revert E. unfold body.
      destruct (heappop (fringe s)) as [[[[d0 k0] v0] fr]|]; [|discriminate].
      destruct (Dict.mem (dist s) v0) eqn:Hm.
      + intros [= <-]. exact Hs.
      + cbn [is_target]. destruct (getitem (_succ G) v0); cbn [bind]; [|discriminate].
        match goal with |- context [for_each ?l ?f ?s0] =>
          destruct (for_each l f s0) as [s2|] eqn:Hf end; cbn [bind]; [|discriminate].
        intros [= <-]. apply for_each_relax_frame in Hf. destruct Hf as [-> _].
        proj_simpl. apply mem_false in Hm. rewrite get_set_other by congruence. exact Hs.
    - destruct Hb as [-> Hf]. split; [|split]; eauto. }
  destruct (while_total G weight cutoff None P Q (measure G) Hbody fuel st)
    as (st' & Hw & (m' & I') & Hf & Hd); auto.
  { split; eauto. }
  eauto 10.
Qed.

Lemma search_total :
  exists st m,
    while G weight cutoff None (search_fuel G) (init_state source) = Ok st /\
    Inv m st /\ fringe st = [].
Proof.
  destruct (while_from_inv (search_fuel G) (init_state source) 0 inv_init)
    as (st & m & Hw & I & Hf & _).
  - unfold measure, search_fuel. proj_simpl. rewrite pending_edges_empty. simpl. lia.
  - eauto.
Qed.

End SearchInvariant.

(** ** What the search returns *)

Lemma get_filter_key {V : Type} (P : string -> bool) (d : Dict.t V) k :
  Dict.get (filter (fun kv => P (fst kv)) d) k = if P k then Dict.get d k else None.
Proof.
  induction d as [|[k' v] d IH]; simpl.
  - now destruct (P k).
  - destruct (P k') eqn:E; simpl; destruct (String.eqb k k') eqn:E'; auto.
    + apply String.eqb_eq in E'. subst. now rewrite E.
    + apply String.eqb_eq in E'. subst. rewrite IH, E. reflexivity.
Qed.

Lemma get_map_val {V W : Type} (f : V -> W) (d : Dict.t V) k :
  Dict.get (map (fun kv => (fst kv, f (snd kv))) d) k = option_map f (Dict.get d k).
Proof.
  induction d as [|[k' v] d IH]; simpl; auto.
  destruct (String.eqb k k'); auto.
Qed.

Lemma get_filter_val {V : Type} (P : V -> bool) (d : Dict.t V) k :
  NoDup (Dict.keys d) ->
  Dict.get (filter (fun kv => P (snd kv)) d) k =
  match Dict.get d k with
  | Some v => if P v then Some v else None
  | None => None
  end.
Proof.
  induction d as [|[k' v] d IH]; simpl; auto. intros Hn.
  inversion Hn as [|? ? Hk Hd]; subst. specialize (IH Hd).
  destruct (String.eqb k k') eqn:E.
  - apply String.eqb_eq in E. subst k'.
    destruct (P v); simpl; [now rewrite String.eqb_refl|].
    rewrite IH. apply get_None_keys in Hk. now rewrite Hk.
  - destruct (P v); simpl; [rewrite E|]; exact IH.
Qed.

Lemma keys_filter_key {V : Type} (P : string -> bool) (d : Dict.t V) :
  Dict.keys (filter (fun kv => P (fst kv)) d) = filter P (Dict.keys d).
Proof.
  induction d as [|[k v] d IH]; simpl; auto.
  destruct (P k); simpl; now rewrite IH.
Qed.

Lemma keys_map_val {V W : Type} (f : V -> W) (d : Dict.t V) :
  Dict.keys (map (fun kv => (fst kv, f (snd kv))) d) = Dict.keys d.
Proof.
  unfold Dict.keys. rewrite map_map. reflexivity.
Qed.

Lemma candidate_spec dist_v cost L : candidate dist_v cost L = new_dist_spec dist_v cost L.
Proof.
  unfold candidate, new_dist_spec. destruct (1 <? L)%nat; ring.
Qed.

Section FinalState.

Variable G : DiGraph.
Variable weight : string.
Variable cutoff : option R.
Variable source : node.
Variable m : R.
Variable st : state.
Hypothesis I : search_inv G weight cutoff source m st.
Hypothesis Hdone : fringe st = [].

Lemma final_seen_dist u s :
  Dict.get (seen st) u = Some s -> Dict.get (dist st) u = Some s.
Proof.
  intros Hs. destruct (Dict.get (dist st) u) as [d|] eqn:Hd.
  - pose proof (inv_dist_seen I _ _ Hd). congruence.
  - destruct (inv_seen_fringe I _ _ Hs Hd) as [k Hk]. rewrite Hdone in Hk. destruct Hk.
Qed.

Lemma final_paths_get u :
  Dict.get (final_paths st) u =
  match Dict.get (paths st) u with
  | Some p => if (1 <? List.length p)%nat then Some p else None
  | None => None
  end.
Proof.
  unfold final_paths.
  exact (get_filter_val (fun p => (1 <? List.length p)%nat) (paths st) u
           (inv_nodup_paths I)).
Qed.

(** The paths returned are those of the finalized nodes other than the
    source, each obtained by the relaxation rule from a finalized node. *)
Lemma final_paths_spec u p :
  Dict.get (final_paths st) u = Some p <->
  u <> source /\ exists d,
    Dict.get (dist st) u = Some d /\ Dict.get (paths st) u = Some p /\
    relaxed_from G weight st d u p.
Proof.
  rewrite final_paths_get. split.
  - destruct (Dict.get (paths st) u) as [p'|] eqn:Hp; [|discriminate].
    destruct (1 <? List.length p')%nat eqn:Hl; [|discriminate].
    intros [= ->]. destruct (inv_paths_seen I _ _ Hp) as [s Hs].
    destruct (inv_seen_paths I _ _ Hs) as [(-> & _ & H)|(Hne & p' & Hp' & HR)].
    + rewrite H in Hp. injection Hp as <-. discriminate.
    + split; auto. exists s. split; [now apply final_seen_dist|].
      split; congruence.
  - intros (Hne & d & Hd & Hp & HR). rewrite Hp.
    destruct HR as (v & dv & pv & e & _ & _ & Hl & _ & _ & ->).
    rewrite length_app. simpl.
    destruct (1 <? List.length pv + 1)%nat eqn:E; auto.
    apply Nat.ltb_ge in E. lia.
Qed.

Lemma final_paths_mem u :
  Dict.mem (final_paths st) u = true <->
  u <> source /\ exists d, Dict.get (dist st) u = Some d.
Proof.
  rewrite mem_true. split.
  - intros [p Hp]. apply final_paths_spec in Hp.
    destruct Hp as (Hne & d & Hd & _). eauto.
  - intros (Hne & d & Hd). pose proof (inv_dist_seen I _ _ Hd) as Hs.
    destruct (inv_seen_paths I _ _ Hs) as [(-> & _)|(_ & p & Hp & HR)]; [tauto|].
    exists p. apply final_paths_spec. eauto 10.
Qed.

Lemma final_dist_get u :
  Dict.get (final_dist st) u =
  if Dict.mem (final_paths st) u
  then option_map (fun d => pow10 (- d)) (Dict.get (dist st) u)
  else None.
Proof.
  unfold final_dist.
  rewrite (get_map_val (fun d => pow10 (- d))).
  rewrite (get_filter_key (Dict.mem (final_paths st))).
  now destruct (Dict.mem (final_paths st) u).
Qed.

(** The probabilities returned are [10 ** -d] for the distances [d] of the
    finalized nodes other than the source. *)
Lemma final_dist_spec u x :
  Dict.get (final_dist st) u = Some x <->
  u <> source /\ exists d, Dict.get (dist st) u = Some d /\ x = pow10 (- d).
Proof.
  rewrite final_dist_get. split.
  - destruct (Dict.mem (final_paths st) u) eqn:Hm; [|discriminate].
    apply final_paths_mem in Hm. destruct Hm as (Hne & d & Hd).
    rewrite Hd. simpl. intros [= <-]. eauto.
  - intros (Hne & d & Hd & ->).
    assert (Hm : Dict.mem (final_paths st) u = true) by (apply final_paths_mem; eauto).
    rewrite Hm, Hd. reflexivity.
Qed.

Lemma final_dist_keys u :
  In u (Dict.keys (final_dist st)) <->
  u <> source /\ exists d, Dict.get (dist st) u = Some d.
Proof.
  rewrite keys_get. split.
  - intros [x Hx]. apply final_dist_spec in Hx. destruct Hx as (? & d & ? & _). eauto.
  - intros (Hne & d & Hd). exists (pow10 (- d)). apply final_dist_spec. eauto.
Qed.

Lemma final_paths_keys u :
  In u (Dict.keys (final_paths st)) <-> In u (Dict.keys (final_dist st)).
Proof.
  rewrite final_dist_keys, keys_get, <- mem_true. apply final_paths_mem.
Qed.

Lemma final_dist_nodup : NoDup (Dict.keys (final_dist st)).
Proof.
  unfold final_dist. rewrite (keys_map_val (fun d => pow10 (- d))).
  rewrite (keys_filter_key (Dict.mem (final_paths st))).
  apply NoDup_filter. exact (inv_nodup_dist I).
Qed.

(** No finalized distance exceeds the cutoff distance. *)
Lemma final_dist_cutoff D u d :
  cutoff = Some D -> Dict.get (dist st) u = Some d -> d <= D.
Proof.
  intros HD Hd. destruct (inv_cutoff I D HD) as (_ & _ & Hs).
  apply (Hs u). exact (inv_dist_seen I _ _ Hd).
Qed.

End FinalState.

(** ** The cutoff *)

Lemma convert_cutoff_zero : convert_cutoff 0 = Ok None.
Proof.
  unfold convert_cutoff.
  destruct (Rlt_dec 0 0); [lra|]. destruct (Rgt_dec 0 1); [lra|].
  destruct (Req_dec_T 0 0); [reflexivity|lra].
Qed.

Lemma convert_cutoff_pos cutoff :
  0 < cutoff <= 1 -> convert_cutoff cutoff = Ok (Some (- log10 cutoff)).
Proof.
  intros [H0 H1]. unfold convert_cutoff.
  destruct (Rlt_dec cutoff 0); [lra|]. destruct (Rgt_dec cutoff 1); [lra|].
  destruct (Req_dec_T cutoff 0); [lra|reflexivity].
Qed.

Lemma convert_cutoff_range cutoff :
  0 <= cutoff <= 1 ->
  exists D, convert_cutoff cutoff = Ok D /\ forall D', D = Some D' -> 0 <= D'.
Proof.
  intros [H0 H1]. destruct (Req_dec_T cutoff 0) as [->|Hne].
  - exists None. split; [apply convert_cutoff_zero | discriminate].
  - exists (Some (- log10 cutoff)). split; [apply convert_cutoff_pos; lra|].
    intros D' [= <-]. pose proof (log10_nonpos cutoff). lra.
Qed.

Lemma convert_cutoff_error cutoff e :
  convert_cutoff cutoff = Raise e -> e <> contradictory.
Proof.
  unfold convert_cutoff, contradictory.
  destruct (Rlt_dec cutoff 0); [intros [= <-]; discriminate|].
  destruct (Rgt_dec cutoff 1); [intros [= <-]; discriminate|].
  destruct (Req_dec_T cutoff 0); discriminate.
Qed.

(** ** The search as a whole *)

(** On a graph whose weights are probabilities the search returns, and its
    last state satisfies the invariant with an empty fringe. *)
Lemma dijkstra_search_total G source weight cutoff :
  closed_graph G -> unit_weights G weight ->
  Dict.mem (_succ G) source = true -> 0 <= cutoff <= 1 ->
  exists D st m,
    convert_cutoff cutoff = Ok D /\
    dijkstra_search G source weight cutoff None = Ok st /\
    search_inv G weight D source m st /\ fringe st = [].
Proof.
  intros Hc Hu Hs Hr.
  destruct (convert_cutoff_range cutoff Hr) as (D & HD & HD0).
  destruct (search_total G weight D source Hc Hu Hs HD0) as (st & m & Hw & I & Hf).
  exists D, st, m. unfold dijkstra_search. rewrite HD. cbn [bind]. auto.
Qed.

Lemma final_source G weight cutoff source m st :
  search_inv G weight cutoff source m st -> fringe st = [] ->
  Dict.get (dist st) source = Some 0 /\ Dict.get (paths st) source = Some [source].
Proof.
  intros I Hf. assert (Hd : Dict.get (dist st) source = Some 0).
  { destruct (inv_start I) as [H|H]; auto. subst st. discriminate. }
  split; auto. pose proof (inv_dist_seen I _ _ Hd) as Hs.
  destruct (inv_seen_paths I _ _ Hs) as [(_ & _ & H)|(Hne & _)]; tauto.
Qed.

(** The search from a node that is not in the graph fails on the lookup
    of its successors. *)
Lemma search_source_missing G source weight D :
  Dict.mem (_succ G) source = false ->
  while G weight D None (search_fuel G) (init_state source) = Raise (KeyError source).
Proof.
  intros Hm. apply mem_false in Hm. unfold search_fuel.
  cbn [Nat.add while]. unfold body at 1. cbn [init_state fringe heappop dist].
  cbn [Dict.mem Dict.get is_target]. unfold getitem. rewrite Hm. reflexivity.
Qed.

Lemma for_each_raise {A S : Type} (l1 : list A) x l2 (f : S -> A -> result S) s s1 e :
  for_each l1 f s = Ok s1 -> f s1 x = Raise e ->
  for_each (l1 ++ x :: l2) f s = Raise e.
Proof.
  revert s. induction l1 as [|y l1 IH]; simpl; intros s H Hx.
  - injection H as ->. now rewrite Hx.
  - destruct (f s y) as [s'|]; simpl in *; [eauto|discriminate].
Qed.

(** The relaxation of a finalized node to a smaller distance raises. *)
Lemma relax_contradictory weight cutoff v u e st path_v dist_v u_dist :
  Dict.get (paths st) v = Some path_v -> (1 <= List.length path_v)%nat ->
  Dict.get (dist st) v = Some dist_v ->
  Dict.get (dist st) u = Some u_dist ->
  (forall D, cutoff = Some D -> u_dist <= D) ->
  candidate dist_v (weight_function weight e) (List.length path_v) < u_dist ->
  relax weight cutoff v st (u, e) = Raise contradictory.
Proof.
  intros Hp Hl Hv Hu HD Hlt. unfold relax, getitem. rewrite Hp, Hv. cbn [bind].
  destruct (List.length path_v =? 0)%nat eqn:E0; [apply Nat.eqb_eq in E0; lia|].
  assert (Hoc : over_cutoff cutoff
                  (candidate dist_v (weight_function weight e) (List.length path_v))
                = false).
  { unfold over_cutoff. destruct cutoff as [D|]; auto.
    specialize (HD D eq_refl). destruct (Rgt_dec _ D); [lra|reflexivity]. }
  rewrite Hoc, Hu. destruct (Rlt_dec _ u_dist); [reflexivity|lra].
Qed.

(** ** The example graph *)

Lemma log10_tenth : log10 (1 / 10) = -1.
Proof.
  unfold log10, Rlog. replace (1 / 10) with (/ 10) by field.
  rewrite ln_Rinv by lra. field. pose proof ln10_pos. lra.
Qed.

Lemma log10_half : -1 < log10 (1 / 2) < 0.
Proof.
  split.
  - rewrite <- log10_tenth. apply log10_lt; lra.
  - rewrite <- log10_1. apply log10_lt; lra.
Qed.

Lemma graph_AB_edge v u e :
  has_edge_data graph_AB v u e -> v = "A" /\ u = "B" /\ e = [("weight", 1 / 2)].
Proof.
  intros (nbrs & Hg & Hin). unfold graph_AB in Hg. cbn [_succ Dict.get] in Hg.
  destruct (String.eqb v "A") eqn:EA.
  - apply String.eqb_eq in EA. injection Hg as <-.
    destruct Hin as [Hin|[]]. injection Hin as <- <-. auto.
  - destruct (String.eqb v "B"); [|discriminate]. injection Hg as <-. destruct Hin.
Qed.

Lemma graph_AB_closed : closed_graph graph_AB.
Proof.
  intros v u e He. apply graph_AB_edge in He. destruct He as (_ & -> & _). reflexivity.
Qed.

Lemma graph_AB_unit : unit_weights graph_AB "weight".
Proof.
  intros v u e w He Hw. apply graph_AB_edge in He. destruct He as (_ & _ & ->).
  cbn in Hw. injection Hw as <-. lra.
Qed.

Ltac run_search :=
  cbn -[Rplus Rminus Rmult Rdiv Ropp Rinv INR IZR log10 pow10
        Rgt_dec Rlt_dec Req_dec_T weight_function candidate].

Lemma candidate_AB :
  candidate 0 (weight_function "weight" [("weight", 1 / 2)]) 1 = - log10 (1 / 2).
Proof.
  unfold candidate, weight_function. cbn [Nat.ltb Nat.leb Dict.get String.eqb Ascii.eqb Bool.eqb].
  simpl INR. replace (1 / 1) with 1 by field. rewrite log10_1. ring.
Qed.

Lemma search_AB_cutoff_one :
  dijkstra_prob_length graph_AB "A" "weight" 1 None = Ok ([], []).
Proof.
  unfold dijkstra_prob_length, dijkstra_search.
  rewrite convert_cutoff_pos by lra. run_search. rewrite candidate_AB.
  pose proof log10_half as Hh. pose proof log10_1 as H1.
  destruct (Rgt_dec (- log10 (1 / 2)) (- log10 1)); [|lra].
  run_search. reflexivity.
Qed.

Lemma search_AB_no_limit :
  dijkstra_prob_length graph_AB "A" "weight" 0 None
  = Ok ([("B", ["A"; "B"])], [("B", 1 / 2)]).
Proof.
  unfold dijkstra_prob_length, dijkstra_search.
  rewrite convert_cutoff_zero. run_search. rewrite candidate_AB.
  run_search. rewrite Ropp_involutive, pow10_log10 by lra. reflexivity.
Qed.

(** ** The example network with four genes *)

Lemma log10_mult x y : 0 < x -> 0 < y -> log10 (x * y) = log10 x + log10 y.
Proof.
  intros Hx Hy. unfold log10, Rlog. rewrite ln_mult by auto. field.
  pose proof ln10_pos. lra.
Qed.

Lemma graph_fork_edge v u e :
  has_edge_data graph_fork v u e ->
  (v = "A" /\ u = "C" /\ e = [("weight", 1 / 2)]) \/
  (v = "A" /\ u = "B" /\ e = [("weight", 9 / 10)]) \/
  (v = "B" /\ u = "D" /\ e = [("weight", 9 / 10)]).
Proof.
  intros (nbrs & Hg & Hin). unfold graph_fork in Hg. cbn [_succ Dict.get] in Hg.
  destruct (String.eqb v "A") eqn:EA.
  { apply String.eqb_eq in EA. injection Hg as <-.
    destruct Hin as [Hin|[Hin|[]]]; injection Hin as <- <-; auto. }
  destruct (String.eqb v "C"). { injection Hg as <-. destruct Hin. }
  destruct (String.eqb v "B") eqn:EB.
  { apply String.eqb_eq in EB. injection Hg as <-.
    destruct Hin as [Hin|[]]. injection Hin as <- <-. auto. }
  destruct (String.eqb v "D"); [|discriminate]. injection Hg as <-. destruct Hin.
Qed.

Lemma graph_fork_closed : closed_graph graph_fork.
Proof.
  intros v u e He. apply graph_fork_edge in He.
  destruct He as [(_ & -> & _)|[(_ & -> & _)|(_ & -> & _)]]; reflexivity.
Qed.

Lemma graph_fork_unit : unit_weights graph_fork "weight".
Proof.
  intros v u e w He Hw. apply graph_fork_edge in He.
  destruct He as [(_ & _ & ->)|[(_ & _ & ->)|(_ & _ & ->)]];
    cbn in Hw; injection Hw as <-; lra.
Qed.

Lemma candidate_fork_B :
  candidate 0 (weight_function "weight" [("weight", 9 / 10)]) 1 = - log10 (9 / 10).
Proof.
  unfold candidate, weight_function. cbn [Nat.ltb Nat.leb Dict.get String.eqb Ascii.eqb Bool.eqb].
  simpl INR. replace (1 / 1) with 1 by field. rewrite log10_1. ring.
Qed.

Lemma candidate_fork_D :
  candidate (- log10 (9 / 10)) (weight_function "weight" [("weight", 9 / 10)]) 2
  = - log10 (81 / 200).
Proof.
  unfold candidate, weight_function.
  cbn [Nat.ltb Nat.leb Dict.get String.eqb Ascii.eqb Bool.eqb Nat.sub].
  simpl INR. replace (1 / 1) with 1 by field. replace (1 + 1) with 2 by ring.
  replace (81 / 200) with (9 / 10 * (9 / 10 * (1 / 2))) by field.
  rewrite !log10_mult, log10_1 by lra. ring.
Qed.

(** The logarithms that the searches on [graph_fork] compare. *)
Lemma log10_fork :
  log10 (1 / 4) < log10 (81 / 200) /\ log10 (81 / 200) < log10 (1 / 2) /\
  log10 (1 / 2) < log10 0.6 /\ log10 0.6 < log10 (9 / 10).
Proof. repeat split; apply log10_lt; lra. Qed.

(** With the cutoff 0.6 the search from [A] reaches [B] only: the edge to
    [C] and the path to [D] are below the cutoff. *)
Lemma search_fork :
  dijkstra_prob_length graph_fork "A" "weight" 0.6 None
  = Ok ([("B", ["A"; "B"])], [("B", 9 / 10)]).
Proof.
  unfold dijkstra_prob_length, dijkstra_search.
  rewrite convert_cutoff_pos by lra. run_search.
  rewrite candidate_AB.
  destruct log10_fork as (L1 & L2 & L3 & L4).
  destruct (Rgt_dec (- log10 (1 / 2)) (- log10 0.6)); [|lra].
  run_search. rewrite candidate_fork_B.
  destruct (Rgt_dec (- log10 (9 / 10)) (- log10 0.6)); [lra|].
  run_search. rewrite candidate_fork_D.
  destruct (Rgt_dec (- log10 (81 / 200)) (- log10 0.6)); [|lra].
  run_search. rewrite Ropp_involutive, pow10_log10 by lra. reflexivity.
Qed.

(** With the cutoff 1/4 it reaches the three other genes, the most probable
    first: [B], then [C], which was seen first, then [D]. *)
Lemma search_fork_quarter :
  dijkstra_prob_length graph_fork "A" "weight" (1 / 4) None
  = Ok ([("C", ["A"; "C"]); ("B", ["A"; "B"]); ("D", ["A"; "B"; "D"])],
        [("B", 9 / 10); ("C", 1 / 2); ("D", 81 / 200)]).
Proof.
  unfold dijkstra_prob_length, dijkstra_search.
  rewrite convert_cutoff_pos by lra. run_search.
  rewrite candidate_AB.
  destruct log10_fork as (L1 & L2 & L3 & L4).
  destruct (Rgt_dec (- log10 (1 / 2)) (- log10 (1 / 4))); [lra|].
  run_search. rewrite candidate_fork_B.
  destruct (Rgt_dec (- log10 (9 / 10)) (- log10 (1 / 4))); [lra|].
  run_search.
  unfold body at 1. cbn [fringe heappop]. unfold entry_lt.
  destruct (Rlt_dec (- log10 (9 / 10)) (- log10 (1 / 2))); [|lra].
  run_search. rewrite candidate_fork_D.
  destruct (Rgt_dec (- log10 (81 / 200)) (- log10 (1 / 4))); [lra|].
  run_search.
  unfold body at 1. cbn [fringe heappop]. unfold entry_lt.
  destruct (Rlt_dec (- log10 (81 / 200)) (- log10 (1 / 2))); [lra|].
  destruct (Rlt_dec (- log10 (1 / 2)) (- log10 (81 / 200))); [|lra].
  run_search. rewrite !Ropp_involutive, !pow10_log10 by lra. reflexivity.
Qed.

(** ** A search that raises *)

Lemma log10_10 : log10 10 = 1.
Proof. unfold log10, Rlog. field. pose proof ln10_pos. lra. Qed.

Lemma candidate_tenth :
  candidate 0 (weight_function "weight" [("weight", 1 / 10)]) 1 = 1.
Proof.
  unfold candidate, weight_function.
  cbn [Nat.ltb Nat.leb Dict.get String.eqb Ascii.eqb Bool.eqb].
  simpl INR. replace (1 / 1) with 1 by field. rewrite log10_1, log10_tenth. ring.
Qed.

Lemma candidate_back :
  candidate 1 (weight_function "weight" [("weight", 10)]) 2 = - log10 (1 / 2).
Proof.
  unfold candidate, weight_function.
  cbn [Nat.ltb Nat.leb Dict.get String.eqb Ascii.eqb Bool.eqb Nat.sub].
  simpl INR. replace (1 / 1) with 1 by field. replace (1 + 1) with 2 by ring.
  rewrite log10_1, log10_10. ring.
Qed.

(** With a weight above 1 the search does run into the contradiction: [B]
    is finalized at distance 1 before the edge of negative cost from [C]
    offers a smaller one. *)
Lemma search_pathological :
  dijkstra_prob_length graph_pathological "A" "weight" 0 None = Raise contradictory.
Proof.
  unfold dijkstra_prob_length, dijkstra_search.
  rewrite convert_cutoff_zero. run_search. rewrite !candidate_tenth.
  unfold body at 1. cbn [fringe heappop]. unfold entry_lt.
  destruct (Rlt_dec 1 1); [lra|]. run_search.
  rewrite candidate_back. pose proof log10_half.
  destruct (Rlt_dec (- log10 (1 / 2)) 1); [|lra]. reflexivity.
Qed.

(** ** Claims on the search *)

(** C1 (as stated, refuted).  A cutoff of exactly 1 does not disable the
    filtering: on the graph with the single edge [A -> B] of probability
    1/2 the search with cutoff 1 reaches nothing, while the search without
    a limit (cutoff 0) reaches [B] with probability 1/2. *)
Lemma cutoff_one_still_filters :
  dijkstra_prob_length graph_AB "A" "weight" 1 None = Ok ([], []) /\
  dijkstra_prob_length graph_AB "A" "weight" 0 None
  = Ok ([("B", ["A"; "B"])], [("B", 1 / 2)]).
Proof.
  split; [apply search_AB_cutoff_one | apply search_AB_no_limit].
Qed.

(** C1 (amended).  A cutoff [c] in (0, 1] is converted to the maximal
    distance [D = -log10 c]; it is the cutoff 0 that disables the filtering,
    and the cutoff 1 gives the distance 0.  A candidate distance greater than
    [D] is discarded: the relaxation leaves the state as it is, and every
    node the search returns has a distance of at most [D], that is a
    probability of at least [c]. *)
Theorem cutoff_conversion G source weight cutoff :
  closed_graph G -> unit_weights G weight ->
  Dict.mem (_succ G) source = true -> 0 < cutoff <= 1 ->
  convert_cutoff 0 = Ok None /\
  convert_cutoff 1 = Ok (Some 0) /\
  convert_cutoff cutoff = Ok (Some (- log10 cutoff)) /\
  (forall v st u e path_v dist_v,
     Dict.get (paths st) v = Some path_v -> (1 <= List.length path_v)%nat ->
     Dict.get (dist st) v = Some dist_v ->
     candidate dist_v (weight_function weight e) (List.length path_v) > - log10 cutoff ->
     relax weight (Some (- log10 cutoff)) v st (u, e) = Ok st) /\
  exists st paths_out dist_out,
    dijkstra_search G source weight cutoff None = Ok st /\
    dijkstra_prob_length G source weight cutoff None = Ok (paths_out, dist_out) /\
    (forall u d, Dict.get (dist st) u = Some d -> d <= - log10 cutoff) /\
    (forall u p, Dict.get dist_out u = Some p -> cutoff <= p).
Proof.
  intros Hc Hu Hs Hr. split; [apply convert_cutoff_zero|].
  split. { rewrite convert_cutoff_pos by lra. rewrite log10_1. do 2 f_equal. lra. }
  split; [now apply convert_cutoff_pos|]. split.
  - intros v st u e path_v dist_v Hp Hl Hd Hgt.
    unfold relax, getitem. rewrite Hp, Hd. cbn [bind].
    destruct (List.length path_v =? 0)%nat eqn:E0; [apply Nat.eqb_eq in E0; lia|].
    unfold over_cutoff. destruct (Rgt_dec _ _); [reflexivity|contradiction].
  - destruct (dijkstra_search_total G source weight cutoff Hc Hu Hs)
      as (D & st & m & HD & Hrun & I & Hf); [lra|].
    rewrite convert_cutoff_pos in HD by auto. injection HD as <-.
    exists st, (final_paths st), (final_dist st).
    split; auto. split. { unfold dijkstra_prob_length. now rewrite Hrun. }
    split. { intros u d. now apply (final_dist_cutoff _ _ _ _ _ _ I). }
    intros u p Hp. apply (final_dist_spec _ _ _ _ _ _ I Hf) in Hp.
    destruct Hp as (_ & d & Hd & ->).
    pose proof (final_dist_cutoff _ _ _ _ _ _ I _ u d eq_refl Hd) as Hle.
    rewrite <- (pow10_log10 cutoff) at 1 by lra. apply pow10_le. lra.
Qed.

Lemma cutoff_conversion_witness :
  exists st paths_out dist_out,
    dijkstra_search graph_AB "A" "weight" (1 / 2) None = Ok st /\
    dijkstra_prob_length graph_AB "A" "weight" (1 / 2) None = Ok (paths_out, dist_out) /\
    (forall u d, Dict.get (dist st) u = Some d -> d <= - log10 (1 / 2)) /\
    (forall u p, Dict.get dist_out u = Some p -> 1 / 2 <= p).
Proof.
  apply (cutoff_conversion graph_AB "A" "weight" (1 / 2)).
  - exact graph_AB_closed.
  - exact graph_AB_unit.
  - reflexivity.
  - lra.
Defined.

(** C9.  When the relaxation of an edge finds, for a node already
    finalized, a distance smaller than its final one, the search stops with
    the exception [contradictory], which no caller catches; on a graph whose
    weights all lie in (0, 1] the search never raises it, whatever the source
    and the cutoff. *)
Theorem contradictory_paths :
  (forall G weight cutoff target fuel st d k v fr l1 u e l2 s1 path_v u_dist,
     heappop (fringe st) = Some ((d, k, v), fr) ->
     Dict.mem (dist st) v = false ->
     is_target target v = false ->
     Dict.get (_succ G) v = Some (l1 ++ (u, e) :: l2) ->
     for_each l1 (relax weight cutoff v)
       (mkState (Dict.set (dist st) v d) (seen st) (paths st) fr (c st)) = Ok s1 ->
     Dict.get (paths s1) v = Some path_v -> (1 <= List.length path_v)%nat ->
     Dict.get (dist s1) u = Some u_dist ->
     (forall D, cutoff = Some D -> u_dist <= D) ->
     candidate d (weight_function weight e) (List.length path_v) < u_dist ->
     while G weight cutoff target (S fuel) st = Raise contradictory) /\
  (forall G weight source cutoff,
     closed_graph G -> unit_weights G weight ->
     dijkstra_search G source weight cutoff None <> Raise contradictory /\
     dijkstra_prob_length G source weight cutoff None <> Raise contradictory).
Proof.
  split.
  - intros G weight cutoff target fuel st d k v fr l1 u e l2 s1 path_v u_dist
           Hp Hm Ht Hg Hl1 Hpv Hlen Hu HD Hlt.
    cbn [while]. unfold body. rewrite Hp, Hm, Ht. unfold getitem. rewrite Hg.
    cbn [bind]. unfold Dict.items.
    rewrite (for_each_raise l1 (u, e) l2 _ _ s1 contradictory Hl1); [reflexivity|].
    apply for_each_relax_frame in Hl1. destruct Hl1 as [Hd _]. cbn [dist] in Hd.
    eapply relax_contradictory; eauto.
    rewrite Hd. apply get_set_same.
  - intros G weight source cutoff Hc Hw.
    assert (H : dijkstra_search G source weight cutoff None <> Raise contradictory).
    { unfold dijkstra_search.
      destruct (convert_cutoff cutoff) as [D|e0] eqn:HD0; cbn [bind].
      2:{ intros [= ->]. now apply convert_cutoff_error in HD0. }
      destruct (Dict.mem (_succ G) source) eqn:Hs.
      - assert (H0 : forall D', D = Some D' -> 0 <= D').
        { intros D' ->. revert HD0. unfold convert_cutoff.
          destruct (Rlt_dec cutoff 0); [discriminate|].
          destruct (Rgt_dec cutoff 1); [discriminate|].
          destruct (Req_dec_T cutoff 0); [discriminate|].
          intros [= <-]. pose proof (log10_nonpos cutoff). lra. }
        destruct (search_total G weight D source Hc Hw Hs H0) as (st' & m & -> & _).
        discriminate.
      - rewrite search_source_missing by auto. discriminate. }
    split; auto. unfold dijkstra_prob_length.
    destruct (dijkstra_search G source weight cutoff None); cbn [bind]; congruence.
Qed.

Lemma contradictory_paths_witness :
  while graph_pathological "weight" None None 1 state_before_C = Raise contradictory /\
  dijkstra_prob_length graph_AB "A" "weight" 0.6 None <> Raise contradictory.
Proof.
  destruct contradictory_paths as [H1 H2]. split.
  - apply (H1 graph_pathological "weight" None None 0%nat state_before_C
              1 2%nat "C" [] [] "B" [("weight", 10)] []
              (mkState [("A", 0); ("B", 1); ("C", 1)] [("A", 0); ("B", 1); ("C", 1)]
                 [("A", ["A"]); ("B", ["A"; "B"]); ("C", ["A"; "C"])] [] 3)
              ["A"; "C"] 1).
    + reflexivity.
    + reflexivity.
    + reflexivity.
    + reflexivity.
    + reflexivity.
    + reflexivity.
    + simpl. lia.
    + reflexivity.
    + discriminate.
    + change (List.length ["A"; "C"]) with 2%nat. rewrite candidate_back.
      pose proof log10_half. lra.
  - apply (H2 graph_AB "weight" "A" 0.6 graph_AB_closed graph_AB_unit).
Defined.

(** ** Lowering the cutoff *)

Arguments sim_dist {D s1 s2}.
Arguments sim_fringe {D s1 s2}.
Arguments sim_seen {D s1 s2}.
Arguments sim_unseen {D s1 s2}.

Lemma entry_lt_counter a b :
  entry_lt a b = true -> ent_d a < ent_d b \/ (ent_c a < ent_c b)%nat.
Proof.
  destruct a as [[d1 c1] n1], b as [[d2 c2] n2]. unfold entry_lt, ent_d, ent_c. simpl.
  destruct (Rlt_dec d1 d2); [auto|].
  destruct (Rlt_dec d2 d1); [discriminate|].
  intros H. apply Nat.ltb_lt in H. auto.
Qed.

(** On a fringe kept in push order [heappop] takes the leftmost entry of
    least distance. *)
Lemma heappop_leftmost h m r :
  StronglySorted counter_lt h -> heappop h = Some (m, r) ->
  exists l1 l2, h = l1 ++ m :: l2 /\ r = l1 ++ l2 /\
    (forall x, In x l1 -> ent_d m < ent_d x) /\
    (forall x, In x l2 -> ent_d m <= ent_d x).
Proof.
  revert m r. induction h as [|x h IH]; simpl; intros m r Hs H; [discriminate|].
  inversion Hs as [|? ? Hs' Hf]; subst. rewrite Forall_forall in Hf.
  destruct (heappop h) as [[m' r']|] eqn:E.
  - destruct (IH _ _ Hs' eq_refl) as (l1 & l2 & -> & -> & H1 & H2).
    destruct (entry_lt m' x) eqn:L.
    + injection H as <- <-. exists (x :: l1), l2. repeat split; auto.
      intros y [<-|Hy]; auto.
      apply entry_lt_counter in L. destruct L as [L|L]; auto.
      assert (Hx : counter_lt x m') by (apply Hf, in_or_app; right; now left).
      unfold counter_lt in Hx. lia.
    + injection H as <- <-. exists [], (l1 ++ m' :: l2). repeat split; auto.
      * intros y [].
      * apply entry_lt_false in L. intros y Hy. apply in_app_or in Hy.
        destruct Hy as [Hy|[<-|Hy]]; auto.
        -- specialize (H1 y Hy). lra.
        -- specialize (H2 y Hy). lra.
  - injection H as <- <-. apply heappop_None in E. subst.
    exists [], []. repeat split; auto; intros y [].
Qed.

Lemma heappop_at l1 m l2 :
  (forall x, In x l1 -> ent_d m < ent_d x) ->
  (forall x, In x l2 -> ent_d m <= ent_d x) ->
  (forall x, In x l2 -> (ent_c m < ent_c x)%nat) ->
  heappop (l1 ++ m :: l2) = Some (m, l1 ++ l2).
Proof.
  intros H1 H2 Hc. induction l1 as [|x l1 IH]; simpl.
  - destruct (heappop l2) as [[m' r']|] eqn:E.
    + assert (Hin : In m' l2) by (apply (heappop_In _ _ _ _ E); now left).
      specialize (H2 _ Hin). specialize (Hc _ Hin).
      destruct (entry_lt m' m) eqn:L; auto.
      apply entry_lt_counter in L. destruct L; [lra|lia].
    + apply heappop_None in E. now subst.
  - rewrite IH by (intros y Hy; apply H1; now right).
    assert (Hx : ent_d m < ent_d x) by (apply H1; now left).
    destruct m as [[d1 c1] n1], x as [[d2 c2] n2]. unfold entry_lt, ent_d in *. simpl in *.
    destruct (Rlt_dec d1 d2); [reflexivity|lra].
Qed.

Lemma StronglySorted_app_inv {A : Type} (R : A -> A -> Prop) l1 x l2 :
  StronglySorted R (l1 ++ x :: l2) -> forall y, In y l2 -> R x y.
Proof.
  induction l1 as [|a l1 IH]; simpl; intros H.
  - inversion H as [|? ? _ Hf]; subst. now rewrite Forall_forall in Hf.
  - inversion H; subst. auto.
Qed.

Lemma within_true D x : within D x = true <-> ent_d x <= D.
Proof.
  unfold within. destruct (Rle_dec (ent_d x) D); split; intros H;
    auto; try discriminate; try contradiction.
Qed.

Lemma within_false D x : within D x = false <-> D < ent_d x.
Proof.
  unfold within. destruct (Rle_dec (ent_d x) D); split; intros H;
    auto; try discriminate; lra.
Qed.

(** The filtered image of a list splits where the image splits. *)
Lemma filter_erase_split D f1 a2 m2 b2 :
  map erase (filter (within D) f1) = map erase (a2 ++ m2 :: b2) ->
  exists a1 m1 b1,
    f1 = a1 ++ m1 :: b1 /\ within D m1 = true /\ erase m1 = erase m2 /\
    map erase (filter (within D) a1) = map erase a2 /\
    map erase (filter (within D) b1) = map erase b2.
Proof.
  revert a2. induction f1 as [|x f1 IH]; simpl; intros a2 H.
  - destruct a2; discriminate.
  - destruct (within D x) eqn:W.
    + destruct a2 as [|y a2]; simpl in H.
      * injection H as Hd Hn Hr. exists [], x, f1. simpl.
        repeat split; auto. unfold erase. congruence.
      * injection H as Hd Hn Hr.
        destruct (IH _ Hr) as (a1 & m1 & b1 & -> & ? & ? & Ha & ?).
        exists (x :: a1), m1, b1. simpl. rewrite W. simpl. rewrite Ha.
        repeat split; auto. f_equal. unfold erase. congruence.
    + destruct (IH _ H) as (a1 & m1 & b1 & -> & ? & ? & Ha & ?).
      exists (x :: a1), m1, b1. simpl. rewrite W. auto.
Qed.

Lemma erase_filter_In D l1 l2 x :
  map erase (filter (within D) l1) = map erase l2 ->
  In x l1 -> within D x = true -> exists y, In y l2 /\ ent_d y = ent_d x.
Proof.
  intros H Hin W.
  assert (Hx : In (erase x) (map erase l2)).
  { rewrite <- H. apply in_map, filter_In. auto. }
  apply in_map_iff in Hx. destruct Hx as (y & Hy & Hin').
  exists y. split; auto. unfold erase in Hy. congruence.
Qed.

(** The two fringes pop the same node at the same distance. *)
Lemma pop_sim D f1 f2 d k2 v r2 :
  StronglySorted counter_lt f1 -> StronglySorted counter_lt f2 ->
  fringe_sim D f1 f2 ->
  heappop f2 = Some ((d, k2, v), r2) ->
  exists k1 r1, heappop f1 = Some ((d, k1, v), r1) /\ fringe_sim D r1 r2.
Proof.
  intros S1 S2 Hsim Hp.
  destruct (heappop_leftmost _ _ _ S2 Hp) as (a2 & b2 & -> & -> & Ha2 & Hb2).
  destruct (filter_erase_split _ _ _ _ _ Hsim) as (a1 & m1 & b1 & -> & W & He & Ha & Hb).
  destruct m1 as [[d1 k1] v1]. unfold erase in He. proj_simpl.
  injection He as -> ->. exists k1, (a1 ++ b1).
  apply within_true in W. proj_simpl. split.
  - apply heappop_at; proj_simpl.
    + intros x Hx. destruct (within D x) eqn:Wx.
      * destruct (erase_filter_In _ _ _ _ Ha Hx Wx) as (y & Hy & <-).
        apply (Ha2 y Hy).
      * apply within_false in Wx. lra.
    + intros x Hx. destruct (within D x) eqn:Wx.
      * destruct (erase_filter_In _ _ _ _ Hb Hx Wx) as (y & Hy & <-).
        apply (Hb2 y Hy).
      * apply within_false in Wx. lra.
    + intros x Hx. apply (StronglySorted_app_inv _ _ _ _ S1 x Hx).
  - unfold fringe_sim. rewrite filter_app, !map_app. congruence.
Qed.

Section LowerCutoff.

Variable G : DiGraph.
Variable weight : string.
Variable source : node.
Variable cutoff1 : option R.
Variable D2 : R.
Hypothesis Hclosed : closed_graph G.
Hypothesis Hunit : unit_weights G weight.
Hypothesis Hsource : Dict.mem (_succ G) source = true.
Hypothesis Hcut1 : forall D, cutoff1 = Some D -> 0 <= D.
Hypothesis HD2 : 0 <= D2.
Hypothesis Hweaker : forall x, over_cutoff cutoff1 x = true -> D2 < x.

Local Abbreviation Inv1 := (search_inv G weight cutoff1 source).
Local Abbreviation Inv2 := (search_inv G weight (Some D2) source).

Lemma cutoff2_nonneg : forall D, Some D2 = Some D -> 0 <= D.
Proof. intros D [= <-]. exact HD2. Qed.

Lemma pushed_sim s1 s2 x u pv :
  sim D2 s1 s2 -> x <= D2 ->
  sim D2
    (mkState (dist s1) (Dict.set (seen s1) u x) (Dict.set (paths s1) u (pv ++ [u]))
       (heappush (fringe s1) (x, c s1, u)) (S (c s1)))
    (mkState (dist s2) (Dict.set (seen s2) u x) (Dict.set (paths s2) u (pv ++ [u]))
       (heappush (fringe s2) (x, c s2, u)) (S (c s2))).
Proof.
  intros S Hx. constructor; proj_simpl.
  - exact (sim_dist S).
  - unfold fringe_sim, heappush. rewrite filter_app, !map_app. cbn [filter].
    assert (W : within D2 (x, c s1, u) = true) by now apply within_true.
    rewrite W. rewrite (sim_fringe S). reflexivity.
  - intros u' x'. rewrite !get_set. destruct (String.eqb u u'); [auto|].
    apply (sim_seen S).
  - intros u' y. rewrite !get_set. destruct (String.eqb u u'); [discriminate|].
    apply (sim_unseen S).
Qed.

Lemma pushed_beyond_sim s1 s2 x u p :
  sim D2 s1 s2 -> D2 < x ->
  (forall y, Dict.get (seen s2) u = Some y -> False) ->
  sim D2
    (mkState (dist s1) (Dict.set (seen s1) u x) (Dict.set (paths s1) u p)
       (heappush (fringe s1) (x, c s1, u)) (S (c s1)))
    s2.
Proof.
  intros S Hx Hu. constructor; proj_simpl.
  - exact (sim_dist S).
  - unfold fringe_sim, heappush. rewrite filter_app. cbn [filter].
    assert (W : within D2 (x, c s1, u) = false) by now apply within_false.
    rewrite W, app_nil_r. exact (sim_fringe S).
  - intros u' x' Hs2. rewrite !get_set. destruct (String.eqb u u') eqn:E.
    + apply String.eqb_eq in E. subst u'. exfalso. eauto.
    + apply (sim_seen S _ _ Hs2).
  - intros u' y Hn. rewrite get_set. destruct (String.eqb u u').
    + intros [= <-]. exact Hx.
    + now apply (sim_unseen S).
Qed.

(** Relaxing the same edge in both searches keeps the two states related. *)
Lemma relax_sim v u e m s1 s2 s1' s2' :
  Inv1 m s1 -> Inv2 m s2 -> sim D2 s1 s2 ->
  Dict.get (dist s2) v = Some m ->
  relax weight cutoff1 v s1 (u, e) = Ok s1' ->
  relax weight (Some D2) v s2 (u, e) = Ok s2' ->
  sim D2 s1' s2'.
Proof.
  intros I1 I2 S Hv H1 H2.
  pose proof (inv_dist_seen I2 _ _ Hv) as Hsv2.
  destruct (sim_seen S _ _ Hsv2) as [Hsv1 Hpaths].
  destruct (inv_finalized_path _ _ _ _ _ _ _ _ I2 Hv) as (pv & Hpv & Hlen).
  destruct (inv_cutoff I2 D2 eq_refl) as (_ & _ & Hseen2).
  unfold relax, getitem in H1, H2.
  assert (Hv1 : Dict.get (dist s1) v = Some m) by now rewrite (sim_dist S).
  assert (Hu1 : Dict.get (dist s1) u = Dict.get (dist s2) u) by now rewrite (sim_dist S).
  rewrite Hpaths, Hpv, Hv1, Hu1 in H1. rewrite Hpv, Hv in H2. cbn [bind] in H1, H2.
  destruct (List.length pv =? 0)%nat; [discriminate|].
  set (x := candidate m (weight_function weight e) (List.length pv)) in *.
  unfold over_cutoff at 1 in H2.
  destruct (Rgt_dec x D2) as [Hgt|Hle].
  - injection H2 as <-.
    destruct (over_cutoff cutoff1 x); [injection H1 as <-; exact S|].
    destruct (Dict.get (dist s2) u) as [du|].
    { destruct (Rlt_dec x du); [discriminate|]. injection H1 as <-. exact S. }
    destruct (Dict.get (seen s1) u) as [y1|] eqn:Hs1.
    + destruct (Rlt_dec x y1); [|injection H1 as <-; exact S].
      injection H1 as <-. apply pushed_beyond_sim; auto.
      intros y Hy. destruct (sim_seen S _ _ Hy) as [Hy1 _].
      specialize (Hseen2 _ _ Hy). assert (y1 = y) by congruence. lra.
    + injection H1 as <-. apply pushed_beyond_sim; auto.
      intros y Hy. destruct (sim_seen S _ _ Hy) as [Hy1 _]. congruence.
  - destruct (over_cutoff cutoff1 x) eqn:Hoc.
    { apply Hweaker in Hoc. lra. }
    destruct (Dict.get (dist s2) u) as [du|].
    { destruct (Rlt_dec x du); [discriminate|].
      injection H1 as <-. injection H2 as <-. exact S. }
    destruct (Dict.get (seen s2) u) as [y2|] eqn:Hs2.
    + destruct (sim_seen S _ _ Hs2) as [Hs1 _]. rewrite Hs1 in H1.
      destruct (Rlt_dec x y2).
      * injection H1 as <-. injection H2 as <-. apply pushed_sim; auto. lra.
      * injection H1 as <-. injection H2 as <-. exact S.
    + injection H2 as <-.
      destruct (Dict.get (seen s1) u) as [y1|] eqn:Hs1.
      * pose proof (sim_unseen S _ _ Hs2 Hs1).
        destruct (Rlt_dec x y1); [|lra].
        injection H1 as <-. apply pushed_sim; auto. lra.
      * injection H1 as <-. apply pushed_sim; auto. lra.
Qed.

Lemma relax_all_sim v nbrs0 nbrs m :
  Dict.get (_succ G) v = Some nbrs0 -> incl nbrs nbrs0 ->
  forall s1 s2,
    Inv1 m s1 -> Inv2 m s2 -> sim D2 s1 s2 -> Dict.get (dist s2) v = Some m ->
    exists s1' s2',
      for_each nbrs (relax weight cutoff1 v) s1 = Ok s1' /\
      for_each nbrs (relax weight (Some D2) v) s2 = Ok s2' /\
      Inv1 m s1' /\ Inv2 m s2' /\ sim D2 s1' s2'.
Proof.
  intros Hg. induction nbrs as [|[u e] nbrs IH]; intros Hincl s1 s2 I1 I2 S Hv.
  - exists s1, s2. simpl. auto.
  - assert (He : has_edge_data G v u e).
    { exists nbrs0. split; auto. apply Hincl. now left. }
    assert (Hv1 : Dict.get (dist s1) v = Some m) by now rewrite (sim_dist S).
    destruct (relax_inv G weight cutoff1 source Hclosed Hunit v u e m s1 I1 Hv1 He)
      as (t1 & Hr1 & J1 & _).
    destruct (relax_inv G weight (Some D2) source Hclosed Hunit v u e m s2 I2 Hv He)
      as (t2 & Hr2 & J2 & Hv2).
    pose proof (relax_sim v u e m s1 s2 t1 t2 I1 I2 S Hv Hr1 Hr2) as S'.
    destruct (IH (fun y Hy => Hincl y (or_intror Hy)) t1 t2 J1 J2 S' Hv2)
      as (s1' & s2' & H1 & H2 & K).
    exists s1', s2'. cbn [for_each]. unfold node in *. rewrite Hr1, Hr2. cbn [bind]. auto.
Qed.

(** One turn of the loop in the search with the smaller budget is matched
    by one turn in the other. *)
Lemma body_sim m1 m2 s1 s2 s2' :
  Inv1 m1 s1 -> Inv2 m2 s2 -> sim D2 s1 s2 ->
  body G weight (Some D2) None s2 = Ok (Continue s2') ->
  exists s1' m1' m2',
    body G weight cutoff1 None s1 = Ok (Continue s1') /\
    Inv1 m1' s1' /\ Inv2 m2' s2' /\ sim D2 s1' s2'.
Proof.
  intros I1 I2 S H2. unfold body in H2.
  destruct (heappop (fringe s2)) as [[[[d k2] v] r2]|] eqn:Hp2; [|discriminate].
  destruct (pop_sim D2 _ _ _ _ _ _ (inv_sorted I1) (inv_sorted I2) (sim_fringe S) Hp2)
    as (k1 & r1 & Hp1 & Hr).
  assert (Hm1 : Dict.mem (dist s1) v = Dict.mem (dist s2) v) by now rewrite (sim_dist S).
  unfold body. rewrite Hp1, Hm1.
  destruct (Dict.mem (dist s2) v) eqn:Hm.
  - injection H2 as <-. eexists. exists m1, m2. split; [reflexivity|].
    split. { eapply skip_inv; eauto; congruence. }
    split. { eapply skip_inv; eauto. }
    constructor; proj_simpl; auto.
    + exact (sim_dist S).
    + exact (sim_seen S).
    + exact (sim_unseen S).
  - cbn [is_target] in *. unfold getitem in *.
    destruct (Dict.get (_succ G) v) as [nbrs|] eqn:Hg; cbn [bind] in *; [|discriminate].
    assert (J1 : Inv1 d (mkState (Dict.set (dist s1) v d) (seen s1) (paths s1) r1 (c s1))).
    { eapply finalize_inv; eauto; congruence. }
    assert (J2 : Inv2 d (mkState (Dict.set (dist s2) v d) (seen s2) (paths s2) r2 (c s2))).
    { eapply finalize_inv; eauto. }
    assert (S' : sim D2
                   (mkState (Dict.set (dist s1) v d) (seen s1) (paths s1) r1 (c s1))
                   (mkState (Dict.set (dist s2) v d) (seen s2) (paths s2) r2 (c s2))).
    { constructor; proj_simpl; auto.
      - now rewrite (sim_dist S).
      - exact (sim_seen S).
      - exact (sim_unseen S). }
    destruct (relax_all_sim v nbrs (Dict.items nbrs) d Hg (incl_refl _) _ _ J1 J2 S')
      as (t1 & t2 & H1 & Ht2 & K1 & K2 & KS).
    { proj_simpl. apply get_set_same. }
    rewrite Ht2 in H2. cbn [bind] in H2. injection H2 as <-.
    rewrite H1. cbn [bind]. exists t1, d, d. auto.
Qed.

(** The search with the smaller budget finalizes no node that the other
    search does not finalize. *)
Lemma while_sim fuel :
  forall s1 s2 m1 m2 s2',
    Inv1 m1 s1 -> Inv2 m2 s2 -> sim D2 s1 s2 -> (measure G s1 < fuel)%nat ->
    while G weight (Some D2) None fuel s2 = Ok s2' ->
    exists s1',
      while G weight cutoff1 None fuel s1 = Ok s1' /\
      forall u d, Dict.get (dist s2') u = Some d -> Dict.get (dist s1') u = Some d.
Proof.
  induction fuel as [|fuel IH]; intros s1 s2 m1 m2 s2' I1 I2 S Hmu H2; [lia|].
  cbn [while] in H2.
  destruct (body G weight (Some D2) None s2) as [[s2n|s2n]|] eqn:Hb2; [| |discriminate].
  - destruct (body_sim _ _ _ _ _ I1 I2 S Hb2) as (s1n & m1' & m2' & Hb1 & J1 & J2 & S').
    cbn [while]. rewrite Hb1. apply (IH s1n s2n m1' m2'); auto.
    pose proof (body_measure _ _ _ _ _ _ Hb1). lia.
  - injection H2 as <-.
    pose proof (body_inv G weight (Some D2) source Hclosed Hunit m2 s2 I2) as Hb.
    rewrite Hb2 in Hb. destruct Hb as [-> _].
    destruct (while_from_inv G weight cutoff1 source Hclosed Hunit (Datatypes.S fuel) s1 m1 I1 Hmu)
      as (s1' & m' & Hw & _ & _ & Hd).
    exists s1'. split; auto. intros u d Hu. apply Hd. now rewrite (sim_dist S).
Qed.

Lemma init_sim : sim D2 (init_state source) (init_state source).
Proof.
  constructor; proj_simpl; auto.
  - unfold fringe_sim. cbn [filter].
    assert (W : within D2 (0, 0%nat, source) = true) by now apply within_true.
    now rewrite W.
  - intros u y H1 H2. congruence.
Qed.

(** The nodes finalized under the maximal distance [D2] are finalized under
    the cutoff [cutoff1]. *)
Lemma search_lower_cutoff st1 st2 :
  while G weight cutoff1 None (search_fuel G) (init_state source) = Ok st1 ->
  while G weight (Some D2) None (search_fuel G) (init_state source) = Ok st2 ->
  forall u d, Dict.get (dist st2) u = Some d -> Dict.get (dist st1) u = Some d.
Proof.
  intros H1 H2.
  destruct (while_sim (search_fuel G) (init_state source) (init_state source) 0 0 st2)
    as (s1' & Hw & Hd); auto.
  - apply inv_init; auto.
  - apply inv_init; auto. apply cutoff2_nonneg.
  - apply init_sim.
  - unfold measure, search_fuel. proj_simpl. rewrite pending_edges_empty. simpl. lia.
  - rewrite H1 in Hw. injection Hw as <-. exact Hd.
Qed.

End LowerCutoff.

(** C5.  For a graph whose weights are probabilities, a source in the graph
    and two cutoffs [c1 < c2] in (0, 1], both searches return and every node
    reached with the cutoff [c2] is reached with the cutoff [c1]: lowering
    the cutoff removes no node. *)
Theorem lower_cutoff_reaches_more G source weight c1 c2 :
  closed_graph G -> unit_weights G weight ->
  Dict.mem (_succ G) source = true ->
  0 < c1 -> c1 < c2 -> c2 <= 1 ->
  exists out1 out2,
    dijkstra_prob_length G source weight c1 None = Ok out1 /\
    dijkstra_prob_length G source weight c2 None = Ok out2 /\
    incl (reached out2) (reached out1) /\
    incl (Dict.keys (fst out2)) (Dict.keys (fst out1)).
Proof.
  intros Hc Hu Hs H0 H12 H1.
  destruct (dijkstra_search_total G source weight c1 Hc Hu Hs)
    as (D1 & st1 & m1 & HD1 & Hrun1 & I1 & Hf1); [lra|].
  destruct (dijkstra_search_total G source weight c2 Hc Hu Hs)
    as (D2 & st2 & m2 & HD2 & Hrun2 & I2 & Hf2); [lra|].
  rewrite convert_cutoff_pos in HD1, HD2 by lra.
  injection HD1 as <-. injection HD2 as <-.
  assert (Hsub : forall u d, Dict.get (dist st2) u = Some d ->
                             Dict.get (dist st1) u = Some d).
  { unfold dijkstra_search in Hrun1, Hrun2.
    rewrite convert_cutoff_pos in Hrun1, Hrun2 by lra. cbn [bind] in Hrun1, Hrun2.
    assert (Hlog : log10 c1 < log10 c2) by (apply log10_lt; lra).
    pose proof (log10_nonpos c1) as L1. pose proof (log10_nonpos c2) as L2.
    apply (search_lower_cutoff G weight source (Some (- log10 c1)) (- log10 c2)
             Hc Hu Hs); auto.
    - intros D [= <-]. lra.
    - lra.
    - intros x. unfold over_cutoff. destruct (Rgt_dec x (- log10 c1)); [lra|discriminate]. }
  assert (Hreach : forall u, In u (Dict.keys (final_dist st2)) ->
                             In u (Dict.keys (final_dist st1))).
  { intros u Hin. apply (final_dist_keys _ _ _ _ _ _ I2 Hf2) in Hin.
    destruct Hin as (Hne & d & Hd).
    apply (final_dist_keys _ _ _ _ _ _ I1 Hf1). eauto. }
  exists (final_paths st1, final_dist st1), (final_paths st2, final_dist st2).
  unfold dijkstra_prob_length. rewrite Hrun1, Hrun2. cbn [bind].
  split; auto. split; auto. split.
  - exact Hreach.
  - intros u Hin. cbn [fst] in *.
    apply (final_paths_keys _ _ _ _ _ _ I2 Hf2) in Hin.
    apply (final_paths_keys _ _ _ _ _ _ I1 Hf1). auto.
Qed.

Lemma lower_cutoff_reaches_more_witness :
  exists out1 out2,
    dijkstra_prob_length graph_fork "A" "weight" (1 / 4) None = Ok out1 /\
    dijkstra_prob_length graph_fork "A" "weight" 0.6 None = Ok out2 /\
    reached out2 = ["B"] /\ reached out1 = ["B"; "C"; "D"] /\
    incl (reached out2) (reached out1) /\
    incl (Dict.keys (fst out2)) (Dict.keys (fst out1)).
Proof.
  destruct (lower_cutoff_reaches_more graph_fork "A" "weight" (1 / 4) 0.6
              graph_fork_closed graph_fork_unit eq_refl)
    as (out1 & out2 & H1 & H2 & Hr & Hp); [lra|lra|lra|].
  exists out1, out2.
  pose proof H1 as E1. rewrite search_fork_quarter in E1. injection E1 as E1.
  pose proof H2 as E2. rewrite search_fork in E2. injection E2 as E2.
  split; [exact H1|]. split; [exact H2|].
  split; [now rewrite <- E2|]. split; [now rewrite <- E1|].
  split; [exact Hr|exact Hp].
Defined.

(** ** The network difference *)

Lemma edge_attr_lookup G u v key w :
  edge_attr G u v key = Ok w <->
  exists a, edge_lookup G u v = Some a /\ Dict.get a key = Some w.
Proof.
  unfold edge_attr, edge_data, edge_lookup, getitem.
  destruct (Dict.get (_succ G) u) as [nbrs|]; cbn [bind].
  - destruct (Dict.get nbrs v) as [a|]; cbn [bind].
    + destruct (Dict.get a key) as [x|] eqn:E; split.
      * intros [= ->]. eauto.
      * intros (a' & [= <-] & H). congruence.
      * discriminate.
      * intros (a' & [= <-] & H). congruence.
    + split; [discriminate | intros (a' & H & _); discriminate].
  - split; [discriminate | intros (a' & H & _); discriminate].
Qed.

Lemma edge_attr_weight G u v w :
  edge_attr G u v "weight" = Ok w <-> edge_weight G u v = Some w.
Proof.
  rewrite edge_attr_lookup. unfold edge_weight.
  destruct (edge_lookup G u v) as [a|]; split.
  - intros (a' & [= <-] & H). exact H.
  - eauto.
  - intros (a' & H & _). discriminate.
  - discriminate.
Qed.

Lemma edge_lookup_add_node G n u v :
  edge_lookup (add_node G n) u v = edge_lookup G u v.
Proof.
  unfold add_node, edge_lookup.
  destruct (Dict.mem (_succ G) n) eqn:Hm; auto. cbn [_succ].
  rewrite get_set. destruct (String.eqb n u) eqn:E; auto.
  apply String.eqb_eq in E. subst u. apply mem_false in Hm. now rewrite Hm.
Qed.

Lemma mem_add_node G n : Dict.mem (_succ (add_node G n)) n = true.
Proof.
  unfold add_node. destruct (Dict.mem (_succ G) n) eqn:Hm; auto.
  cbn [_succ]. rewrite mem_set, String.eqb_refl. reflexivity.
Qed.

Lemma mem_add_node_mono G n k :
  Dict.mem (_succ G) k = true -> Dict.mem (_succ (add_node G n)) k = true.
Proof.
  unfold add_node. destruct (Dict.mem (_succ G) n) eqn:Hm; auto.
  cbn [_succ]. rewrite mem_set. intros ->. apply orb_true_r.
Qed.

(** [add_edge] sets the data of its edge and leaves the other edges. *)
Lemma edge_lookup_add_edge G u v attr u' v' :
  edge_lookup (add_edge G u v attr) u' v' =
  if (String.eqb u u' && String.eqb v v')%bool
  then Some (Dict.update
               (match edge_lookup G u v with Some d => d | None => [] end) attr)
  else edge_lookup G u' v'.
Proof.
  unfold add_edge.
  set (G' := add_node (add_node G u) v).
  assert (HG' : forall a b, edge_lookup G' a b = edge_lookup G a b).
  { intros a b. unfold G'. now rewrite !edge_lookup_add_node. }
  assert (Hu : Dict.mem (_succ G') u = true).
  { unfold G'. apply mem_add_node_mono, mem_add_node. }
  apply mem_true in Hu. destruct Hu as [nbrs Hn]. rewrite Hn.
  assert (Hnb : forall b, Dict.get nbrs b = edge_lookup G u b).
  { intros b. rewrite <- HG'. unfold edge_lookup. now rewrite Hn. }
  unfold edge_lookup at 1. cbn [_succ]. rewrite get_set.
  destruct (String.eqb u u') eqn:Eu; cbn [andb].
  - apply String.eqb_eq in Eu. subst u'. rewrite get_set.
    destruct (String.eqb v v') eqn:Ev.
    + now rewrite Hnb.
    + apply Hnb.
  - fold (edge_lookup G' u' v'). apply HG'.
Qed.

Lemma get_update {V : Type} (d e : Dict.t V) k :
  Dict.get (Dict.update d e) k =
  match Dict.get (rev e) k with
  | Some v => Some v
  | None => Dict.get d k
  end.
Proof.
  unfold Dict.update. revert d. induction e as [|[k' v'] e IH]; intros d; cbn [fold_left rev].
  - reflexivity.
  - rewrite IH. cbn [fst snd].
    assert (Happ : forall l : Dict.t V,
              Dict.get (l ++ [(k', v')]) k =
              match Dict.get l k with
              | Some x => Some x
              | None => if String.eqb k k' then Some v' else None
              end).
    { induction l as [|[a b] l IHl]; simpl; [reflexivity|].
      destruct (String.eqb k a); auto. }
    rewrite Happ. destruct (Dict.get (rev e) k); auto.
    rewrite get_set. rewrite (String.eqb_sym k' k).
    destruct (String.eqb k k'); reflexivity.
Qed.


Lemma diff_edge_spec grn_source grn_target :
  diff_step_spec (diff_edge grn_source grn_target) grn_source grn_target.
Proof.
  intros gd u v ddict gd'. unfold diff_edge.
  destruct (edge_attr grn_source u v "weight") as [ws|] eqn:Hs; cbn [bind]; [|discriminate].
  destruct (edge_attr grn_target u v "weight") as [wt|] eqn:Ht; cbn [bind]; [|discriminate].
  apply edge_attr_weight in Hs, Ht. intros H. exists ws, wt. split; auto. split; auto.
  destruct (Rgt_dec (wt - ws) 0); injection H as <-; [left|right]; split; auto.
  eexists. split; [reflexivity|]. intros d. rewrite get_update. reflexivity.
Qed.

Lemma diff_edge_full_spec grn_source grn_target :
  diff_step_spec (diff_edge_full grn_source grn_target) grn_source grn_target.
Proof.
  intros gd u v ddict gd'. unfold diff_edge_full.
  destruct (edge_attr grn_source u v "weight") as [ws|] eqn:Hs; cbn [bind]; [|discriminate].
  destruct (edge_attr grn_target u v "weight") as [wt|] eqn:Ht; cbn [bind]; [|discriminate].
  apply edge_attr_weight in Hs, Ht. intros H. exists ws, wt. split; auto. split; auto.
  destruct (Rgt_dec (wt - ws) 0); [left|right; injection H as <-; split; auto].
  split; auto. revert H.
  repeat match goal with
         | |- context [bind ?m _] => destruct m; cbn [bind]; [|discriminate]
         end.
  intros [= <-]. eexists. split; [reflexivity|]. intros d. rewrite get_update. reflexivity.
Qed.

Lemma diff_step_inv step grn_source grn_target :
  diff_step_spec step grn_source grn_target ->
  forall processed gd x gd',
    diff_inv grn_source grn_target gd processed ->
    step gd x = Ok gd' ->
    diff_inv grn_source grn_target gd' (processed ++ [x]).
Proof.
  intros Hspec processed gd [[u0 v0] dd0] gd' Hinv Hstep.
  destruct (Hspec _ _ _ _ _ Hstep) as (ws0 & wt0 & Hws & Hwt & Hcase).
  intros u v. destruct (Hinv u v) as [Hfst Hsnd].
  destruct Hcase as [(Hpos & attr & -> & Hattr)|(Hneg & ->)].
  - rewrite edge_lookup_add_edge.
    destruct (String.eqb u0 u && String.eqb v0 v)%bool eqn:E.
    + apply andb_true_iff in E. destruct E as [Eu Ev].
      apply String.eqb_eq in Eu, Ev. subst u0 v0. split.
      * intros a [= <-]. split.
        -- exists dd0. apply in_or_app. right. now left.
        -- exists ws0, wt0. auto.
      * eauto.
    + split.
      * intros a Ha. destruct (Hfst a Ha) as [[dd Hdd] Hw]. split; auto.
        exists dd. apply in_or_app. now left.
      * intros [dd Hdd]. apply in_app_or in Hdd. destruct Hdd as [Hdd|[Hdd|[]]].
        -- apply Hsnd. eauto.
        -- injection Hdd as -> -> _. rewrite !String.eqb_refl in E. discriminate.
  - split.
    + intros a Ha. destruct (Hfst a Ha) as [[dd Hdd] Hw]. split; auto.
      exists dd. apply in_or_app. now left.
    + intros [dd Hdd] ws wt Hs Ht Hpos. apply in_app_or in Hdd.
      destruct Hdd as [Hdd|[Hdd|[]]].
      * apply (Hsnd (ex_intro _ dd Hdd) ws wt); auto.
      * injection Hdd as -> -> _. exfalso. apply Hneg.
        assert (ws = ws0) as -> by congruence.
        assert (wt = wt0) as -> by congruence. exact Hpos.
Qed.

Lemma diff_fold_inv step grn_source grn_target :
  diff_step_spec step grn_source grn_target ->
  forall rest processed gd gd',
    diff_inv grn_source grn_target gd processed ->
    for_each rest step gd = Ok gd' ->
    diff_inv grn_source grn_target gd' (processed ++ rest).
Proof.
  intros Hspec. induction rest as [|x rest IH]; intros processed gd gd' Hinv H.
  - cbn in H. injection H as <-. now rewrite app_nil_r.
  - cbn [for_each] in H. destruct (step gd x) as [gd1|] eqn:E; cbn [bind] in H; [|discriminate].
    replace (processed ++ x :: rest) with ((processed ++ [x]) ++ rest)
      by (rewrite <- app_assoc; reflexivity).
    apply (IH _ gd1); auto. eapply diff_step_inv; eauto.
Qed.

Lemma diff_inv_empty grn_source grn_target :
  diff_inv grn_source grn_target empty_graph [].
Proof.
  intros u v. split.
  - intros a H. discriminate.
  - intros [dd []].
Qed.

Lemma edge_lookup_edges G u v a :
  edge_lookup G u v = Some a -> In (u, v, a) (edges G).
Proof.
  unfold edge_lookup, edges.
  destruct (Dict.get (_succ G) u) as [nbrs|] eqn:Hn; [|discriminate].
  intros Ha. apply get_In in Hn, Ha. apply in_flat_map.
  exists (u, nbrs). split; auto.
  apply in_map_iff. exists (v, a). auto.
Qed.

Lemma edge_weight_has_edge G u v w : edge_weight G u v = Some w -> has_edge G u v.
Proof.
  unfold edge_weight, has_edge. destruct (edge_lookup G u v); [eauto|discriminate].
Qed.

Lemma getitem_Some {V : Type} (d : Dict.t V) k v :
  Dict.get d k = Some v -> getitem d k = Ok v.
Proof. unfold getitem. now intros ->. Qed.

(** On networks loaded over the same interactions [difference] returns. *)
Lemma difference_total grn_source grn_target full_output :
  diff_covered grn_source grn_target full_output ->
  exists grn_diff, difference grn_source grn_target full_output = Ok grn_diff.
Proof.
  intros Hcov. unfold difference. destruct full_output.
  - destruct (for_each_total (fun _ => True) (edges grn_target)
                (diff_edge_full grn_source grn_target) empty_graph I)
      as (gd & H & _); eauto.
    intros gd [[u v] dd] Hin _.
    destruct (Hcov u v dd Hin) as ([ws Hws] & [wt Hwt] & Hfull).
    unfold diff_edge_full.
    rewrite (proj2 (edge_attr_weight _ _ _ _) Hws),
            (proj2 (edge_attr_weight _ _ _ _) Hwt). cbn [bind].
    destruct (Rgt_dec (wt - ws) 0); [|eauto].
    assert (Hkey : forall key, In key extended_keys ->
              (exists x, getitem dd key = Ok x) /\
              (exists y, edge_attr grn_source u v key = Ok y)).
    { intros key Hk. destruct (Hfull eq_refl key Hk) as [[x Hx] (a & y & Ha & Hy)].
      split.
      - exists x. now apply getitem_Some.
      - exists y. apply edge_attr_lookup. eauto. }
    destruct (Hkey "tf_expression") as [[x1 ->] [y1 ->]]; [cbn; auto|].
    destruct (Hkey "tg_expression") as [[x2 ->] [y2 ->]]; [cbn; auto|].
    destruct (Hkey "weighted_binding") as [[x3 ->] [y3 ->]]; [cbn; auto|].
    destruct (Hkey "tf_activity") as [[x4 ->] [y4 ->]]; [cbn; auto 6|].
    cbn [bind]. eauto.
  - destruct (for_each_total (fun _ => True) (edges grn_target)
                (diff_edge grn_source grn_target) empty_graph I)
      as (gd & H & _); eauto.
    intros gd [[u v] dd] Hin _.
    destruct (Hcov u v dd Hin) as ([ws Hws] & [wt Hwt] & _).
    unfold diff_edge.
    rewrite (proj2 (edge_attr_weight _ _ _ _) Hws),
            (proj2 (edge_attr_weight _ _ _ _) Hwt). cbn [bind].
    destruct (Rgt_dec (wt - ws) 0); eauto.
Qed.

Lemma difference_inv grn_source grn_target full_output grn_diff :
  difference grn_source grn_target full_output = Ok grn_diff ->
  diff_inv grn_source grn_target grn_diff (edges grn_target).
Proof.
  unfold difference. intros H.
  change (edges grn_target) with ([] ++ edges grn_target).
  destruct full_output.
  - eapply (diff_fold_inv _ _ _ (diff_edge_full_spec grn_source grn_target)); eauto.
    apply diff_inv_empty.
  - eapply (diff_fold_inv _ _ _ (diff_edge_spec grn_source grn_target)); eauto.
    apply diff_inv_empty.
Qed.

(** C3.  Whenever [difference] returns a graph, in minimal and in extended
    mode, the graph has an edge from [u] to [v] exactly when the target
    network has that edge and its weight exceeds the weight of the edge in
    the source network; the weight of the edge is that difference, hence
    positive, and an edge whose difference is not positive is left out.  On
    networks loaded over the same interactions [difference] does return a
    graph. *)
Theorem difference_positive_edges grn_source grn_target full_output :
  (diff_covered grn_source grn_target full_output ->
   exists grn_diff, difference grn_source grn_target full_output = Ok grn_diff) /\
  (forall grn_diff,
     difference grn_source grn_target full_output = Ok grn_diff ->
     forall u v,
       (has_edge grn_diff u v <->
        has_edge grn_target u v /\
        exists ws wt, edge_weight grn_source u v = Some ws /\
                      edge_weight grn_target u v = Some wt /\ wt - ws > 0) /\
       (has_edge grn_diff u v ->
        exists ws wt, edge_weight grn_source u v = Some ws /\
                      edge_weight grn_target u v = Some wt /\
                      edge_weight grn_diff u v = Some (wt - ws) /\ wt - ws > 0) /\
       (forall ws wt, edge_weight grn_source u v = Some ws ->
                      edge_weight grn_target u v = Some wt ->
                      wt - ws <= 0 -> ~ has_edge grn_diff u v)).
Proof.
  split; [apply difference_total|].
  intros gd H u v. apply difference_inv in H. destruct (H u v) as [Hfst Hsnd].
  split; [|split].
  - split.
    + intros [a Ha]. destruct (Hfst a Ha) as [_ (ws & wt & Hs & Ht & Hpos & _)].
      split; [eapply edge_weight_has_edge; eauto|]. eauto 6.
    + intros [[a Ha] (ws & wt & Hs & Ht & Hpos)].
      apply (Hsnd (ex_intro _ a (edge_lookup_edges _ _ _ _ Ha)) ws wt); auto.
  - intros [a Ha]. destruct (Hfst a Ha) as [_ (ws & wt & Hs & Ht & Hpos & Hw)].
    exists ws, wt. unfold edge_weight at 3. rewrite Ha. auto.
  - intros ws wt Hs Ht Hle [a Ha].
    destruct (Hfst a Ha) as [_ (ws' & wt' & Hs' & Ht' & Hpos & _)].
    assert (ws' = ws) by congruence. assert (wt' = wt) by congruence. subst. lra.
Qed.

Lemma difference_positive_edges_witness :
  exists grn_diff,
    difference graph_source graph_target false = Ok grn_diff /\
    has_edge grn_diff "A" "B" /\
    edge_weight grn_diff "A" "B" = Some (1 / 2 - 1 / 4) /\
    ~ has_edge grn_diff "B" "A".
Proof.
  destruct (difference_positive_edges graph_source graph_target false) as [Htotal Hspec].
  destruct Htotal as [gd Hgd].
  { intros u v dd Hin. cbn in Hin.
    destruct Hin as [Hin|[Hin|[]]]; injection Hin as <- <- <-;
      (split; [eexists; reflexivity|]); (split; [eexists; reflexivity|]); discriminate. }
  exists gd. split; auto.
  destruct (Hspec gd Hgd "A" "B") as (Hiff & Hw & _).
  destruct (Hspec gd Hgd "B" "A") as (_ & _ & Hno).
  assert (HAB : has_edge gd "A" "B").
  { apply Hiff. split.
    - eexists. reflexivity.
    - exists (1 / 4), (1 / 2). repeat split; try reflexivity. lra. }
  split; auto. split.
  - destruct (Hw HAB) as (ws & wt & Hs & Ht & Hd & _).
    cbn in Hs, Ht. injection Hs as <-. injection Ht as <-. exact Hd.
  - apply (Hno (1 / 2) (1 / 4)); try reflexivity. lra.
Defined.

(** ** The difference as an input of the search *)

Lemma In_set {V : Type} (d : Dict.t V) k v k' v' :
  In (k', v') (Dict.set d k v) -> (k' = k /\ v' = v) \/ In (k', v') d.
Proof.
  induction d as [|[k0 v0] d IH]; simpl.
  - intros [[= <- <-]|[]]. auto.
  - destruct (String.eqb k k0) eqn:E; simpl.
    + apply String.eqb_eq in E. subst k0. intros [[= <- <-]|H]; auto.
    + intros [H|H]; auto. destruct (IH H); auto.
Qed.

Lemma has_edge_data_add_node G n a b e :
  has_edge_data (add_node G n) a b e -> has_edge_data G a b e.
Proof.
  unfold add_node. destruct (Dict.mem (_succ G) n) eqn:Hm; auto.
  intros (nbrs & Hg & Hin). cbn [_succ] in Hg. rewrite get_set in Hg.
  destruct (String.eqb n a); [injection Hg as <-; destruct Hin|].
  exists nbrs. auto.
Qed.

Lemma closed_add_node G n : closed_graph G -> closed_graph (add_node G n).
Proof.
  intros Hc a b e He. apply mem_add_node_mono.
  apply (Hc a b e). now apply (has_edge_data_add_node G n).
Qed.

(** The edges of a graph after [add_edge]: the edge added and the edges
    it had. *)
Lemma has_edge_data_add_edge G u v attr a b e :
  has_edge_data (add_edge G u v attr) a b e ->
  (a = u /\ b = v /\ exists d, e = Dict.update d attr) \/ has_edge_data G a b e.
Proof.
  unfold add_edge. set (G' := add_node (add_node G u) v).
  assert (HG' : forall x y z, has_edge_data G' x y z -> has_edge_data G x y z).
  { intros x y z H. unfold G' in H.
    eapply has_edge_data_add_node, has_edge_data_add_node, H. }
  intros (l & Hg & Hin). cbn [_succ] in Hg. rewrite get_set in Hg.
  destruct (String.eqb u a) eqn:E.
  - apply String.eqb_eq in E. subst a. injection Hg as <-.
    apply In_set in Hin. destruct Hin as [[-> ->]|Hin]; [left; eauto|].
    right. apply HG'.
    destruct (Dict.get (_succ G') u) as [nbrs|] eqn:Hn; [|destruct Hin].
    exists nbrs. auto.
  - right. apply HG'. exists l. auto.
Qed.

Lemma closed_add_edge G u v attr : closed_graph G -> closed_graph (add_edge G u v attr).
Proof.
  intros Hc a b e He.
  assert (Hmono : forall k, Dict.mem (_succ (add_node (add_node G u) v)) k = true ->
                            Dict.mem (_succ (add_edge G u v attr)) k = true).
  { intros k Hk. unfold add_edge. cbn [_succ]. rewrite mem_set, Hk. apply orb_true_r. }
  apply has_edge_data_add_edge in He. destruct He as [(-> & -> & _)|He].
  - apply Hmono, mem_add_node.
  - apply Hmono, mem_add_node_mono, mem_add_node_mono. eapply Hc; eauto.
Qed.

Lemma closed_empty : closed_graph empty_graph.
Proof. intros v u e (nbrs & H & _). discriminate. Qed.

(** The difference of two networks is a graph the search accepts: its
    successors are nodes, and its weights are probabilities when those of
    the two networks are. *)
Lemma difference_searchable grn_source grn_target full_output grn_diff :
  difference grn_source grn_target full_output = Ok grn_diff ->
  closed_graph grn_diff /\
  diff_weights grn_source grn_target grn_diff /\
  (probability_weights grn_source -> probability_weights grn_target ->
   unit_weights grn_diff "weight").
Proof.
  intros H.
  assert (Hstep : forall step, diff_step_spec step grn_source grn_target ->
            for_each (edges grn_target) step empty_graph = Ok grn_diff ->
            closed_graph grn_diff /\ diff_weights grn_source grn_target grn_diff).
  { intros step Hspec.
    apply (for_each_Ok
             (fun gd => closed_graph gd /\ diff_weights grn_source grn_target gd)).
    - split; [apply closed_empty|]. intros u v e (nbrs & Hg & _). discriminate.
    - intros gd [[u v] dd] gd' _ [Hc Hw] Hs.
      destruct (Hspec _ _ _ _ _ Hs) as (ws & wt & Hws & Hwt & Hcase).
      destruct Hcase as [(Hpos & attr & -> & Hattr)|(_ & ->)]; [|auto].
      split; [now apply closed_add_edge|].
      intros a b e He. apply has_edge_data_add_edge in He.
      destruct He as [(-> & -> & d & ->)|He]; [|now apply Hw].
      exists ws, wt. auto. }
  assert (Hboth : closed_graph grn_diff /\ diff_weights grn_source grn_target grn_diff).
  { unfold difference in H. destruct full_output.
    - apply (Hstep _ (diff_edge_full_spec grn_source grn_target) H).
    - apply (Hstep _ (diff_edge_spec grn_source grn_target) H). }
  destruct Hboth as [Hc Hw]. split; auto. split; auto.
  intros Hs Ht u v e w He Hget.
  destruct (Hw _ _ _ He) as (ws & wt & Hws & Hwt & Hpos & Hd).
  assert (w = wt - ws) as -> by congruence.
  specialize (Hs _ _ _ Hws). specialize (Ht _ _ _ Hwt). lra.
Qed.

(** ** The filter of transcription factors *)

Lemma insert_desc_In r x l : In x (insert_desc r l) -> x = r \/ In x l.
Proof.
  induction l as [|y l IH]; simpl.
  - intros [<-|[]]. now left.
  - destruct (Rlt_dec (sumScaled r) (sumScaled y)).
    + intros [<-|H]; auto. destruct (IH H); auto.
    + intros [<-|H]; auto.
Qed.

Lemma sort_values_desc_In x l : In x (sort_values_desc l) -> In x l.
Proof.
  unfold sort_values_desc. induction l as [|y l IH]; simpl; auto.
  intros H. apply insert_desc_In in H. destruct H as [->|H]; auto.
Qed.

Lemma loc_In scores_df labels r :
  In r (loc scores_df labels) -> In (row_factor r) labels /\ In r scores_df.
Proof.
  unfold loc. intros H. apply in_flat_map in H. destruct H as (k & Hk & Hr).
  apply filter_In in Hr. destruct Hr as [Hr E]. apply String.eqb_eq in E.
  subst k. auto.
Qed.

Lemma get_fold_set {A V : Type} (key : A -> string) (val : A -> V) l :
  forall (d : Dict.t V) k v,
    Dict.get (fold_left (fun d x => Dict.set d (key x) (val x)) l d) k = Some v ->
    (exists x, In x l /\ key x = k /\ val x = v) \/ Dict.get d k = Some v.
Proof.
  induction l as [|a l IH]; simpl; intros d k v H; auto.
  apply IH in H. destruct H as [(x & Hx & Hk & Hv)|H].
  - left. exists x. auto.
  - rewrite get_set in H. destruct (String.eqb (key a) k) eqn:E; auto.
    apply String.eqb_eq in E. injection H as <-. left. exists a. auto.
Qed.

Lemma keep_tf_true tftarget tpmscore tpm overlap ltf i :
  keep_tf tftarget tpmscore tpm overlap ltf i = true ->
  (exists ti, Dict.get tftarget i = Some ti /\ ti <> []) /\
  (exists x, Dict.get tpmscore i = Some x /\ x < tpm).
Proof.
  unfold keep_tf.
  destruct (Dict.get tftarget i) as [ti|]; [|discriminate].
  destruct (0 <? PySet.len ti)%nat eqn:E; [|discriminate].
  destruct (list_eq_dec _ _ _); [|discriminate].
  destruct (Dict.get tpmscore i) as [x|]; [|discriminate].
  destruct (Rlt_dec x tpm); [|discriminate]. intros _. split.
  - exists ti. split; auto. intros ->. discriminate.
  - eauto.
Qed.

(** C10.  A row that [filter_tf] keeps belongs to a factor that is a node
    of the network with at least one successor and that has a level in the
    TPM table, below the threshold: a factor without successors, absent from
    the network or absent from the TPM table is never kept. *)
Theorem filter_tf_keeps scores_df network tpmfile tpm overlap r :
  In r (filter_tf scores_df network tpmfile tpm overlap) ->
  In r scores_df /\
  (exists nbrs, Dict.get (_succ network) (row_factor r) = Some nbrs /\ nbrs <> []) /\
  (exists x, In (row_factor r, x) tpmfile /\ x < tpm).
Proof.
  unfold filter_tf. intros H. apply sort_values_desc_In, loc_In in H.
  destruct H as [Hk Hr]. split; auto.
  apply filter_In in Hk. destruct Hk as [_ Hk].
  apply keep_tf_true in Hk. destruct Hk as [(ti & Hti & Hne) (x & Hx & Hlt)].
  split.
  - apply (get_fold_set (fun tf => tf) (tf_targets network)) in Hti.
    destruct Hti as [(tf & _ & -> & <-)|Hti]; [|discriminate].
    unfold tf_targets in Hne.
    destruct (Dict.get (_succ network) (row_factor r)) as [nbrs|]; [|tauto].
    exists nbrs. split; auto. intros ->. apply Hne. reflexivity.
  - apply (get_fold_set fst snd) in Hx.
    destruct Hx as [([k y] & Hin & Hk & Hy)|Hx]; [|discriminate].
    cbn in Hk, Hy. subst. eauto.
Qed.

Lemma filter_tf_ranked_A :
  filter_tf ranked_A graph_AB [("A", 5)] 20 0.98 = ranked_A.
Proof.
  unfold filter_tf, ranked_A.
  cbn -[Rplus Rminus Rmult Rdiv Ropp Rinv INR IZR Rgt_dec Rlt_dec].
  destruct (Rlt_dec 5 20); [|lra].
  cbn -[Rplus Rminus Rmult Rdiv Ropp Rinv INR IZR Rgt_dec Rlt_dec]. reflexivity.
Qed.

Lemma filter_tf_keeps_witness :
  In (mkRankedRow "A" 0 0 1 1 1 1 1 1) ranked_A /\
  (exists nbrs, Dict.get (_succ graph_AB) "A" = Some nbrs /\ nbrs <> []) /\
  (exists x, In ("A", x) [("A", 5)] /\ x < 20).
Proof.
  apply (filter_tf_keeps ranked_A graph_AB [("A", 5)] 20 0.98
           (mkRankedRow "A" 0 0 1 1 1 1 1 1)).
  rewrite filter_tf_ranked_A. now left.
Defined.

(** ** Python sets *)

Lemma PySet_mem_In s x : PySet.mem s x = true <-> In x s.
Proof.
  unfold PySet.mem. destruct (in_dec string_dec x s); split; intros H;
    auto; try discriminate; try contradiction.
Qed.

Lemma PySet_of_list_In l x : In x (PySet.of_list l) <-> In x l.
Proof. apply nodup_In. Qed.

Lemma PySet_inter_In a b x : In x (PySet.inter a b) <-> In x a /\ In x b.
Proof. unfold PySet.inter. rewrite filter_In, PySet_mem_In. reflexivity. Qed.

Lemma PySet_diff_In a b x : In x (PySet.diff a b) <-> In x a /\ ~ In x b.
Proof.
  unfold PySet.diff. rewrite filter_In, negb_true_iff. split; intros [H1 H2]; split; auto.
  - intros H. apply PySet_mem_In in H. congruence.
  - destruct (PySet.mem b x) eqn:E; auto. apply PySet_mem_In in E. contradiction.
Qed.

Lemma len_zero (s : PySet.t) : (PySet.len s =? 0)%nat = true <-> s = [].
Proof.
  unfold PySet.len. destruct s; simpl; split; auto; discriminate.
Qed.

(** ** Sums and means *)

Lemma sum_Permutation l l' :
  Permutation l l' -> fold_right Rplus 0 l = fold_right Rplus 0 l'.
Proof.
  induction 1; simpl; lra.
Qed.

Lemma mean_Permutation l l' : Permutation l l' -> mean l = mean l'.
Proof.
  intros H. unfold mean. rewrite (sum_Permutation _ _ H), (Permutation_length H).
  reflexivity.
Qed.

(** The loop of [target_score] adds up the terms of the sum. *)
Lemma target_score_acc expression_change targets :
  forall acc ts,
    for_each targets
      (fun ts tw =>
         let '(target, weight) := tw in
         e <- getitem expression_change target ;;
         Ok (ts + score e * weight)) acc = Ok ts ->
    ts = acc + fold_right Rplus 0
                 (map (fun gp => score_of expression_change (fst gp) * snd gp) targets).
Proof.
  induction targets as [|[g p] targets IH]; cbn [for_each map fold_right]; intros acc ts H.
  - injection H as <-. lra.
  - unfold getitem in H at 1. unfold score_of at 1. cbn [fst snd].
    destruct (Dict.get expression_change g) as [e|]; cbn [bind] in H; [|discriminate].
    apply IH in H. lra.
Qed.

Lemma target_score_total expression_change targets :
  (forall g p, In (g, p) targets -> Dict.mem expression_change g = true) ->
  exists ts, target_score expression_change targets = Ok ts.
Proof.
  unfold target_score, Dict.items. generalize 0.
  induction targets as [|[g p] targets IH]; cbn [for_each]; intros acc H; eauto.
  assert (Hg : Dict.mem expression_change g = true) by (apply (H g p); now left).
  apply mem_true in Hg. destruct Hg as [e He].
  unfold getitem at 1. rewrite He. cbn [bind]. apply IH.
  intros g' p' Hin. apply (H g' p'). now right.
Qed.

Lemma map_result_absfc expression_change l :
  (forall t, In t l -> Dict.mem expression_change t = true) ->
  map_result (fun t => e <- getitem expression_change t ;; Ok (absfc e)) l
  = Ok (absfc_of expression_change l).
Proof.
  induction l as [|t l IH]; cbn [map_result absfc_of map]; intros H; auto.
  assert (Ht : Dict.mem expression_change t = true) by (apply H; now left).
  apply mem_true in Ht. destruct Ht as [e He].
  unfold getitem at 1. rewrite He. cbn [bind].
  rewrite IH by (intros t' Ht'; apply H; now right). reflexivity.
Qed.

(** ** The scores of one factor *)

Section ScoringFacts.

Variable set_iter : PySet.t -> list string.
Variable mannwhitneyu_asymptotic : list R -> list R -> result pyfloat.
Hypothesis set_iter_perm : forall s, Permutation (set_iter s) s.

Lemma keys_mem {V : Type} (d : Dict.t V) k : In k (Dict.keys d) -> Dict.mem d k = true.
Proof. intros H. apply mem_true. now apply keys_get. Qed.

Lemma direct_targets_expressed grn ec node_ t :
  In t (direct_targets_of grn ec node_) -> Dict.mem ec t = true.
Proof.
  unfold direct_targets_of. destruct (Dict.get (_succ grn) node_); [|intros []].
  intros H. apply (proj1 (PySet_inter_In _ _ _)) in H. destruct H as [_ H].
  apply (proj1 (PySet_of_list_In _ _)) in H. now apply keys_mem.
Qed.

Lemma non_direct_targets_expressed grn ec node_ t :
  In t (non_direct_targets_of grn ec node_) -> Dict.mem ec t = true.
Proof.
  unfold non_direct_targets_of. intros H. apply (proj1 (PySet_diff_In _ _ _)) in H.
  destruct H as [H _]. apply (proj1 (PySet_inter_In _ _ _)) in H. destruct H as [_ H].
  apply (proj1 (PySet_of_list_In _ _)) in H. now apply keys_mem.
Qed.

Lemma mean_set_iter ec s : mean (absfc_of ec (set_iter s)) = mean (absfc_of ec s).
Proof.
  apply mean_Permutation. unfold absfc_of. apply Permutation_map, set_iter_perm.
Qed.

(** [fold_change_scores] for a factor of the network, in terms of the two
    sets of genes. *)
Lemma fold_change_scores_unfold node_ grn ec nbrs :
  Dict.get (_succ grn) node_ = Some nbrs ->
  fold_change_scores set_iter mannwhitneyu_asymptotic node_ grn ec =
  if (PySet.len (direct_targets_of grn ec node_) =? 0)%nat then Ok (NaN, NaN)
  else if (PySet.len (non_direct_targets_of grn ec node_) =? 0)%nat then Ok (NaN, NaN)
  else
    pval <- match mannwhitneyu_asymptotic
                    (absfc_of ec (set_iter (direct_targets_of grn ec node_)))
                    (absfc_of ec (set_iter (non_direct_targets_of grn ec node_))) with
            | Ok p => Ok p
            | Raise e => if caught_by_fold_change e then Ok NaN else Raise e
            end ;;
    Ok (pval, Num (mean (absfc_of ec (direct_targets_of grn ec node_))
                   - mean (absfc_of ec (non_direct_targets_of grn ec node_)))).
Proof.
  intros Hn. unfold fold_change_scores, adj. rewrite (getitem_Some _ _ _ Hn). cbn [bind].
  assert (Hd : direct_targets_of grn ec node_ =
               PySet.inter (PySet.of_list (Dict.keys nbrs))
                           (PySet.of_list (Dict.keys ec))).
  { unfold direct_targets_of. now rewrite Hn. }
  rewrite <- Hd.
  change (PySet.diff (PySet.inter (PySet.of_list (nodes grn))
                                  (PySet.of_list (Dict.keys ec)))
                     (direct_targets_of grn ec node_))
    with (non_direct_targets_of grn ec node_).
  destruct (PySet.len (direct_targets_of grn ec node_) =? 0)%nat; auto.
  destruct (PySet.len (non_direct_targets_of grn ec node_) =? 0)%nat; auto.
  rewrite !map_result_absfc; cbn [bind].
  - now rewrite !mean_set_iter.
  - intros t Ht. apply (non_direct_targets_expressed grn ec node_).
    eapply Permutation_in; [apply set_iter_perm | exact Ht].
  - intros t Ht. apply (direct_targets_expressed grn ec node_).
    eapply Permutation_in; [apply set_iter_perm | exact Ht].
Qed.

(** C8.  For a factor of the network [fold_change_scores] returns the pair
    [(NaN, NaN)], without raising, when the set of direct targets or the set
    of the other genes is empty, and only then.  Otherwise it returns the
    p-value of the asymptotic Mann-Whitney test on the absolute fold changes
    of the two sets together with the difference of their means; when the
    test raises [ValueError] or [RecursionError] the p-value is replaced by
    NaN and the difference of the means is still returned. *)
Theorem fold_change_scores_spec node_ grn ec :
  Dict.mem (_succ grn) node_ = true ->
  (direct_targets_of grn ec node_ = [] \/ non_direct_targets_of grn ec node_ = [] ->
   fold_change_scores set_iter mannwhitneyu_asymptotic node_ grn ec = Ok (NaN, NaN)) /\
  (direct_targets_of grn ec node_ <> [] -> non_direct_targets_of grn ec node_ <> [] ->
   fold_change_scores set_iter mannwhitneyu_asymptotic node_ grn ec <> Ok (NaN, NaN) /\
   (forall p,
      mannwhitneyu_asymptotic
        (absfc_of ec (set_iter (direct_targets_of grn ec node_)))
        (absfc_of ec (set_iter (non_direct_targets_of grn ec node_))) = Ok p ->
      fold_change_scores set_iter mannwhitneyu_asymptotic node_ grn ec
      = Ok (p, Num (mean (absfc_of ec (direct_targets_of grn ec node_))
                    - mean (absfc_of ec (non_direct_targets_of grn ec node_))))) /\
   (forall e,
      mannwhitneyu_asymptotic
        (absfc_of ec (set_iter (direct_targets_of grn ec node_)))
        (absfc_of ec (set_iter (non_direct_targets_of grn ec node_))) = Raise e ->
      caught_by_fold_change e = true ->
      fold_change_scores set_iter mannwhitneyu_asymptotic node_ grn ec
      = Ok (NaN, Num (mean (absfc_of ec (direct_targets_of grn ec node_))
                      - mean (absfc_of ec (non_direct_targets_of grn ec node_)))))).
Proof.
  intros Hm. apply mem_true in Hm. destruct Hm as [nbrs Hn].
  rewrite (fold_change_scores_unfold node_ grn ec nbrs Hn). split.
  - intros [Hd|Ho].
    + rewrite Hd. reflexivity.
    + rewrite Ho. cbn. now destruct (PySet.len _ =? 0)%nat.
  - intros Hd Ho.
    destruct (PySet.len (direct_targets_of grn ec node_) =? 0)%nat eqn:Ed.
    { apply len_zero in Ed. contradiction. }
    destruct (PySet.len (non_direct_targets_of grn ec node_) =? 0)%nat eqn:Eo.
    { apply len_zero in Eo. contradiction. }
    split; [|split].
    + destruct (mannwhitneyu_asymptotic _ _) as [p|e]; cbn [bind].
      * discriminate.
      * destruct (caught_by_fold_change e); cbn [bind]; discriminate.
    + intros p ->. reflexivity.
    + intros e -> ->. reflexivity.
Qed.

Lemma filter_no_genes (weights : Dict.t R) :
  filter (fun kv => PySet.mem [] (fst kv)) weights = [].
Proof. induction weights as [|kv l IH]; cbn; auto. Qed.

(** C2.  Whenever [influence_scores] returns a record, its target score is
    the sum, over the nodes the search reached that are differentially
    expressed, of the expression score of the node times the probability it
    was reached with, and its [directTargets] is the number of successors of
    the factor; and [influence_scores] does return a record for a factor of
    a network with probabilities as weights when the factor and the
    differentially expressed genes have expression records. *)
Theorem influence_scores_target_score node_ grn ec de_genes :
  (forall row,
     influence_scores set_iter mannwhitneyu_asymptotic node_ grn ec de_genes = Ok row ->
     exists paths weights nbrs,
       dijkstra_prob_length grn node_ "weight" 0.6 None = Ok (paths, weights) /\
       Dict.get (_succ grn) node_ = Some nbrs /\
       targetscore row = target_score_spec ec de_genes weights /\
       directTargets row = List.length nbrs /\
       totalTargets row = List.length paths) /\
  (closed_graph grn -> unit_weights grn "weight" ->
   Dict.mem (_succ grn) node_ = true -> Dict.mem ec node_ = true ->
   (forall g, In g de_genes -> Dict.mem ec g = true) ->
   (forall x y e, mannwhitneyu_asymptotic x y = Raise e ->
                  caught_by_fold_change e = true) ->
   exists row,
     influence_scores set_iter mannwhitneyu_asymptotic node_ grn ec de_genes = Ok row).
Proof.
  split.
  - intros row. unfold influence_scores.
    destruct (dijkstra_prob_length grn node_ "weight" 0.6 None)
      as [[paths weights]|]; cbn [bind]; [|discriminate].
    destruct (target_score ec _) as [ts|] eqn:Hts; cbn [bind]; [|discriminate].
    destruct (fold_change_scores _ _ _ _ _) as [[pv tfd]|]; cbn [bind]; [|discriminate].
    destruct (out_degree grn node_) as [n|] eqn:Hod; cbn [bind]; [|discriminate].
    destruct (getitem ec node_) as [e|]; cbn [bind]; [|discriminate].
    intros [= <-]. cbn [targetscore directTargets totalTargets].
    unfold out_degree, adj, getitem in Hod.
    destruct (Dict.get (_succ grn) node_) as [nbrs|]; cbn [bind] in Hod; [|discriminate].
    injection Hod as <-. exists paths, weights, nbrs.
    repeat split; auto.
    unfold target_score, Dict.items in Hts. apply target_score_acc in Hts.
    unfold target_score_spec. rewrite Hts. ring.
  - intros Hc Hu Hm He Hde Hmw. unfold influence_scores.
    destruct (dijkstra_search_total grn node_ "weight" 0.6 Hc Hu Hm)
      as (D & st & m & HD & Hrun & I & Hf); [lra|].
    unfold dijkstra_prob_length. rewrite Hrun. cbn [bind].
    destruct (target_score_total ec
                (filter (fun kv => PySet.mem de_genes (fst kv)) (final_dist st)))
      as [ts ->].
    { intros g p Hin. apply filter_In in Hin. destruct Hin as [_ Hin].
      apply Hde. now apply PySet_mem_In. }
    cbn [bind]. pose proof Hm as Hm'. apply mem_true in Hm'. destruct Hm' as [nbrs Hn].
    rewrite (fold_change_scores_unfold node_ grn ec nbrs Hn).
    unfold out_degree, adj. rewrite (getitem_Some _ _ _ Hn).
    apply mem_true in He. destruct He as [e He]. rewrite (getitem_Some _ _ _ He).
    destruct (PySet.len (direct_targets_of grn ec node_) =? 0)%nat; cbn [bind]; eauto.
    destruct (PySet.len (non_direct_targets_of grn ec node_) =? 0)%nat; cbn [bind]; eauto.
    destruct (mannwhitneyu_asymptotic _ _) as [p|ex] eqn:Emw; cbn [bind]; eauto.
    rewrite (Hmw _ _ _ Emw). cbn [bind]. eauto.
Qed.

End ScoringFacts.

(** C7.  Whenever [influence_scores] returns a record, the factor has an
    expression record and [Gscore] is the score of that record; for a factor
    without expression record the function does not return 0 but raises
    [KeyError], as on the factor [A] of the example with an expression table
    that holds [B] only. *)
Theorem gscore_needs_expression_record set_iter mannwhitneyu_asymptotic :
  (forall node_ grn ec de_genes row,
     influence_scores set_iter mannwhitneyu_asymptotic node_ grn ec de_genes = Ok row ->
     exists e, Dict.get ec node_ = Some e /\ Gscore row = score e /\
               factor_fc row = absfc e) /\
  influence_scores set_iter mannwhitneyu_asymptotic "A" graph_AB expression_B []
  = Raise (KeyError "A").
Proof.
  split.
  - intros node_ grn ec de_genes row. unfold influence_scores.
    destruct (dijkstra_prob_length grn node_ "weight" 0.6 None)
      as [[paths weights]|]; cbn [bind]; [|discriminate].
    destruct (target_score ec _) as [ts|]; cbn [bind]; [|discriminate].
    destruct (fold_change_scores _ _ _ _ _) as [[pv tfd]|]; cbn [bind]; [|discriminate].
    destruct (out_degree grn node_) as [n|]; cbn [bind]; [|discriminate].
    unfold getitem. destruct (Dict.get ec node_) as [e|]; cbn [bind]; [|discriminate].
    intros [= <-]. exists e. auto.
  - unfold influence_scores.
    destruct (dijkstra_search_total graph_AB "A" "weight" 0.6
                graph_AB_closed graph_AB_unit eq_refl)
      as (D & st & m & HD & Hrun & I & Hf); [lra|].
    unfold dijkstra_prob_length. rewrite Hrun. cbn [bind].
    rewrite filter_no_genes. reflexivity.
Qed.

Lemma fold_change_scores_spec_witness :
  exists p d,
    fold_change_scores (fun s => s) (fun _ _ => Ok (Num (1 / 2)))
      "A" graph_AB expression_AB = Ok (Num p, Num d).
Proof.
  destruct (fold_change_scores_spec (fun s => s) (fun _ _ => Ok (Num (1 / 2)))
              (fun s => Permutation_refl s) "A" graph_AB expression_AB eq_refl)
    as [_ H].
  destruct H as (_ & H & _).
  - discriminate.
  - discriminate.
  - eexists. eexists. apply H. reflexivity.
Defined.

Lemma influence_scores_target_score_witness :
  exists row,
    influence_scores (fun s => s) test_of_means
      "A" graph_fork expression_fork ["B"; "D"] = Ok row /\
    targetscore row = 2 * (9 / 10) /\
    directTargets row = 2%nat /\ totalTargets row = 1%nat.
Proof.
  destruct (influence_scores_target_score (fun s => s) test_of_means
              (fun s => Permutation_refl s) "A" graph_fork expression_fork ["B"; "D"])
    as [Hspec Htotal].
  destruct Htotal as [row Hrow].
  - exact graph_fork_closed.
  - exact graph_fork_unit.
  - reflexivity.
  - reflexivity.
  - intros g [<-|[<-|[]]]; reflexivity.
  - discriminate.
  - exists row. split; auto.
    destruct (Hspec row Hrow) as (paths & weights & nbrs & Hrun & Hn & Ht & Hd & Htot).
    rewrite search_fork in Hrun. injection Hrun as <- <-.
    cbn in Hn. injection Hn as <-.
    split; [|split; [exact Hd|exact Htot]].
    rewrite Ht. unfold target_score_spec, score_of. run_search. lra.
Defined.

(** ** The worker pool *)

Lemma fill_slot_length i r s : List.length (fill_slot i r s) = List.length s.
Proof.
  revert i. induction s as [|x s IH]; intros i; cbn [fill_slot]; auto.
  destruct x, i; cbn [List.length]; auto.
Qed.

(** Filling the slot [i] changes the slot [i] only, and only when it is
    still empty. *)
Lemma fill_slot_nth i r s j :
  nth_error (fill_slot i r s) j =
  if (j =? i)%nat then
    match nth_error s j with
    | Some None => Some (Some r)
    | other => other
    end
  else nth_error s j.
Proof.
  revert i j. induction s as [|x s IH]; intros i j; cbn [fill_slot].
  - rewrite nth_error_nil. now destruct (j =? i)%nat.
  - destruct x as [y|], i as [|i], j as [|j]; cbn [nth_error Nat.eqb];
      try reflexivity; apply IH.
Qed.

Lemma pool_inv_init jobs work :
  pool_inv jobs work [] (map (fun _ => None) jobs).
Proof.
  split; [apply length_map|]. split.
  - intros i x H. rewrite nth_error_map in H.
    destruct (nth_error jobs i); discriminate.
  - intros i [].
Qed.

Lemma pool_inv_step jobs work done s i :
  pool_inv jobs work done s ->
  pool_inv jobs work (i :: done)
    (match nth_error jobs i with
     | Some tf => fill_slot i (work tf) s
     | None => s
     end).
Proof.
  intros (Hlen & Hval & Hdone).
  destruct (nth_error jobs i) as [tf|] eqn:Hi.
  - split; [now rewrite fill_slot_length|]. split.
    + intros j x. rewrite fill_slot_nth.
      destruct (j =? i)%nat eqn:E; [|apply Hval].
      apply Nat.eqb_eq in E. subst j.
      destruct (nth_error s i) as [[y|]|] eqn:Hs.
      * intros [= <-]. apply (Hval i y Hs).
      * intros [= <-]. eauto.
      * discriminate.
    + intros j Hj Hlt. rewrite fill_slot_nth.
      destruct (j =? i)%nat eqn:E.
      * apply Nat.eqb_eq in E. subst j.
        destruct (nth_error s i) as [[y|]|] eqn:Hs; eauto.
        apply nth_error_None in Hs. lia.
      * destruct Hj as [->|Hj]; [rewrite Nat.eqb_refl in E; discriminate|].
        now apply Hdone.
  - split; auto. split; auto.
    intros j [<-|Hj] Hlt; [|now apply Hdone].
    apply nth_error_None in Hi. lia.
Qed.

Lemma run_pool_inv jobs work schedule :
  forall done s,
    pool_inv jobs work done s ->
    pool_inv jobs work (rev schedule ++ done)
      (fold_left
         (fun s i =>
            match nth_error jobs i with
            | Some tf => fill_slot i (work tf) s
            | None => s
            end) schedule s).
Proof.
  induction schedule as [|i schedule IH]; intros done s H; cbn [fold_left rev]; auto.
  rewrite <- app_assoc. cbn [app]. apply IH. now apply pool_inv_step.
Qed.

(** When every job completes, every slot holds the result of its job,
    whatever the order of completion. *)
Lemma run_pool_complete jobs work schedule :
  (forall i, (i < List.length jobs)%nat -> In i schedule) ->
  run_pool jobs work schedule = map (fun tf => Some (work tf)) jobs.
Proof.
  intros Hall. unfold run_pool.
  destruct (run_pool_inv jobs work schedule [] _ (pool_inv_init jobs work))
    as (Hlen & Hval & Hdone).
  apply nth_error_ext. intros n. rewrite nth_error_map.
  destruct (Nat.lt_ge_cases n (List.length jobs)) as [Hlt|Hge].
  - destruct (Hdone n) as [x Hx]; auto.
    { apply in_or_app. left. apply -> in_rev. auto. }
    rewrite Hx. destruct (Hval n x Hx) as (tf & -> & ->). reflexivity.
  - assert (H1 : nth_error jobs n = None) by now apply nth_error_None.
    rewrite H1. apply nth_error_None. lia.
Qed.

Lemma collect_jobs (work : node -> result ScoreRecord) jobs :
  forall file,
    for_each (map (fun tf => Some (work tf)) jobs)
      (fun file j => line <- get_job j ;; Ok (file ++ [line])) file
    = for_each jobs (fun file tf => line <- work tf ;; Ok (file ++ [line])) file.
Proof.
  induction jobs as [|tf jobs IH]; intros file; cbn [map for_each get_job]; auto.
  destruct (work tf); cbn [bind]; auto.
Qed.

(** C4.  With more than one worker, whatever the order in which the workers
    complete the jobs (as long as every job completes), [run_target_score]
    writes the rows, or raises the exception, that it writes or raises with
    a single worker. *)
Theorem run_target_score_deterministic set_iter mannwhitneyu_asymptotic
    grn expression_change ncore schedule schedule' :
  (1 < ncore)%nat ->
  (forall de_tfs i,
     select_de_tfs grn expression_change = Ok de_tfs ->
     (i < List.length (set_iter de_tfs))%nat -> In i schedule) ->
  run_target_score set_iter mannwhitneyu_asymptotic grn expression_change ncore schedule
  = run_target_score set_iter mannwhitneyu_asymptotic grn expression_change 1 schedule'.
Proof.
  intros Hn Hall. unfold run_target_score.
  destruct (select_de_tfs grn expression_change) as [de_tfs|] eqn:Hsel; cbn [bind]; auto.
  apply Nat.ltb_lt in Hn. rewrite Hn. cbn [Nat.ltb Nat.leb].
  rewrite run_pool_complete by (intros i Hi; apply (Hall de_tfs i); auto).
  rewrite collect_jobs. reflexivity.
Qed.

Lemma select_de_tfs_AB : select_de_tfs graph_AB expression_AB = Ok ["A"].
Proof.
  unfold select_de_tfs.
  cbn -[Rplus Rminus Rmult Rdiv Ropp Rinv INR IZR Rgt_dec Rlt_dec].
  destruct (Rgt_dec 1 0); [|lra]. reflexivity.
Qed.

(** * Further properties of the search *)

(** ** Errors of the search *)

Lemma convert_cutoff_outside cutoff :
  cutoff < 0 \/ 1 < cutoff ->
  convert_cutoff cutoff
  = Raise (ValueError "cutoff (combined, weighted probability) should be between 0 and 1").
Proof.
  intros H. unfold convert_cutoff.
  destruct (Rlt_dec cutoff 0); [reflexivity|].
  destruct (Rgt_dec cutoff 1); [reflexivity|lra].
Qed.

(** The first turn of the loop finalizes the source; it leaves the loop when
    the source is the target and looks up the successors of the source
    otherwise. *)
Lemma while_first_turn G weight D target source fuel :
  while G weight D target (S fuel) (init_state source) =
  if is_target target source
  then Ok (mkState [(source, 0)] [(source, 0)] [(source, [source])] [] 1)
  else match Dict.get (_succ G) source with
       | None => Raise (KeyError source)
       | Some nbrs =>
           match for_each (Dict.items nbrs) (relax weight D source)
                   (mkState [(source, 0)] [(source, 0)] [(source, [source])] [] 1) with
           | Ok st => while G weight D target fuel st
           | Raise e => Raise e
           end
       end.
Proof.
  cbn [while]. unfold body at 1. cbn [init_state fringe heappop dist seen paths c].
  cbn [Dict.mem Dict.get Dict.set].
  destruct (is_target target source); [reflexivity|].
  unfold getitem. destruct (Dict.get (_succ G) source) as [nbrs|]; cbn [bind]; [|reflexivity].
  destruct (for_each _ _ _); reflexivity.
Qed.

(** X1.  The errors of [dijkstra_prob_length], on any graph: a cutoff
    outside [0, 1] raises the [ValueError] on the cutoff; with a cutoff in
    [0, 1], a source that is the target gives two empty dictionaries without
    a look at the graph, and a source that is not a node of the graph raises
    [KeyError] on the source. *)
Theorem dijkstra_prob_length_errors G source weight cutoff target :
  (cutoff < 0 \/ 1 < cutoff ->
   dijkstra_prob_length G source weight cutoff target
   = Raise (ValueError "cutoff (combined, weighted probability) should be between 0 and 1")) /\
  (0 <= cutoff <= 1 -> target = Some source ->
   dijkstra_prob_length G source weight cutoff target = Ok ([], [])) /\
  (0 <= cutoff <= 1 -> target <> Some source ->
   Dict.mem (_succ G) source = false ->
   dijkstra_prob_length G source weight cutoff target = Raise (KeyError source)).
Proof.
  unfold dijkstra_prob_length, dijkstra_search. split; [|split].
  - intros H. now rewrite convert_cutoff_outside.
  - intros H ->. destruct (convert_cutoff_range cutoff H) as (D & -> & _).
    cbn [bind]. unfold search_fuel. cbn [Nat.add]. rewrite while_first_turn.
    cbn [is_target]. rewrite String.eqb_refl. cbn [bind].
    unfold final_paths, final_dist. cbn. reflexivity.
  - intros H Ht Hm. destruct (convert_cutoff_range cutoff H) as (D & -> & _).
    cbn [bind]. unfold search_fuel. cbn [Nat.add]. rewrite while_first_turn.
    assert (Hnt : is_target target source = false).
    { destruct target as [t|]; cbn [is_target]; auto.
      apply String.eqb_neq. congruence. }
    rewrite Hnt. apply mem_false in Hm. rewrite Hm. reflexivity.
Qed.

Lemma dijkstra_prob_length_errors_witness :
  dijkstra_prob_length graph_AB "Z" "weight" 2 None
  = Raise (ValueError "cutoff (combined, weighted probability) should be between 0 and 1") /\
  dijkstra_prob_length graph_AB "Z" "weight" 0.6 (Some "Z") = Ok ([], []) /\
  dijkstra_prob_length graph_AB "Z" "weight" 0.6 None = Raise (KeyError "Z").
Proof.
  split; [|split].
  - apply (proj1 (dijkstra_prob_length_errors graph_AB "Z" "weight" 2 None)). lra.
  - apply (proj1 (proj2 (dijkstra_prob_length_errors graph_AB "Z" "weight" 0.6 (Some "Z")))).
    + lra.
    + reflexivity.
  - apply (proj2 (proj2 (dijkstra_prob_length_errors graph_AB "Z" "weight" 0.6 None))).
    + lra.
    + discriminate.
    + reflexivity.
Defined.

(** ** The paths returned and their probabilities *)

Lemma log10_inv x : 0 < x -> log10 (1 / x) = - log10 x.
Proof.
  intros H. unfold log10, Rlog. replace (1 / x) with (/ x) by (field; lra).
  rewrite ln_Rinv by auto. field. pose proof ln10_pos. lra.
Qed.

Lemma pow10_plus a b : pow10 (a + b) = pow10 a * pow10 b.
Proof. apply Rpower_plus. Qed.

Lemma pow10_0 : pow10 0 = 1.
Proof. apply Rpower_O. lra. Qed.

Lemma pow10_pos x : 0 < pow10 x.
Proof. unfold pow10, Rpower. apply exp_pos. Qed.

Lemma pow10_neg_log10 x : 0 < x -> pow10 (- log10 x) = / x.
Proof.
  intros H. unfold pow10. rewrite Rpower_Ropp. fold (pow10 (log10 x)).
  now rewrite pow10_log10.
Qed.

Lemma log10_pow10 x : log10 (pow10 x) = x.
Proof.
  unfold log10, pow10, Rlog, Rpower. rewrite ln_exp. field.
  pose proof ln10_pos. lra.
Qed.

Lemma weight_function_probability weight e :
  weight_function weight e = - log10 (edge_probability weight e).
Proof. reflexivity. Qed.

Lemma walk_cost_snoc ws w : walk_cost (ws ++ [w]) = walk_cost ws - log10 w.
Proof.
  unfold walk_cost. induction ws as [|x ws IH]; simpl; [lra|]. rewrite IH. lra.
Qed.

(** The candidate distance through the end of a walk is the distance of the
    walk extended by the edge. *)
Lemma candidate_walk ws w :
  candidate (walk_dist ws) (- log10 w) (S (List.length ws)) = walk_dist (ws ++ [w]).
Proof.
  unfold candidate. destruct ws as [|w0 ws].
  - cbn [List.length Nat.ltb Nat.leb walk_dist app walk_cost fold_right].
    simpl INR. replace (1 / 1) with 1 by field. rewrite log10_1. lra.
  - assert (E : (1 <? S (List.length (w0 :: ws)))%nat = true) by (apply Nat.ltb_lt; simpl; lia).
    rewrite E.
    replace (S (List.length (w0 :: ws)) - 1)%nat with (List.length (w0 :: ws)) by lia.
    assert (H1 : 0 < INR (List.length (w0 :: ws))) by (apply lt_0_INR; simpl; lia).
    assert (H2 : 0 < INR (S (List.length (w0 :: ws)))) by (apply lt_0_INR; lia).
    rewrite !log10_inv by auto.
    assert (Hl : List.length ((w0 :: ws) ++ [w]) = S (List.length (w0 :: ws))).
    { rewrite length_app. simpl. lia. }
    unfold walk_dist. cbn [app].
    change (w0 :: ws ++ [w]) with ((w0 :: ws) ++ [w]).
    rewrite walk_cost_snoc, Hl. lra.
Qed.

(** The probability of the end of a walk: the product of the probabilities
    of its edges over their number. *)
Lemma pow10_walk_cost ws :
  Forall (fun w => 0 < w) ws -> pow10 (- walk_cost ws) = product ws.
Proof.
  unfold walk_cost, product. induction 1 as [|w ws Hw _ IH]; cbn [fold_right].
  - rewrite Ropp_0. apply pow10_0.
  - replace (- (- log10 w + fold_right (fun w0 acc => - log10 w0 + acc) 0 ws))
      with (log10 w + - fold_right (fun w0 acc => - log10 w0 + acc) 0 ws) by ring.
    rewrite pow10_plus, IH, pow10_log10 by auto. reflexivity.
Qed.

Lemma pow10_walk_dist ws :
  ws <> [] -> Forall (fun w => 0 < w) ws ->
  pow10 (- walk_dist ws) = product ws / INR (List.length ws).
Proof.
  intros Hne Hpos. destruct ws as [|w0 ws]; [contradiction|].
  unfold walk_dist.
  assert (H1 : 0 < INR (List.length (w0 :: ws))) by (apply lt_0_INR; simpl; lia).
  replace (- (walk_cost (w0 :: ws) + log10 (INR (List.length (w0 :: ws)))))
    with (- walk_cost (w0 :: ws) + - log10 (INR (List.length (w0 :: ws)))) by ring.
  rewrite pow10_plus, pow10_walk_cost, pow10_neg_log10 by auto. reflexivity.
Qed.

Lemma product_unit ws :
  Forall (fun w => 0 < w <= 1) ws -> 0 < product ws <= 1.
Proof.
  unfold product. induction 1 as [|w ws Hw _ IH]; cbn [fold_right]; [lra|]. nra.
Qed.

Lemma walk_length G weight source u p ws :
  walk G weight source u p ws -> List.length p = S (List.length ws).
Proof.
  induction 1 as [|v u e p ws _ IH _]; [reflexivity|].
  rewrite !length_app, IH. simpl. lia.
Qed.

Lemma walk_unit G weight source u p ws :
  unit_weights G weight -> walk G weight source u p ws ->
  Forall (fun w => 0 < w <= 1) ws.
Proof.
  intros Hu. induction 1 as [|v u e p ws _ IH He]; [constructor|].
  apply Forall_app. split; auto. constructor; [|constructor].
  unfold edge_probability. destruct (Dict.get e weight) as [w|] eqn:E; [|lra].
  exact (Hu _ _ _ _ He E).
Qed.

(** Every finalized node has, as its path, a walk from the source, and as
    its distance the distance of that walk. *)
Lemma finalized_walk G weight cutoff source m st :
  search_inv G weight cutoff source m st ->
  forall n u d p,
    (List.length p <= n)%nat ->
    Dict.get (dist st) u = Some d -> Dict.get (paths st) u = Some p ->
    exists ws, walk G weight source u p ws /\ d = walk_dist ws.
Proof.
  intros I. induction n as [|n IH]; intros u d p Hn Hd Hp.
  - destruct (inv_finalized_path G weight cutoff source m st u d I Hd) as (p' & Hp' & Hl).
    assert (p' = p) by congruence. subst. lia.
  - pose proof (inv_dist_seen I _ _ Hd) as Hs.
    destruct (inv_seen_paths I _ _ Hs) as [(-> & -> & Hp')|(Hne & p' & Hp' & HR)].
    + assert (p = [source]) as -> by congruence. exists []. split; [constructor|reflexivity].
    + assert (p' = p) by congruence. subst p'.
      destruct HR as (v & dv & pv & e & Hdv & Hpv & Hl & He & -> & ->).
      destruct (IH v dv pv) as (ws & Hw & ->); auto.
      { rewrite length_app in Hn. simpl in Hn. lia. }
      exists (ws ++ [edge_probability weight e]). split.
      * econstructor; eauto.
      * rewrite (walk_length _ _ _ _ _ _ Hw), weight_function_probability.
        apply candidate_walk.
Qed.

(** X2.  On a graph whose weights are probabilities, every path that
    [dijkstra_prob_length] returns for a node is a walk of the graph from the
    source to that node, and the probability returned for the node is the
    product of the probabilities of the edges of that path divided by the
    number of its edges, a number in (0, 1]. *)
Theorem dijkstra_path_probability G source weight cutoff :
  closed_graph G -> unit_weights G weight ->
  Dict.mem (_succ G) source = true -> 0 <= cutoff <= 1 ->
  exists paths_out dist_out,
    dijkstra_prob_length G source weight cutoff None = Ok (paths_out, dist_out) /\
    forall u p, Dict.get paths_out u = Some p ->
      exists ws,
        walk G weight source u p ws /\ ws <> [] /\
        Dict.get dist_out u = Some (product ws / INR (List.length ws)) /\
        0 < product ws / INR (List.length ws) <= 1.
Proof.
  intros Hc Hu Hs Hr.
  destruct (dijkstra_search_total G source weight cutoff Hc Hu Hs Hr)
    as (D & st & m & HD & Hrun & I & Hf).
  exists (final_paths st), (final_dist st). split.
  { unfold dijkstra_prob_length. now rewrite Hrun. }
  intros u p Hp. apply (final_paths_spec _ _ _ _ _ _ I Hf) in Hp.
  destruct Hp as (Hne & d & Hd & Hp & _).
  destruct (finalized_walk _ _ _ _ _ _ I (List.length p) u d p (le_n _) Hd Hp)
    as (ws & Hw & ->).
  assert (Hws : ws <> []).
  { intros ->. inversion Hw as [|v u' e p' ws' _ _ E1 E2 E3].
    - congruence.
    - destruct ws'; discriminate. }
  pose proof (walk_unit _ _ _ _ _ _ Hu Hw) as Hunit.
  assert (Hpos : Forall (fun w => 0 < w) ws).
  { eapply Forall_impl; [|exact Hunit]. cbn. intros w Hw'. lra. }
  exists ws. split; auto. split; auto. split.
  - apply (final_dist_spec _ _ _ _ _ _ I Hf). split; auto.
    exists (walk_dist ws). split; auto. symmetry. now apply pow10_walk_dist.
  - pose proof (product_unit ws Hunit) as [P0 P1].
    assert (Hlen : 1 <= INR (List.length ws)).
    { destruct ws as [|w0 ws']; [contradiction|].
      change 1 with (INR 1). apply le_INR. simpl. lia. }
    split.
    + apply Rdiv_lt_0_compat; lra.
    + apply Rle_trans with (product ws / 1); [|lra].
      unfold Rdiv. apply Rmult_le_compat_l; [lra|].
      apply Rinv_le_contravar; lra.
Qed.

Lemma dijkstra_path_probability_witness :
  exists paths_out dist_out,
    dijkstra_prob_length graph_AB "A" "weight" 0.5 None = Ok (paths_out, dist_out) /\
    forall u p, Dict.get paths_out u = Some p ->
      exists ws,
        walk graph_AB "weight" "A" u p ws /\ ws <> [] /\
        Dict.get dist_out u = Some (product ws / INR (List.length ws)) /\
        0 < product ws / INR (List.length ws) <= 1.
Proof.
  apply (dijkstra_path_probability graph_AB "A" "weight" 0.5).
  - exact graph_AB_closed.
  - exact graph_AB_unit.
  - reflexivity.
  - lra.
Defined.

(** ** The nodes reached *)

Lemma nodup_keys_filter {V : Type} (f : string * V -> bool) (d : Dict.t V) :
  NoDup (Dict.keys d) -> NoDup (Dict.keys (filter f d)).
Proof.
  induction d as [|[k v] d IH]; cbn [filter Dict.keys map]; intros H; [constructor|].
  inversion H as [|? ? Hk Hd]; subst. specialize (IH Hd).
  destruct (f (k, v)); cbn [map]; auto. constructor; auto.
  intros Hin. apply Hk. fold (Dict.keys (filter f d)) in Hin.
  unfold Dict.keys in *. apply in_map_iff in Hin. destruct Hin as ([k' v'] & E & Hin).
  apply filter_In in Hin. destruct Hin as [Hin _]. cbn in E. subst k'.
  apply in_map_iff. exists (k, v'). auto.
Qed.

(** A finalized node is a node of the graph. *)
Lemma finalized_node G weight cutoff source m st u d :
  closed_graph G -> Dict.mem (_succ G) source = true ->
  search_inv G weight cutoff source m st ->
  Dict.get (dist st) u = Some d -> Dict.mem (_succ G) u = true.
Proof.
  intros Hc Hs I Hd. pose proof (inv_dist_seen I _ _ Hd) as Hseen.
  destruct (inv_seen_paths I _ _ Hseen) as [(-> & _)|(_ & p & _ & HR)]; auto.
  destruct HR as (v & dv & pv & e & _ & _ & _ & He & _). eapply Hc; eauto.
Qed.

(** X3.  The nodes that [dijkstra_prob_length] returns are nodes of the
    graph other than the source, each listed once in either dictionary; the
    two dictionaries have the same number of entries, fewer than the graph
    has nodes. *)
Theorem dijkstra_reached_nodes G source weight cutoff :
  closed_graph G -> unit_weights G weight ->
  Dict.mem (_succ G) source = true -> 0 <= cutoff <= 1 ->
  exists paths_out dist_out,
    dijkstra_prob_length G source weight cutoff None = Ok (paths_out, dist_out) /\
    NoDup (Dict.keys dist_out) /\ NoDup (Dict.keys paths_out) /\
    (forall u, In u (Dict.keys dist_out) -> u <> source /\ In u (nodes G)) /\
    List.length paths_out = List.length dist_out /\
    (List.length dist_out < List.length (nodes G))%nat.
Proof.
  intros Hc Hu Hs Hr.
  destruct (dijkstra_search_total G source weight cutoff Hc Hu Hs Hr)
    as (D & st & m & HD & Hrun & I & Hf).
  exists (final_paths st), (final_dist st). split.
  { unfold dijkstra_prob_length. now rewrite Hrun. }
  assert (Hnd : NoDup (Dict.keys (final_dist st))).
  { exact (final_dist_nodup _ _ _ _ _ _ I). }
  assert (Hnp : NoDup (Dict.keys (final_paths st))).
  { unfold final_paths. apply nodup_keys_filter. exact (inv_nodup_paths I). }
  assert (Hin : forall u, In u (Dict.keys (final_dist st)) ->
                          u <> source /\ In u (nodes G)).
  { intros u Hin. apply (final_dist_keys _ _ _ _ _ _ I Hf) in Hin.
    destruct Hin as (Hne & d & Hd). split; auto.
    unfold nodes. apply keys_get, mem_true.
    exact (finalized_node _ _ _ _ _ _ _ _ Hc Hs I Hd). }
  split; auto. split; auto. split; auto. split.
  - assert (Hperm : Permutation (Dict.keys (final_paths st)) (Dict.keys (final_dist st))).
    { apply NoDup_Permutation; auto.
      intros u. apply (final_paths_keys _ _ _ _ _ _ I Hf). }
    apply Permutation_length in Hperm. unfold Dict.keys in Hperm.
    now rewrite !length_map in Hperm.
  - assert (Hle : (List.length (source :: Dict.keys (final_dist st))
                   <= List.length (nodes G))%nat).
    { apply NoDup_incl_length.
      - constructor; auto. intros Hsrc. apply Hin in Hsrc. tauto.
      - intros u [<-|Hu']; [|now apply Hin].
        unfold nodes. now apply keys_get, mem_true. }
    cbn [List.length] in Hle. unfold Dict.keys in Hle. rewrite length_map in Hle. lia.
Qed.

Lemma dijkstra_reached_nodes_witness :
  exists paths_out dist_out,
    dijkstra_prob_length graph_AB "A" "weight" 0.5 None = Ok (paths_out, dist_out) /\
    NoDup (Dict.keys dist_out) /\ NoDup (Dict.keys paths_out) /\
    (forall u, In u (Dict.keys dist_out) -> u <> "A" /\ In u (nodes graph_AB)) /\
    List.length paths_out = List.length dist_out /\
    (List.length dist_out < List.length (nodes graph_AB))%nat.
Proof.
  apply (dijkstra_reached_nodes graph_AB "A" "weight" 0.5).
  - exact graph_AB_closed.
  - exact graph_AB_unit.
  - reflexivity.
  - lra.
Defined.

(** ** Further invariants of the loop *)

Section SearchInvariantMore.

Variable G : DiGraph.
Variable weight : string.
Variable cutoff : option R.
Variable source : node.
Hypothesis Hclosed : closed_graph G.
Hypothesis Hunit : unit_weights G weight.
Hypothesis Hsource : Dict.mem (_succ G) source = true.
Hypothesis Hcut : forall D, cutoff = Some D -> 0 <= D.

(** A property of the states that every turn of the loop keeps holds of the
    last state, next to the invariant. *)
Lemma while_from_inv_with (P : state -> Prop) fuel st m :
  (forall m s s', search_inv G weight cutoff source m s -> P s ->
     body G weight cutoff None s = Ok (Continue s') -> P s') ->
  search_inv G weight cutoff source m st -> P st ->
  (measure G st < fuel)%nat ->
  exists st' m',
    while G weight cutoff None fuel st = Ok st' /\
    search_inv G weight cutoff source m' st' /\ fringe st' = [] /\ P st'.
Proof.
  intros Hkeep I HP Hfuel.
  set (P' := fun s => (exists m', search_inv G weight cutoff source m' s) /\ P s).
  set (Q' := fun s => (exists m', search_inv G weight cutoff source m' s) /\
                      fringe s = [] /\ P s).
  assert (Hbody : forall s, P' s ->
            match body G weight cutoff None s with
            | Ok (Continue s') => P' s' /\ (measure G s' < measure G s)%nat
            | Ok (Break s') => Q' s'
            | Raise _ => False
            end).
  { intros s [[ms Is] Hs].
    pose proof (body_inv G weight cutoff source Hclosed Hunit ms s Is) as Hb.
    pose proof (body_measure G weight cutoff None s) as Hmu.
    pose proof (Hkeep ms s) as Hk.
    destruct (body G weight cutoff None s) as [[s'|s']|] eqn:E; auto.
    - split; [split|]; eauto.
    - destruct Hb as [-> Hf]. split; [|split]; eauto. }
  destruct (while_total G weight cutoff None P' Q' (measure G) Hbody fuel st)
    as (st' & Hw & (m' & I') & Hf & HP'); auto.
  { split; eauto. }
  eauto 10.
Qed.

Lemma search_total_with (P : state -> Prop) :
  (forall m s s', search_inv G weight cutoff source m s -> P s ->
     body G weight cutoff None s = Ok (Continue s') -> P s') ->
  P (init_state source) ->
  exists st m,
    while G weight cutoff None (search_fuel G) (init_state source) = Ok st /\
    search_inv G weight cutoff source m st /\ fringe st = [] /\ P st.
Proof.
  intros Hkeep H0.
  apply (while_from_inv_with P (search_fuel G) (init_state source) 0); auto.
  - now apply inv_init.
  - unfold measure, search_fuel. proj_simpl. rewrite pending_edges_empty. simpl. lia.
Qed.

(** What a turn of the loop that goes on does to the finalized distances:
    nothing, or the entry popped is appended to them. *)
Lemma body_dist m s s' :
  search_inv G weight cutoff source m s ->
  body G weight cutoff None s = Ok (Continue s') ->
  dist s' = dist s \/
  exists d k v fr, heappop (fringe s) = Some ((d, k, v), fr) /\
                   Dict.get (dist s) v = None /\ dist s' = dist s ++ [(v, d)].
Proof.
  intros I. unfold body.
  destruct (heappop (fringe s)) as [[[[d k] v] fr]|] eqn:Hp; [|discriminate].
  destruct (Dict.mem (dist s) v) eqn:Hm.
  - intros [= <-]. now left.
  - cbn [is_target]. destruct (getitem (_succ G) v); cbn [bind]; [|discriminate].
    match goal with |- context [for_each ?l ?f ?s0] =>
      destruct (for_each l f s0) as [s2|] eqn:Hf end; cbn [bind]; [|discriminate].
    intros [= <-]. apply for_each_relax_frame in Hf. destruct Hf as [-> _].
    proj_simpl. right. apply mem_false in Hm. exists d, k, v, fr.
    split; auto. split; auto.
    clear - Hm. induction (dist s) as [|[k' v'] l IH]; cbn in *; auto.
    destruct (String.eqb v k'); [discriminate|]. now rewrite IH.
Qed.

Lemma body_dist_sorted m s s' :
  search_inv G weight cutoff source m s -> dist_sorted s ->
  body G weight cutoff None s = Ok (Continue s') -> dist_sorted s'.
Proof.
  intros I Hs Hb. unfold dist_sorted in *.
  destruct (body_dist m s s' I Hb) as [->|(d & k & v & fr & Hp & Hn & ->)]; auto.
  rewrite map_app. cbn [map snd].
  apply StronglySorted_snoc; auto.
  intros y Hy. apply in_map_iff in Hy. destruct Hy as ([k' y'] & <- & Hin). cbn [snd].
  apply (In_get_nodup _ _ _ (inv_nodup_dist I)) in Hin.
  pose proof (inv_dist_le I _ _ Hin).
  assert (Hpop : In (d, k, v) (fringe s)) by (apply (heappop_In _ _ _ _ Hp); now left).
  pose proof (inv_fringe_ge I _ Hpop). proj_simpl. lra.
Qed.

End SearchInvariantMore.

Lemma StronglySorted_map {A B : Type} (R : A -> A -> Prop) (R' : B -> B -> Prop)
    (f : A -> B) l :
  (forall x y, R x y -> R' (f x) (f y)) ->
  StronglySorted R l -> StronglySorted R' (map f l).
Proof.
  intros Hf. induction 1 as [|a l Hs IH Ha]; cbn [map]; constructor; auto.
  rewrite Forall_forall in *. intros y Hy. apply in_map_iff in Hy.
  destruct Hy as (x & <- & Hx). auto.
Qed.

Lemma final_dist_values st :
  map snd (final_dist st) =
  map (fun d => pow10 (- d))
      (map snd (filter (fun kv => Dict.mem (final_paths st) (fst kv)) (dist st))).
Proof. unfold final_dist. rewrite !map_map. reflexivity. Qed.

(** X4.  [dijkstra_prob_length] lists the nodes it reached in the order in
    which it finalized them, nearest first: the probabilities returned are in
    non-increasing order. *)
Theorem dijkstra_probabilities_sorted G source weight cutoff :
  closed_graph G -> unit_weights G weight ->
  Dict.mem (_succ G) source = true -> 0 <= cutoff <= 1 ->
  exists paths_out dist_out,
    dijkstra_prob_length G source weight cutoff None = Ok (paths_out, dist_out) /\
    StronglySorted Rge (map snd dist_out).
Proof.
  intros Hc Hu Hs Hr.
  destruct (convert_cutoff_range cutoff Hr) as (D & HD & HD0).
  destruct (search_total_with G weight D source Hc Hu Hs HD0 dist_sorted)
    as (st & m & Hw & I & Hf & Hsorted).
  { intros m0 s s'. apply body_dist_sorted; auto. }
  { constructor. }
  exists (final_paths st), (final_dist st). split.
  { unfold dijkstra_prob_length, dijkstra_search. rewrite HD. cbn [bind].
    now rewrite Hw. }
  rewrite final_dist_values.
  apply (StronglySorted_map Rle Rge).
  { intros x y Hxy. apply Rle_ge, pow10_le. lra. }
  unfold dist_sorted in Hsorted. revert Hsorted.
  generalize (fun kv : string * R => Dict.mem (final_paths st) (fst kv)).
  intros f. induction (dist st) as [|[k v] l IH]; cbn [map filter]; intros H; [constructor|].
  inversion H as [|? ? Hl Hall]; subst. destruct (f (k, v)); cbn [map snd]; auto.
  constructor; auto. rewrite Forall_forall in *. intros y Hy.
  apply in_map_iff in Hy. destruct Hy as ([k' y'] & <- & Hin).
  apply filter_In in Hin. destruct Hin as [Hin _]. apply Hall.
  apply in_map_iff. exists (k', y'). auto.
Qed.

Lemma dijkstra_probabilities_sorted_witness :
  exists paths_out,
    dijkstra_prob_length graph_fork "A" "weight" (1 / 4) None
    = Ok (paths_out, [("B", 9 / 10); ("C", 1 / 2); ("D", 81 / 200)]) /\
    StronglySorted Rge [9 / 10; 1 / 2; 81 / 200].
Proof.
  destruct (dijkstra_probabilities_sorted graph_fork "A" "weight" (1 / 4)
              graph_fork_closed graph_fork_unit eq_refl)
    as (paths_out & dist_out & Hrun & Hsorted); [lra|].
  pose proof Hrun as E. rewrite search_fork_quarter in E. injection E as <- <-.
  eexists. split; [exact Hrun|exact Hsorted].
Defined.

(** ** No edge improves on the result *)

(** A relaxation keeps the settled edges settled. *)
Lemma relax_settled_mono weight cutoff v st ue st' v' u' e' :
  relax weight cutoff v st ue = Ok st' ->
  edge_settled weight cutoff st v' u' e' -> edge_settled weight cutoff st' v' u' e'.
Proof.
  unfold relax. destruct ue as [u e].
  destruct (getitem (paths st) v) as [pv|]; cbn [bind]; [|discriminate].
  destruct (getitem (dist st) v) as [dv|]; cbn [bind]; [|discriminate].
  destruct (List.length pv =? 0)%nat; [discriminate|].
  destruct (over_cutoff _ _); [intros [= <-]; auto|].
  destruct (Dict.get (dist st) u) as [du|] eqn:Hdu.
  { destruct (Rlt_dec _ _); [discriminate|]. intros [= <-]. auto. }
  set (x := candidate dv (weight_function weight e) (List.length pv)).
  destruct (Dict.get (seen st) u) as [su|] eqn:Hsu.
  - destruct (Rlt_dec x su) as [Hlt|]; intros [= <-]; auto.
    intros Hs dv' pv' Hd' Hp' Hoc. proj_simpl.
    assert (Hne : u <> v') by congruence.
    rewrite get_set_other in Hp' by auto.
    destruct (Hs dv' pv' Hd' Hp' Hoc) as (s & Hseen & Hle).
    rewrite get_set. destruct (String.eqb u u') eqn:E; [|eauto].
    apply String.eqb_eq in E. subst u'. exists x. split; auto.
    assert (s = su) by congruence. lra.
  - intros [= <-]. intros Hs dv' pv' Hd' Hp' Hoc. proj_simpl.
    assert (Hne : u <> v') by congruence.
    rewrite get_set_other in Hp' by auto.
    destruct (Hs dv' pv' Hd' Hp' Hoc) as (s & Hseen & Hle).
    rewrite get_set. destruct (String.eqb u u') eqn:E; [|eauto].
    apply String.eqb_eq in E. subst u'. congruence.
Qed.

(** A relaxation settles its edge. *)
Lemma relax_settles G weight cutoff source m v st u e st' :
  search_inv G weight cutoff source m st ->
  relax weight cutoff v st (u, e) = Ok st' ->
  edge_settled weight cutoff st' v u e.
Proof.
  intros I. unfold relax.
  destruct (getitem (paths st) v) as [pv|] eqn:Hpv; cbn [bind]; [|discriminate].
  destruct (getitem (dist st) v) as [dv|] eqn:Hdv; cbn [bind]; [|discriminate].
  unfold getitem in Hpv, Hdv.
  destruct (Dict.get (paths st) v) as [pv0|] eqn:Hpv0; [|discriminate].
  destruct (Dict.get (dist st) v) as [dv0|] eqn:Hdv0; [|discriminate].
  injection Hpv as ->. injection Hdv as ->.
  destruct (List.length pv =? 0)%nat; [discriminate|].
  set (x := candidate dv (weight_function weight e) (List.length pv)).
  destruct (over_cutoff cutoff x) eqn:Hoc.
  { intros [= <-]. intros dv' pv' Hd' Hp' Hoc'.
    assert (dv' = dv) by congruence. assert (pv' = pv) by congruence. subst.
    fold x in Hoc'. congruence. }
  destruct (Dict.get (dist st) u) as [du|] eqn:Hdu.
  { destruct (Rlt_dec x du); [discriminate|]. intros [= <-].
    intros dv' pv' Hd' Hp' _.
    assert (dv' = dv) by congruence. assert (pv' = pv) by congruence. subst.
    exists du. split; [exact (inv_dist_seen I _ _ Hdu)|]. fold x. lra. }
  assert (Huv : u <> v) by congruence.
  destruct (Dict.get (seen st) u) as [su|] eqn:Hsu.
  - destruct (Rlt_dec x su) as [Hlt|Hge]; intros [= <-];
      intros dv' pv' Hd' Hp' _; proj_simpl.
    + rewrite get_set_other in Hp' by auto.
      assert (dv' = dv) by congruence. assert (pv' = pv) by congruence. subst.
      exists x. rewrite get_set_same. split; auto. fold x. lra.
    + assert (dv' = dv) by congruence. assert (pv' = pv) by congruence. subst.
      exists su. split; auto. fold x. lra.
  - intros [= <-]. intros dv' pv' Hd' Hp' _. proj_simpl.
    rewrite get_set_other in Hp' by auto.
    assert (dv' = dv) by congruence. assert (pv' = pv) by congruence. subst.
    exists x. rewrite get_set_same. split; auto. fold x. lra.
Qed.

Section Settled.

Variable G : DiGraph.
Variable weight : string.
Variable cutoff : option R.
Variable source : node.
Hypothesis Hclosed : closed_graph G.
Hypothesis Hunit : unit_weights G weight.
Hypothesis Hsource : Dict.mem (_succ G) source = true.
Hypothesis Hcut : forall D, cutoff = Some D -> 0 <= D.

(** The loop over the successors of [v] settles the edges it has passed and
    keeps the other settled edges settled. *)
Lemma relax_all_settled v nbrs0 m :
  Dict.get (_succ G) v = Some nbrs0 ->
  forall rest done st st',
    incl rest nbrs0 ->
    search_inv G weight cutoff source m st -> Dict.get (dist st) v = Some m ->
    (forall v' u' e', has_edge_data G v' u' e' -> v' <> v \/ In (u', e') done ->
       edge_settled weight cutoff st v' u' e') ->
    for_each rest (relax weight cutoff v) st = Ok st' ->
    forall v' u' e', has_edge_data G v' u' e' -> v' <> v \/ In (u', e') (done ++ rest) ->
      edge_settled weight cutoff st' v' u' e'.
Proof.
  intros Hg. induction rest as [|[u e] rest IH]; intros done st st' Hincl I Hv Hdone Hrun.
  - cbn in Hrun. injection Hrun as <-. rewrite app_nil_r. exact Hdone.
  - cbn [for_each] in Hrun.
    assert (He : has_edge_data G v u e).
    { exists nbrs0. split; auto. apply Hincl. now left. }
    destruct (relax_inv G weight cutoff source Hclosed Hunit v u e m st I Hv He)
      as (s1 & Hr1 & I1 & Hv1).
    unfold node in *. rewrite Hr1 in Hrun. cbn [bind] in Hrun.
    replace (done ++ (u, e) :: rest) with ((done ++ [(u, e)]) ++ rest)
      by (rewrite <- app_assoc; reflexivity).
    apply (IH (done ++ [(u, e)]) s1 st'); auto.
    + intros x Hx. apply Hincl. now right.
    + intros v' u' e' He' Hcase.
      destruct Hcase as [Hne|Hin].
      * exact (relax_settled_mono _ _ _ _ _ _ _ _ _ Hr1
                 (Hdone v' u' e' He' (or_introl Hne))).
      * apply in_app_or in Hin. destruct Hin as [Hin|[Hin|[]]].
        -- exact (relax_settled_mono _ _ _ _ _ _ _ _ _ Hr1
                    (Hdone v' u' e' He' (or_intror Hin))).
        -- injection Hin as <- <-.
           destruct (string_dec v' v) as [->|Hne].
           ++ exact (relax_settles G weight cutoff source m v st u e s1 I Hr1).
           ++ exact (relax_settled_mono _ _ _ _ _ _ _ _ _ Hr1
                       (Hdone v' u e He' (or_introl Hne))).
Qed.

(** Every turn of the loop keeps the edges settled. *)
Lemma body_settled m s s' :
  search_inv G weight cutoff source m s -> settled G weight cutoff s ->
  body G weight cutoff None s = Ok (Continue s') -> settled G weight cutoff s'.
Proof.
  intros I Hs. unfold body.
  destruct (heappop (fringe s)) as [[[[d k] v] fr]|] eqn:Hp; [|discriminate].
  destruct (Dict.mem (dist s) v) eqn:Hm.
  - intros [= <-]. intros v' u' e' He dv pv Hd Hpv Hoc. proj_simpl.
    exact (Hs v' u' e' He dv pv Hd Hpv Hoc).
  - cbn [is_target].
    destruct (Dict.get (_succ G) v) as [nbrs|] eqn:Hn;
      unfold getitem; rewrite Hn; cbn [bind]; [|discriminate].
    match goal with |- context [for_each ?l ?f ?s0] =>
      destruct (for_each l f s0) as [s2|] eqn:Hf end; cbn [bind]; [|discriminate].
    intros [= <-].
    pose proof (finalize_inv G weight cutoff source m s d k v fr I Hp Hm) as I1.
    intros v' u' e' He.
    apply (relax_all_settled v nbrs d Hn (Dict.items nbrs) []
             (mkState (Dict.set (dist s) v d) (seen s) (paths s) fr (c s)) s2); auto.
    + apply incl_refl.
    + proj_simpl. apply get_set_same.
    + intros v0 u0 e0 He0 [Hne|[]] dv pv Hd Hpv Hoc. proj_simpl.
      rewrite get_set_other in Hd by congruence.
      exact (Hs v0 u0 e0 He0 dv pv Hd Hpv Hoc).
    + cbn [app]. destruct (string_dec v' v) as [->|Hne]; [right|now left].
      destruct He as (nbrs' & Hn' & Hin). unfold Dict.items. congruence.
Qed.

(** The search ends in a state in which every edge is settled. *)
Lemma search_settled :
  exists st m,
    while G weight cutoff None (search_fuel G) (init_state source) = Ok st /\
    search_inv G weight cutoff source m st /\ fringe st = [] /\
    settled G weight cutoff st.
Proof.
  apply (search_total_with G weight cutoff source Hclosed Hunit Hsource Hcut
           (settled G weight cutoff)).
  - exact body_settled.
  - intros v u e He dv pv Hd. discriminate.
Qed.

End Settled.
Lemma edge_probability_unit G weight v u e :
  unit_weights G weight -> has_edge_data G v u e ->
  0 < edge_probability weight e <= 1.
Proof.
  intros Hu He. unfold edge_probability.
  destruct (Dict.get e weight) as [w|] eqn:E; [|lra]. exact (Hu _ _ _ _ He E).
Qed.

(** A candidate whose probability is at least the cutoff is within the
    cutoff distance. *)
Lemma over_cutoff_probability cutoff D x :
  0 <= cutoff <= 1 -> convert_cutoff cutoff = Ok D ->
  cutoff <= pow10 (- x) -> over_cutoff D x = false.
Proof.
  intros Hr HD Hle. destruct (Req_dec_T cutoff 0) as [->|Hne].
  - rewrite convert_cutoff_zero in HD. injection HD as <-. reflexivity.
  - rewrite convert_cutoff_pos in HD by lra. injection HD as <-.
    unfold over_cutoff. destruct (Rgt_dec x (- log10 cutoff)) as [Hgt|]; auto.
    assert (H : log10 cutoff <= log10 (pow10 (- x))) by (apply log10_le; lra).
    rewrite log10_pow10 in H. lra.
Qed.

(** The probability of a candidate: that of the node it extends, times the
    probability of the edge, rescaled from the old number of edges to the
    new one. *)
Lemma candidate_probability dv w L :
  0 < w -> (1 <= L)%nat ->
  pow10 (- candidate dv (- log10 w) L) =
  if (1 <? L)%nat then pow10 (- dv) * w * INR (L - 1) / INR L
  else pow10 (- dv) * w.
Proof.
  intros Hw HL. unfold candidate. destruct (1 <? L)%nat eqn:E.
  - apply Nat.ltb_lt in E.
    assert (H1 : 0 < INR (L - 1)) by now apply INR_pred_pos.
    assert (H2 : 0 < INR L) by (apply lt_0_INR; lia).
    rewrite !log10_inv by auto.
    replace (- (dv + - log10 w - - log10 (INR L) + - log10 (INR (L - 1))))
      with (- dv + (log10 w + (- log10 (INR L) + log10 (INR (L - 1))))) by ring.
    rewrite !pow10_plus, pow10_neg_log10, !pow10_log10 by auto.
    field. lra.
  - apply Nat.ltb_ge in E. assert (L = 1%nat) as -> by lia.
    simpl INR. replace (1 / 1) with 1 by field. rewrite log10_1.
    replace (- (dv + - log10 w - 0)) with (- dv + log10 w) by ring.
    rewrite pow10_plus, pow10_log10 by auto. reflexivity.
Qed.

(** X5.  No edge improves on the result of [dijkstra_prob_length].  A
    successor [u] of the source whose edge has a probability [w] of at least
    the cutoff is returned with a probability of at least [w]; and for an
    edge of probability [w] from a node returned with the probability [p]
    and a path of [L] nodes, when [p * w * (L - 1) / L] is at least the
    cutoff, the end of the edge (unless it is the source) is returned with
    at least that probability. *)
Theorem dijkstra_no_better_edge G source weight cutoff :
  closed_graph G -> unit_weights G weight ->
  Dict.mem (_succ G) source = true -> 0 <= cutoff <= 1 ->
  exists paths_out dist_out,
    dijkstra_prob_length G source weight cutoff None = Ok (paths_out, dist_out) /\
    (forall u e, has_edge_data G source u e -> u <> source ->
       cutoff <= edge_probability weight e ->
       exists p, Dict.get dist_out u = Some p /\ edge_probability weight e <= p) /\
    (forall v u e p_v path_v,
       Dict.get dist_out v = Some p_v -> Dict.get paths_out v = Some path_v ->
       has_edge_data G v u e -> u <> source ->
       cutoff <= p_v * edge_probability weight e
                 * INR (List.length path_v - 1) / INR (List.length path_v) ->
       exists p, Dict.get dist_out u = Some p /\
                 p_v * edge_probability weight e
                 * INR (List.length path_v - 1) / INR (List.length path_v) <= p).
Proof.
  intros Hc Hu Hs Hr.
  destruct (convert_cutoff_range cutoff Hr) as (D & HD & HD0).
  destruct (search_settled G weight D source Hc Hu Hs HD0)
    as (st & m & Hw & I & Hf & Hset).
  destruct (final_source _ _ _ _ _ _ I Hf) as [Hsd Hsp].
  exists (final_paths st), (final_dist st). split.
  { unfold dijkstra_prob_length, dijkstra_search. rewrite HD. cbn [bind].
    now rewrite Hw. }
  assert (Hreach : forall v u e dv pv,
            Dict.get (dist st) v = Some dv -> Dict.get (paths st) v = Some pv ->
            (1 <= List.length pv)%nat ->
            has_edge_data G v u e -> u <> source ->
            cutoff <= pow10 (- candidate dv (weight_function weight e) (List.length pv)) ->
            exists p, Dict.get (final_dist st) u = Some p /\
              pow10 (- candidate dv (weight_function weight e) (List.length pv)) <= p).
  { intros v u e dv pv Hdv Hpv Hl He Hne Hle.
    destruct (Hset v u e He dv pv Hdv Hpv) as (s & Hseen & Hsle).
    { eapply over_cutoff_probability; eauto. }
    apply (final_seen_dist _ _ _ _ _ _ I Hf) in Hseen.
    exists (pow10 (- s)). split.
    - apply (final_dist_spec _ _ _ _ _ _ I Hf). eauto.
    - apply pow10_le. lra. }
  split.
  - intros u e He Hne Hle.
    pose proof (edge_probability_unit _ _ _ _ _ Hu He) as [Hw0 Hw1].
    assert (E : pow10 (- candidate 0 (weight_function weight e) 1)
                = edge_probability weight e).
    { rewrite weight_function_probability, candidate_probability by auto.
      cbn [Nat.ltb Nat.leb]. rewrite Ropp_0, pow10_0. ring. }
    destruct (Hreach source u e 0 [source] Hsd Hsp) as (p & Hp & Hple); auto.
    + cbn [List.length]. now rewrite E.
    + cbn [List.length] in Hple. rewrite E in Hple. eauto.
  - intros v u e p_v path_v Hpv Hpath He Hne Hle.
    pose proof (edge_probability_unit _ _ _ _ _ Hu He) as [Hw0 Hw1].
    apply (final_dist_spec _ _ _ _ _ _ I Hf) in Hpv.
    destruct Hpv as (Hvs & dv & Hdv & ->).
    pose proof Hpath as Hpath'. rewrite (final_paths_get _ _ _ _ _ _ I) in Hpath'.
    destruct (Dict.get (paths st) v) as [p'|] eqn:Hp'; [|discriminate].
    destruct (1 <? List.length p')%nat eqn:El; [|discriminate].
    injection Hpath' as ->.
    assert (E : pow10 (- candidate dv (weight_function weight e) (List.length path_v))
                = pow10 (- dv) * edge_probability weight e
                  * INR (List.length path_v - 1) / INR (List.length path_v)).
    { rewrite weight_function_probability, candidate_probability; auto.
      - now rewrite El.
      - apply Nat.ltb_lt in El. lia. }
    destruct (Hreach v u e dv path_v Hdv Hp') as (p & Hp & Hple); auto.
    + apply Nat.ltb_lt in El. lia.
    + now rewrite E.
    + rewrite E in Hple. eauto.
Qed.

Lemma dijkstra_no_better_edge_witness :
  exists p, Dict.get
              (match dijkstra_prob_length graph_AB "A" "weight" 0.5 None with
               | Ok out => snd out
               | Raise _ => []
               end) "B" = Some p /\ 1 / 2 <= p.
Proof.
  destruct (dijkstra_no_better_edge graph_AB "A" "weight" 0.5
              graph_AB_closed graph_AB_unit eq_refl)
    as (paths_out & dist_out & Hrun & Hdirect & _); [lra|].
  rewrite Hrun. cbn [snd].
  destruct (Hdirect "B" [("weight", 1 / 2)]) as (p & Hp & Hle).
  - exists [("B", [("weight", 1 / 2)])]. split; [reflexivity|now left].
  - discriminate.
  - cbn. lra.
  - exists p. split; auto.
Defined.

(** ** The output of the search and the relaxation rule *)

(** C6.  The search returns exactly the finalized nodes other than the
    source, which are the finalized nodes whose path is longer than 1; the
    probability returned for a node is [10 ** -d] for its distance [d], and
    [d] results from the relaxation rule
    [dist(v) + cost(v,u) - log10(1/L) + [L>1] * log10(1/(L-1))] applied to a
    finalized node [v] with path length [L] and the cost
    [-log10] of the probability of the edge from [v], the path returned
    being the path of [v] extended by the node.  The rule is applied to
    every edge that leaves a finalized node: unless the distance it gives is
    beyond the cutoff, the end of the edge is finalized, at that distance
    at most. *)
Theorem dijkstra_output_finalized G source weight cutoff :
  closed_graph G -> unit_weights G weight ->
  Dict.mem (_succ G) source = true -> 0 <= cutoff <= 1 ->
  exists D st paths_out dist_out,
    convert_cutoff cutoff = Ok D /\
    dijkstra_search G source weight cutoff None = Ok st /\
    dijkstra_prob_length G source weight cutoff None = Ok (paths_out, dist_out) /\
    fringe st = [] /\
    Dict.get (dist st) source = Some 0 /\
    Dict.get (paths st) source = Some [source] /\
    (forall u, In u (Dict.keys dist_out) <->
       u <> source /\ exists d, Dict.get (dist st) u = Some d) /\
    (forall u, In u (Dict.keys dist_out) <->
       exists d p, Dict.get (dist st) u = Some d /\
                   Dict.get (paths st) u = Some p /\ (1 < List.length p)%nat) /\
    (forall u, In u (Dict.keys paths_out) <-> In u (Dict.keys dist_out)) /\
    (forall u d, u <> source -> Dict.get (dist st) u = Some d ->
       Dict.get dist_out u = Some (pow10 (- d)) /\
       exists v dist_v path_v e,
         Dict.get (dist st) v = Some dist_v /\
         Dict.get (paths st) v = Some path_v /\
         has_edge_data G v u e /\
         d = new_dist_spec dist_v
               (- log10 (match Dict.get e weight with Some w => w | None => 1 end))
               (List.length path_v) /\
         Dict.get paths_out u = Some (path_v ++ [u])) /\
    (forall v u e dist_v path_v,
       Dict.get (dist st) v = Some dist_v ->
       Dict.get (paths st) v = Some path_v ->
       has_edge_data G v u e ->
       over_cutoff D
         (new_dist_spec dist_v
            (- log10 (match Dict.get e weight with Some w => w | None => 1 end))
            (List.length path_v)) = false ->
       exists d,
         Dict.get (dist st) u = Some d /\
         d <= new_dist_spec dist_v
                (- log10 (match Dict.get e weight with Some w => w | None => 1 end))
                (List.length path_v)).
Proof.
  intros Hc Hu Hs Hr.
  destruct (convert_cutoff_range cutoff Hr) as (D & HD & HD0).
  destruct (search_settled G weight D source Hc Hu Hs HD0)
    as (st & m & Hw & I & Hf & Hset).
  assert (Hrun : dijkstra_search G source weight cutoff None = Ok st).
  { unfold dijkstra_search. rewrite HD. exact Hw. }
  destruct (final_source _ _ _ _ _ _ I Hf) as [Hsd Hsp].
  exists D, st, (final_paths st), (final_dist st).
  split; auto. split; auto. split. { unfold dijkstra_prob_length. now rewrite Hrun. }
  split; auto. split; auto. split; auto.
  split. { intros u. apply (final_dist_keys _ _ _ _ _ _ I Hf). }
  split.
  { intros u. rewrite (final_dist_keys _ _ _ _ _ _ I Hf). split.
    - intros (Hne & d & Hd).
      assert (Hm : Dict.mem (final_paths st) u = true).
      { apply (final_paths_mem _ _ _ _ _ _ I Hf). eauto. }
      apply mem_true in Hm. destruct Hm as [p Hp].
      pose proof Hp as Hp'. rewrite (final_paths_get _ _ _ _ _ _ I) in Hp'.
      destruct (Dict.get (paths st) u) as [p'|]; [|discriminate].
      destruct (1 <? List.length p')%nat eqn:E; [|discriminate].
      apply Nat.ltb_lt in E. eauto.
    - intros (d & p & Hd & Hp & Hl). split; eauto.
      intros ->. rewrite Hsp in Hp. injection Hp as <-. simpl in Hl. lia. }
  split. { intros u. apply (final_paths_keys _ _ _ _ _ _ I Hf). }
  split.
  - intros u d Hne Hd. split.
    { apply (final_dist_spec _ _ _ _ _ _ I Hf). eauto. }
    assert (Hm : Dict.mem (final_paths st) u = true).
    { apply (final_paths_mem _ _ _ _ _ _ I Hf). eauto. }
    apply mem_true in Hm. destruct Hm as [p Hp]. pose proof Hp as Hp'.
    apply (final_paths_spec _ _ _ _ _ _ I Hf) in Hp'.
    destruct Hp' as (_ & d' & Hd' & _ & HR).
    assert (d' = d) as -> by congruence.
    destruct HR as (v & dv & pv & e & Hv & Hpv & _ & He & -> & ->).
    exists v, dv, pv, e. rewrite candidate_spec. auto 10.
  - intros v u e dv pv Hdv Hpv He Hoc.
    pose proof (candidate_spec dv (weight_function weight e) (List.length pv)) as E.
    unfold weight_function in E. rewrite <- E in *.
    destruct (Hset v u e He dv pv Hdv Hpv Hoc) as (s & Hseen & Hle).
    exists s. split; [|exact Hle].
    exact (final_seen_dist _ _ _ _ _ _ I Hf _ _ Hseen).
Qed.

(** On the network with four genes and with the cutoff 0.6, the rule
    applied to the edge from [A] to [B] finalizes [B] at the distance
    [-log10 (9/10)], and [B] is returned with the probability 9/10; the
    edge to [C] and the edge from [B] to [D] give distances beyond the
    cutoff, and neither [C] nor [D] is finalized. *)
Lemma dijkstra_output_finalized_witness :
  exists D st,
    convert_cutoff 0.6 = Ok D /\
    dijkstra_search graph_fork "A" "weight" 0.6 None = Ok st /\
    dijkstra_prob_length graph_fork "A" "weight" 0.6 None
    = Ok ([("B", ["A"; "B"])], [("B", 9 / 10)]) /\
    Dict.get (dist st) "B" = Some (new_dist_spec 0 (- log10 (9 / 10)) 1) /\
    pow10 (- new_dist_spec 0 (- log10 (9 / 10)) 1) = 9 / 10 /\
    Dict.get (dist st) "C" = None /\ Dict.get (dist st) "D" = None.
Proof.
  destruct (dijkstra_output_finalized graph_fork "A" "weight" 0.6
              graph_fork_closed graph_fork_unit eq_refl)
    as (D & st & paths_out & dist_out & HD & Hsearch & Hrun & _ & Hsd & Hsp
        & Hkeys & _ & _ & Hrule & Hall); [lra|].
  pose proof Hrun as E. rewrite search_fork in E. injection E as <- <-.
  pose proof HD as HD'. rewrite convert_cutoff_pos in HD' by lra. injection HD' as <-.
  eexists. exists st. split; [exact HD|]. split; [exact Hsearch|]. split; [exact Hrun|].
  pose proof candidate_fork_B as EB. rewrite candidate_spec in EB.
  unfold weight_function in EB. cbn [Dict.get String.eqb Ascii.eqb Bool.eqb] in EB.
  assert (HB : exists d, Dict.get (dist st) "B" = Some d).
  { destruct (Hall "A" "B" [("weight", 9 / 10)] 0 ["A"] Hsd Hsp) as (d & Hd & _); [| |eauto].
    - exists [("C", [("weight", 1 / 2)]); ("B", [("weight", 9 / 10)])].
      split; [reflexivity|right; now left].
    - cbn [Dict.get String.eqb Ascii.eqb Bool.eqb List.length]. rewrite EB.
      unfold over_cutoff. destruct log10_fork as (_ & _ & _ & L4).
      destruct (Rgt_dec (- log10 (9 / 10)) (- log10 0.6)); [lra|reflexivity]. }
  destruct HB as [d Hd].
  destruct (Hrule "B" d) as (Hout & v & dv & pv & e & Hdv & Hpv & He & Hdist & _);
    [discriminate|exact Hd|].
  apply graph_fork_edge in He.
  destruct He as [(_ & HC & _)|[(-> & _ & ->)|(_ & HD' & _)]]; try discriminate.
  rewrite Hsd in Hdv. injection Hdv as <-. rewrite Hsp in Hpv. injection Hpv as <-.
  cbn [Dict.get String.eqb Ascii.eqb Bool.eqb List.length] in Hdist. subst d.
  cbn [Dict.get String.eqb Ascii.eqb Bool.eqb] in Hout. injection Hout as Hout.
  split; [exact Hd|]. split; [now symmetry|].
  assert (Hnot : forall u, u <> "B" -> Dict.get (dist st) u = None \/ u = "A").
  { intros u Hu. destruct (Dict.get (dist st) u) as [du|] eqn:Hdu; [|now left].
    destruct (string_dec u "A") as [->|Hne]; [now right|].
    assert (Hin : In u (Dict.keys [("B", 9 / 10)])) by (apply Hkeys; eauto).
    destruct Hin as [<-|[]]. contradiction. }
  split.
  - destruct (Hnot "C") as [H|H]; [discriminate|exact H|discriminate].
  - destruct (Hnot "D") as [H|H]; [discriminate|exact H|discriminate].
Defined.

(** * Further properties of the network difference *)

Lemma getitem_raise {V : Type} (d : Dict.t V) k e :
  getitem d k = Raise e -> e = KeyError k.
Proof. unfold getitem. destruct (Dict.get d k); [discriminate|]. now intros [= <-]. Qed.

Lemma edge_attr_raise G u v key e :
  edge_attr G u v key = Raise e -> exists k, e = KeyError k.
Proof.
  unfold edge_attr, edge_data.
  destruct (getitem (_succ G) u) as [nbrs|e1] eqn:E1; cbn [bind].
  - destruct (getitem nbrs v) as [a|e2] eqn:E2; cbn [bind].
    + intros H. apply getitem_raise in H. eauto.
    + intros [= <-]. apply getitem_raise in E2. eauto.
  - intros [= <-]. apply getitem_raise in E1. eauto.
Qed.

Lemma edge_attr_weight_None G u v :
  edge_weight G u v = None -> exists k, edge_attr G u v "weight" = Raise (KeyError k).
Proof.
  intros H. destruct (edge_attr G u v "weight") as [w|e] eqn:E.
  - apply edge_attr_weight in E. congruence.
  - apply edge_attr_raise in E. destruct E as [k ->]. eauto.
Qed.

Ltac bind_raise H :=
  repeat match type of H with
         | bind ?m _ = Raise _ =>
             let E := fresh "E" in
             destruct m eqn:E; cbn [bind] in H;
             [| injection H as <-;
                first [apply getitem_raise in E | apply edge_attr_raise in E]; eauto]
         end.

(** The two loops of [difference] raise nothing but [KeyError]. *)
Lemma diff_edge_raise grn_source grn_target gd x e :
  diff_edge grn_source grn_target gd x = Raise e -> exists k, e = KeyError k.
Proof.
  destruct x as [[u v] dd]. unfold diff_edge. intros H. bind_raise H.
  destruct (Rgt_dec _ _); discriminate.
Qed.

Lemma diff_edge_full_raise grn_source grn_target gd x e :
  diff_edge_full grn_source grn_target gd x = Raise e -> exists k, e = KeyError k.
Proof.
  destruct x as [[u v] dd]. unfold diff_edge_full. intros H. bind_raise H.
  destruct (Rgt_dec _ _); [|discriminate]. bind_raise H. discriminate.
Qed.

(** A loop raises when one of its turns raises in every state. *)
Lemma for_each_raises {A S : Type} (P : exn -> Prop) (xs : list A)
    (f : S -> A -> result S) :
  (forall s x e, f s x = Raise e -> P e) ->
  (exists x, In x xs /\ forall s, exists e, f s x = Raise e) ->
  forall s, exists e, for_each xs f s = Raise e /\ P e.
Proof.
  intros HP. induction xs as [|x xs IH]; intros (y & Hin & Hy) s; [destruct Hin|].
  cbn [for_each]. destruct (f s x) as [s'|e] eqn:E; cbn [bind].
  - destruct Hin as [->|Hin].
    + destruct (Hy s) as [e He]. congruence.
    + apply IH. eauto.
  - exists e. split; eauto.
Qed.

(** Every turn of a loop that ends without exception has run without
    exception. *)
Lemma for_each_Ok_all {A S : Type} (xs : list A) (f : S -> A -> result S) :
  forall s s', for_each xs f s = Ok s' ->
    forall x, In x xs -> exists s1 s2, f s1 x = Ok s2.
Proof.
  induction xs as [|y xs IH]; intros s s' H x Hin; [destruct Hin|].
  cbn [for_each] in H. destruct (f s y) as [s1|] eqn:E; cbn [bind] in H; [|discriminate].
  destruct Hin as [->|Hin]; eauto.
Qed.

(** X6.  [difference] adds no edge that only the target network has: when
    some edge of the target network has no weight in the source network (the
    source network lacks the edge), [difference] raises [KeyError], in both
    modes.  In minimal mode it returns a graph exactly when every edge of
    the target network has a weight in both networks. *)
Theorem difference_missing_edge grn_source grn_target :
  (forall full_output,
     (exists u v ddict, In (u, v, ddict) (edges grn_target) /\
                        edge_weight grn_source u v = None) ->
     exists k, difference grn_source grn_target full_output = Raise (KeyError k)) /\
  ((exists grn_diff, difference grn_source grn_target false = Ok grn_diff) <->
   (forall u v ddict, In (u, v, ddict) (edges grn_target) ->
      (exists ws, edge_weight grn_source u v = Some ws) /\
      (exists wt, edge_weight grn_target u v = Some wt))).
Proof.
  split.
  - intros full_output (u & v & dd & Hin & Hnone).
    destruct (edge_attr_weight_None _ _ _ Hnone) as [k Hk].
    unfold difference. destruct full_output.
    + destruct (for_each_raises (fun e => exists k, e = KeyError k) (edges grn_target)
                  (diff_edge_full grn_source grn_target)) with (s := empty_graph)
        as (e & He & k' & ->); eauto.
      * intros s x e. apply diff_edge_full_raise.
      * exists (u, v, dd). split; auto. intros s. unfold diff_edge_full.
        rewrite Hk. cbn [bind]. eauto.
    + destruct (for_each_raises (fun e => exists k, e = KeyError k) (edges grn_target)
                  (diff_edge grn_source grn_target)) with (s := empty_graph)
        as (e & He & k' & ->); eauto.
      * intros s x e. apply diff_edge_raise.
      * exists (u, v, dd). split; auto. intros s. unfold diff_edge.
        rewrite Hk. cbn [bind]. eauto.
  - split.
    + intros [gd H] u v dd Hin. unfold difference in H.
      destruct (for_each_Ok_all _ _ _ _ H _ Hin) as (s1 & s2 & Hs).
      unfold diff_edge in Hs.
      destruct (edge_attr grn_source u v "weight") as [ws|] eqn:Es; cbn [bind] in Hs;
        [|discriminate].
      destruct (edge_attr grn_target u v "weight") as [wt|] eqn:Et; cbn [bind] in Hs;
        [|discriminate].
      apply edge_attr_weight in Es, Et. eauto.
    + intros Hall. apply difference_total. intros u v dd Hin.
      destruct (Hall u v dd Hin) as [Hs Ht]. split; auto. split; auto. discriminate.
Qed.

Lemma difference_missing_edge_witness :
  (exists k, difference graph_AB graph_target true = Raise (KeyError k)) /\
  (exists k, difference graph_AB graph_target false = Raise (KeyError k)) /\
  (exists grn_diff, difference graph_source graph_target false = Ok grn_diff).
Proof.
  assert (H : exists u v ddict, In (u, v, ddict) (edges graph_target) /\
                                edge_weight graph_AB u v = None).
  { exists "B", "A", [("weight", 1 / 4)]. split; [cbn; auto|reflexivity]. }
  split; [|split].
  - exact (proj1 (difference_missing_edge graph_AB graph_target) true H).
  - exact (proj1 (difference_missing_edge graph_AB graph_target) false H).
  - apply (proj2 (difference_missing_edge graph_source graph_target)).
    intros u v dd Hin. cbn in Hin.
    destruct Hin as [Hin|[Hin|[]]]; injection Hin as <- <- <-;
      (split; eexists; reflexivity).
Defined.

(** ** The nodes of the difference *)

Lemma mem_add_node_inv G n k :
  Dict.mem (_succ (add_node G n)) k = true -> k = n \/ Dict.mem (_succ G) k = true.
Proof.
  unfold add_node. destruct (Dict.mem (_succ G) n) eqn:Hm; auto.
  cbn [_succ]. rewrite mem_set. intros H. apply orb_true_iff in H.
  destruct H as [H|H]; auto. apply String.eqb_eq in H. auto.
Qed.

Lemma mem_add_edge_inv G u v attr k :
  Dict.mem (_succ (add_edge G u v attr)) k = true ->
  k = u \/ k = v \/ Dict.mem (_succ G) k = true.
Proof.
  unfold add_edge. cbn [_succ]. rewrite mem_set. intros H. apply orb_true_iff in H.
  destruct H as [H|H].
  - apply String.eqb_eq in H. auto.
  - apply mem_add_node_inv in H. destruct H as [->|H]; auto.
    apply mem_add_node_inv in H. destruct H as [->|H]; auto.
Qed.

Lemma has_edge_add_edge G u v attr a b :
  (a = u /\ b = v) \/ has_edge G a b -> has_edge (add_edge G u v attr) a b.
Proof.
  unfold has_edge. rewrite edge_lookup_add_edge.
  destruct (String.eqb u a && String.eqb v b)%bool eqn:E; [eauto|].
  intros [[-> ->]|H]; auto. rewrite !String.eqb_refl in E. discriminate.
Qed.

Lemma no_isolated_add_edge G u v attr :
  no_isolated_node G -> no_isolated_node (add_edge G u v attr).
Proof.
  intros H n Hn. apply mem_add_edge_inv in Hn. destruct Hn as [->|[->|Hn]].
  - exists v. left. apply has_edge_add_edge. auto.
  - exists u. right. apply has_edge_add_edge. auto.
  - destruct (H n Hn) as [m [Hm|Hm]]; exists m; [left|right];
      apply has_edge_add_edge; auto.
Qed.

Lemma has_edge_nodes G u v :
  closed_graph G -> has_edge G u v ->
  Dict.mem (_succ G) u = true /\ Dict.mem (_succ G) v = true.
Proof.
  intros Hc [a Ha]. unfold edge_lookup in Ha.
  destruct (Dict.get (_succ G) u) as [nbrs|] eqn:Hn; [|discriminate]. split.
  - apply mem_true. eauto.
  - apply (Hc u v a). exists nbrs. split; auto. now apply get_In.
Qed.

(** What the loops of [difference] keep: the graph built has no isolated
    node, and it is the empty graph as long as no weight rose. *)
Lemma difference_fold grn_source grn_target step gd :
  diff_step_spec step grn_source grn_target ->
  for_each (edges grn_target) step empty_graph = Ok gd ->
  no_isolated_node gd /\
  ((forall u v ws wt, edge_weight grn_source u v = Some ws ->
                      edge_weight grn_target u v = Some wt -> wt - ws <= 0) ->
   gd = empty_graph).
Proof.
  intros Hspec.
  apply (for_each_Ok
           (fun g => no_isolated_node g /\
              ((forall u v ws wt, edge_weight grn_source u v = Some ws ->
                                  edge_weight grn_target u v = Some wt -> wt - ws <= 0) ->
               g = empty_graph))).
  - split; auto. intros n Hn. discriminate.
  - intros g [[u v] dd] g' _ [Hiso Hempty] Hs.
    destruct (Hspec _ _ _ _ _ Hs) as (ws & wt & Hws & Hwt & Hcase).
    destruct Hcase as [(Hpos & attr & -> & _)|(_ & ->)]; [|auto]. split.
    + now apply no_isolated_add_edge.
    + intros Hno. specialize (Hno u v ws wt Hws Hwt). lra.
Qed.

(** X7.  The difference of two networks does not take the nodes of both
    networks: its nodes are the ends of its edges, so a gene whose edges
    gained nothing is not a node of the difference, and when no edge gained
    weight (as for a network and itself) the difference is the graph without
    nodes. *)
Theorem difference_nodes grn_source grn_target full_output grn_diff :
  difference grn_source grn_target full_output = Ok grn_diff ->
  (forall n, In n (nodes grn_diff) <->
             exists m, has_edge grn_diff n m \/ has_edge grn_diff m n) /\
  ((forall u v ws wt, edge_weight grn_source u v = Some ws ->
                      edge_weight grn_target u v = Some wt -> wt - ws <= 0) ->
   grn_diff = empty_graph).
Proof.
  intros H.
  assert (Hc : closed_graph grn_diff).
  { exact (proj1 (difference_searchable _ _ _ _ H)). }
  assert (Hfold : no_isolated_node grn_diff /\
            ((forall u v ws wt, edge_weight grn_source u v = Some ws ->
                                edge_weight grn_target u v = Some wt -> wt - ws <= 0) ->
             grn_diff = empty_graph)).
  { unfold difference in H. destruct full_output.
    - exact (difference_fold _ _ _ _ (diff_edge_full_spec grn_source grn_target) H).
    - exact (difference_fold _ _ _ _ (diff_edge_spec grn_source grn_target) H). }
  destruct Hfold as [Hiso Hempty]. split; auto.
  intros n. unfold nodes. rewrite keys_get, <- mem_true. split.
  - apply Hiso.
  - intros [m [Hm|Hm]]; apply (has_edge_nodes _ _ _ Hc) in Hm; tauto.
Qed.

Lemma difference_nodes_witness :
  difference graph_source graph_source false = Ok empty_graph.
Proof.
  destruct (difference_total graph_source graph_source false) as [gd H].
  { intros u v dd Hin. cbn in Hin.
    destruct Hin as [Hin|[Hin|[]]]; injection Hin as <- <- <-;
      (split; [eexists; reflexivity|]); (split; [eexists; reflexivity|]); discriminate. }
  rewrite H. f_equal.
  apply (proj2 (difference_nodes graph_source graph_source false gd H)).
  intros u v ws wt Hs Ht. assert (ws = wt) by congruence. lra.
Defined.
(** ** The two modes of the difference *)

(** The attributes that a turn of the extended loop writes. *)
Lemma extended_attrs_update d ws wt tf_t tf_s tg_t tg_s wb_t wb_s act_t act_s :
  extended_attrs
    (Dict.update d
       [("weight", wt - ws); ("weight_source", ws); ("weight_target", wt);
        ("tf_expr_diff", tf_t - tf_s); ("tf_expr_source", tf_s); ("tf_expr_target", tf_t);
        ("tg_expr_diff", tg_t - tg_s); ("tg_expr_source", tg_s); ("tg_expr_target", tg_t);
        ("wb_diff", wb_t - wb_s); ("wb_source", wb_s); ("wb_target", wb_t);
        ("tf_act_diff", act_t - act_s); ("tf_act_source", act_s);
        ("tf_act_target", act_t)]).
Proof.
  unfold extended_attrs, is_difference.
  repeat split; eexists; eexists; rewrite !get_update;
    (split; [reflexivity|split; reflexivity]).
Qed.

Lemma diff_edge_full_attrs grn_source grn_target gd u v dd gd' :
  diff_edge_full grn_source grn_target gd (u, v, dd) = Ok gd' ->
  gd' = gd \/
  exists attr, gd' = add_edge gd u v attr /\ forall d, extended_attrs (Dict.update d attr).
Proof.
  unfold diff_edge_full.
  destruct (edge_attr grn_source u v "weight") as [ws|]; cbn [bind]; [|discriminate].
  destruct (edge_attr grn_target u v "weight") as [wt|]; cbn [bind]; [|discriminate].
  destruct (Rgt_dec (wt - ws) 0); [|intros [= <-]; now left].
  repeat match goal with
         | |- context [bind ?m _] => destruct m; cbn [bind]; [|discriminate]
         end.
  intros [= <-]. right. eexists. split; [reflexivity|].
  intros d. apply extended_attrs_update.
Qed.

(** X8.  The two modes of [difference] give the same edges with the same
    weights; in extended mode every edge of the result carries the weight
    and the four other quantities for both networks, and each difference it
    carries is the value for the target network minus the value for the
    source network. *)
Theorem difference_modes grn_source grn_target :
  (forall g_min g_full,
     difference grn_source grn_target false = Ok g_min ->
     difference grn_source grn_target true = Ok g_full ->
     forall u v, (has_edge g_min u v <-> has_edge g_full u v) /\
                 edge_weight g_min u v = edge_weight g_full u v) /\
  (forall g_full,
     difference grn_source grn_target true = Ok g_full ->
     forall u v a, edge_lookup g_full u v = Some a -> extended_attrs a).
Proof.
  split.
  - intros g1 g2 H1 H2 u v. apply difference_inv in H1, H2.
    destruct (H1 u v) as [A1 B1]. destruct (H2 u v) as [A2 B2].
    unfold has_edge, edge_weight.
    destruct (edge_lookup g1 u v) as [a1|] eqn:E1;
      destruct (edge_lookup g2 u v) as [a2|] eqn:E2.
    + destruct (A1 a1 eq_refl) as [_ (ws & wt & Hs & Ht & _ & ->)].
      destruct (A2 a2 eq_refl) as [_ (ws' & wt' & Hs' & Ht' & _ & ->)].
      split; [split; eauto|]. congruence.
    + destruct (A1 a1 eq_refl) as [Hp (ws & wt & Hs & Ht & Hpos & _)].
      destruct (B2 Hp ws wt Hs Ht Hpos) as [a2 Ha2]. discriminate.
    + destruct (A2 a2 eq_refl) as [Hp (ws & wt & Hs & Ht & Hpos & _)].
      destruct (B1 Hp ws wt Hs Ht Hpos) as [a1 Ha1]. discriminate.
    + split; [|reflexivity]. split; intros [a Ha]; discriminate.
  - intros g H. unfold difference in H. revert H.
    apply (for_each_Ok
             (fun g => forall u v a, edge_lookup g u v = Some a -> extended_attrs a)).
    + intros u v a Ha. discriminate.
    + intros gd [[u0 v0] dd] gd' _ Hinv Hs u v a.
      apply diff_edge_full_attrs in Hs. destruct Hs as [->|(attr & -> & Hattr)]; [apply Hinv|].
      rewrite edge_lookup_add_edge.
      destruct (String.eqb u0 u && String.eqb v0 v)%bool; [|apply Hinv].
      intros [= <-]. apply Hattr.
Qed.

Lemma covered_full_example full_output :
  diff_covered graph_source_full graph_target_full full_output.
Proof.
  intros u v dd Hin. cbn in Hin. destruct Hin as [Hin|[]]. injection Hin as <- <- <-.
  split; [eexists; reflexivity|]. split; [eexists; reflexivity|].
  intros _ key Hkey. cbn in Hkey.
  destruct Hkey as [<-|[<-|[<-|[<-|[]]]]];
    (split; [eexists; reflexivity | eexists; eexists; split; reflexivity]).
Qed.

Lemma difference_modes_witness :
  exists g_min g_full a,
    difference graph_source_full graph_target_full false = Ok g_min /\
    difference graph_source_full graph_target_full true = Ok g_full /\
    edge_weight g_min "A" "B" = edge_weight g_full "A" "B" /\
    edge_lookup g_full "A" "B" = Some a /\ extended_attrs a.
Proof.
  destruct (difference_total _ _ false (covered_full_example false)) as [g1 H1].
  destruct (difference_total _ _ true (covered_full_example true)) as [g2 H2].
  destruct (difference_modes graph_source_full graph_target_full) as [Hsame Hext].
  destruct (proj2 (difference_inv _ _ _ _ H2 "A" "B")) with (ws := 1 / 4) (wt := 1 / 2)
    as [a Ha]; try reflexivity.
  { eexists. cbn. left. reflexivity. }
  { lra. }
  exists g1, g2, a. split; auto. split; auto. split.
  - apply (Hsame g1 g2 H1 H2 "A" "B").
  - split; auto. exact (Hext g2 H2 "A" "B" a Ha).
Defined.

(** * Further properties of the scores *)

(** ** The target score *)

Lemma target_score_loop_raise expression_change :
  forall l1 g p l2 acc,
    (forall g' p', In (g', p') l1 -> Dict.mem expression_change g' = true) ->
    Dict.mem expression_change g = false ->
    for_each (l1 ++ (g, p) :: l2)
      (fun ts tw =>
         let '(target, weight) := tw in
         e <- getitem expression_change target ;;
         Ok (ts + score e * weight)) acc = Raise (KeyError g).
Proof.
  induction l1 as [|[g1 p1] l1 IH]; intros g p l2 acc Hall Hg; cbn [app for_each].
  - apply mem_false in Hg. unfold getitem. rewrite Hg. reflexivity.
  - assert (H1 : Dict.mem expression_change g1 = true) by (apply (Hall g1 p1); now left).
    apply mem_true in H1. destruct H1 as [e He].
    unfold getitem at 1. rewrite He. cbn [bind]. apply IH; auto.
    intros g' p' Hin. apply (Hall g' p'). now right.
Qed.

Lemma first_without_record (expression_change : Dict.t Expression) (targets : Dict.t R) :
  (exists g p, In (g, p) targets /\ Dict.mem expression_change g = false) ->
  exists l1 g p l2,
    targets = l1 ++ (g, p) :: l2 /\ Dict.mem expression_change g = false /\
    forall g' p', In (g', p') l1 -> Dict.mem expression_change g' = true.
Proof.
  induction targets as [|[g0 p0] targets IH]; intros (g & p & Hin & Hg); [destruct Hin|].
  destruct (Dict.mem expression_change g0) eqn:E0.
  - destruct Hin as [Hin|Hin]; [injection Hin as <- <-; congruence|].
    destruct IH as (l1 & g1 & p1 & l2 & -> & Hg1 & Hall); eauto.
    exists ((g0, p0) :: l1), g1, p1, l2. split; [reflexivity|]. split; [exact Hg1|].
    intros g' p' [Hin'|Hin']; [injection Hin' as <- <-; exact E0 | eauto].
  - exists [], g0, p0, targets. split; [reflexivity|]. split; [exact E0|].
    intros g' p' [].
Qed.

Lemma sum_nonneg l : Forall (fun x => 0 <= x) l -> 0 <= fold_right Rplus 0 l.
Proof. induction 1; simpl; lra. Qed.

(** X9.  [target_score] returns when every target has an expression
    record; otherwise it raises [KeyError] on the first target, in the order
    of the dictionary, that has none.  With scores and weights that are not
    negative the target score is not negative. *)
Theorem target_score_outcome expression_change targets :
  ((forall g p, In (g, p) targets -> Dict.mem expression_change g = true) ->
   exists ts, target_score expression_change targets = Ok ts) /\
  (forall l1 g p l2,
     targets = l1 ++ (g, p) :: l2 ->
     (forall g' p', In (g', p') l1 -> Dict.mem expression_change g' = true) ->
     Dict.mem expression_change g = false ->
     target_score expression_change targets = Raise (KeyError g)) /\
  ((exists g p, In (g, p) targets /\ Dict.mem expression_change g = false) ->
   exists k, target_score expression_change targets = Raise (KeyError k) /\
             In k (Dict.keys targets) /\ Dict.mem expression_change k = false) /\
  (forall ts,
     (forall g e, Dict.get expression_change g = Some e -> 0 <= score e) ->
     (forall g p, In (g, p) targets -> 0 <= p) ->
     target_score expression_change targets = Ok ts -> 0 <= ts).
Proof.
  split; [apply target_score_total|]. split; [|split].
  - intros l1 g p l2 -> Hall Hg. unfold target_score, Dict.items.
    now apply target_score_loop_raise.
  - intros H. destruct (first_without_record _ _ H) as (l1 & g & p & l2 & -> & Hg & Hall).
    exists g. split; [|split; auto].
    + unfold target_score, Dict.items. now apply target_score_loop_raise.
    + unfold Dict.keys. rewrite map_app. apply in_or_app. right. now left.
  - intros ts Hscore Hw H. unfold target_score, Dict.items in H.
    apply target_score_acc in H. subst ts. rewrite Rplus_0_l.
    apply sum_nonneg. apply Forall_forall. intros x Hx.
    apply in_map_iff in Hx. destruct Hx as ([g p] & <- & Hin). cbn [fst snd].
    specialize (Hw g p Hin). unfold score_of.
    destruct (Dict.get expression_change g) as [e|] eqn:E; [|lra].
    specialize (Hscore g e E). nra.
Qed.

Lemma target_score_outcome_witness :
  target_score expression_B [("B", 1 / 2); ("A", 1 / 2)] = Raise (KeyError "A") /\
  (exists ts, target_score expression_AB [("B", 1 / 2); ("A", 1 / 2)] = Ok ts).
Proof.
  split.
  - apply (proj1 (proj2 (target_score_outcome expression_B [("B", 1 / 2); ("A", 1 / 2)]))
             [("B", 1 / 2)] "A" (1 / 2) []).
    + reflexivity.
    + intros g' p' [H|[]]. injection H as <- _. reflexivity.
    + reflexivity.
  - apply (proj1 (target_score_outcome expression_AB [("B", 1 / 2); ("A", 1 / 2)])).
    intros g p [H|[H|[]]]; injection H as <- _; reflexivity.
Defined.

(** ** The factors the driver scores *)

Lemma out_degree_pos_spec grn tf :
  out_degree_pos grn tf = true <->
  exists nbrs, Dict.get (_succ grn) tf = Some nbrs /\ nbrs <> [].
Proof.
  unfold out_degree_pos, out_degree, adj, getitem.
  destruct (Dict.get (_succ grn) tf) as [nbrs|]; cbn [bind].
  - destruct nbrs as [|x nbrs]; cbn; split.
    + discriminate.
    + intros (n & [= <-] & H). contradiction.
    + intros _. eexists. split; [reflexivity|discriminate].
    + reflexivity.
  - split; [discriminate|]. intros (n & H & _). discriminate.
Qed.

Lemma positive_fold_change_spec (expression_change : Dict.t Expression) tf :
  match Dict.get expression_change tf with
  | Some e => if Rgt_dec (realfc e) 0 then true else false
  | None => false
  end = true <->
  exists e, Dict.get expression_change tf = Some e /\ realfc e > 0.
Proof.
  destruct (Dict.get expression_change tf) as [e|]; split.
  - destruct (Rgt_dec (realfc e) 0); [eauto|discriminate].
  - intros (e' & [= <-] & H). destruct (Rgt_dec (realfc e) 0); auto.
  - discriminate.
  - intros (e & H & _). discriminate.
Qed.

(** The factors selected, when there are any. *)
Lemma select_de_tfs_Ok grn expression_change de_tfs :
  select_de_tfs grn expression_change = Ok de_tfs ->
  de_tfs <> [] /\ NoDup de_tfs /\
  forall tf, In tf de_tfs <-> upregulated_tf grn expression_change tf.
Proof.
  unfold select_de_tfs.
  destruct (List.length _ =? 0)%nat; [discriminate|].
  match goal with |- context [PySet.of_list ?l] => set (sel := PySet.of_list l) end.
  destruct (PySet.len sel =? 0)%nat eqn:E; [discriminate|]. intros [= <-].
  split. { intros H. rewrite H in E. discriminate. }
  split. { apply NoDup_nodup. }
  intros tf. unfold sel. rewrite PySet_of_list_In, !filter_In.
  rewrite positive_fold_change_spec, out_degree_pos_spec. unfold upregulated_tf, nodes.
  split.
  - intros [[[_ Hdeg] _] Hfc]. auto.
  - intros [(nbrs & Hn & Hne) (e & He & Hfc)]. split; [split; [split|]|]; eauto.
    + apply keys_get. eauto.
    + apply mem_true. eauto.
Qed.

(** X10.  [Influence.run_target_score] scores the nodes of the network that
    have a successor and an expression record with a positive fold change,
    each once, whatever their scores; it exits with the status 1 exactly
    when the network has no such node. *)
Theorem select_de_tfs_spec grn expression_change :
  ((exists tf, upregulated_tf grn expression_change tf) ->
   exists de_tfs,
     select_de_tfs grn expression_change = Ok de_tfs /\ NoDup de_tfs /\
     forall tf, In tf de_tfs <-> upregulated_tf grn expression_change tf) /\
  ((forall tf, ~ upregulated_tf grn expression_change tf) ->
   select_de_tfs grn expression_change = Raise (SystemExit 1)) /\
  (forall e, select_de_tfs grn expression_change = Raise e -> e = SystemExit 1).
Proof.
  assert (Hraise : forall e, select_de_tfs grn expression_change = Raise e ->
                             e = SystemExit 1 /\
                             forall tf, ~ upregulated_tf grn expression_change tf).
  { intros e. unfold select_de_tfs.
    match goal with |- context [(List.length ?l =? 0)%nat] => set (de := l) end.
    destruct (List.length de =? 0)%nat eqn:E0.
    - intros [= <-]. split; auto. intros tf [(nbrs & Hn & Hne) (x & Hx & Hfc)].
      assert (Hin : In tf de).
      { unfold de. rewrite !filter_In. split; [split|].
        - apply keys_get. eauto.
        - apply out_degree_pos_spec. eauto.
        - apply mem_true. eauto. }
      destruct de; [destruct Hin|discriminate].
    - match goal with |- context [PySet.of_list ?l] => set (sel := PySet.of_list l) end.
      destruct (PySet.len sel =? 0)%nat eqn:E; [|discriminate].
      intros [= <-]. split; auto. apply len_zero in E.
      intros tf [(nbrs & Hn & Hne) Hfc].
      assert (Hin : In tf sel).
      { unfold sel. rewrite PySet_of_list_In, filter_In. split.
        - unfold de. rewrite !filter_In. destruct Hfc as (x & Hx & _). split; [split|].
          + apply keys_get. eauto.
          + apply out_degree_pos_spec. eauto.
          + apply mem_true. eauto.
        - now apply positive_fold_change_spec. }
      rewrite E in Hin. destruct Hin. }
  split; [|split].
  - intros [tf Htf]. destruct (select_de_tfs grn expression_change) as [de_tfs|e] eqn:H.
    + exists de_tfs. split; auto. apply (select_de_tfs_Ok _ _ _ H).
    + destruct (Hraise e eq_refl) as [_ Hno]. destruct (Hno tf Htf).
  - intros Hno. destruct (select_de_tfs grn expression_change) as [de_tfs|e] eqn:H.
    + destruct (select_de_tfs_Ok _ _ _ H) as (Hne & _ & Hin).
      destruct de_tfs as [|tf l]; [contradiction|].
      destruct (Hno tf). apply Hin. now left.
    + destruct (Hraise e eq_refl) as [-> _]. reflexivity.
  - intros e He. apply (Hraise e He).
Qed.

Lemma select_de_tfs_spec_witness :
  (exists de_tfs,
     select_de_tfs graph_AB expression_AB = Ok de_tfs /\ NoDup de_tfs /\
     forall tf, In tf de_tfs <-> upregulated_tf graph_AB expression_AB tf) /\
  select_de_tfs graph_AB expression_B = Raise (SystemExit 1).
Proof.
  split.
  - apply (proj1 (select_de_tfs_spec graph_AB expression_AB)).
    exists "A". split.
    + eexists. split; [reflexivity|discriminate].
    + eexists. split; [reflexivity|]. cbn. lra.
  - apply (proj1 (proj2 (select_de_tfs_spec graph_AB expression_B))).
    intros tf [(nbrs & Hn & Hne) (e & He & Hfc)].
    cbn in He. destruct (String.eqb tf "B") eqn:E; [|discriminate].
    apply String.eqb_eq in E. subst tf. cbn in Hn. injection Hn as <-. contradiction.
Defined.

(** ** The rows the driver writes *)

Lemma select_de_genes_expressed grn (expression_change : Dict.t Expression) g :
  In g (select_de_genes grn expression_change) -> Dict.mem expression_change g = true.
Proof.
  unfold select_de_genes. rewrite PySet_of_list_In. intros H.
  apply in_map_iff in H. destruct H as ([g' e] & <- & Hin).
  apply filter_In in Hin. destruct Hin as [Hin _]. unfold Dict.items in Hin.
  cbn [fst]. apply mem_true. eapply In_get. exact Hin.
Qed.

(** The loop that writes a row per factor, when every factor gives a row. *)
Lemma collect_rows (work : node -> result ScoreRecord)
    (Q : node -> ScoreRecord -> Prop) l :
  (forall tf, In tf l -> exists row, work tf = Ok row /\ Q tf row) ->
  forall file, exists rows,
    for_each l (fun file tf => line <- work tf ;; Ok (file ++ [line])) file
    = Ok (file ++ rows) /\ Forall2 Q l rows.
Proof.
  induction l as [|tf l IH]; intros Hall file; cbn [for_each].
  - exists []. rewrite app_nil_r. split; [reflexivity|constructor].
  - destruct (Hall tf (or_introl eq_refl)) as (row & -> & Hrow). cbn [bind].
    destruct (IH (fun tf' H => Hall tf' (or_intror H)) (file ++ [row]))
      as (rows & -> & Hrows).
    exists (row :: rows). rewrite <- app_assoc. split; [reflexivity|].
    constructor; auto.
Qed.

Lemma rows_of_factors (P : ScoreRecord -> Prop) l rows :
  Forall2 (fun tf row => factor row = tf /\ P row) l rows ->
  map factor rows = l /\ Forall P rows.
Proof.
  induction 1 as [|tf row l rows [Hf Hp] _ [IH1 IH2]]; cbn [map]; split; auto.
  congruence.
Qed.

Section DriverFacts.

Variable set_iter : PySet.t -> list string.
Variable mannwhitneyu_asymptotic : list R -> list R -> result pyfloat.
Hypothesis set_iter_perm : forall s, Permutation (set_iter s) s.
Hypothesis test_errors_caught :
  forall x y e, mannwhitneyu_asymptotic x y = Raise e -> caught_by_fold_change e = true.

(** [influence_scores] returns a row for a factor of the network that has
    an expression record, as all the differentially expressed genes do. *)
Lemma influence_scores_returns node_ grn ec de_genes nbrs :
  closed_graph grn -> unit_weights grn "weight" ->
  Dict.get (_succ grn) node_ = Some nbrs -> Dict.mem ec node_ = true ->
  (forall g, In g de_genes -> Dict.mem ec g = true) ->
  exists row,
    influence_scores set_iter mannwhitneyu_asymptotic node_ grn ec de_genes = Ok row /\
    factor row = node_ /\ directTargets row = List.length nbrs.
Proof.
  intros Hc Hu Hn He Hde. unfold influence_scores.
  assert (Hm : Dict.mem (_succ grn) node_ = true) by (apply mem_true; eauto).
  destruct (dijkstra_search_total grn node_ "weight" 0.6 Hc Hu Hm)
    as (D & st & m & HD & Hrun & I & Hf); [lra|].
  unfold dijkstra_prob_length. rewrite Hrun. cbn [bind].
  destruct (target_score_total ec
              (filter (fun kv => PySet.mem de_genes (fst kv)) (final_dist st)))
    as [ts ->].
  { intros g p Hin. apply filter_In in Hin. destruct Hin as [_ Hin].
    apply Hde. now apply PySet_mem_In. }
  cbn [bind].
  rewrite (fold_change_scores_unfold set_iter mannwhitneyu_asymptotic set_iter_perm
             node_ grn ec nbrs Hn).
  unfold out_degree, adj. rewrite (getitem_Some _ _ _ Hn).
  apply mem_true in He. destruct He as [e He]. rewrite (getitem_Some _ _ _ He).
  destruct (PySet.len (direct_targets_of grn ec node_) =? 0)%nat; cbn [bind];
    [eexists; split; [reflexivity|split; reflexivity]|].
  destruct (PySet.len (non_direct_targets_of grn ec node_) =? 0)%nat; cbn [bind];
    [eexists; split; [reflexivity|split; reflexivity]|].
  destruct (mannwhitneyu_asymptotic _ _) as [p|ex] eqn:Emw; cbn [bind].
  - eexists; split; [reflexivity|split; reflexivity].
  - rewrite (test_errors_caught _ _ _ Emw). cbn [bind].
    eexists; split; [reflexivity|split; reflexivity].
Qed.

(** X11.  On a network whose edges end in nodes of the network and carry
    probabilities, as [difference] builds it, [Influence.run_target_score]
    raises no exception once it has found a factor to score: it writes one
    row per factor selected, in the order of the set of the factors, each
    with at least one direct target; in particular the [KeyError] of
    [influence_scores] on a factor without expression record cannot occur
    in it.  With several workers this holds when every job completes. *)
Theorem run_target_score_rows grn expression_change ncore schedule de_tfs :
  closed_graph grn -> unit_weights grn "weight" ->
  select_de_tfs grn expression_change = Ok de_tfs ->
  ((1 < ncore)%nat ->
   forall i, (i < List.length (set_iter de_tfs))%nat -> In i schedule) ->
  exists rows,
    run_target_score set_iter mannwhitneyu_asymptotic grn expression_change
      ncore schedule = Ok rows /\
    map factor rows = set_iter de_tfs /\
    Forall (fun row => (0 < directTargets row)%nat) rows.
Proof.
  intros Hc Hu Hsel Hsched. unfold run_target_score. rewrite Hsel. cbn [bind].
  destruct (select_de_tfs_Ok _ _ _ Hsel) as (_ & _ & Hin).
  set (work := fun tf => influence_scores set_iter mannwhitneyu_asymptotic tf grn
                           expression_change (select_de_genes grn expression_change)).
  destruct (collect_rows work
              (fun tf row => factor row = tf /\ (0 < directTargets row)%nat)
              (set_iter de_tfs)) with (file := @nil ScoreRecord)
    as (rows & Hrows & HQ).
  { intros tf Htf.
    assert (Htf' : In tf de_tfs).
    { eapply Permutation_in; [apply set_iter_perm|exact Htf]. }
    apply Hin in Htf'. destruct Htf' as [(nbrs & Hn & Hne) (e & He & _)].
    destruct (influence_scores_returns tf grn expression_change
                (select_de_genes grn expression_change) nbrs Hc Hu Hn)
      as (row & Hrow & Hf & Hd).
    - apply mem_true. eauto.
    - apply select_de_genes_expressed.
    - exists row. split; auto. split; auto. rewrite Hd.
      destruct nbrs; [contradiction|simpl; lia]. }
  cbn [app] in Hrows. subst work. cbn beta in Hrows. exists rows. split; [|split].
  - assert (Hwritten : forall w : result (list ScoreRecord), w = Ok rows ->
              match w with Ok file => Ok file | Raise e => on_exception e end = Ok rows).
    { intros w ->. reflexivity. }
    destruct (1 <? ncore)%nat eqn:E.
    + apply Nat.ltb_lt in E.
      rewrite run_pool_complete by (intros i Hi; apply Hsched; auto).
      rewrite collect_jobs. apply Hwritten. exact Hrows.
    + apply Hwritten. exact Hrows.
  - exact (proj1 (rows_of_factors _ _ _ HQ)).
  - exact (proj2 (rows_of_factors _ _ _ HQ)).
Qed.

End DriverFacts.

Lemma run_target_score_rows_witness :
  exists rows,
    run_target_score (fun s => s) (fun _ _ => Ok (Num (1 / 2)))
      graph_AB expression_AB 1 [] = Ok rows /\
    map factor rows = ["A"] /\
    Forall (fun row => (0 < directTargets row)%nat) rows.
Proof.
  apply (run_target_score_rows (fun s => s) (fun _ _ => Ok (Num (1 / 2)))
           (fun s => Permutation_refl s)) with (de_tfs := ["A"]).
  - discriminate.
  - exact graph_AB_closed.
  - exact graph_AB_unit.
  - exact select_de_tfs_AB.
  - intros H. lia.
Defined.

Lemma select_de_tfs_fork : select_de_tfs graph_fork expression_fork = Ok ["A"; "B"].
Proof.
  unfold select_de_tfs.
  cbn -[Rplus Rminus Rmult Rdiv Ropp Rinv INR IZR Rgt_dec Rlt_dec].
  destruct (Rgt_dec 1 0); [|lra]. destruct (Rgt_dec 2 0); [|lra]. reflexivity.
Qed.

(** On the network with four genes the driver scores the two factors [A]
    and [B], in this order when the set is iterated in this order. *)
Lemma run_target_score_fork :
  exists rows,
    run_target_score (fun s => s) test_of_means graph_fork expression_fork 1 [] = Ok rows /\
    map factor rows = ["A"; "B"].
Proof.
  assert (Hcaught : forall x y e, test_of_means x y = Raise e ->
                                  caught_by_fold_change e = true) by discriminate.
  unfold run_target_score. rewrite select_de_tfs_fork.
  cbn [bind Nat.ltb Nat.leb for_each].
  destruct (influence_scores_returns (fun s => s) test_of_means
              (fun s => Permutation_refl s) Hcaught) with
      (node_ := "A") (grn := graph_fork) (ec := expression_fork)
      (de_genes := select_de_genes graph_fork expression_fork)
      (nbrs := [("C", [("weight", 1 / 2)]); ("B", [("weight", 9 / 10)])])
    as (rowA & HrowA & HfA & _).
  { exact graph_fork_closed. }
  { exact graph_fork_unit. }
  { reflexivity. }
  { reflexivity. }
  { apply select_de_genes_expressed. }
  destruct (influence_scores_returns (fun s => s) test_of_means
              (fun s => Permutation_refl s) Hcaught) with
      (node_ := "B") (grn := graph_fork) (ec := expression_fork)
      (de_genes := select_de_genes graph_fork expression_fork)
      (nbrs := [("D", [("weight", 9 / 10)])])
    as (rowB & HrowB & HfB & _).
  { exact graph_fork_closed. }
  { exact graph_fork_unit. }
  { reflexivity. }
  { reflexivity. }
  { apply select_de_genes_expressed. }
  rewrite HrowA. cbn [bind app]. rewrite HrowB. cbn [bind app].
  exists [rowA; rowB]. split; [reflexivity|]. cbn [map]. now rewrite HfA, HfB.
Qed.

Lemma run_target_score_deterministic_witness :
  exists rows,
    select_de_tfs graph_fork expression_fork = Ok ["A"; "B"] /\
    run_target_score (fun s => s) test_of_means graph_fork expression_fork 2 [1%nat; 0%nat]
    = Ok rows /\
    run_target_score (fun s => s) test_of_means graph_fork expression_fork 1 [] = Ok rows /\
    map factor rows = ["A"; "B"].
Proof.
  destruct run_target_score_fork as (rows & Hrows & Hf). exists rows.
  split; [exact select_de_tfs_fork|]. split; [|split; [exact Hrows|exact Hf]].
  rewrite <- Hrows. apply run_target_score_deterministic.
  - lia.
  - intros de_tfs i Hsel Hi. rewrite select_de_tfs_fork in Hsel.
    injection Hsel as <-. cbn in Hi.
    destruct i as [|[|i]]; [right; now left|now left|lia].
Defined.

(** ** The order in which sets are iterated *)

Lemma absfc_of_perm (ec : Dict.t Expression) l l' :
  Permutation l l' -> Permutation (absfc_of ec l) (absfc_of ec l').
Proof. intros H. unfold absfc_of. now apply Permutation_map. Qed.

Lemma collect_map (work : node -> result ScoreRecord) (dummy : ScoreRecord) l :
  forall file out,
    for_each l (fun file tf => line <- work tf ;; Ok (file ++ [line])) file = Ok out ->
    out = file ++ map (fun tf => match work tf with Ok r => r | Raise _ => dummy end) l.
Proof.
  induction l as [|tf l IH]; intros file out; cbn [for_each map].
  - intros [= <-]. now rewrite app_nil_r.
  - destruct (work tf) as [r|]; cbn [bind]; [|discriminate].
    intros H. apply IH in H. rewrite H, <- app_assoc. reflexivity.
Qed.

Lemma on_exception_raises {A : Type} (e : exn) (a : A) : on_exception e <> Ok a.
Proof.
  unfold on_exception.
  destruct e; try discriminate; destruct (contains _ _); discriminate.
Qed.

(** X12.  The order in which CPython iterates over a set (it depends on
    the hash seed of the run) does not change the scores: when the rank
    test does not depend on the order of its samples, [fold_change_scores]
    and [influence_scores] give the same result for any two orders, and two
    sequential runs of [Influence.run_target_score] that return write the
    same rows, up to their order. *)
Theorem scores_set_order set_iter1 set_iter2 mannwhitneyu_asymptotic :
  (forall s, Permutation (set_iter1 s) s) ->
  (forall s, Permutation (set_iter2 s) s) ->
  (forall x x' y y', Permutation x x' -> Permutation y y' ->
     mannwhitneyu_asymptotic x y = mannwhitneyu_asymptotic x' y') ->
  (forall node_ grn ec,
     fold_change_scores set_iter1 mannwhitneyu_asymptotic node_ grn ec =
     fold_change_scores set_iter2 mannwhitneyu_asymptotic node_ grn ec) /\
  (forall node_ grn ec de_genes,
     influence_scores set_iter1 mannwhitneyu_asymptotic node_ grn ec de_genes =
     influence_scores set_iter2 mannwhitneyu_asymptotic node_ grn ec de_genes) /\
  (forall grn ec schedule1 schedule2 rows1 rows2,
     run_target_score set_iter1 mannwhitneyu_asymptotic grn ec 1 schedule1 = Ok rows1 ->
     run_target_score set_iter2 mannwhitneyu_asymptotic grn ec 1 schedule2 = Ok rows2 ->
     Permutation rows1 rows2).
Proof.
  intros H1 H2 Hmw.
  assert (Hfold : forall node_ grn ec,
            fold_change_scores set_iter1 mannwhitneyu_asymptotic node_ grn ec =
            fold_change_scores set_iter2 mannwhitneyu_asymptotic node_ grn ec).
  { intros node_ grn ec. destruct (Dict.get (_succ grn) node_) as [nbrs|] eqn:Hn.
    - rewrite (fold_change_scores_unfold set_iter1 _ H1 node_ grn ec nbrs Hn).
      rewrite (fold_change_scores_unfold set_iter2 _ H2 node_ grn ec nbrs Hn).
      rewrite (Hmw (absfc_of ec (set_iter1 (direct_targets_of grn ec node_)))
                   (absfc_of ec (set_iter2 (direct_targets_of grn ec node_)))
                   (absfc_of ec (set_iter1 (non_direct_targets_of grn ec node_)))
                   (absfc_of ec (set_iter2 (non_direct_targets_of grn ec node_))));
        auto; apply absfc_of_perm;
        (eapply Permutation_trans; [apply H1 | apply Permutation_sym, H2]).
    - unfold fold_change_scores, adj, getitem. rewrite Hn. reflexivity. }
  assert (Hinf : forall node_ grn ec de_genes,
            influence_scores set_iter1 mannwhitneyu_asymptotic node_ grn ec de_genes =
            influence_scores set_iter2 mannwhitneyu_asymptotic node_ grn ec de_genes).
  { intros node_ grn ec de_genes. unfold influence_scores. now rewrite Hfold. }
  split; auto. split; auto.
  intros grn ec schedule1 schedule2 rows1 rows2. unfold run_target_score.
  destruct (select_de_tfs grn ec) as [de_tfs|]; cbn [bind]; [|discriminate].
  cbn [Nat.ltb Nat.leb].
  set (dummy := mkScoreRecord "" 0 0 0 0 0 NaN NaN).
  match goal with |- context [for_each ?l ?f ?s] =>
    destruct (for_each l f s) as [out1|e1] eqn:E1 end.
  2:{ intros H. now apply on_exception_raises in H. }
  intros [= <-].
  match goal with |- context [for_each ?l ?f ?s] =>
    destruct (for_each l f s) as [out2|e2] eqn:E2 end.
  2:{ intros H. now apply on_exception_raises in H. }
  intros [= <-].
  apply (collect_map _ dummy) in E1, E2. subst out1 out2. cbn [app].
  erewrite map_ext.
  - apply Permutation_map.
    eapply Permutation_trans; [apply H1 | apply Permutation_sym, H2].
  - intros tf. cbn beta. now rewrite Hinf.
Qed.

Lemma test_of_means_perm x x' y y' :
  Permutation x x' -> Permutation y y' -> test_of_means x y = test_of_means x' y'.
Proof.
  intros Hx Hy. unfold test_of_means.
  now rewrite (mean_Permutation _ _ Hx), (mean_Permutation _ _ Hy).
Qed.

(** On the network with four genes the factor [A] has the two direct
    targets [C] and [B], and [A] and [D] are the other genes: reversing the
    order of iteration changes the order of both samples. *)
Lemma scores_set_order_witness :
  direct_targets_of graph_fork expression_fork "A" = ["C"; "B"] /\
  non_direct_targets_of graph_fork expression_fork "A" = ["A"; "D"] /\
  fold_change_scores (fun s => s) test_of_means "A" graph_fork expression_fork =
  fold_change_scores (fun s => rev s) test_of_means "A" graph_fork expression_fork /\
  influence_scores (fun s => s) test_of_means "A" graph_fork expression_fork ["B"; "D"] =
  influence_scores (fun s => rev s) test_of_means "A" graph_fork expression_fork ["B"; "D"].
Proof.
  split; [reflexivity|]. split; [reflexivity|].
  destruct (scores_set_order (fun s => s) (fun s => rev s) test_of_means)
    as (Hfold & Hinf & _).
  - intros s. apply Permutation_refl.
  - intros s. apply Permutation_sym, Permutation_rev.
  - exact test_of_means_perm.
  - split; [apply Hfold|apply Hinf].
Defined.

(** * Further properties of the filter *)

Lemma In_insert_desc r x l : In x (insert_desc r l) <-> x = r \/ In x l.
Proof.
  split; [apply insert_desc_In|].
  induction l as [|y l IH]; cbn [insert_desc].
  - intros [->|[]]. now left.
  - destruct (Rlt_dec (sumScaled r) (sumScaled y)).
    + intros [->|[->|H]]; [right; apply IH; now left | now left | right; apply IH; now right].
    + intros [->|H]; [now left | now right].
Qed.

Lemma In_sort_values_desc x l : In x (sort_values_desc l) <-> In x l.
Proof.
  unfold sort_values_desc. induction l as [|y l IH]; cbn [fold_right]; [reflexivity|].
  rewrite In_insert_desc, IH. cbn [In]. split; intros [H|H]; auto.
Qed.

Lemma insert_desc_sorted r l : sorted_desc l -> sorted_desc (insert_desc r l).
Proof.
  unfold sorted_desc. induction 1 as [|y l Hs IH Hy]; cbn [insert_desc].
  - repeat constructor.
  - destruct (Rlt_dec (sumScaled r) (sumScaled y)) as [Hlt|Hge].
    + constructor; auto. rewrite Forall_forall in *. intros x Hx.
      apply In_insert_desc in Hx. destruct Hx as [->|Hx]; [lra|auto].
    + constructor; [constructor; auto|]. constructor; [lra|].
      rewrite Forall_forall in *. intros x Hx. specialize (Hy x Hx). lra.
Qed.

Lemma sort_values_desc_sorted l : sorted_desc (sort_values_desc l).
Proof.
  unfold sort_values_desc. induction l as [|y l IH]; cbn [fold_right].
  - constructor.
  - now apply insert_desc_sorted.
Qed.

Lemma In_loc scores_df labels r :
  In r (loc scores_df labels) <-> In (row_factor r) labels /\ In r scores_df.
Proof.
  split; [apply loc_In|]. intros [Hl Hr]. unfold loc. apply in_flat_map.
  exists (row_factor r). split; auto. apply filter_In. split; auto. apply String.eqb_refl.
Qed.

(** A dictionary filled from a list of keys with a value per key. *)
Lemma get_fold_keys {V : Type} (val : string -> V) l :
  forall (d : Dict.t V) k,
    Dict.get (fold_left (fun d x => Dict.set d x (val x)) l d) k =
    if in_dec string_dec k l then Some (val k) else Dict.get d k.
Proof.
  induction l as [|a l IH]; intros d k; cbn [fold_left]; [reflexivity|].
  rewrite IH. destruct (in_dec string_dec k l) as [Hin|Hnin].
  - destruct (in_dec string_dec k (a :: l)) as [|Hn]; [reflexivity|].
    exfalso. apply Hn. now right.
  - rewrite get_set. destruct (String.eqb a k) eqn:E.
    + apply String.eqb_eq in E. subst a.
      destruct (in_dec string_dec k (k :: l)) as [|Hn]; [reflexivity|].
      exfalso. apply Hn. now left.
    + apply String.eqb_neq in E.
      destruct (in_dec string_dec k (a :: l)) as [[Hk|Hk]|]; [congruence|contradiction|reflexivity].
Qed.

Lemma before_In i ltf j : In j (before i ltf) -> In j ltf.
Proof.
  induction ltf as [|x ltf IH]; cbn [before]; [auto|].
  destruct (String.eqb x i); [intros []|]. intros [->|H]; [now left|right; auto].
Qed.

(** The inner loop of [filter_tf] passes all the factors exactly when none
    of them covers more than the threshold. *)
Lemma passed_all tftarget overlap ti js :
  passed tftarget overlap ti js = js <->
  forall j, In j js ->
    ~ (INR (PySet.len (PySet.inter ti
          (match Dict.get tftarget j with Some s => s | None => [] end)))
       / INR (PySet.len ti) > overlap).
Proof.
  induction js as [|j js IH]; cbn [passed].
  - split; [intros _ j []|reflexivity].
  - destruct (Rgt_dec _ overlap) as [Hgt|Hle].
    + split; [discriminate|]. intros H. exfalso. apply (H j); [now left|exact Hgt].
    + split.
      * intros H. injection H as H. intros j' [<-|Hj']; [exact Hle|].
        now apply (proj1 IH H).
      * intros H. f_equal. apply IH. intros j' Hj'. apply H. now right.
Qed.

(** X13.  [filter_tf] keeps a row exactly when its factor has a target in
    the network, no factor ranked before it (kept or not) shares more than
    the threshold of those targets, and the last line of the TPM table for
    the factor gives a level below the threshold.  The rows kept are
    returned in the order of their [sumScaled], greatest first. *)
Theorem filter_tf_spec scores_df network tpmfile tpm overlap :
  (forall r,
     In r (filter_tf scores_df network tpmfile tpm overlap) <->
     In r scores_df /\
     tf_targets network (row_factor r) <> [] /\
     (forall j, In j (before (row_factor r) (index scores_df)) ->
        ~ target_overlap network (row_factor r) j > overlap) /\
     exists x, tpm_level tpmfile (row_factor r) = Some x /\ x < tpm) /\
  sorted_desc (filter_tf scores_df network tpmfile tpm overlap).
Proof.
  split; [|apply sort_values_desc_sorted].
  intros r. unfold filter_tf.
  rewrite In_sort_values_desc, In_loc, filter_In.
  set (tftarget := fold_left (fun d tf => Dict.set d tf (tf_targets network tf))
                     (index scores_df) []).
  set (tpmscore := fold_left (fun d line => Dict.set d (fst line) (snd line)) tpmfile []).
  assert (Htft : forall j, In j (index scores_df) ->
            match Dict.get tftarget j with Some s => s | None => [] end
            = tf_targets network j).
  { intros j Hj. unfold tftarget. rewrite get_fold_keys.
    destruct (in_dec string_dec j (index scores_df)); [reflexivity|contradiction]. }
  assert (Htpm : forall g, Dict.get tpmscore g = tpm_level tpmfile g).
  { intros g. unfold tpmscore, tpm_level.
    change (fold_left (fun d line => Dict.set d (fst line) (snd line)) tpmfile [])
      with (Dict.update (@nil (string * R)) tpmfile).
    rewrite get_update. now destruct (Dict.get (rev tpmfile) g). }
  assert (Hkeep : In (row_factor r) (index scores_df) ->
            (keep_tf tftarget tpmscore tpm overlap (index scores_df) (row_factor r) = true <->
             tf_targets network (row_factor r) <> [] /\
             (forall j, In j (before (row_factor r) (index scores_df)) ->
                ~ target_overlap network (row_factor r) j > overlap) /\
             exists x, tpm_level tpmfile (row_factor r) = Some x /\ x < tpm)).
  { intros Hi. unfold keep_tf. rewrite (Htft _ Hi), Htpm.
    assert (Hpass : passed tftarget overlap (tf_targets network (row_factor r))
                      (before (row_factor r) (index scores_df))
                    = before (row_factor r) (index scores_df) <->
                    forall j, In j (before (row_factor r) (index scores_df)) ->
                      ~ target_overlap network (row_factor r) j > overlap).
    { rewrite passed_all. unfold target_overlap.
      split; intros H j Hj; specialize (H j Hj);
        rewrite (Htft j (before_In _ _ _ Hj)) in *; exact H. }
    destruct (0 <? PySet.len (tf_targets network (row_factor r)))%nat eqn:E.
    - assert (Hne : tf_targets network (row_factor r) <> []).
      { intros H0. rewrite H0 in E. discriminate. }
      destruct (list_eq_dec string_dec _ _) as [Heq|Hneq].
      + pose proof (proj1 Hpass Heq) as Hall.
        destruct (tpm_level tpmfile (row_factor r)) as [x|].
        * destruct (Rlt_dec x tpm); split; auto.
          -- intros _. eauto.
          -- discriminate.
          -- intros (_ & _ & y & [= <-] & Hy). contradiction.
        * split; [discriminate|]. intros (_ & _ & y & Hy & _). discriminate.
      + split; [discriminate|]. intros (_ & Hall & _).
        destruct (Hneq (proj2 Hpass Hall)).
    - split; [discriminate|]. intros (Hne & _).
      destruct (tf_targets network (row_factor r)); [contradiction|discriminate]. }
  split.
  - intros [[Hi Hk] Hr]. split; auto. now apply Hkeep.
  - intros (Hr & Hrest).
    assert (Hi : In (row_factor r) (index scores_df)).
    { unfold index. now apply in_map. }
    split; auto. split; auto. now apply Hkeep.
Qed.

Lemma filter_tf_spec_witness :
  In (mkRankedRow "A" 0 0 1 1 1 1 1 1) (filter_tf ranked_A graph_AB [("A", 5)] 20 0.98).
Proof.
  apply (proj1 (filter_tf_spec ranked_A graph_AB [("A", 5)] 20 0.98)).
  split; [now left|]. split; [discriminate|]. split.
  - intros j [].
  - exists 5. split; [reflexivity|lra].
Defined.

(** * Properties of the ranking *)

(** ** Dense ranks *)

Lemma In_below col v y :
  In y (nodup Req_dec_T (filter (fun y => if Rlt_dec y v then true else false) col)) <->
  In y col /\ y < v.
Proof.
  rewrite nodup_In, filter_In.
  destruct (Rlt_dec y v); split; intros [H1 H2]; auto; try discriminate; try contradiction.
Qed.

Lemma distinct_below_mono col v v' :
  v <= v' -> (distinct_below col v <= distinct_below col v')%nat.
Proof.
  intros H. unfold distinct_below. apply NoDup_incl_length; [apply NoDup_nodup|].
  intros y Hy. apply In_below in Hy. apply In_below. split; [tauto|lra].
Qed.

Lemma distinct_below_strict col v v' :
  In v col -> v < v' -> (distinct_below col v < distinct_below col v')%nat.
Proof.
  intros Hin H. unfold distinct_below.
  set (S1 := nodup Req_dec_T (filter (fun y => if Rlt_dec y v then true else false) col)).
  set (S2 := nodup Req_dec_T (filter (fun y => if Rlt_dec y v' then true else false) col)).
  assert (Hle : (List.length (v :: S1) <= List.length S2)%nat).
  { apply NoDup_incl_length.
    - constructor; [|apply NoDup_nodup]. intros Hv. apply In_below in Hv. lra.
    - intros y [<-|Hy]; apply In_below; [auto|].
      apply In_below in Hy. split; [tauto|lra]. }
  cbn [List.length] in Hle. lia.
Qed.

(** A value of the column has fewer distinct values below it than the column
    has distinct values. *)
Lemma distinct_below_lt col v :
  In v col -> (distinct_below col v < distinct col)%nat.
Proof.
  intros Hin. unfold distinct_below, distinct.
  set (S1 := nodup Req_dec_T (filter (fun y => if Rlt_dec y v then true else false) col)).
  assert (Hle : (List.length (v :: S1) <= List.length (nodup Req_dec_T col))%nat).
  { apply NoDup_incl_length.
    - constructor; [|apply NoDup_nodup]. intros Hv. apply In_below in Hv. lra.
    - intros y [<-|Hy]; apply nodup_In; [auto|]. apply In_below in Hy. tauto. }
  cbn [List.length] in Hle. lia.
Qed.

Lemma distinct_below_least col v :
  (forall y, In y col -> v <= y) -> distinct_below col v = 0%nat.
Proof.
  intros H. unfold distinct_below.
  destruct (nodup Req_dec_T _) as [|y l] eqn:E; [reflexivity|].
  assert (Hy : In y (y :: l)) by now left. rewrite <- E in Hy.
  apply In_below in Hy. destruct Hy as [Hy Hlt]. specialize (H y Hy). lra.
Qed.

Lemma distinct_below_greatest col v :
  In v col -> (forall y, In y col -> y <= v) ->
  S (distinct_below col v) = distinct col.
Proof.
  intros Hin H. unfold distinct_below, distinct.
  set (S1 := nodup Req_dec_T (filter (fun y => if Rlt_dec y v then true else false) col)).
  change (S (List.length S1)) with (List.length (v :: S1)).
  apply Permutation_length, NoDup_Permutation.
  - constructor; [|apply NoDup_nodup]. intros Hv. apply In_below in Hv. lra.
  - apply NoDup_nodup.
  - intros y. rewrite nodup_In. split.
    + intros [<-|Hy]; auto. apply In_below in Hy. tauto.
    + intros Hy. destruct (Req_dec_T y v) as [->|Hne]; [now left|right].
      apply In_below. split; auto. specialize (H y Hy). lra.
Qed.

(** ** The least and the greatest value of a column *)

Lemma fold_Rmin_le x X : forall y, In y (x :: X) -> fold_right Rmin x X <= y.
Proof.
  induction X as [|a X IH]; cbn [fold_right]; intros y Hy.
  - destruct Hy as [<-|[]]. lra.
  - pose proof (Rmin_l a (fold_right Rmin x X)). pose proof (Rmin_r a (fold_right Rmin x X)).
    destruct Hy as [<-|[<-|Hy]].
    + specialize (IH x (or_introl eq_refl)). lra.
    + lra.
    + specialize (IH y (or_intror Hy)). lra.
Qed.

Lemma fold_Rmin_In x X : In (fold_right Rmin x X) (x :: X).
Proof.
  induction X as [|a X IH]; cbn [fold_right]; [now left|].
  unfold Rmin at 1. destruct (Rle_dec a (fold_right Rmin x X)).
  - right. now left.
  - destruct IH as [<-|IH]; [now left|right; now right].
Qed.

Lemma fold_Rmax_ge x X : forall y, In y (x :: X) -> y <= fold_right Rmax x X.
Proof.
  induction X as [|a X IH]; cbn [fold_right]; intros y Hy.
  - destruct Hy as [<-|[]]. lra.
  - pose proof (Rmax_l a (fold_right Rmax x X)). pose proof (Rmax_r a (fold_right Rmax x X)).
    destruct Hy as [<-|[<-|Hy]].
    + specialize (IH x (or_introl eq_refl)). lra.
    + lra.
    + specialize (IH y (or_intror Hy)). lra.
Qed.

Lemma fold_Rmax_In x X : In (fold_right Rmax x X) (x :: X).
Proof.
  induction X as [|a X IH]; cbn [fold_right]; [now left|].
  unfold Rmax at 1. destruct (Rle_dec a (fold_right Rmax x X)).
  - destruct IH as [<-|IH]; [now left|right; now right].
  - right. now left.
Qed.

Lemma least_exists (col : list R) :
  col <> [] -> exists m, In m col /\ forall y, In y col -> m <= y.
Proof.
  destruct col as [|x X]; [contradiction|]. intros _.
  exists (fold_right Rmin x X). split; [apply fold_Rmin_In|apply fold_Rmin_le].
Qed.

Lemma greatest_exists (col : list R) :
  col <> [] -> exists m, In m col /\ forall y, In y col -> y <= m.
Proof.
  destruct col as [|x X]; [contradiction|]. intros _.
  exists (fold_right Rmax x X). split; [apply fold_Rmax_In|apply fold_Rmax_ge].
Qed.

(** ** The scaled ranks *)

Lemma dense_rank_distinct_below col v : dense_rank col v = INR (distinct_below col v) + 1.
Proof. unfold dense_rank. fold (distinct_below col v). apply S_INR. Qed.

(** The least dense rank of a column is 1 and the greatest one is the
    number of distinct values. *)
Lemma rankdata_extremes x X :
  fold_right Rmin (dense_rank (x :: X) x) (map (dense_rank (x :: X)) X) = 1 /\
  fold_right Rmax (dense_rank (x :: X) x) (map (dense_rank (x :: X)) X)
  = INR (distinct (x :: X)).
Proof.
  set (col := x :: X).
  assert (Hranks : forall r, In r (dense_rank col x :: map (dense_rank col) X) ->
                             exists v, In v col /\ r = dense_rank col v).
  { intros r [<-|Hr]; [exists x; split; [now left|reflexivity]|].
    apply in_map_iff in Hr. destruct Hr as (v & <- & Hv). exists v. split; [now right|reflexivity]. }
  assert (Hin : forall v, In v col -> In (dense_rank col v) (dense_rank col x :: map (dense_rank col) X)).
  { intros v [<-|Hv]; [now left|right; now apply in_map]. }
  split.
  - destruct (least_exists col) as (m & Hm & Hleast); [discriminate|].
    pose proof (fold_Rmin_le _ _ _ (Hin m Hm)) as Hle.
    rewrite (dense_rank_distinct_below col m), (distinct_below_least col m Hleast) in Hle.
    destruct (Hranks _ (fold_Rmin_In (dense_rank col x) (map (dense_rank col) X)))
      as (v & Hv & Ev).
    rewrite (dense_rank_distinct_below col v) in Ev.
    pose proof (pos_INR (distinct_below col v)). simpl INR in Hle. lra.
  - destruct (greatest_exists col) as (m & Hm & Hgreatest); [discriminate|].
    pose proof (fold_Rmax_ge _ _ _ (Hin m Hm)) as Hge.
    rewrite (dense_rank_distinct_below col m), <- S_INR,
      (distinct_below_greatest col m Hm Hgreatest) in Hge.
    destruct (Hranks _ (fold_Rmax_In (dense_rank col x) (map (dense_rank col) X)))
      as (v & Hv & Ev).
    rewrite (dense_rank_distinct_below col v), <- S_INR in Ev.
    pose proof (distinct_below_lt col v Hv) as Hlt.
    assert (INR (S (distinct_below col v)) <= INR (distinct col)) by (apply le_INR; lia).
    lra.
Qed.

Lemma distinct_pos col v : In v col -> (1 <= distinct col)%nat.
Proof. intros H. pose proof (distinct_below_lt col v H). lia. Qed.

(** The scaling of the dense ranks of a column gives the scaled ranks. *)
Lemma minmax_scale_rankdata col :
  col <> [] -> minmax_scale (rankdata col) = Ok (map (scaled_rank col) col).
Proof.
  destruct col as [|x X]; [contradiction|]. intros _.
  unfold rankdata. cbn [map]. unfold minmax_scale.
  destruct (rankdata_extremes x X) as [-> ->]. f_equal.
  change (dense_rank (x :: X) x :: map (dense_rank (x :: X)) X)
    with (map (dense_rank (x :: X)) (x :: X)).
  change (scaled_rank (x :: X) x :: map (scaled_rank (x :: X)) X)
    with (map (scaled_rank (x :: X)) (x :: X)).
  rewrite map_map. apply map_ext_in. intros v Hv.
  rewrite dense_rank_distinct_below. unfold scaled_rank, handle_zeros_in_scale.
  pose proof (distinct_below_lt _ v Hv) as Hlt.
  destruct (distinct (x :: X) =? 1)%nat eqn:E.
  - apply Nat.eqb_eq in E. rewrite E in *.
    assert (distinct_below (x :: X) v = 0%nat) as -> by lia.
    simpl INR. destruct (Req_dec_T (1 - 1) 0); [field|lra].
  - apply Nat.eqb_neq in E.
    assert (Hk : INR (distinct (x :: X) - 1) = INR (distinct (x :: X)) - 1).
    { rewrite minus_INR by lia. reflexivity. }
    assert (Hpos : 0 < INR (distinct (x :: X) - 1)) by (apply lt_0_INR; lia).
    rewrite Hk in *.
    destruct (Req_dec_T (INR (distinct (x :: X)) - 1) 0); [lra|]. field. lra.
Qed.

Lemma scaled_rank_range col v : In v col -> 0 <= scaled_rank col v <= 1.
Proof.
  intros Hv. unfold scaled_rank. pose proof (distinct_below_lt col v Hv) as Hlt.
  destruct (distinct col =? 1)%nat eqn:E; [lra|]. apply Nat.eqb_neq in E.
  assert (Hpos : 0 < INR (distinct col - 1)) by (apply lt_0_INR; lia).
  assert (Hle : INR (distinct_below col v) <= INR (distinct col - 1)) by (apply le_INR; lia).
  pose proof (pos_INR (distinct_below col v)). split.
  - apply Rmult_le_pos; [lra|]. left. now apply Rinv_0_lt_compat.
  - apply Rmult_le_reg_r with (INR (distinct col - 1)); [lra|]. field_simplify; lra.
Qed.

Lemma scaled_rank_mono col v v' :
  In v col -> v <= v' -> scaled_rank col v <= scaled_rank col v'.
Proof.
  intros Hv H. unfold scaled_rank. pose proof (distinct_below_lt col v Hv) as Hlt.
  destruct (distinct col =? 1)%nat eqn:E; [lra|]. apply Nat.eqb_neq in E.
  assert (Hpos : 0 < INR (distinct col - 1)) by (apply lt_0_INR; lia).
  assert (Hle : INR (distinct_below col v) <= INR (distinct_below col v')).
  { apply le_INR. now apply distinct_below_mono. }
  unfold Rdiv. apply Rmult_le_compat_r; [|lra]. left. now apply Rinv_0_lt_compat.
Qed.

Lemma scaled_rank_strict col v v' :
  In v col -> In v' col -> v < v' -> scaled_rank col v < scaled_rank col v'.
Proof.
  intros Hv Hv' H. unfold scaled_rank.
  pose proof (distinct_below_lt col v' Hv') as Hlt.
  pose proof (distinct_below_strict col v v' Hv H) as Hs.
  destruct (distinct col =? 1)%nat eqn:E; [apply Nat.eqb_eq in E; lia|].
  assert (Hpos : 0 < INR (distinct col - 1)) by (apply lt_0_INR; lia).
  assert (Hle : INR (distinct_below col v) < INR (distinct_below col v')) by now apply lt_INR.
  unfold Rdiv. apply Rmult_lt_compat_r; [|lra]. now apply Rinv_0_lt_compat.
Qed.

Lemma scaled_rank_least col v :
  (forall y, In y col -> v <= y) -> scaled_rank col v = 0.
Proof.
  intros H. unfold scaled_rank. rewrite (distinct_below_least col v H).
  destruct (distinct col =? 1)%nat; [reflexivity|]. simpl INR. unfold Rdiv. ring.
Qed.

Lemma scaled_rank_greatest col v w :
  In v col -> (forall y, In y col -> y <= v) -> In w col -> w <> v ->
  scaled_rank col v = 1.
Proof.
  intros Hv H Hw Hne. unfold scaled_rank.
  pose proof (distinct_below_greatest col v Hv H) as Hk.
  assert (Hlt : w < v) by (specialize (H w Hw); lra).
  pose proof (distinct_below_strict col w v Hw Hlt) as Hs.
  destruct (distinct col =? 1)%nat eqn:E; [apply Nat.eqb_eq in E; lia|].
  replace (distinct col - 1)%nat with (distinct_below col v) by lia.
  field. apply not_0_INR. lia.
Qed.
(** ** The table of [run_influence_score] *)

Lemma combine_map {A B C : Type} (f : A -> B) (g : A -> C) l :
  combine (map f l) (map g l) = map (fun x => (f x, g x)) l.
Proof. induction l as [|x l IH]; cbn [map combine]; congruence. Qed.

Lemma combine_map_r {A B : Type} (g : A -> B) (l : list A) :
  combine l (map g l) = map (fun x => (x, g x)) l.
Proof. induction l as [|x l IH]; cbn [map combine]; congruence. Qed.

Lemma insert_desc_perm r l : Permutation (insert_desc r l) (r :: l).
Proof.
  induction l as [|x l IH]; cbn [insert_desc]; [apply Permutation_refl|].
  destruct (Rlt_dec (sumScaled r) (sumScaled x)); [|apply Permutation_refl].
  eapply Permutation_trans; [apply perm_skip, IH|apply perm_swap].
Qed.

Lemma sort_values_desc_perm l : Permutation (sort_values_desc l) l.
Proof.
  unfold sort_values_desc. induction l as [|x l IH]; cbn [fold_right]; [constructor|].
  eapply Permutation_trans; [apply insert_desc_perm|now apply perm_skip].
Qed.



(** The table that [run_influence_score_with] writes for a table with a row
    at least: the rows of [ranked_row], sorted. *)
Lemma run_influence_score_with_unfold float_add scores_df filter_tfs grn fin_expression :
  scores_df <> [] ->
  run_influence_score_with float_add scores_df filter_tfs grn fin_expression =
  Ok (sort_values_desc (map (ranked_row float_add scores_df) scores_df),
      if filter_tfs
      then Some (filter_tf (sort_values_desc (map (ranked_row float_add scores_df) scores_df))
                   grn fin_expression 20 0.98)
      else None).
Proof.
  intros Hne. unfold run_influence_score_with.
  assert (Hcol : forall f : ScoreRecord -> R, map f scores_df <> []).
  { intros f H. apply map_eq_nil in H. contradiction. }
  rewrite !minmax_scale_rankdata by apply Hcol. cbn [bind].
  assert (Hsum : add_columns float_add
                   (map (scaled_rank (map targetscore scores_df)) (map targetscore scores_df))
                   (map (scaled_rank (map Gscore scores_df)) (map Gscore scores_df))
                 = map (rank_sum float_add scores_df) scores_df).
  { unfold add_columns. rewrite !map_map, combine_map, map_map. reflexivity. }
  rewrite Hsum. rewrite minmax_scale_rankdata by apply Hcol. cbn [bind].
  rewrite !map_map.
  rewrite (combine_map (fun r => (targetscore r + Gscore r))
             (fun r => scaled_rank (map (rank_sum float_add scores_df) scores_df)
                         (rank_sum float_add scores_df r))).
  rewrite (combine_map (fun r => scaled_rank (map Gscore scores_df) (Gscore r))).
  rewrite (combine_map (fun r => scaled_rank (map targetscore scores_df) (targetscore r))).
  rewrite combine_map_r, map_map. reflexivity.
Qed.

Lemma run_influence_score_with_empty float_add filter_tfs grn fin_expression :
  exists msg,
    run_influence_score_with float_add [] filter_tfs grn fin_expression
    = Raise (ValueError msg).
Proof. eexists. reflexivity. Qed.

Lemma run_influence_score_unfold scores_df filter_tfs grn fin_expression :
  scores_df <> [] ->
  run_influence_score scores_df filter_tfs grn fin_expression =
  Ok (sort_values_desc (map (ranked_row Rplus scores_df) scores_df),
      if filter_tfs
      then Some (filter_tf (sort_values_desc (map (ranked_row Rplus scores_df) scores_df))
                   grn fin_expression 20 0.98)
      else None).
Proof. apply run_influence_score_with_unfold. Qed.

Lemma run_influence_score_empty filter_tfs grn fin_expression :
  exists msg, run_influence_score [] filter_tfs grn fin_expression = Raise (ValueError msg).
Proof. apply run_influence_score_with_empty. Qed.

(** The rows of the table written are the rows of [ranked_row]. *)
Lemma run_influence_score_rows scores_df filter_tfs grn fin_expression out flt :
  run_influence_score scores_df filter_tfs grn fin_expression = Ok (out, flt) ->
  scores_df <> [] /\
  out = sort_values_desc (map (ranked_row Rplus scores_df) scores_df) /\
  forall a, In a out <-> exists r, In r scores_df /\ a = ranked_row Rplus scores_df r.
Proof.
  intros H. destruct scores_df as [|r0 l] eqn:E.
  { destruct (run_influence_score_empty filter_tfs grn fin_expression) as [msg Hm].
    congruence. }
  rewrite <- E in *. assert (Hne : scores_df <> []) by (rewrite E; discriminate).
  rewrite (run_influence_score_unfold _ _ _ _ Hne) in H. injection H as <- _.
  split; auto. split; auto. intros a. rewrite In_sort_values_desc, in_map_iff.
  split; intros (r & H1 & H2); exists r; auto.
Qed.









(** X15.  In the table of [run_influence_score] the three scaled columns
    lie in [0, 1] and keep the order of what they scale: a row with a
    greater target score has a greater [targetScaled], equal target scores
    give equal ones, and likewise for the expression score; a row that is at
    least as good as another in both scores has at least its [sumScaled],
    and a greater one when it is better in one of the scores. *)
Theorem run_influence_score_order scores_df filter_tfs grn fin_expression out flt :
  run_influence_score scores_df filter_tfs grn fin_expression = Ok (out, flt) ->
  (forall a, In a out ->
     0 <= row_targetScaled a <= 1 /\ 0 <= row_GscoreScaled a <= 1 /\
     0 <= sumScaled a <= 1 /\ row_sum a = row_targetscore a + row_Gscore a) /\
  (forall a b, In a out -> In b out ->
     (row_targetscore a <= row_targetscore b -> row_targetScaled a <= row_targetScaled b) /\
     (row_targetscore a < row_targetscore b -> row_targetScaled a < row_targetScaled b) /\
     (row_Gscore a <= row_Gscore b -> row_GscoreScaled a <= row_GscoreScaled b) /\
     (row_Gscore a < row_Gscore b -> row_GscoreScaled a < row_GscoreScaled b) /\
     (row_targetscore a <= row_targetscore b -> row_Gscore a <= row_Gscore b ->
      sumScaled a <= sumScaled b) /\
     (row_targetscore a < row_targetscore b -> row_Gscore a <= row_Gscore b ->
      sumScaled a < sumScaled b) /\
     (row_targetscore a <= row_targetscore b -> row_Gscore a < row_Gscore b ->
      sumScaled a < sumScaled b)).
Proof.
  intros H. destruct (run_influence_score_rows _ _ _ _ _ _ H) as (Hne & _ & Hrows).
  assert (Ht : forall r, In r scores_df -> In (targetscore r) (map targetscore scores_df)).
  { intros r Hr. now apply in_map. }
  assert (Hg : forall r, In r scores_df -> In (Gscore r) (map Gscore scores_df)).
  { intros r Hr. now apply in_map. }
  assert (Hs : forall r, In r scores_df ->
                 In (rank_sum Rplus scores_df r) (map (rank_sum Rplus scores_df) scores_df)).
  { intros r Hr. now apply in_map. }
  split.
  - intros a Ha. apply Hrows in Ha. destruct Ha as (r & Hr & ->).
    cbn [ranked_row row_targetScaled row_GscoreScaled sumScaled row_sum
         row_targetscore row_Gscore].
    split; [apply scaled_rank_range; auto|].
    split; [apply scaled_rank_range; auto|].
    split; [apply scaled_rank_range; auto|reflexivity].
  - intros a b Ha Hb. apply Hrows in Ha, Hb.
    destruct Ha as (ra & Hra & ->). destruct Hb as (rb & Hrb & ->).
    cbn [ranked_row row_targetScaled row_GscoreScaled sumScaled row_targetscore row_Gscore].
    split; [intros; apply scaled_rank_mono; auto|].
    split; [intros; apply scaled_rank_strict; auto|].
    split; [intros; apply scaled_rank_mono; auto|].
    split; [intros; apply scaled_rank_strict; auto|].
    split; [|split].
    + intros H1 H2. apply scaled_rank_mono; auto. unfold rank_sum.
      pose proof (scaled_rank_mono _ _ _ (Ht ra Hra) H1).
      pose proof (scaled_rank_mono _ _ _ (Hg ra Hra) H2). lra.
    + intros H1 H2. apply scaled_rank_strict; auto. unfold rank_sum.
      pose proof (scaled_rank_strict _ _ _ (Ht ra Hra) (Ht rb Hrb) H1).
      pose proof (scaled_rank_mono _ _ _ (Hg ra Hra) H2). lra.
    + intros H1 H2. apply scaled_rank_strict; auto. unfold rank_sum.
      pose proof (scaled_rank_mono _ _ _ (Ht ra Hra) H1).
      pose proof (scaled_rank_strict _ _ _ (Hg ra Hra) (Hg rb Hrb) H2). lra.
Qed.

(** The table of two factors used as an example: [B] is better than [A] in
    both scores. *)
Lemma run_influence_score_order_witness :
  exists out a b,
    run_influence_score [mkScoreRecord "A" 1 1 1 1 1 NaN NaN;
                         mkScoreRecord "B" 1 1 2 2 1 NaN NaN]
      false graph_AB [] = Ok (out, None) /\
    In a out /\ In b out /\ row_factor a = "A" /\ row_factor b = "B" /\
    sumScaled a < sumScaled b.
Proof.
  set (df := [mkScoreRecord "A" 1 1 1 1 1 NaN NaN; mkScoreRecord "B" 1 1 2 2 1 NaN NaN]).
  assert (Hne : df <> []) by discriminate.
  pose proof (run_influence_score_unfold df false graph_AB [] Hne) as Hrun.
  destruct (run_influence_score_rows _ _ _ _ _ _ Hrun) as (_ & _ & Hrows).
  exists (sort_values_desc (map (ranked_row Rplus df) df)),
         (ranked_row Rplus df (mkScoreRecord "A" 1 1 1 1 1 NaN NaN)),
         (ranked_row Rplus df (mkScoreRecord "B" 1 1 2 2 1 NaN NaN)).
  assert (Ha : In (ranked_row Rplus df (mkScoreRecord "A" 1 1 1 1 1 NaN NaN))
                  (sort_values_desc (map (ranked_row Rplus df) df))).
  { apply Hrows. eexists. split; [|reflexivity]. now left. }
  assert (Hb : In (ranked_row Rplus df (mkScoreRecord "B" 1 1 2 2 1 NaN NaN))
                  (sort_values_desc (map (ranked_row Rplus df) df))).
  { apply Hrows. eexists. split; [|reflexivity]. right. now left. }
  split; auto. split; auto. split; auto. split; [reflexivity|]. split; [reflexivity|].
  destruct (run_influence_score_order df false graph_AB [] _ _ Hrun) as [_ Hord].
  destruct (Hord _ _ Ha Hb) as (_ & _ & _ & _ & _ & Hstrict & _).
  apply Hstrict; cbn; lra.
Defined.

(** X16.  The ends of the scaled columns of [run_influence_score]: a row
    with the least target score of the table has the [targetScaled] 0, and a
    row with the greatest one has the [targetScaled] 1 unless all target
    scores are equal; likewise for the expression score.  A row that is
    least in both scores has the [sumScaled] 0; a row that is greatest in
    both has the [sumScaled] 1 unless every row has its two scores.  So the
    single row of a table with one factor has the three scaled values 0. *)
Theorem run_influence_score_ends scores_df filter_tfs grn fin_expression out flt :
  run_influence_score scores_df filter_tfs grn fin_expression = Ok (out, flt) ->
  forall a, In a out ->
    ((forall b, In b out -> row_targetscore a <= row_targetscore b) ->
     row_targetScaled a = 0) /\
    ((forall b, In b out -> row_targetscore b <= row_targetscore a) ->
     (exists b, In b out /\ row_targetscore b <> row_targetscore a) ->
     row_targetScaled a = 1) /\
    ((forall b, In b out -> row_Gscore a <= row_Gscore b) ->
     row_GscoreScaled a = 0) /\
    ((forall b, In b out -> row_Gscore b <= row_Gscore a) ->
     (exists b, In b out /\ row_Gscore b <> row_Gscore a) ->
     row_GscoreScaled a = 1) /\
    ((forall b, In b out ->
        row_targetscore a <= row_targetscore b /\ row_Gscore a <= row_Gscore b) ->
     sumScaled a = 0) /\
    ((forall b, In b out ->
        row_targetscore b <= row_targetscore a /\ row_Gscore b <= row_Gscore a) ->
     (exists b, In b out /\
        (row_targetscore b <> row_targetscore a \/ row_Gscore b <> row_Gscore a)) ->
     sumScaled a = 1).
Proof.
  intros H a Ha. destruct (run_influence_score_rows _ _ _ _ _ _ H) as (Hne & _ & Hrows).
  pose proof Ha as Ha'. apply Hrows in Ha'. destruct Ha' as (ra & Hra & ->).
  assert (Hout : forall r, In r scores_df -> In (ranked_row Rplus scores_df r) out).
  { intros r Hr. apply Hrows. eauto. }
  assert (Ht : forall r, In r scores_df -> In (targetscore r) (map targetscore scores_df)).
  { intros r Hr. now apply in_map. }
  assert (Hg : forall r, In r scores_df -> In (Gscore r) (map Gscore scores_df)).
  { intros r Hr. now apply in_map. }
  cbn [ranked_row row_targetScaled row_GscoreScaled sumScaled row_targetscore row_Gscore].
  split; [|split; [|split; [|split; [|split]]]].
  - intros Hleast. apply scaled_rank_least. intros y Hy.
    apply in_map_iff in Hy. destruct Hy as (r & <- & Hr).
    exact (Hleast _ (Hout r Hr)).
  - intros Hgreatest (b & Hb & Hneq). apply Hrows in Hb. destruct Hb as (rb & Hrb & ->).
    apply (scaled_rank_greatest _ _ (targetscore rb)); auto.
    intros y Hy. apply in_map_iff in Hy. destruct Hy as (r & <- & Hr).
    exact (Hgreatest _ (Hout r Hr)).
  - intros Hleast. apply scaled_rank_least. intros y Hy.
    apply in_map_iff in Hy. destruct Hy as (r & <- & Hr).
    exact (Hleast _ (Hout r Hr)).
  - intros Hgreatest (b & Hb & Hneq). apply Hrows in Hb. destruct Hb as (rb & Hrb & ->).
    apply (scaled_rank_greatest _ _ (Gscore rb)); auto.
    intros y Hy. apply in_map_iff in Hy. destruct Hy as (r & <- & Hr).
    exact (Hgreatest _ (Hout r Hr)).
  - intros Hleast. apply scaled_rank_least. intros y Hy.
    apply in_map_iff in Hy. destruct Hy as (r & <- & Hr).
    destruct (Hleast _ (Hout r Hr)) as [H1 H2]. cbn in H1, H2. unfold rank_sum.
    pose proof (scaled_rank_mono _ _ _ (Ht ra Hra) H1).
    pose proof (scaled_rank_mono _ _ _ (Hg ra Hra) H2). lra.
  - intros Hgreatest (b & Hb & Hneq). apply Hrows in Hb. destruct Hb as (rb & Hrb & ->).
    cbn [ranked_row row_targetscore row_Gscore] in Hneq.
    destruct (Hgreatest _ (Hout rb Hrb)) as [H1 H2]. cbn in H1, H2.
    apply (scaled_rank_greatest _ _ (rank_sum Rplus scores_df rb)).
    + now apply in_map.
    + intros y Hy. apply in_map_iff in Hy. destruct Hy as (r & <- & Hr).
      destruct (Hgreatest _ (Hout r Hr)) as [H3 H4]. cbn in H3, H4. unfold rank_sum.
      pose proof (scaled_rank_mono _ _ _ (Ht r Hr) H3).
      pose proof (scaled_rank_mono _ _ _ (Hg r Hr) H4). lra.
    + now apply in_map.
    + unfold rank_sum.
      pose proof (scaled_rank_mono _ _ _ (Ht rb Hrb) H1) as M1.
      pose proof (scaled_rank_mono _ _ _ (Hg rb Hrb) H2) as M2.
      destruct Hneq as [Hneq|Hneq].
      * assert (Hlt : targetscore rb < targetscore ra) by lra.
        pose proof (scaled_rank_strict _ _ _ (Ht rb Hrb) (Ht ra Hra) Hlt). lra.
      * assert (Hlt : Gscore rb < Gscore ra) by lra.
        pose proof (scaled_rank_strict _ _ _ (Hg rb Hrb) (Hg ra Hra) Hlt). lra.
Qed.

Lemma run_influence_score_ends_witness :
  exists out a,
    run_influence_score [mkScoreRecord "A" 1 1 1 1 1 NaN NaN] false graph_AB []
    = Ok (out, None) /\
    In a out /\ row_targetScaled a = 0 /\ row_GscoreScaled a = 0 /\ sumScaled a = 0.
Proof.
  set (df := [mkScoreRecord "A" 1 1 1 1 1 NaN NaN]).
  assert (Hne : df <> []) by discriminate.
  pose proof (run_influence_score_unfold df false graph_AB [] Hne) as Hrun.
  destruct (run_influence_score_rows _ _ _ _ _ _ Hrun) as (_ & _ & Hrows).
  set (a := ranked_row Rplus df (mkScoreRecord "A" 1 1 1 1 1 NaN NaN)).
  assert (Ha : In a (sort_values_desc (map (ranked_row Rplus df) df))).
  { apply Hrows. eexists. split; [|reflexivity]. now left. }
  assert (Hall : forall b, In b (sort_values_desc (map (ranked_row Rplus df) df)) -> b = a).
  { intros b Hb. apply Hrows in Hb. destruct Hb as (r & [<-|[]] & ->). reflexivity. }
  exists (sort_values_desc (map (ranked_row Rplus df) df)), a.
  split; [exact Hrun|]. split; [exact Ha|].
  destruct (run_influence_score_ends df false graph_AB [] _ _ Hrun a Ha)
    as (Ht & _ & Hg & _ & Hs & _).
  split; [|split].
  - apply Ht. intros b Hb. rewrite (Hall b Hb). lra.
  - apply Hg. intros b Hb. rewrite (Hall b Hb). lra.
  - apply Hs. intros b Hb. rewrite (Hall b Hb). lra.
Defined.

(** * Properties of the expression table *)

(** ** Dictionaries filled row by row *)

Lemma get_fold_notin {A V : Type} (key : A -> string) (val : A -> V) l :
  forall (d : Dict.t V) k,
    ~ In k (map key l) ->
    Dict.get (fold_left (fun d x => Dict.set d (key x) (val x)) l d) k = Dict.get d k.
Proof.
  induction l as [|a l IH]; intros d k Hk; cbn [fold_left]; [reflexivity|].
  rewrite IH by (intros H; apply Hk; now right).
  apply get_set_other. intros E. apply Hk. now left.
Qed.

Lemma get_fold_nodup {A V : Type} (key : A -> string) (val : A -> V) l :
  forall (d : Dict.t V) x,
    NoDup (map key l) -> In x l ->
    Dict.get (fold_left (fun d x => Dict.set d (key x) (val x)) l d) (key x)
    = Some (val x).
Proof.
  induction l as [|a l IH]; intros d x Hn Hx; [destruct Hx|].
  cbn [fold_left]. cbn [map] in Hn. inversion Hn as [|? ? Ha Hl]; subst.
  destruct Hx as [->|Hx].
  - rewrite get_fold_notin by exact Ha. apply get_set_same.
  - now apply IH.
Qed.

(** ** Duplicated labels and groups *)

Lemma no_duplicated seen (df : list DERow) :
  filter snd (combine df (duplicated seen (map de_index df))) = [] ->
  NoDup (map de_index df) /\ forall x, In x (map de_index df) -> ~ In x seen.
Proof.
  revert seen. induction df as [|row df IH]; intros seen; cbn [map duplicated].
  - intros _. split; [constructor|intros x []].
  - destruct (in_dec string_dec (de_index row) seen) as [Hin|Hnin]; cbn [combine filter snd].
    + discriminate.
    + intros H. destruct (IH _ H) as [Hn Hs]. split.
      * constructor; auto. intros Hk. apply (Hs _ Hk). now left.
      * intros x [<-|Hx]; auto. intros Hx'. apply (Hs x Hx). now right.
Qed.

Lemma insert_label_perm k l : Permutation (insert_label k l) (k :: l).
Proof.
  induction l as [|x l IH]; cbn [insert_label]; [apply Permutation_refl|].
  destruct (String.leb k x); [apply Permutation_refl|].
  eapply Permutation_trans; [apply perm_skip, IH|apply perm_swap].
Qed.

Lemma sort_labels_perm l : Permutation (sort_labels l) l.
Proof.
  unfold sort_labels. induction l as [|x l IH]; cbn [fold_right]; [constructor|].
  eapply Permutation_trans; [apply insert_label_perm|now apply perm_skip].
Qed.

Lemma groupby_mean_index df :
  map de_index (groupby_mean df) = sort_labels (nodup string_dec (map de_index df)).
Proof. unfold groupby_mean. rewrite map_map. cbn [de_index]. apply map_id. Qed.

Lemma groupby_mean_labels df :
  NoDup (map de_index (groupby_mean df)) /\
  forall g, In g (map de_index (groupby_mean df)) <-> In g (map de_index df).
Proof.
  rewrite groupby_mean_index. split.
  - eapply Permutation_NoDup; [apply Permutation_sym, sort_labels_perm|apply NoDup_nodup].
  - intros g. split; intros H.
    + apply (nodup_In string_dec).
      eapply Permutation_in; [apply sort_labels_perm|exact H].
    + eapply Permutation_in; [apply Permutation_sym, sort_labels_perm|].
      now apply nodup_In.
Qed.

Lemma rows_of_single df row :
  NoDup (map de_index df) -> In row df -> rows_of df (de_index row) = [row].
Proof.
  unfold rows_of. induction df as [|r df IH]; intros Hn Hin; [destruct Hin|].
  cbn [map] in Hn. inversion Hn as [|? ? Hr Hd]; subst. cbn [filter].
  assert (Hnone : forall k, ~ In k (map de_index df) ->
            filter (fun row0 => String.eqb (de_index row0) k) df = []).
  { intros k Hk. clear - Hk. induction df as [|a df IH]; cbn [filter]; [reflexivity|].
    destruct (String.eqb (de_index a) k) eqn:E.
    - apply String.eqb_eq in E. exfalso. apply Hk. left. exact E.
    - apply IH. intros H. apply Hk. now right. }
  destruct Hin as [->|Hin].
  - rewrite String.eqb_refl. f_equal. now apply Hnone.
  - destruct (String.eqb (de_index r) (de_index row)) eqn:E.
    + apply String.eqb_eq in E. exfalso. apply Hr. rewrite E. now apply in_map.
    + now apply IH.
Qed.

Lemma mean_single x : mean [x] = x.
Proof. unfold mean. cbn. field. Qed.

(** ** The genes shared with the network *)

Lemma len_network_genes grn :
  (PySet.len (PySet.of_list (nodes grn)) =? 0)%nat = true <-> nodes grn = [].
Proof.
  rewrite len_zero. split.
  - intros H. destruct (nodes grn) as [|n l] eqn:E; [reflexivity|].
    assert (Hin : In n (PySet.of_list (n :: l))) by (apply PySet_of_list_In; now left).
    rewrite H in Hin. destruct Hin.
  - intros ->. reflexivity.
Qed.

Lemma overlap_zero grn df :
  overlap_of grn df = 0%nat <->
  forall row, In row df -> ~ In (de_index row) (nodes grn).
Proof.
  unfold overlap_of, PySet.len. rewrite length_zero_iff_nil. split.
  - intros H row Hrow Hn.
    assert (Hin : In (de_index row)
                    (PySet.inter (PySet.of_list (nodes grn)) (index_set df))).
    { apply PySet_inter_In. split; apply PySet_of_list_In; auto. now apply in_map. }
    rewrite H in Hin. destruct Hin.
  - intros H. destruct (PySet.inter _ _) as [|g l] eqn:E; [reflexivity|].
    assert (Hin : In g (g :: l)) by now left. rewrite <- E in Hin.
    apply PySet_inter_In in Hin. destruct Hin as [H1 H2].
    apply (proj1 (PySet_of_list_In _ _)) in H1. apply (proj1 (PySet_of_list_In _ _)) in H2.
    apply in_map_iff in H2. destruct H2 as (row & <- & Hrow). destruct (H row Hrow H1).
Qed.

Lemma pct_overlap_le grn df df' :
  nodes grn <> [] ->
  (pct_overlap_of grn df' <= pct_overlap_of grn df <->
   (overlap_of grn df' <= overlap_of grn df)%nat).
Proof.
  intros Hne. unfold pct_overlap_of.
  assert (HN : 0 < INR (PySet.len (PySet.of_list (nodes grn)))).
  { apply lt_0_INR. destruct (PySet.len (PySet.of_list (nodes grn))) eqn:E; [|lia].
    exfalso. apply Hne. apply len_network_genes. now rewrite E. }
  split.
  - intros H. apply INR_le. apply Rmult_le_reg_r with (/ INR (PySet.len (PySet.of_list (nodes grn)))).
    + now apply Rinv_0_lt_compat.
    + exact H.
  - intros H. apply Rmult_le_compat_r.
    + left. now apply Rinv_0_lt_compat.
    + now apply le_INR.
Qed.

(** The table that [read_expression] goes on with, after the conversion it
    may have tried. *)
Lemma read_expression_table grn gene_gtf df padj_cutoff :
  nodes grn <> [] ->
  exists df',
    read_expression grn gene_gtf df padj_cutoff = read_expression grn None df' padj_cutoff /\
    (df' = df \/
     exists convert, gene_gtf = Some convert /\ df' = convert df /\
       pct_overlap_of grn df < 0.6 /\
       (overlap_of grn df < overlap_of grn (convert df))%nat).
Proof.
  intros Hne.
  assert (HN : (PySet.len (PySet.of_list (nodes grn)) =? 0)%nat = false).
  { destruct (PySet.len (PySet.of_list (nodes grn)) =? 0)%nat eqn:E; [|reflexivity].
    apply len_network_genes in E. contradiction. }
  destruct gene_gtf as [convert|]; [|exists df; split; [reflexivity|now left]].
  unfold read_expression. rewrite HN.
  fold (overlap_of grn df). fold (overlap_of grn (convert df)).
  fold (pct_overlap_of grn df). fold (pct_overlap_of grn (convert df)).
  destruct (Rlt_dec (pct_overlap_of grn df) 0.6) as [Hlt|Hge].
  - destruct (Rle_dec (pct_overlap_of grn (convert df)) (pct_overlap_of grn df)) as [Hle|Hgt].
    + exists df. split; [reflexivity|now left].
    + exists (convert df). split; [reflexivity|]. right. exists convert.
      split; auto. split; auto. split; auto.
      destruct (Nat.le_gt_cases (overlap_of grn (convert df)) (overlap_of grn df)) as [H|H]; auto.
      exfalso. apply Hgt. now apply pct_overlap_le.
  - exists df. split; [reflexivity|now left].
Qed.

(** [read_expression] without annotation, on a network with a node. *)
Lemma read_expression_None grn df padj_cutoff :
  nodes grn <> [] ->
  read_expression grn None df padj_cutoff =
  if (overlap_of grn df =? 0)%nat then Raise (SystemExit 1)
  else
    Ok (fold_left
          (fun expression_change row =>
             Dict.set expression_change (de_index row)
               (expression_of (log2FoldChange row) (padj row) padj_cutoff))
          (if (0 <? List.length
                      (filter snd (combine df (duplicated [] (map de_index df)))))%nat
           then groupby_mean df else df)
          []).
Proof.
  intros Hne. unfold read_expression.
  destruct (PySet.len (PySet.of_list (nodes grn)) =? 0)%nat eqn:E.
  { apply len_network_genes in E. contradiction. }
  reflexivity.
Qed.

Lemma expression_of_record lfc p padj_cutoff :
  expression_record (expression_of lfc p padj_cutoff).
Proof.
  unfold expression_record, expression_of. cbn [score absfc realfc].
  pose proof (Rabs_pos lfc) as Hpos.
  split; [reflexivity|]. destruct (Rlt_dec p padj_cutoff).
  - split; [left; ring|]. split; [lra|]. intros Hs H0. rewrite H0, Rabs_R0 in Hs. lra.
  - split; [right; ring|]. split; [lra|]. intros H. lra.
Qed.

(** X17.  Every record of the dictionary that [read_expression] returns
    has, as its [absfc], the absolute value of its [realfc], and as its
    [score] either that absolute value or 0: a score is never negative, and
    a gene with a positive score has a fold change other than 0. *)
Theorem read_expression_invariant grn gene_gtf df padj_cutoff expression_change :
  read_expression grn gene_gtf df padj_cutoff = Ok expression_change ->
  forall g e, Dict.get expression_change g = Some e -> expression_record e.
Proof.
  intros H g e Hg.
  destruct (nodes grn) as [|n0 ns] eqn:En.
  { unfold read_expression in H. rewrite En in H. discriminate. }
  assert (Hne : nodes grn <> []) by (rewrite En; discriminate).
  destruct (read_expression_table grn gene_gtf df padj_cutoff Hne) as (df' & E & _).
  rewrite E, (read_expression_None _ _ _ Hne) in H.
  destruct (overlap_of grn df' =? 0)%nat; [discriminate|]. injection H as <-.
  apply (get_fold_set de_index
           (fun row => expression_of (log2FoldChange row) (padj row) padj_cutoff)) in Hg.
  destruct Hg as [(row & _ & _ & <-)|Hg]; [|discriminate].
  apply expression_of_record.
Qed.

Lemma graph_AB_nodes : nodes graph_AB <> [].
Proof. discriminate. Qed.

Lemma read_expression_AB :
  exists ec, read_expression graph_AB None table_AB 0.05 = Ok ec.
Proof.
  rewrite (read_expression_None _ _ _ graph_AB_nodes).
  destruct (overlap_of graph_AB table_AB =? 0)%nat eqn:E; [|eauto].
  apply Nat.eqb_eq in E. exfalso.
  apply (proj1 (overlap_zero graph_AB table_AB) E (mkDERow "A" 1 (1 / 100))).
  - now left.
  - cbn. auto.
Qed.

Lemma read_expression_invariant_witness :
  exists ec,
    read_expression graph_AB None table_AB 0.05 = Ok ec /\
    forall g e, Dict.get ec g = Some e -> expression_record e.
Proof.
  destruct read_expression_AB as [ec Hec]. exists ec. split; auto.
  exact (read_expression_invariant graph_AB None table_AB 0.05 ec Hec).
Defined.
(** ** The file of differential expression *)

Lemma check_columns_spec cols :
  check_columns cols =
  if in_dec string_dec "log2FoldChange" cols then
    if in_dec string_dec "padj" cols then Ok tt
    else Raise (ValueError "Column 'padj' not in differential gene expression file!")
  else
    Raise (ValueError "Column 'log2FoldChange' not in differential gene expression file!").
Proof.
  unfold check_columns. cbn [for_each].
  destruct (in_dec string_dec "log2FoldChange" cols); cbn [bind]; [|reflexivity].
  destruct (in_dec string_dec "padj" cols); reflexivity.
Qed.

Lemma map_result_Ok_inv {A B : Type} (f : A -> result B) l ys :
  map_result f l = Ok ys -> forall x, In x l -> exists y, f x = Ok y.
Proof.
  revert ys. induction l as [|a l IH]; intros ys H x Hx; [destruct Hx|].
  cbn [map_result] in H. destruct (f a) as [y|] eqn:Ea; cbn [bind] in H; [|discriminate].
  destruct (map_result f l) as [ys'|]; cbn [bind] in H; [|discriminate].
  destruct Hx as [<-|Hx]; eauto.
Qed.

Lemma map_result_Raise_inv {A B : Type} (f : A -> result B) l e :
  map_result f l = Raise e -> exists x, In x l /\ f x = Raise e.
Proof.
  induction l as [|a l IH]; cbn [map_result]; [discriminate|].
  destruct (f a) as [y|e'] eqn:Ea; cbn [bind].
  - destruct (map_result f l) as [ys|e']; cbn [bind]; [discriminate|].
    intros [= <-]. destruct (IH eq_refl) as (x & Hx & Hf). exists x. split; [now right|auto].
  - intros [= <-]. exists a. split; [now left|auto].
Qed.

Lemma float_of_Ok t x : float_of t = Ok x -> t = Numeral x.
Proof. destruct t; cbn; [intros [= <-]; reflexivity|discriminate]. Qed.

Lemma float_of_Raise t e : float_of t = Raise e -> exists msg, e = ValueError msg.
Proof. destruct t; cbn; [discriminate|]. intros [= <-]. eauto. Qed.

(** The conversion to numbers raises nothing but [ValueError]. *)
Lemma astype_float_Raise rows e :
  astype_float rows = Raise e -> exists msg, e = ValueError msg.
Proof.
  unfold astype_float.
  destruct (map_result _ rows) as [lfc|e1] eqn:E1; cbn [bind].
  - destruct (map_result (fun r => float_of (snd r)) rows) as [p|e2] eqn:E2;
      cbn [bind]; [discriminate|].
    intros [= <-]. apply map_result_Raise_inv in E2. destruct E2 as (x & _ & Hx).
    now apply float_of_Raise in Hx.
  - intros [= <-]. apply map_result_Raise_inv in E1. destruct E1 as (x & _ & Hx).
    now apply float_of_Raise in Hx.
Qed.

(** When it returns, every line had a number in both columns. *)
Lemma astype_float_Ok rows df :
  astype_float rows = Ok df ->
  forall i x y, In (i, x, y) rows -> exists a b, x = Numeral a /\ y = Numeral b.
Proof.
  unfold astype_float.
  destruct (map_result _ rows) as [lfc|] eqn:E1; cbn [bind]; [|discriminate].
  destruct (map_result (fun r => float_of (snd r)) rows) as [p|] eqn:E2;
    cbn [bind]; [|discriminate].
  intros _ i x y Hin.
  destruct (map_result_Ok_inv _ _ _ E1 _ Hin) as (a & Ha).
  destruct (map_result_Ok_inv _ _ _ E2 _ Hin) as (b & Hb).
  cbn [fst snd] in Ha, Hb. apply float_of_Ok in Ha, Hb. eauto.
Qed.

Lemma astype_float_cons i x y rows :
  astype_float ((i, Numeral x, Numeral y) :: rows) =
  match astype_float rows with
  | Ok df => Ok (mkDERow i x y :: df)
  | Raise e => Raise e
  end.
Proof.
  unfold astype_float. cbn [map_result fst snd float_of bind].
  destruct (map_result _ rows) as [lfc|]; cbn [bind]; [|reflexivity].
  destruct (map_result (fun r => float_of (snd r)) rows) as [p|]; cbn [bind]; reflexivity.
Qed.

Lemma dropna_In rows i x y :
  In (i, x, y) (dropna rows) <->
  exists r, In r rows /\ file_index r = i /\
            file_log2FoldChange r = Some x /\ file_padj r = Some y.
Proof.
  unfold dropna. rewrite in_flat_map. split.
  - intros (r & Hr & Hin). exists r.
    destruct (file_log2FoldChange r) as [x'|], (file_padj r) as [y'|]; try destruct Hin.
    + injection H as <- <- <-. auto.
    + destruct H.
  - intros (r & Hr & <- & Hx & Hy). exists r. split; auto. rewrite Hx, Hy. now left.
Qed.

(** On a file without unreadable line the conversion gives the table of
    the lines with two numbers. *)
Lemma astype_float_numeric rows :
  (forall r, In r rows -> ~ unreadable r) ->
  astype_float (dropna rows) = Ok (numeric_rows rows).
Proof.
  induction rows as [|r rows IH]; intros Hall; [reflexivity|].
  assert (IH' : astype_float (dropna rows) = Ok (numeric_rows rows)).
  { apply IH. intros r' Hr'. apply Hall. now right. }
  pose proof (Hall r (or_introl eq_refl)) as Hr.
  unfold dropna, numeric_rows in *. cbn [flat_map].
  destruct (file_log2FoldChange r) as [[x|s]|] eqn:Ex.
  - destruct (file_padj r) as [[y|s]|] eqn:Ey; cbn [app]; auto.
    + now rewrite astype_float_cons, IH'.
    + exfalso. apply Hr. exists (Numeral x), (Word s). eauto 6.
  - destruct (file_padj r) as [y|] eqn:Ey; cbn [app]; auto.
    exfalso. apply Hr. exists (Word s), y. eauto 6.
  - cbn [app]. auto.
Qed.

Lemma unreadable_dec r : unreadable r \/ ~ unreadable r.
Proof.
  unfold unreadable.
  destruct (file_log2FoldChange r) as [[x|s]|], (file_padj r) as [[y|s']|].
  - right. intros (x' & y' & [= <-] & [= <-] & [[s Hs]|[s Hs]]); discriminate.
  - left. exists (Numeral x), (Word s'). eauto 6.
  - right. intros (x' & y' & _ & Hy & _). discriminate.
  - left. exists (Word s), (Numeral y). eauto 6.
  - left. exists (Word s), (Word s'). eauto 6.
  - right. intros (x' & y' & _ & Hy & _). discriminate.
  - right. intros (x' & y' & Hx & _). discriminate.
  - right. intros (x' & y' & Hx & _). discriminate.
  - right. intros (x' & y' & Hx & _). discriminate.
Qed.

Lemma unreadable_rows rows :
  (forall r, In r rows -> ~ unreadable r) \/ (exists r, In r rows /\ unreadable r).
Proof.
  induction rows as [|r rows [IH|(r' & Hr' & Hu)]].
  - left. intros r [].
  - destruct (unreadable_dec r) as [Hu|Hn].
    + right. exists r. split; [now left|auto].
    + left. intros r' [<-|Hr']; auto.
  - right. exists r'. split; [now right|auto].
Qed.

(** The conversion returns exactly when the file has no unreadable line. *)
Lemma astype_float_dropna rows :
  ((forall r, In r rows -> ~ unreadable r) /\
   astype_float (dropna rows) = Ok (numeric_rows rows)) \/
  ((exists r, In r rows /\ unreadable r) /\
   exists msg, astype_float (dropna rows) = Raise (ValueError msg)).
Proof.
  destruct (astype_float (dropna rows)) as [df|e] eqn:E.
  - assert (Hall : forall r, In r rows -> ~ unreadable r).
    { intros r Hr (x & y & Hx & Hy & Hw).
      destruct (astype_float_Ok _ _ E (file_index r) x y) as (a & b & -> & ->).
      - apply dropna_In. eauto.
      - destruct Hw as [[s Hs]|[s Hs]]; discriminate. }
    left. split; auto. rewrite <- E. now apply astype_float_numeric.
  - right. destruct (astype_float_Raise _ _ E) as [msg ->]. split; [|eauto].
    destruct (unreadable_rows rows) as [H|H]; auto.
    rewrite (astype_float_numeric rows H) in E. discriminate.
Qed.

(** [read_expression_file] on a file with the two columns and without
    unreadable line is [read_expression] on the table of its lines with
    two numbers. *)
Lemma read_expression_file_numeric grn gene_gtf file padj_cutoff :
  In "log2FoldChange" (columns file) -> In "padj" (columns file) ->
  (forall r, In r (file_rows file) -> ~ unreadable r) ->
  read_expression_file grn gene_gtf file padj_cutoff
  = read_expression grn gene_gtf (numeric_rows (file_rows file)) padj_cutoff.
Proof.
  intros H1 H2 Hall. unfold read_expression_file. rewrite check_columns_spec.
  destruct (in_dec string_dec "log2FoldChange" (columns file)); [|contradiction].
  destruct (in_dec string_dec "padj" (columns file)); [|contradiction].
  cbn [bind]. now rewrite (astype_float_numeric _ Hall).
Qed.

(** Whenever [read_expression_file] returns, the file has the two columns
    and no unreadable line. *)
Lemma read_expression_file_Ok grn gene_gtf file padj_cutoff ec :
  read_expression_file grn gene_gtf file padj_cutoff = Ok ec ->
  In "log2FoldChange" (columns file) /\ In "padj" (columns file) /\
  (forall r, In r (file_rows file) -> ~ unreadable r) /\
  read_expression grn gene_gtf (numeric_rows (file_rows file)) padj_cutoff = Ok ec.
Proof.
  unfold read_expression_file. rewrite check_columns_spec.
  destruct (in_dec string_dec "log2FoldChange" (columns file)); [|discriminate].
  destruct (in_dec string_dec "padj" (columns file)); [|discriminate].
  cbn [bind].
  destruct (astype_float_dropna (file_rows file)) as [[Hall ->]|[_ [msg ->]]];
    cbn [bind]; [auto|discriminate].
Qed.

(** Without unreadable line, the lines with two numbers are the complete
    lines. *)
Lemma numeric_rows_In rows g :
  (forall r, In r rows -> ~ unreadable r) ->
  (In g (map de_index (numeric_rows rows)) <->
   exists r, In r rows /\ file_index r = g /\ complete r).
Proof.
  intros Hall. unfold numeric_rows. rewrite in_map_iff. split.
  - intros (row & <- & Hin). apply in_flat_map in Hin. destruct Hin as (r & Hr & Hin).
    exists r. unfold complete.
    destruct (file_log2FoldChange r) as [[x|s]|], (file_padj r) as [[y|s']|];
      try destruct Hin as [<-|[]]; try destruct Hin.
    split; auto. split; [reflexivity|]. split; discriminate.
  - intros (r & Hr & <- & Hx & Hy). specialize (Hall r Hr).
    destruct (file_log2FoldChange r) as [x|] eqn:Ex; [|contradiction].
    destruct (file_padj r) as [y|] eqn:Ey; [|contradiction].
    destruct x as [x|s]; [|exfalso; apply Hall; exists (Word s), y; eauto 6].
    destruct y as [y|s]; [|exfalso; apply Hall; exists (Numeral x), (Word s); eauto 6].
    exists (mkDERow (file_index r) x y). split; [reflexivity|].
    apply in_flat_map. exists r. split; auto. rewrite Ex, Ey. now left.
Qed.

(** ** The conversion of the table and the exits *)

(** With an annotation, [read_expression] goes on with the converted table
    when less than 0.6 of the genes of the network are named and the
    conversion names more of them, and with the table as it is otherwise. *)
Lemma read_expression_Some grn convert df padj_cutoff :
  read_expression grn (Some convert) df padj_cutoff =
  read_expression grn None
    (if Rlt_dec (pct_overlap_of grn df) 0.6
     then if (overlap_of grn df <? overlap_of grn (convert df))%nat
          then convert df else df
     else df)
    padj_cutoff.
Proof.
  destruct (nodes grn) as [|n0 ns] eqn:En.
  { unfold read_expression. rewrite En. reflexivity. }
  assert (Hne : nodes grn <> []) by (rewrite En; discriminate).
  unfold read_expression.
  destruct (PySet.len (PySet.of_list (nodes grn)) =? 0)%nat eqn:E.
  { apply len_network_genes in E. contradiction. }
  fold (overlap_of grn df). fold (overlap_of grn (convert df)).
  fold (pct_overlap_of grn df). fold (pct_overlap_of grn (convert df)).
  destruct (Rlt_dec (pct_overlap_of grn df) 0.6) as [Hlt|Hge]; [|reflexivity].
  destruct (Rle_dec (pct_overlap_of grn (convert df)) (pct_overlap_of grn df)) as [Hle|Hgt].
  - apply (pct_overlap_le grn df (convert df) Hne) in Hle.
    apply Nat.ltb_ge in Hle. rewrite Hle. reflexivity.
  - assert (Hlt' : (overlap_of grn df < overlap_of grn (convert df))%nat).
    { destruct (Nat.le_gt_cases (overlap_of grn (convert df)) (overlap_of grn df)) as [H|H]; auto.
      exfalso. apply Hgt. now apply pct_overlap_le. }
    apply Nat.ltb_lt in Hlt'. rewrite Hlt'. reflexivity.
Qed.





(** A file given by its lines has no unreadable line when every line with
    two values has two numbers. *)
Ltac readable_file :=
  let r := fresh "r" in
  let Hr := fresh "Hr" in
  let x := fresh "x" in
  let y := fresh "y" in
  let Hx := fresh "Hx" in
  let Hy := fresh "Hy" in
  let Hw := fresh "Hw" in
  intros r Hr (x & y & Hx & Hy & Hw); cbn in Hr;
  repeat (destruct Hr as [Hr|Hr]; [subst r; cbn in Hx, Hy; try discriminate;
                                   injection Hx as <-; injection Hy as <-;
                                   destruct Hw as [[? ?]|[? ?]]; discriminate|]);
  destruct Hr.


(** X19.  With an annotation, [read_expression] uses the converted table
    only when the table names less than 0.6 of the genes of the network and
    the converted table names more of them than the table does; it then
    gives what it gives for the converted table without annotation.  In
    every other case the annotation changes nothing. *)
Theorem read_expression_conversion grn convert df padj_cutoff :
  (pct_overlap_of grn df < 0.6 ->
   (overlap_of grn df < overlap_of grn (convert df))%nat ->
   read_expression grn (Some convert) df padj_cutoff
   = read_expression grn None (convert df) padj_cutoff) /\
  (0.6 <= pct_overlap_of grn df \/
   (overlap_of grn (convert df) <= overlap_of grn df)%nat ->
   read_expression grn (Some convert) df padj_cutoff
   = read_expression grn None df padj_cutoff).
Proof.
  rewrite read_expression_Some. split.
  - intros Hlt Hmore. destruct (Rlt_dec (pct_overlap_of grn df) 0.6); [|lra].
    apply Nat.ltb_lt in Hmore. now rewrite Hmore.
  - intros [Hge|Hle].
    + destruct (Rlt_dec (pct_overlap_of grn df) 0.6); [lra|reflexivity].
    + apply Nat.ltb_ge in Hle. rewrite Hle.
      now destruct (Rlt_dec (pct_overlap_of grn df) 0.6).
Qed.

Lemma read_expression_conversion_witness :
  read_expression graph_AB (Some (fun _ => table_AB)) [mkDERow "Z" 1 (1 / 100)] 0.05
  = read_expression graph_AB None table_AB 0.05 /\
  read_expression graph_AB (Some (fun _ => [])) table_AB 0.05
  = read_expression graph_AB None table_AB 0.05.
Proof.
  split.
  - apply (proj1 (read_expression_conversion graph_AB (fun _ => table_AB)
                    [mkDERow "Z" 1 (1 / 100)] 0.05)).
    + unfold pct_overlap_of.
      replace (overlap_of graph_AB [mkDERow "Z" 1 (1 / 100)]) with 0%nat by reflexivity.
      simpl INR. unfold Rdiv. lra.
    + replace (overlap_of graph_AB [mkDERow "Z" 1 (1 / 100)]) with 0%nat by reflexivity.
      replace (overlap_of graph_AB table_AB) with 2%nat by reflexivity. lia.
  - apply (proj2 (read_expression_conversion graph_AB (fun _ => []) table_AB 0.05)).
    right. replace (overlap_of graph_AB []) with 0%nat by reflexivity. lia.
Defined.

(** ** The records of the table *)

(** Without annotation, the dictionary that [read_expression] returns for
    a table has a record for every gene that the table names and for no
    other gene, made from the means of the rows of the gene. *)
Lemma read_expression_records_table grn df padj_cutoff expression_change :
  read_expression grn None df padj_cutoff = Ok expression_change ->
  forall g,
    Dict.get expression_change g =
    if in_dec string_dec g (map de_index df)
    then Some (expression_of (mean (map log2FoldChange (rows_of df g)))
                             (mean (map padj (rows_of df g))) padj_cutoff)
    else None.
Proof.
  intros H g.
  destruct (nodes grn) as [|n0 ns] eqn:En.
  { unfold read_expression in H. rewrite En in H. discriminate. }
  assert (Hne : nodes grn <> []) by (rewrite En; discriminate).
  rewrite (read_expression_None _ _ _ Hne) in H.
  destruct (overlap_of grn df =? 0)%nat; [discriminate|]. injection H as <-.
  destruct (0 <? List.length _)%nat eqn:Edup.
  - destruct (groupby_mean_labels df) as [Hnodup Hlabels].
    destruct (in_dec string_dec g (map de_index df)) as [Hin|Hnin].
    + assert (Hrow : In (mkDERow g (mean (map log2FoldChange (rows_of df g)))
                                 (mean (map padj (rows_of df g))))
                        (groupby_mean df)).
      { unfold groupby_mean. apply in_map_iff. exists g. split; [reflexivity|].
        apply (proj2 (Hlabels g)) in Hin. now rewrite groupby_mean_index in Hin. }
      exact (get_fold_nodup de_index
               (fun row => expression_of (log2FoldChange row) (padj row) padj_cutoff)
               (groupby_mean df) [] _ Hnodup Hrow).
    + rewrite get_fold_notin; [reflexivity|]. intros Hg. apply Hnin. now apply Hlabels.
  - apply Nat.ltb_ge in Edup.
    assert (Hempty : filter snd (combine df (duplicated [] (map de_index df))) = []).
    { destruct (filter snd _); [reflexivity|cbn in Edup; lia]. }
    destruct (no_duplicated [] df Hempty) as [Hnodup _].
    destruct (in_dec string_dec g (map de_index df)) as [Hin|Hnin].
    + apply in_map_iff in Hin. destruct Hin as (row & <- & Hrow).
      rewrite (rows_of_single df row Hnodup Hrow). cbn [map]. rewrite !mean_single.
      exact (get_fold_nodup de_index
               (fun row => expression_of (log2FoldChange row) (padj row) padj_cutoff)
               df [] _ Hnodup Hrow).
    + now rewrite get_fold_notin.
Qed.

(** X20.  The records of [Influence.read_expression] without annotation.
    The lines of the file with a missing [log2FoldChange] or [padj] are
    dropped first: the dictionary returned has a record for exactly the
    genes that have a line with both values.  The [realfc] of the record is
    the mean of the fold changes of those lines of the gene, its [absfc]
    the absolute value of that mean, and its [score] is the [absfc] when
    the mean of the adjusted p-values of those lines is below the cutoff,
    and 0 otherwise: lines with the same name are averaged, also for the
    test of significance. *)
Theorem read_expression_records grn file padj_cutoff expression_change :
  read_expression_file grn None file padj_cutoff = Ok expression_change ->
  (forall g,
     Dict.mem expression_change g = true <->
     exists r, In r (file_rows file) /\ file_index r = g /\ complete r) /\
  (forall g,
     Dict.get expression_change g =
     if in_dec string_dec g (map de_index (numeric_rows (file_rows file)))
     then Some (expression_of
                  (mean (map log2FoldChange (rows_of (numeric_rows (file_rows file)) g)))
                  (mean (map padj (rows_of (numeric_rows (file_rows file)) g)))
                  padj_cutoff)
     else None).
Proof.
  intros H. apply read_expression_file_Ok in H. destruct H as (_ & _ & Hall & H).
  pose proof (read_expression_records_table _ _ _ _ H) as Hget. split; [|exact Hget].
  intros g. rewrite <- (numeric_rows_In _ g Hall). rewrite mem_true, Hget.
  destruct (in_dec string_dec g (map de_index (numeric_rows (file_rows file)))); split;
    eauto; try tauto.
  intros [e He]. discriminate.
Qed.

Lemma read_expression_records_witness :
  exists ec,
    read_expression_file graph_AB None file_BB 0.05 = Ok ec /\
    Dict.get ec "B" = Some (expression_of (mean [1; 3]) (mean [1 / 100; 1 / 100]) 0.05) /\
    Dict.get ec "A" = None /\ Dict.mem ec "B" = true.
Proof.
  assert (HBB : forall r, In r (file_rows file_BB) -> ~ unreadable r) by readable_file.
  assert (H : exists ec, read_expression_file graph_AB None file_BB 0.05 = Ok ec).
  { rewrite read_expression_file_numeric; [|now left|right; now left|exact HBB].
    rewrite (read_expression_None _ _ _ graph_AB_nodes).
    replace (overlap_of graph_AB (numeric_rows (file_rows file_BB))) with 1%nat
      by reflexivity.
    cbn [Nat.eqb]. eauto. }
  destruct H as [ec Hec]. exists ec. split; auto.
  destruct (read_expression_records graph_AB file_BB 0.05 ec Hec) as [Hmem Hget].
  split; [|split].
  - rewrite (Hget "B"). reflexivity.
  - rewrite (Hget "A"). reflexivity.
  - apply Hmem. exists (mkFileRow "B" (Some (Numeral 1)) (Some (Numeral (1 / 100)))).
    split; [now left|]. split; [reflexivity|]. split; discriminate.
Defined.

(** * The scores are not negative *)

Lemma final_dist_positive st g p : In (g, p) (final_dist st) -> 0 < p.
Proof.
  unfold final_dist. intros H. apply in_map_iff in H.
  destruct H as ([k d] & E & _). cbn [fst snd] in E. injection E as _ <-.
  apply pow10_pos.
Qed.

(** The target score of a row that [influence_scores] returns, in terms of
    what the search returned. *)
Lemma influence_scores_targetscore set_iter mannwhitneyu_asymptotic
    node_ grn ec de_genes row :
  influence_scores set_iter mannwhitneyu_asymptotic node_ grn ec de_genes = Ok row ->
  exists paths weights,
    dijkstra_prob_length grn node_ "weight" 0.6 None = Ok (paths, weights) /\
    targetscore row = target_score_spec ec de_genes weights.
Proof.
  unfold influence_scores.
  destruct (dijkstra_prob_length grn node_ "weight" 0.6 None)
    as [[paths weights]|]; cbn [bind]; [|discriminate].
  destruct (target_score ec _) as [ts|] eqn:Hts; cbn [bind]; [|discriminate].
  destruct (fold_change_scores _ _ _ _ _) as [[pv tfd]|]; cbn [bind]; [|discriminate].
  destruct (out_degree grn node_) as [n|]; cbn [bind]; [|discriminate].
  destruct (getitem ec node_) as [e|]; cbn [bind]; [|discriminate].
  intros [= <-]. cbn [targetscore]. exists paths, weights. split; [reflexivity|].
  unfold target_score, Dict.items in Hts. apply target_score_acc in Hts.
  unfold target_score_spec. rewrite Hts. ring.
Qed.

Lemma file_fork_readable : forall r, In r (file_rows file_fork) -> ~ unreadable r.
Proof. readable_file. Qed.

Lemma graph_fork_nodes : nodes graph_fork <> [].
Proof. discriminate. Qed.

Lemma read_expression_fork :
  read_expression_file graph_fork None file_fork 0.05
  = Ok [("A", expression_of 1 (1 / 100) 0.05); ("B", expression_of 2 (1 / 100) 0.05);
        ("C", expression_of (-3) (1 / 100) 0.05); ("D", expression_of 4 (1 / 2) 0.05)].
Proof.
  rewrite read_expression_file_numeric;
    [|now left|right; now left|exact file_fork_readable].
  rewrite (read_expression_None _ _ _ graph_fork_nodes). reflexivity.
Qed.

(** X21.  On a network whose weights are probabilities, and with the
    expression records of [Influence.read_expression], every row that
    [influence_scores] returns has a target score and a [Gscore] that are
    not negative; its [factor_fc] is not negative either, and its [Gscore]
    is its [factor_fc] or 0. *)
Theorem influence_scores_nonneg set_iter mannwhitneyu_asymptotic
    grn0 gene_gtf file padj_cutoff expression_change node_ grn de_genes row :
  unit_weights grn "weight" ->
  read_expression_file grn0 gene_gtf file padj_cutoff = Ok expression_change ->
  influence_scores set_iter mannwhitneyu_asymptotic node_ grn expression_change de_genes
  = Ok row ->
  0 <= targetscore row /\ 0 <= Gscore row /\ 0 <= factor_fc row /\
  (Gscore row = factor_fc row \/ Gscore row = 0).
Proof.
  intros _ Hread. apply read_expression_file_Ok in Hread.
  destruct Hread as (_ & _ & _ & Hread).
  set (df := numeric_rows (file_rows file)) in *.
  assert (Hrec : forall g e, Dict.get expression_change g = Some e -> expression_record e).
  { intros g e Hg.
    destruct (nodes grn0) as [|n0 ns] eqn:En.
    { unfold read_expression in Hread. rewrite En in Hread. discriminate. }
    assert (Hne : nodes grn0 <> []) by (rewrite En; discriminate).
    destruct (read_expression_table grn0 gene_gtf df padj_cutoff Hne) as (df' & E & _).
    rewrite E, (read_expression_None _ _ _ Hne) in Hread.
    destruct (overlap_of grn0 df' =? 0)%nat; [discriminate|]. injection Hread as <-.
    apply (get_fold_set de_index
             (fun r => expression_of (log2FoldChange r) (padj r) padj_cutoff)) in Hg.
    destruct Hg as [(r & _ & _ & <-)|Hg]; [|discriminate].
    apply expression_of_record. }
  unfold influence_scores, dijkstra_prob_length.
  destruct (dijkstra_search grn node_ "weight" 0.6 None) as [st|]; cbn [bind]; [|discriminate].
  destruct (target_score expression_change _) as [ts|] eqn:Hts; cbn [bind]; [|discriminate].
  destruct (fold_change_scores _ _ _ _ _) as [[pv tfd]|]; cbn [bind]; [|discriminate].
  destruct (out_degree grn node_) as [n|]; cbn [bind]; [|discriminate].
  unfold getitem. destruct (Dict.get expression_change node_) as [e|] eqn:He;
    cbn [bind]; [|discriminate].
  intros [= <-]. cbn [targetscore Gscore factor_fc].
  destruct (Hrec _ _ He) as (Habs & Hscore & Hrange & _).
  split; [|split; [lra|split; [rewrite Habs; apply Rabs_pos|exact Hscore]]].
  unfold target_score, Dict.items in Hts. apply target_score_acc in Hts. subst ts.
  rewrite Rplus_0_l. apply sum_nonneg, Forall_forall. intros x Hx.
  apply in_map_iff in Hx. destruct Hx as ([g p] & <- & Hin). cbn [fst snd].
  apply filter_In in Hin. destruct Hin as [Hin _].
  pose proof (final_dist_positive _ _ _ Hin) as Hp. unfold score_of.
  destruct (Dict.get expression_change g) as [e'|] eqn:E'; [|lra].
  destruct (Hrec _ _ E') as (_ & _ & Hr' & _). nra.
Qed.

(** On the network with four genes the factor [A] reaches [B], which is
    differentially expressed, with the probability 9/10: its target score
    is the score 2 of [B] times 9/10. *)
Lemma influence_scores_nonneg_witness :
  exists ec row,
    read_expression_file graph_fork None file_fork 0.05 = Ok ec /\
    influence_scores (fun s => s) test_of_means "A" graph_fork ec ["B"; "C"] = Ok row /\
    targetscore row = 9 / 5 /\
    0 <= targetscore row /\ 0 <= Gscore row /\ 0 <= factor_fc row.
Proof.
  pose proof read_expression_fork as Hread.
  assert (Hcaught : forall x y e, test_of_means x y = Raise e ->
                                  caught_by_fold_change e = true) by discriminate.
  destruct (influence_scores_returns (fun s => s) test_of_means
              (fun s => Permutation_refl s) Hcaught) with
      (node_ := "A") (grn := graph_fork)
      (ec := [("A", expression_of 1 (1 / 100) 0.05); ("B", expression_of 2 (1 / 100) 0.05);
              ("C", expression_of (-3) (1 / 100) 0.05); ("D", expression_of 4 (1 / 2) 0.05)])
      (de_genes := ["B"; "C"])
      (nbrs := [("C", [("weight", 1 / 2)]); ("B", [("weight", 9 / 10)])])
    as (row & Hrow & _).
  - exact graph_fork_closed.
  - exact graph_fork_unit.
  - reflexivity.
  - reflexivity.
  - intros g [<-|[<-|[]]]; reflexivity.
  - eexists. exists row. split; [exact Hread|]. split; [exact Hrow|].
    destruct (influence_scores_nonneg _ _ _ _ _ _ _ _ _ _ _ graph_fork_unit Hread Hrow)
      as (H1 & H2 & H3 & _).
    split; [|split; [exact H1|split; [exact H2|exact H3]]].
    destruct (influence_scores_targetscore _ _ _ _ _ _ _ Hrow)
      as (paths & weights & Hrun & ->).
    rewrite search_fork in Hrun. injection Hrun as <- <-.
    unfold target_score_spec, score_of, expression_of. run_search.
    rewrite Rabs_right by lra. destruct (Rlt_dec (1 / 100) 0.05); lra.
Defined.

(** * The paths of the search are simple *)

Lemma relax_paths_simple weight cutoff v st ue st' :
  relax weight cutoff v st ue = Ok st' -> paths_simple st -> paths_simple st'.
Proof.
  unfold relax. destruct ue as [u e].
  destruct (getitem (paths st) v) as [pv|] eqn:Hpv; cbn [bind]; [|discriminate].
  destruct (getitem (dist st) v) as [dv|] eqn:Hdv; cbn [bind]; [|discriminate].
  unfold getitem in Hpv, Hdv.
  destruct (Dict.get (paths st) v) as [pv0|] eqn:Hpv0; [|discriminate].
  destruct (Dict.get (dist st) v) as [dv0|] eqn:Hdv0; [|discriminate].
  injection Hpv as ->. injection Hdv as ->.
  destruct (List.length pv =? 0)%nat; [discriminate|].
  destruct (over_cutoff _ _); [intros [= <-]; auto|].
  destruct (Dict.get (dist st) u) as [du|] eqn:Hdu.
  { destruct (Rlt_dec _ _); [discriminate|]. intros [= <-]. auto. }
  assert (Hnew : paths_simple st ->
            paths_simple
              (mkState (dist st)
                 (Dict.set (seen st) u
                    (candidate dv (weight_function weight e) (List.length pv)))
                 (Dict.set (paths st) u (pv ++ [u]))
                 (heappush (fringe st)
                    (candidate dv (weight_function weight e) (List.length pv), c st, u))
                 (S (c st)))).
  { intros HP u' p. proj_simpl. rewrite get_set.
    destruct (String.eqb u u') eqn:E; [|apply HP].
    apply String.eqb_eq in E. subst u'. intros [= <-].
    destruct (HP v pv Hpv0) as (Hnd & q & -> & Hq).
    assert (Hall : forall x, In x (q ++ [v]) -> Dict.mem (dist st) x = true).
    { intros x Hx. apply in_app_or in Hx. destruct Hx as [Hx|[<-|[]]]; auto.
      apply mem_true. eauto. }
    split; [|eauto].
    apply NoDup_app; auto.
    - repeat constructor. intros [].
    - intros x Hx [<-|[]]. apply Hall in Hx. apply mem_true in Hx.
      destruct Hx as [y Hy]. congruence. }
  destruct (Dict.get (seen st) u) as [su|].
  - destruct (Rlt_dec _ su); intros [= <-]; auto.
  - intros [= <-]. auto.
Qed.

Lemma body_paths_simple G weight cutoff target st st' :
  body G weight cutoff target st = Ok (Continue st') ->
  paths_simple st -> paths_simple st'.
Proof.
  unfold body.
  destruct (heappop (fringe st)) as [[[[d k] v] fr]|]; [|discriminate].
  destruct (Dict.mem (dist st) v) eqn:Hm.
  - intros [= <-] HP. exact HP.
  - destruct (is_target target v); [discriminate|].
    destruct (getitem (_succ G) v) as [nbrs|]; cbn [bind]; [|discriminate].
    match goal with |- context [for_each ?l ?f ?s0] =>
      destruct (for_each l f s0) as [s2|] eqn:Hf end; cbn [bind]; [|discriminate].
    intros [= <-] HP. revert Hf. apply for_each_Ok.
    + intros u p Hp. proj_simpl. destruct (HP u p Hp) as (Hnd & q & -> & Hq).
      split; auto. exists q. split; auto. intros x Hx.
      rewrite mem_set, (Hq x Hx). apply orb_true_r.
    + intros s x s' _ Hs Hr. eapply relax_paths_simple; eauto.
Qed.

(** X22.  On a graph whose successors are nodes and whose weights are
    probabilities, every path that [dijkstra_prob_length] returns is simple:
    no node occurs twice on it, so it has at most as many nodes as the
    graph; and every node on it other than the source is itself among the
    nodes returned. *)
Theorem dijkstra_paths_simple G source weight cutoff :
  closed_graph G -> unit_weights G weight ->
  Dict.mem (_succ G) source = true -> 0 <= cutoff <= 1 ->
  exists paths_out dist_out,
    dijkstra_prob_length G source weight cutoff None = Ok (paths_out, dist_out) /\
    forall u p, Dict.get paths_out u = Some p ->
      NoDup p /\
      (forall x, In x p -> x = source \/ In x (Dict.keys dist_out)) /\
      (List.length p <= List.length (nodes G))%nat.
Proof.
  intros Hc Hu Hs Hr.
  destruct (convert_cutoff_range cutoff Hr) as (D & HD & HD0).
  destruct (search_total_with G weight D source Hc Hu Hs HD0 paths_simple)
    as (st & m & Hw & I & Hf & Hsimple).
  { intros m0 s s' _ HP Hb. eapply body_paths_simple; eauto. }
  { intros u p Hp. apply singleton_get in Hp. destruct Hp as [-> ->]. split.
    - repeat constructor. intros [].
    - exists []. split; [reflexivity|intros x []]. }
  exists (final_paths st), (final_dist st). split.
  { unfold dijkstra_prob_length, dijkstra_search. rewrite HD. cbn [bind].
    now rewrite Hw. }
  intros u p Hp. apply (final_paths_spec _ _ _ _ _ _ I Hf) in Hp.
  destruct Hp as (Hne & d & Hd & Hp & _).
  destruct (Hsimple u p Hp) as (Hnd & q & -> & Hq).
  assert (Hfin : forall x, In x (q ++ [u]) -> exists dx, Dict.get (dist st) x = Some dx).
  { intros x Hx. apply in_app_or in Hx. destruct Hx as [Hx|[<-|[]]]; [|eauto].
    apply mem_true. auto. }
  split; auto. split.
  - intros x Hx. destruct (string_dec x source) as [->|Hxs]; [now left|right].
    apply (final_dist_keys _ _ _ _ _ _ I Hf). split; auto.
  - apply NoDup_incl_length; auto. intros x Hx. destruct (Hfin x Hx) as [dx Hdx].
    unfold nodes. apply keys_get, mem_true.
    exact (finalized_node _ _ _ _ _ _ _ _ Hc Hs I Hdx).
Qed.

Lemma dijkstra_paths_simple_witness :
  exists paths_out dist_out,
    dijkstra_prob_length graph_AB "A" "weight" 0.5 None = Ok (paths_out, dist_out) /\
    forall u p, Dict.get paths_out u = Some p ->
      NoDup p /\
      (forall x, In x p -> x = "A" \/ In x (Dict.keys dist_out)) /\
      (List.length p <= List.length (nodes graph_AB))%nat.
Proof.
  apply (dijkstra_paths_simple graph_AB "A" "weight" 0.5).
  - exact graph_AB_closed.
  - exact graph_AB_unit.
  - reflexivity.
  - lra.
Defined.

(** * From the rows of the driver to the ranking *)

Lemma influence_scores_factor set_iter mannwhitneyu_asymptotic node_ grn ec de_genes row :
  influence_scores set_iter mannwhitneyu_asymptotic node_ grn ec de_genes = Ok row ->
  factor row = node_.
Proof.
  unfold influence_scores.
  destruct (dijkstra_prob_length grn node_ "weight" 0.6 None)
    as [[paths weights]|]; cbn [bind]; [|discriminate].
  destruct (target_score ec _) as [ts|]; cbn [bind]; [|discriminate].
  destruct (fold_change_scores _ _ _ _ _) as [[pv tfd]|]; cbn [bind]; [|discriminate].
  destruct (out_degree grn node_) as [n|]; cbn [bind]; [|discriminate].
  destruct (getitem ec node_) as [e|]; cbn [bind]; [|discriminate].
  intros [= <-]. reflexivity.
Qed.

(** The rows written by the loop over the factors, when it ends without
    exception. *)
Lemma collect_Forall2 (work : node -> result ScoreRecord) l :
  forall file out,
    for_each l (fun file tf => line <- work tf ;; Ok (file ++ [line])) file = Ok out ->
    exists rows, out = file ++ rows /\ Forall2 (fun tf row => work tf = Ok row) l rows.
Proof.
  induction l as [|tf l IH]; intros file out; cbn [for_each].
  - intros [= <-]. exists []. rewrite app_nil_r. split; [reflexivity|constructor].
  - destruct (work tf) as [r|] eqn:E; cbn [bind]; [|discriminate].
    intros H. destruct (IH _ _ H) as (rows & -> & Hrows).
    exists (r :: rows). rewrite <- app_assoc. split; [reflexivity|]. now constructor.
Qed.

(** When the results of all the jobs could be collected, every job had
    completed. *)
Lemma run_pool_collected (work : node -> result ScoreRecord) jobs schedule out :
  for_each (run_pool jobs work schedule)
    (fun file j => line <- get_job j ;; Ok (file ++ [line])) [] = Ok out ->
  run_pool jobs work schedule = map (fun tf => Some (work tf)) jobs.
Proof.
  intros H. unfold run_pool in *.
  destruct (run_pool_inv jobs work schedule [] _ (pool_inv_init jobs work))
    as (Hlen & Hval & _).
  set (s := fold_left _ schedule _) in *.
  assert (Hsome : forall slot, In slot s -> slot <> None).
  { intros slot Hin ->.
    destruct (for_each_Ok_all _ _ _ _ H None Hin) as (s1 & s2 & Hs). discriminate. }
  apply nth_error_ext. intros n. rewrite nth_error_map.
  destruct (nth_error s n) as [slot|] eqn:En.
  - pose proof (Hsome slot (nth_error_In _ _ En)) as Hne.
    destruct slot as [x|]; [|contradiction].
    destruct (Hval n x En) as (tf & -> & ->). reflexivity.
  - apply nth_error_None in En. rewrite Hlen in En.
    apply nth_error_None in En. now rewrite En.
Qed.

(** X23.  The ranking on the rows of the driver.  Whenever
    [Influence.run_target_score] has written its rows, with one worker or
    with several, there is a row for every factor selected and for nothing
    else, in the order of the set of the factors; so the table is not empty,
    [Influence.run_influence_score] raises no [ValueError] on it, and its
    table has one row for every factor selected. *)
Theorem run_influence_score_on_rows set_iter mannwhitneyu_asymptotic
    grn expression_change ncore schedule rows filter_tfs fin_expression :
  (forall s, Permutation (set_iter s) s) ->
  run_target_score set_iter mannwhitneyu_asymptotic grn expression_change ncore schedule
  = Ok rows ->
  exists de_tfs out,
    select_de_tfs grn expression_change = Ok de_tfs /\
    map factor rows = set_iter de_tfs /\ rows <> [] /\
    run_influence_score rows filter_tfs grn fin_expression
    = Ok (out, if filter_tfs
               then Some (filter_tf out grn fin_expression 20 0.98)
               else None) /\
    Permutation (index out) de_tfs.
Proof.
  intros Hperm. unfold run_target_score.
  destruct (select_de_tfs grn expression_change) as [de_tfs|] eqn:Hsel; cbn [bind];
    [|discriminate].
  set (work := fun tf => influence_scores set_iter mannwhitneyu_asymptotic tf grn
                           expression_change (select_de_genes grn expression_change)).
  intros H.
  assert (Hseq : for_each (set_iter de_tfs)
                   (fun file tf => line <- work tf ;; Ok (file ++ [line])) [] = Ok rows).
  { destruct (1 <? ncore)%nat.
    - match type of H with
      | match ?w with _ => _ end = _ => destruct w as [file|e] eqn:Ew
      end.
      + injection H as ->. rewrite (run_pool_collected _ _ _ _ Ew) in Ew.
        rewrite collect_jobs in Ew. exact Ew.
      + now apply on_exception_raises in H.
    - match type of H with
      | match ?w with _ => _ end = _ => destruct w as [file|e] eqn:Ew
      end.
      + injection H as ->. exact Ew.
      + now apply on_exception_raises in H. }
  destruct (collect_Forall2 work _ _ _ Hseq) as (rows' & E & HF). cbn [app] in E. subst rows'.
  assert (Hfactor : map factor rows = set_iter de_tfs).
  { clear - HF. induction HF as [|tf row l rows Hw _ IH]; cbn [map]; [reflexivity|].
    f_equal; auto. unfold work in Hw. now apply influence_scores_factor in Hw. }
  destruct (select_de_tfs_Ok _ _ _ Hsel) as (Hne & _ & _).
  assert (Hrows : rows <> []).
  { intros ->. cbn in Hfactor. apply Hne.
    pose proof (Hperm de_tfs) as Hp. rewrite <- Hfactor in Hp.
    now apply Permutation_nil in Hp. }
  exists de_tfs, (sort_values_desc (map (ranked_row Rplus rows) rows)).
  split; auto. split; auto. split; auto. split.
  - now apply run_influence_score_unfold.
  - unfold index. eapply Permutation_trans.
    + apply Permutation_map, sort_values_desc_perm.
    + rewrite map_map. cbn [ranked_row row_factor].
      change (map (fun x => factor x) rows) with (map factor rows).
      rewrite Hfactor. apply Hperm.
Qed.

Lemma run_target_score_AB :
  exists rows,
    run_target_score (fun s => s) (fun _ _ => Ok (Num (1 / 2)))
      graph_AB expression_AB 1 [] = Ok rows.
Proof.
  unfold run_target_score. rewrite select_de_tfs_AB. cbn [bind Nat.ltb Nat.leb for_each].
  destruct (influence_scores_returns (fun s => s) (fun _ _ => Ok (Num (1 / 2)))
              (fun s => Permutation_refl s)) with
      (node_ := "A") (grn := graph_AB) (ec := expression_AB)
      (de_genes := select_de_genes graph_AB expression_AB)
      (nbrs := [("B", [("weight", 1 / 2)])])
    as (row & Hrow & _).
  - discriminate.
  - exact graph_AB_closed.
  - exact graph_AB_unit.
  - reflexivity.
  - reflexivity.
  - apply select_de_genes_expressed.
  - rewrite Hrow. cbn [bind]. eauto.
Qed.

Lemma run_influence_score_on_rows_witness :
  exists rows de_tfs out,
    run_target_score (fun s => s) (fun _ _ => Ok (Num (1 / 2)))
      graph_AB expression_AB 1 [] = Ok rows /\
    select_de_tfs graph_AB expression_AB = Ok de_tfs /\
    run_influence_score rows false graph_AB [] = Ok (out, None) /\
    Permutation (index out) de_tfs.
Proof.
  destruct run_target_score_AB as [rows Hrows].
  destruct (run_influence_score_on_rows (fun s => s) (fun _ _ => Ok (Num (1 / 2)))
              graph_AB expression_AB 1 [] rows false []
              (fun s => Permutation_refl s) Hrows)
    as (de_tfs & out & Hsel & _ & _ & Hrun & Hp).
  exists rows, de_tfs, out. auto.
Defined.

(** * The search with a target *)

Lemma stable_refl st : stable st st.
Proof. intros u d H. auto. Qed.

Lemma stable_trans st1 st2 st3 : stable st1 st2 -> stable st2 st3 -> stable st1 st3.
Proof.
  intros H12 H23 u d H. destruct (H12 u d H) as [Hd Hp].
  destruct (H23 u d Hd) as [Hd' Hp']. split; congruence.
Qed.

Lemma relax_stable weight cutoff v st ue st' :
  relax weight cutoff v st ue = Ok st' -> stable st st'.
Proof.
  unfold relax. destruct ue as [u e].
  destruct (getitem (paths st) v) as [pv|]; cbn [bind]; [|discriminate].
  destruct (getitem (dist st) v) as [dv|]; cbn [bind]; [|discriminate].
  destruct (List.length pv =? 0)%nat; [discriminate|].
  destruct (over_cutoff _ _); [intros [= <-]; apply stable_refl|].
  destruct (Dict.get (dist st) u) as [du|] eqn:Hdu.
  { destruct (Rlt_dec _ _); [discriminate|]. intros [= <-]. apply stable_refl. }
  match goal with |- (if ?b then _ else _) = _ -> _ => destruct b end;
    intros [= <-]; [|apply stable_refl].
  intros u' d Hd. proj_simpl. split; auto.
  apply get_set_other. congruence.
Qed.

Lemma relax_all_stable weight cutoff v nbrs :
  forall st st', for_each nbrs (relax weight cutoff v) st = Ok st' -> stable st st'.
Proof.
  induction nbrs as [|ue nbrs IH]; intros st st'; cbn [for_each].
  - intros [= <-]. apply stable_refl.
  - destruct (relax weight cutoff v st ue) as [s1|] eqn:E; cbn [bind]; [|discriminate].
    intros H. eapply stable_trans; [eapply relax_stable; eauto|eauto].
Qed.

Lemma finalize_stable st v d fr :
  Dict.mem (dist st) v = false ->
  stable st (mkState (Dict.set (dist st) v d) (seen st) (paths st) fr (c st)).
Proof.
  intros Hm u d' Hd. proj_simpl. split; auto.
  apply mem_false in Hm. rewrite get_set_other by congruence. exact Hd.
Qed.

(** A turn of the loop, with a target or without, keeps the finalized
    nodes. *)
Lemma body_stable G weight cutoff target st r :
  body G weight cutoff target st = Ok r ->
  stable st (match r with Continue s => s | Break s => s end).
Proof.
  unfold body.
  destruct (heappop (fringe st)) as [[[[d k] v] fr]|].
  2:{ intros [= <-]. apply stable_refl. }
  destruct (Dict.mem (dist st) v) eqn:Hm.
  - intros [= <-]. intros u d' Hd. proj_simpl. auto.
  - destruct (is_target target v).
    + intros [= <-]. now apply finalize_stable.
    + destruct (getitem (_succ G) v) as [nbrs|]; cbn [bind]; [|discriminate].
      match goal with |- context [for_each ?l ?f ?s0] =>
        destruct (for_each l f s0) as [s2|] eqn:Hf end; cbn [bind]; [|discriminate].
      intros [= <-].
      apply (stable_trans _ (mkState (Dict.set (dist st) v d) (seen st) (paths st) fr (c st)));
        [now apply finalize_stable|].
      eapply relax_all_stable; eauto.
Qed.

Lemma while_stable G weight cutoff target fuel :
  forall st st', while G weight cutoff target fuel st = Ok st' -> stable st st'.
Proof.
  induction fuel as [|fuel IH]; intros st st'; cbn [while]; [discriminate|].
  destruct (body G weight cutoff target st) as [[s|s]|] eqn:E; [| |discriminate].
  - intros H. eapply stable_trans; [exact (body_stable _ _ _ _ _ _ E)|eauto].
  - intros [= <-]. exact (body_stable _ _ _ _ _ _ E).
Qed.

Section Target.

Variable G : DiGraph.
Variable weight : string.
Variable cutoff : option R.
Variable source : node.
Variable t : node.
Hypothesis Hclosed : closed_graph G.
Hypothesis Hunit : unit_weights G weight.

(** The search that stops at the target ends in a state of which the search
    without target keeps the finalized nodes; it has finalized the target
    when the search without target finalizes it. *)
Lemma while_target fuel :
  forall st m,
    search_inv G weight cutoff source m st -> (measure G st < fuel)%nat ->
    exists stT mT stF mF,
      while G weight cutoff (Some t) fuel st = Ok stT /\
      while G weight cutoff None fuel st = Ok stF /\
      search_inv G weight cutoff source mT stT /\
      search_inv G weight cutoff source mF stF /\ fringe stF = [] /\
      stable stT stF /\
      (forall d, Dict.get (dist stF) t = Some d -> Dict.get (dist stT) t = Some d).
Proof.
  induction fuel as [|fuel IH]; intros st m I Hfuel; [lia|].
  pose proof (body_inv G weight cutoff source Hclosed Hunit m st I) as HbI.
  pose proof (body_measure G weight cutoff None st) as Hmu.
  cbn [while].
  destruct (heappop (fringe st)) as [[[[d k] v] fr]|] eqn:Hp.
  2:{ assert (E : forall tgt, body G weight cutoff tgt st = Ok (Break st)).
      { intros tgt. unfold body. now rewrite Hp. }
      rewrite !E. rewrite E in HbI. destruct HbI as [_ Hf].
      exists st, m, st, m.
      split; [reflexivity|]. split; [reflexivity|]. split; [exact I|].
      split; [exact I|]. split; [exact Hf|]. split; [apply stable_refl|auto]. }
  destruct (Dict.mem (dist st) v) eqn:Hm.
  { assert (E : forall tgt, body G weight cutoff tgt st
                = Ok (Continue (mkState (dist st) (seen st) (paths st) fr (c st)))).
    { intros tgt. unfold body. now rewrite Hp, Hm. }
    rewrite !E. rewrite E in HbI, Hmu. destruct HbI as [m' I'].
    apply (IH _ m'); auto. specialize (Hmu _ eq_refl). lia. }
  destruct (String.eqb v t) eqn:Evt.
  - apply String.eqb_eq in Evt. subst v.
    pose proof (finalize_inv G weight cutoff source m st d k t fr I Hp Hm) as I1.
    set (st1 := mkState (Dict.set (dist st) t d) (seen st) (paths st) fr (c st)) in *.
    assert (ET : body G weight cutoff (Some t) st = Ok (Break st1)).
    { unfold body. rewrite Hp, Hm. cbn [is_target]. now rewrite String.eqb_refl. }
    rewrite ET.
    destruct (body G weight cutoff None st) as [[st2|st2]|] eqn:EF; [| |destruct HbI].
    2:{ destruct HbI as [_ Hf]. rewrite Hf in Hp. discriminate. }
    destruct HbI as [m2 I2]. specialize (Hmu _ eq_refl).
    destruct (while_from_inv G weight cutoff source Hclosed Hunit fuel st2 m2 I2)
      as (stF & mF & HwF & IF & Hf & _); [lia|].
    assert (S12 : stable st1 st2).
    { revert EF. unfold body. rewrite Hp, Hm. cbn [is_target].
      destruct (getitem (_succ G) t) as [nbrs|]; cbn [bind]; [|discriminate].
      match goal with |- context [for_each ?l ?f ?s0] =>
        destruct (for_each l f s0) as [s2|] eqn:Hfe end; cbn [bind]; [|discriminate].
      intros [= <-]. eapply relax_all_stable; eauto. }
    assert (S1F : stable st1 stF).
    { eapply stable_trans; [exact S12|]. eapply while_stable; eauto. }
    exists st1, d, stF, mF.
    split; [reflexivity|]. split; [exact HwF|]. split; [exact I1|].
    split; [exact IF|]. split; [exact Hf|]. split; [exact S1F|].
    intros d' Hd'. destruct (S1F t d) as [HdF _].
    { unfold st1. proj_simpl. apply get_set_same. }
    assert (d' = d) by congruence. subst d'. unfold st1. proj_simpl. apply get_set_same.
  - assert (E : body G weight cutoff (Some t) st = body G weight cutoff None st).
    { unfold body. rewrite Hp, Hm. cbn [is_target]. now rewrite Evt. }
    rewrite E.
    destruct (body G weight cutoff None st) as [[st2|st2]|] eqn:EF; [| |destruct HbI].
    2:{ destruct HbI as [_ Hf]. rewrite Hf in Hp. discriminate. }
    destruct HbI as [m2 I2]. specialize (Hmu _ eq_refl).
    apply (IH _ m2); auto. lia.
Qed.

End Target.

(** X24.  The search with a target.  On a graph whose weights are
    probabilities, [dijkstra_prob_length] with a target returns; every node
    for which it returns a probability is returned with the same
    probability and the same path by the search without target, and the
    target is returned with its probability whenever the search without
    target returns it. *)
Theorem dijkstra_target G source weight cutoff t :
  closed_graph G -> unit_weights G weight ->
  Dict.mem (_succ G) source = true -> 0 <= cutoff <= 1 ->
  exists pathsT distT pathsF distF,
    dijkstra_prob_length G source weight cutoff (Some t) = Ok (pathsT, distT) /\
    dijkstra_prob_length G source weight cutoff None = Ok (pathsF, distF) /\
    (forall u x, Dict.get distT u = Some x ->
       Dict.get distF u = Some x /\ Dict.get pathsT u = Dict.get pathsF u) /\
    (forall x, Dict.get distF t = Some x -> Dict.get distT t = Some x).
Proof.
  intros Hc Hu Hs Hr.
  destruct (convert_cutoff_range cutoff Hr) as (D & HD & HD0).
  destruct (while_target G weight D source t Hc Hu (search_fuel G)
              (init_state source) 0)
    as (stT & mT & stF & mF & HwT & HwF & IT & IF & Hf & Hst & Ht).
  { now apply inv_init. }
  { unfold measure, search_fuel. proj_simpl. rewrite pending_edges_empty. simpl. lia. }
  exists (final_paths stT), (final_dist stT), (final_paths stF), (final_dist stF).
  unfold dijkstra_prob_length, dijkstra_search. rewrite HD. cbn [bind].
  rewrite HwT, HwF. cbn [bind]. split; auto. split; auto.
  assert (Hget : forall u d, Dict.get (dist stT) u = Some d ->
            Dict.get (final_paths stT) u = Dict.get (final_paths stF) u /\
            Dict.get (final_dist stT) u = Dict.get (final_dist stF) u).
  { intros u d Hd. destruct (Hst u d Hd) as [HdF HpF].
    assert (Hp : Dict.get (final_paths stT) u = Dict.get (final_paths stF) u).
    { rewrite (final_paths_get _ _ _ _ _ _ IT), (final_paths_get _ _ _ _ _ _ IF).
      now rewrite HpF. }
    split; auto. rewrite !final_dist_get. unfold Dict.mem. now rewrite Hp, Hd, HdF. }
  split.
  - intros u x Hx. pose proof Hx as Hx'. rewrite final_dist_get in Hx'.
    destruct (Dict.mem (final_paths stT) u); [|discriminate].
    destruct (Dict.get (dist stT) u) as [d|] eqn:Hd; [|discriminate].
    destruct (Hget u d Hd) as [Hp Hdd]. split; auto. now rewrite <- Hdd.
  - intros x Hx. pose proof Hx as Hx'.
    apply (final_dist_spec _ _ _ _ _ _ IF Hf) in Hx'.
    destruct Hx' as (_ & d & Hd & _). specialize (Ht d Hd).
    destruct (Hget t d Ht) as [_ Hdd]. now rewrite Hdd.
Qed.

Lemma dijkstra_target_witness :
  exists pathsT distT pathsF distF,
    dijkstra_prob_length graph_AB "A" "weight" 0.5 (Some "B") = Ok (pathsT, distT) /\
    dijkstra_prob_length graph_AB "A" "weight" 0.5 None = Ok (pathsF, distF) /\
    (forall u x, Dict.get distT u = Some x ->
       Dict.get distF u = Some x /\ Dict.get pathsT u = Dict.get pathsF u) /\
    (forall x, Dict.get distF "B" = Some x -> Dict.get distT "B" = Some x).
Proof.
  apply (dijkstra_target graph_AB "A" "weight" 0.5 "B").
  - exact graph_AB_closed.
  - exact graph_AB_unit.
  - reflexivity.
  - lra.
Defined.
